(** * dynofuzz / autoinf: rule mining and graph generation

    A shallow embedding of the rule-inference pipeline
    ([autoinf/inference/api_parsing.py], [symbl_int_solve.py],
    [strict_input_solve.py], [nnsmith_rules.py]), of the record finder
    ([autoinf/eval/count_collection.py]) and of the generators of
    [dynofuzz/graph_gen.py] as [dynofuzz/cli/model_gen.py] runs them, with
    the properties of the specification stated over it.

    Python exceptions are modelled by an error monad, dictionaries by
    [gmap], sets by duplicate-free lists in iteration order, bit masks by
    [Z] with [Z.land]/[Z.shiftl], and every source of nondeterminism (the
    validity oracle, the SMT solver, the wall clock, the random module) by
    an explicit parameter. *)

From stdpp Require Import base gmap list strings pretty.
From Stdlib Require Import ZArith Lia.

(* ===================================================================== *)
(** * Python values, exceptions and loops *)
(* ===================================================================== *)

Module Py.

(** The elements of an invocation tuple: [int] or [None]
    ([OpDatabase.validity_check] admits exactly these two). *)
Inductive pyval : Type :=
  | PInt (z : Z)
  | PNone.

#[global] Instance pyval_eq_dec : EqDecision pyval.
Proof. solve_decision. Defined.

(** The exceptions the modelled code can raise. *)
Inductive exn : Type :=
  | TypeError
  | IndexError
  | KeyError
  | Z3Exception
  | ConstraintError
  | InternalError
  | AssertionError
  | ValueError.

#[global] Instance exn_eq_dec : EqDecision exn.
Proof. solve_decision. Defined.

Inductive result (A : Type) : Type :=
  | Ok (a : A)
  | Raise (e : exn).

Arguments Ok {A} a.
Arguments Raise {A} e.

#[global] Instance result_ret : MRet result := fun A a => Ok a.

#[global] Instance result_bind : MBind result := fun A B f m =>
  match m with
  | Ok a => f a
  | Raise e => Raise e
  end.

(** [l[i]] for a non-negative index. *)
Definition index {A} (l : list A) (i : nat) : result A :=
  match l !! i with
  | Some x => Ok x
  | None => Raise IndexError
  end.

(** [d[k]] on a dictionary. *)
Definition getitem (d : gmap string pyval) (k : string) : result pyval :=
  match d !! k with
  | Some v => Ok v
  | None => Raise KeyError
  end.

(** [dict.get(k)]: [None] when the key is absent. *)
Definition dict_get (d : gmap string pyval) (k : string) : pyval :=
  default PNone (d !! k).

Definition isinstance_int (v : pyval) : bool :=
  match v with
  | PInt _ => true
  | PNone => false
  end.

(** [v + delta] with an integer [delta]. *)
Definition add_int (v : pyval) (delta : Z) : result pyval :=
  match v with
  | PInt z => Ok (PInt (z + delta))
  | PNone => Raise TypeError
  end.

(** [v <= 0] and [v >= 0]: ordering [None] against an [int] raises. *)
Definition le_zero (v : pyval) : result bool :=
  match v with
  | PInt z => Ok (z <=? 0)%Z
  | PNone => Raise TypeError
  end.

Definition ge_zero (v : pyval) : result bool :=
  match v with
  | PInt z => Ok (0 <=? z)%Z
  | PNone => Raise TypeError
  end.

(** [range(a, b)]. *)
Definition range (a b : nat) : list nat := seq a (b - a).

(** A list comprehension [[f(x) for x in l]] whose body may raise. *)
Fixpoint mapM {A B} (f : A -> result B) (l : list A) : result (list B) :=
  match l with
  | [] => Ok []
  | x :: l' => y ← f x; ys ← mapM f l'; Ok (y :: ys)
  end.

(** The integer held by a value; arithmetic on [None] raises. *)
Definition as_int (v : pyval) : result Z :=
  match v with
  | PInt z => Ok z
  | PNone => Raise TypeError
  end.

(** A [for] loop over [xs] that threads the state [s] and stops at the
    first exception. *)
Fixpoint forM {A S} (xs : list A) (body : A -> S -> result S) (s : S)
  : result S :=
  match xs with
  | [] => Ok s
  | x :: xs' => s' ← body x s; forM xs' body s'
  end.

(** [f"{name}{i}"], the key of symbol [i] in namespace [name]. *)
Definition sym (name : string) (i : nat) : string := name +:+ pretty i.

(** [set.add]: sets are kept as duplicate-free lists. *)
Definition set_add {A} `{EqDecision A} (x : A) (l : list A) : list A :=
  if decide (x ∈ l) then l else l ++ [x].

(** [mask & (1 << i) != 0]. *)
Definition bit_set (mask : Z) (i : nat) : bool :=
  negb (Z.land mask (Z.shiftl 1 (Z.of_nat i)) =? 0)%Z.

End Py.

Import Py.

(* ===================================================================== *)
(** * Operator instances ([autoinf/instrument/op.py]) *)
(* ===================================================================== *)

Module Instrument.

Record AbsTensor : Type := mkAbsTensor {
  rank : nat;
  shape : list string;
  dtype : string
}.

Record OpInstance : Type := mkOpInstance {
  name : string;
  name_index : string;
  input_tensors : list AbsTensor;
  output_tensors : list AbsTensor;
  input_symb_2_value : gmap string pyval;
  output_symb_2_value : gmap string pyval
}.

(** [OpInstance.I]: the symbols of the input tensors' shapes, in order. *)
Definition I (inst : OpInstance) : list string :=
  concat (map shape (input_tensors inst)).

(** [OpInstance.A]: the input symbols that are no dimension of an input
    tensor (the order of the dictionary's keys is not modelled). *)
Definition A (inst : OpInstance) : list string :=
  filter (fun n => n ∉ I inst) (map fst (map_to_list (input_symb_2_value inst))).

(** [AbsTensor.concrete_shape]: [[symb_2_value[s] for s in self.shape]]. *)
Definition concrete_shape (symb_2_value : gmap string pyval) (t : AbsTensor)
  : result (list pyval) :=
  mapM (getitem symb_2_value) (shape t).

End Instrument.

(* ===================================================================== *)
(** * Invocation database and mutator ([api_parsing.py]) *)
(* ===================================================================== *)

Module ApiParsing.

Import Instrument.

(** The input and output tuples of an invocation. *)
Abbreviation inputs_t := (list pyval) (only parsing).
Abbreviation outputs_t := (list pyval) (only parsing).

Record OpDatabase : Type := mkOpDatabase {
  DB_success : list (inputs_t * outputs_t);
  DB_fail : list inputs_t;
  related : list (gset nat);
  unrelated : list (gset nat);
  aliases : list (nat * nat)
}.

(** [OpDatabase(DB_Name)] once the pickled sets are read. *)
Definition OpDatabase_init (succ : list (inputs_t * outputs_t))
    (fl : list inputs_t) : OpDatabase :=
  mkOpDatabase succ fl [] [] [].

Definition Add (db : OpDatabase) (inputs : inputs_t)
    (outputs : option outputs_t) : OpDatabase :=
  match outputs with
  | None =>
      mkOpDatabase (DB_success db) (set_add inputs (DB_fail db))
        (related db) (unrelated db) (aliases db)
  | Some outs =>
      mkOpDatabase (set_add (inputs, outs) (DB_success db)) (DB_fail db)
        (related db) (unrelated db) (aliases db)
  end.

Definition check_duplicate_sym (db : OpDatabase) (sym_set : Z) : bool :=
  existsb (fun '(i, j) => bit_set sym_set i && bit_set sym_set j) (aliases db).

Definition InvocationCount_success (db : OpDatabase) : nat :=
  length (DB_success db).

(** The inner loop of the alias test: [inputs[i] != inputs[j]] on every
    record, leaving at the first difference. *)
Fixpoint alias_valid (record_list : list (inputs_t * outputs_t)) (i j : nat)
  : result bool :=
  match record_list with
  | [] => Ok true
  | (inputs, _) :: rest =>
      a ← index inputs i;
      b ← index inputs j;
      if decide (a = b) then alias_valid rest i j else Ok false
  end.

Definition alias_loop (record_list : list (inputs_t * outputs_t))
    (input_len : nat) (al : list (nat * nat)) : result (list (nat * nat)) :=
  forM (range 0 (input_len - 1)) (fun i al =>
    forM (range (i + 1) input_len) (fun j al =>
      valid ← alias_valid record_list i j;
      Ok (if valid : bool then al ++ [(i, j)] else al)) al) al.

(** [sets[k].add(x)]. *)
Definition set_add_at (sets : list (gset nat)) (k x : nat)
  : result (list (gset nat)) :=
  match sets !! k with
  | Some s => Ok (<[k := {[x]} ∪ s]> sets)
  | None => Raise IndexError
  end.

(** Modelled from the spec: [compare_array_diff] of [autoinf.inference.utils]
    is not under src/; it yields the input indices at which two records
    differ (the positions counted by their Hamming distance). *)
Fixpoint compare_array_diff_from (k : nat) (a b : list pyval) : list nat :=
  match a, b with
  | x :: a', y :: b' =>
      (if decide (x = y) then [] else [k]) ++ compare_array_diff_from (S k) a' b'
  | _, _ => []
  end.

Definition compare_array_diff (a b : list pyval) : list nat :=
  compare_array_diff_from 0 a b.

(** The loop marking non-integer input positions as unrelated. *)
Definition nonint_loop (record_list : list (inputs_t * outputs_t))
    (unrel : list (gset nat)) : result (list (gset nat)) :=
  forM record_list (fun '(inputs, outputs) unrel =>
    forM (range 0 (length inputs)) (fun j unrel =>
      v ← index inputs j;
      if isinstance_int v then Ok unrel
      else forM (range 0 (length outputs)) (fun k unrel => set_add_at unrel k j)
             unrel) unrel) unrel.

(** The body of the pairwise loop for records [ri] and [rj]. *)
Definition pair_body (ri rj : inputs_t * outputs_t)
    (ru : list (gset nat) * list (gset nat))
  : result (list (gset nat) * list (gset nat)) :=
  let diff := compare_array_diff ri.1 rj.1 in
  let cmp_len := min (length ri.2) (length rj.2) in
  rel ←
    (if (0 <? length diff) && (length diff <=? 3) then
       forM (range 0 cmp_len) (fun k rel =>
         a ← index ri.2 k;
         b ← index rj.2 k;
         if decide (a = b) then Ok rel
         else forM diff (fun argnum rel => set_add_at rel k argnum) rel) ru.1
     else Ok ru.1);
  unrel ←
    (if length diff =? 1 then
       forM (range 0 cmp_len) (fun k unrel =>
         a ← index ri.2 k;
         b ← index rj.2 k;
         if decide (a = b) then
           d0 ← index diff 0;
           set_add_at unrel k d0
         else Ok unrel) ru.2
     else Ok ru.2);
  Ok (rel, unrel).

Definition pair_loop (record_list : list (inputs_t * outputs_t))
    (ru : list (gset nat) * list (gset nat))
  : result (list (gset nat) * list (gset nat)) :=
  let record_count := length record_list in
  forM (range 0 record_count) (fun i ru =>
    forM (range (i + 1) record_count) (fun j ru =>
      ri ← index record_list i;
      rj ← index record_list j;
      pair_body ri rj ru) ru) ru.

Definition analyze_symbol (db : OpDatabase) : result OpDatabase :=
  let record_list := DB_success db in
  r0 ← index record_list 0;
  let input_len := length r0.1 in
  let output_len := foldr max 0 (map (fun item => length item.2) record_list) in
  al ← alias_loop record_list input_len (aliases db);
  let rel := related db ++ replicate output_len ∅ in
  let unrel := unrelated db ++ replicate output_len ∅ in
  unrel ← nonint_loop record_list unrel;
  ru ← pair_loop record_list (rel, unrel);
  Ok (mkOpDatabase (DB_success db) (DB_fail db) ru.1 ru.2 al).

(** ** The mutator *)

Section Mutate.

(** The validity oracle [input_validity_test] of
    [autoinf.inference.invocations]: it runs the operator under the given
    assignment and reports the input tuple and, on success, the output
    tuple. *)
Variable input_validity_test :
  OpInstance -> gmap string pyval -> inputs_t * option outputs_t.

(** The database under construction together with the assignments the
    oracle has been called with, oldest first. *)
Record MState : Type := mkMState {
  st_db : OpDatabase;
  st_calls : list (gmap string pyval)
}.

(** [not (outputs != None and len(outputs) != output_len)]. *)
Definition arity_ok (outputs : option outputs_t) (output_len : nat) : bool :=
  match outputs with
  | None => true
  | Some outs => length outs =? output_len
  end.

Definition record_probe (inst : OpInstance) (input_dict : gmap string pyval)
    (output_len : nat) (st : MState) : MState :=
  let '(inputs, outputs) := input_validity_test inst input_dict in
  mkMState
    (if arity_ok outputs output_len then Add (st_db st) inputs outputs
     else st_db st)
    (st_calls st ++ [input_dict]).

Definition add_new_input (inst : OpInstance) (input_dict : gmap string pyval)
    (output_len : nat) (st : MState) : MState :=
  record_probe inst input_dict output_len st.

(** [mutateTarget]: adds [delta] to every symbol selected by [mutateMask],
    then calls the oracle; the result is the perturbed assignment. *)
Definition mutateTarget_dict (input_symb_2_value : gmap string pyval)
    (mutateMask : Z) (delta : Z) : result (gmap string pyval) :=
  forM (range 0 (size input_symb_2_value)) (fun argNum d =>
    if bit_set mutateMask argNum then
      v ← getitem d (sym "s" argNum);
      v' ← add_int v delta;
      Ok (<[sym "s" argNum := v']> d)
    else Ok d) input_symb_2_value.

Definition mutateTarget_add (inst : OpInstance) (record0 : gmap string pyval)
    (mutateMask delta : Z) (output_len : nat) (st : MState) : result MState :=
  d ← mutateTarget_dict record0 mutateMask delta;
  Ok (record_probe inst d output_len st).

(** Step 1: one-symbol probes [0] and [-2] for attribute symbols. *)
Definition mutate_single (inst : OpInstance) (record0 : gmap string pyval)
    (output_len : nat) (i : nat) (st : MState) : result MState :=
  if decide (sym "s" i ∈ I inst) then Ok st
  else
    let input_dict := record0 in
    let input_dict := <[sym "s" i := PInt 0]> input_dict in
    let st := add_new_input inst input_dict output_len st in
    let input_dict := <[sym "s" i := PInt (-2)]> input_dict in
    Ok (add_new_input inst input_dict output_len st).

(** Step 2: the body of the loop over pairs [i < j]. *)
Definition mutate_pair (inst : OpInstance) (record0 : gmap string pyval)
    (output_len : nat) (i j : nat) (st : MState) : result MState :=
  let input_dict := record0 in
  vi ← getitem input_dict (sym "s" i);
  vj ← getitem input_dict (sym "s" j);
  '(input_dict, st) ←
    (if decide (vi = vj) then
       vj' ← add_int vj 1;
       let input_dict := <[sym "s" j := vj']> input_dict in
       Ok (input_dict, add_new_input inst input_dict output_len st)
     else Ok (input_dict, st));
  (* the right-hand side of the swap is read first, then both are stored *)
  a ← getitem input_dict (sym "s" j);
  b ← getitem input_dict (sym "s" i);
  let input_dict := <[sym "s" j := b]> (<[sym "s" i := a]> input_dict) in
  Ok (add_new_input inst input_dict output_len st).

Definition mutate (inst : OpInstance)
    (record : gmap string pyval * gmap string pyval) (st : MState)
  : result MState :=
  let mutateCount := size record.1 in
  let output_len := size record.2 in
  st ← forM (range 0 mutateCount) (mutate_single inst record.1 output_len) st;
  st ← forM (range 0 mutateCount) (fun i st =>
          forM (range (i + 1) mutateCount)
            (fun j st => mutate_pair inst record.1 output_len i j st) st) st;
  st ← (if mutateCount <=? 8 then
          forM (range 1 (2 ^ mutateCount)) (fun mutateMask st =>
            mutateTarget_add inst record.1 (Z.of_nat mutateMask) 2 output_len st)
            st
        else Ok st);
  st ← (if mutateCount <=? 100 then
          forM (range 0 mutateCount) (fun mutateID st =>
            forM (range 1 4) (fun delta st =>
              mutateTarget_add inst record.1 (Z.shiftl 1 (Z.of_nat mutateID))
                (Z.of_nat delta) output_len st) st) st
        else Ok st);
  (if mutateCount <=? 50 then
     forM (range 0 mutateCount) (fun id1 st =>
       forM (range (id1 + 1) mutateCount) (fun id2 st =>
         forM (range 1 3) (fun delta st =>
           mutateTarget_add inst record.1
             (Z.lor (Z.shiftl 1 (Z.of_nat id1)) (Z.shiftl 1 (Z.of_nat id2)))
             (Z.of_nat delta) output_len st) st) st) st
   else Ok st).

End Mutate.

(** ** Validity and the mutation driver *)

(** The loop of [validity_check]: the type tests of the source hold for
    every value of [pyval] and every tuple, so what is left is the test
    that all success entries have the input length of the first one. *)
Fixpoint validity_loop (entries : list (inputs_t * outputs_t))
    (opin_len : option nat) : bool :=
  match entries with
  | [] => true
  | entry :: rest =>
      match opin_len with
      | None => validity_loop rest (Some (length entry.1))
      | Some n =>
          if length entry.1 =? n then validity_loop rest opin_len else false
      end
  end.

Definition validity_check (db : OpDatabase) : bool :=
  validity_loop (DB_success db) None.

Section Generate.

Variable input_validity_test :
  OpInstance -> gmap string pyval -> inputs_t * option outputs_t.

(** [enableMutation] and [skipMutationAPI] of the configuration. *)
Variable enableMutation : bool.
Variable skipMutationAPI : list string.

(** The second loop of [generate_inst_invocations]: the records are
    mutated one after the other, except for skip-listed operators and once
    a mutated database holds 100 successes. *)
Definition mutation_loop (inst : OpInstance)
    (records : list (gmap string pyval * gmap string pyval))
    (st : MState * bool) : result (MState * bool) :=
  forM records (fun record '(st, mutated) =>
    if enableMutation then
      if decide (name inst ∈ skipMutationAPI) then Ok (st, mutated)
      else if mutated && (100 <=? InvocationCount_success (st_db st))
      then Ok (st, mutated)
      else
        st' ← mutate input_validity_test inst record st;
        Ok (st', true)
    else Ok (st, mutated)) st.

End Generate.

(** ** Properties *)

(** Positions [p.1] and [p.2] hold equal values in every record. *)
Definition alias_pair (record_list : list (inputs_t * outputs_t))
    (p : nat * nat) : Prop :=
  forall r, r ∈ record_list -> r.1 !! p.1 = r.1 !! p.2.

(** [x] is in the set at index [k]. *)
Definition has (sets : list (gset nat)) (k x : nat) : Prop :=
  exists s, sets !! k = Some s /\ x ∈ s.

(** From [st] to [st'] the call log was extended by [new], nothing was
    removed from the database, and every entry that was added is the
    oracle's answer to one of the new calls, a success having an output
    arity accepted by [arity]. The analysis fields are untouched. *)
Definition grown_by_probes
    (input_validity_test :
       OpInstance -> gmap string pyval -> inputs_t * option outputs_t)
    (inst : OpInstance) (arity : nat -> Prop) (st st' : MState) : Prop :=
  exists new : list (gmap string pyval),
    st_calls st' = st_calls st ++ new /\
    (forall r, r ∈ DB_success (st_db st) -> r ∈ DB_success (st_db st')) /\
    (forall i, i ∈ DB_fail (st_db st) -> i ∈ DB_fail (st_db st')) /\
    (forall r, r ∈ DB_success (st_db st') ->
       r ∈ DB_success (st_db st) \/
       (arity (length r.2) /\
        exists d, d ∈ new /\ input_validity_test inst d = (r.1, Some r.2))) /\
    (forall i, i ∈ DB_fail (st_db st') ->
       i ∈ DB_fail (st_db st) \/
       exists d, d ∈ new /\ input_validity_test inst d = (i, None)) /\
    related (st_db st') = related (st_db st) /\
    unrelated (st_db st') = unrelated (st_db st) /\
    aliases (st_db st') = aliases (st_db st).

(** The assignments probed by the one-symbol step for [s_i] of a record
    with input assignment [d]: none for a shape symbol, otherwise [s_i = 0]
    and [s_i = -2], all other symbols as in the record. *)
Definition single_probes (inst : OpInstance) (d : gmap string pyval)
    (i : nat) : list (gmap string pyval) :=
  if decide (sym "s" i ∈ I inst) then []
  else [ <[sym "s" i := PInt 0]> d; <[sym "s" i := PInt (-2)]> d ].

(** The assignments the pairwise step is specified to probe for [s_i] and
    [s_j] of a record with input assignment [d], all other symbols as in
    the record. Equal values [v]: first [s_j = v + 1], then the swap probe
    with [s_i = v + 1] and [s_j = v]. Different values [a] and [b]: the
    swap probe alone, with [s_i = b] and [s_j = a]. *)
Definition pair_probes (d : gmap string pyval) (i j : nat)
  : list (gmap string pyval) :=
  match d !! sym "s" i, d !! sym "s" j with
  | Some (PInt a), Some (PInt b) =>
      if decide (a = b)
      then [ <[sym "s" j := PInt (a + 1)]> d;
             <[sym "s" i := PInt (a + 1)]> (<[sym "s" j := PInt a]> d) ]
      else [ <[sym "s" i := PInt b]> (<[sym "s" j := PInt a]> d) ]
  | _, _ => []
  end.

End ApiParsing.

(* ===================================================================== *)
(** * Configuration and bit-mask helpers *)
(* ===================================================================== *)

Module Configs.

(** [configs.py]. *)
Definition TreeMaxHeight : nat := 5.
Definition TreeArgCount : nat := 5.

End Configs.

Module Utils.

Fixpoint popcount_pos (p : positive) : nat :=
  match p with
  | xH => 1
  | xO q => popcount_pos q
  | xI q => S (popcount_pos q)
  end.

(** Modelled from the spec: [popcount] of [autoinf.inference.utils] is not
    under src/; it counts the argument indices present in a bit mask. *)
Definition popcount (mask : Z) : nat :=
  match mask with
  | Zpos p => popcount_pos p
  | _ => 0
  end.

Fixpoint mask_to_list_pos (p : positive) (k : nat) : list nat :=
  match p with
  | xH => [k]
  | xO q => mask_to_list_pos q (S k)
  | xI q => k :: mask_to_list_pos q (S k)
  end.

(** Modelled from the spec: [mask_to_list] of [autoinf.inference.utils] is
    not under src/; it lists the symbol indices of a bit mask in increasing
    order, the order in which the tree's slots [s0, s1, ...] are bound. *)
Definition mask_to_list (mask : Z) : list nat :=
  match mask with
  | Zpos p => mask_to_list_pos p 0
  | _ => []
  end.

(** [res |= 1 << symlist[i]] over the chosen symbols. *)
Definition mask_of (symlist : list nat) : Z :=
  fold_left (fun res s => Z.lor res (Z.shiftl 1 (Z.of_nat s))) symlist 0%Z.

(** [dfs(cur, count, lim, symlist)] with [remaining = count - cur]: the
    masks of the increasing sequences that extend [symlist] by [remaining]
    indices below [lim], in the order they are appended to [tmp_store]. *)
Fixpoint dfs (remaining lim : nat) (symlist : list nat) : list Z :=
  match remaining with
  | 0 => [mask_of symlist]
  | S r =>
      let st := match last symlist with
                | None => 0
                | Some x => x + 1
                end in
      flat_map (fun nxt => dfs r lim (symlist ++ [nxt])) (range st lim)
  end.

(** ** Properties *)

(** [l] is strictly increasing and starts at [st] or above. *)
Fixpoint increasing (st : nat) (l : list nat) : Prop :=
  match l with
  | [] => True
  | x :: l' => st <= x /\ increasing (S x) l'
  end.

End Utils.

(* ===================================================================== *)
(** * Arithmetic expression trees *)
(* ===================================================================== *)

Module Tree.

Inductive ArithOp : Type := OpAdd | OpSub | OpMul.

#[global] Instance ArithOp_eq_dec : EqDecision ArithOp.
Proof. solve_decision. Defined.

(** Modelled from the spec: [ArithExpTree] of [autoinf.inference.tree] is
    not under src/. A tree is a literal, an argument slot [s_i], or a binary
    operator node; the tree database of the constraint synthesiser is built
    without division. *)
Inductive ArithExpTree : Type :=
  | Lit (c : Z)
  | Arg (i : nat)
  | Node (op : ArithOp) (l r : ArithExpTree).

#[global] Instance ArithExpTree_eq_dec : EqDecision ArithExpTree.
Proof. solve_decision. Defined.

(** [tree.op]: [None] on a leaf. *)
Definition tree_op (t : ArithExpTree) : option ArithOp :=
  match t with
  | Node op _ _ => Some op
  | _ => None
  end.

Definition arith (op : ArithOp) (a b : Z) : Z :=
  match op with
  | OpAdd => a + b
  | OpSub => a - b
  | OpMul => a * b
  end%Z.

Definition py_arith (op : ArithOp) (a b : pyval) : result pyval :=
  match a, b with
  | PInt x, PInt y => Ok (PInt (arith op x y))
  | _, _ => Raise TypeError
  end.

(** Modelled from the spec: [tree.evaluate(val)] evaluates the tree on the
    vector [val] of slot values. *)
Fixpoint evaluate (t : ArithExpTree) (val : list pyval) : result pyval :=
  match t with
  | Lit c => Ok (PInt c)
  | Arg i => index val i
  | Node op l r =>
      a ← evaluate l val;
      b ← evaluate r val;
      py_arith op a b
  end.

(** The expression as a term over z3 integers, under an assignment of the
    symbols [s0, s1, ...]. *)
Fixpoint zeval (t : ArithExpTree) (env : nat -> Z) : Z :=
  match t with
  | Lit c => c
  | Arg i => env i
  | Node op l r => arith op (zeval l env) (zeval r env)
  end.

(** [remap(tree.display(), index)]: slot [s_i] is renamed to the symbol
    [s_{index[i]}]; a slot outside [index] keeps its name. *)
Fixpoint remap (t : ArithExpTree) (index : list nat) : ArithExpTree :=
  match t with
  | Lit c => Lit c
  | Arg i => Arg (default i (index !! i))
  | Node op l r => Node op (remap l index) (remap r index)
  end.

End Tree.

(* ===================================================================== *)
(** * Shape-rule synthesiser ([symbl_int_solve.py]) *)
(* ===================================================================== *)

Module SymblIntSolve.

Import ApiParsing Utils.

Definition gen_sym_set (mask : Z) (count : nat) : list Z :=
  if count =? 0 then [0%Z] else dfs count (popcount mask) [].

(** An entry of [valid_tree_set[o_id]]: a tree with its symbol subset, or
    the pair [(input_len, input_len)] of the rank fallback. *)
Inductive ShapeRule (Tree : Type) : Type :=
  | TreeRule (tree : Tree) (sym_set : Z)
  | RankRule (n : nat).

Arguments TreeRule {Tree} tree sym_set.
Arguments RankRule {Tree} n.

Record RuleInfo (Tree : Type) : Type := mkRuleInfo {
  output_rank : nat;
  invocation_count : nat;
  output_rules : list (list (ShapeRule Tree));
  tree_tried : nat
}.

Arguments mkRuleInfo {Tree}.
Arguments output_rank {Tree}.
Arguments invocation_count {Tree}.
Arguments output_rules {Tree}.
Arguments tree_tried {Tree}.

(** The slot values of a record and the [haszero] flag. *)
Fixpoint gather (inputs : inputs_t) (sym_list : list nat)
  : result (list pyval * bool) :=
  match sym_list with
  | [] => Ok ([], false)
  | argNum :: rest =>
      v ← index inputs argNum;
      z ← le_zero v;
      '(val, haszero) ← gather inputs rest;
      Ok (v :: val, z || haszero)
  end.

Section Solve.

(** The tree module is not under src/: the synthesiser only enumerates the
    tree database and evaluates its trees. *)
Variable Tree : Type.
Variable evaluate : Tree -> list pyval -> result pyval.
Variable genTreeList : nat -> nat -> list (nat * Z * nat).
Variable getTree : nat -> Z -> nat -> Tree.

(** [cfg_zerofilter] of the configuration. *)
Variable cfg_zerofilter : bool.

(** [time.time() - start_time > timeout], as a function of the number of
    trees tried so far. *)
Variable timed_out : nat -> bool.

(** The loop over the records for one tree, one output and one subset: the
    result is [(valid, at_least_one_record)]. *)
Fixpoint check_records (tree : Tree) (sym_list : list nat) (o_id : nat)
    (record_list : list (inputs_t * outputs_t)) (at_least_one_record : bool)
  : result (bool * bool) :=
  match record_list with
  | [] => Ok (true, at_least_one_record)
  | (inputs, outputs) :: rest =>
      match outputs !! o_id with
      | None => check_records tree sym_list o_id rest at_least_one_record
      | Some expectedVal =>
          '(val, haszero) ← gather inputs sym_list;
          if negb cfg_zerofilter || negb haszero then
            v ← evaluate tree val;
            if decide (v = expectedVal)
            then check_records tree sym_list o_id rest true
            else Ok (false, true)
          else check_records tree sym_list o_id rest at_least_one_record
      end
  end.

Definition try_sym_set (db : OpDatabase) (tree : Tree) (o_id : nat)
    (sym_set : Z) (vts : list (list (ShapeRule Tree)))
  : result (list (list (ShapeRule Tree))) :=
  if check_duplicate_sym db sym_set then Ok vts
  else
    '(valid, at_least_one_record) ←
      check_records tree (mask_to_list sym_set) o_id (DB_success db) false;
    if valid && at_least_one_record then
      rules ← index vts o_id;
      Ok (<[o_id := rules ++ [TreeRule tree sym_set]]> vts)
    else Ok vts.

Definition try_output (db : OpDatabase) (input_len : nat) (tree : Tree)
    (sym_count : nat) (o_id : nat)
    (st : list (list (ShapeRule Tree)) * bool)
  : result (list (list (ShapeRule Tree)) * bool) :=
  rules ← index st.1 o_id;
  if 1 <=? length rules then Ok st
  else
    vts ← forM (gen_sym_set (Z.shiftl 1 (Z.of_nat input_len) - 1) sym_count)
             (try_sym_set db tree o_id) st.1;
    Ok (vts, true).

Fixpoint tree_loop (db : OpDatabase) (input_len output_len : nat)
    (trees : list (nat * Z * nat)) (tree_tried : nat)
    (vts : list (list (ShapeRule Tree)))
  : result (list (list (ShapeRule Tree)) * nat) :=
  match trees with
  | [] => Ok (vts, tree_tried)
  | (depth, ArgSet, i) :: rest =>
      let tree_tried := S tree_tried in
      let tree := getTree depth ArgSet i in
      '(vts, happen) ←
        forM (range 0 output_len)
          (try_output db input_len tree (popcount ArgSet)) (vts, false);
      if negb happen then Ok (vts, tree_tried)
      else if timed_out tree_tried then Ok (vts, tree_tried)
      else tree_loop db input_len output_len rest tree_tried vts
  end.

(** The rank test: [record_list[record_id][1][o_id] != input_len] on every
    record that has an output [o_id]. *)
Fixpoint rank_valid (record_list : list (inputs_t * outputs_t))
    (o_id input_len : nat) : bool :=
  match record_list with
  | [] => true
  | (_, outputs) :: rest =>
      match outputs !! o_id with
      | None => rank_valid rest o_id input_len
      | Some v =>
          if decide (v = PInt (Z.of_nat input_len))
          then rank_valid rest o_id input_len
          else false
      end
  end.

Definition rank_fallback (record_list : list (inputs_t * outputs_t))
    (input_len : nat) (o_id : nat) (vts : list (list (ShapeRule Tree)))
  : result (list (list (ShapeRule Tree))) :=
  rules ← index vts o_id;
  if 1 <=? length rules then Ok vts
  else if rank_valid record_list o_id input_len
       then Ok (<[o_id := rules ++ [RankRule input_len]]> vts)
       else Ok vts.

Definition solve_inst (db : OpDatabase) : result (RuleInfo Tree) :=
  let record_list := DB_success db in
  let record_count := length record_list in
  r0 ← index record_list 0;
  let input_len := length r0.1 in
  let output_len := length (unrelated db) in
  let valid_tree_set := replicate output_len [] in
  '(valid_tree_set, tried) ←
    tree_loop db input_len output_len
      (genTreeList Configs.TreeMaxHeight (min input_len Configs.TreeArgCount))
      0 valid_tree_set;
  valid_tree_set ←
    forM (range 0 output_len) (rank_fallback record_list input_len)
      valid_tree_set;
  Ok (mkRuleInfo output_len record_count valid_tree_set tried).

(** ** Properties *)

(** What an admitted rule for output [o_id] guarantees on a record that
    has this output: the slot values of the record can be read, and unless
    the zero filter skips the record the tree evaluates to the recorded
    value; the rank fallback is the recorded value itself. *)
Definition rule_predicts (rule : ShapeRule Tree) (o_id : nat)
    (record : inputs_t * outputs_t) : Prop :=
  forall expected, record.2 !! o_id = Some expected ->
    match rule with
    | TreeRule tree sym_set =>
        exists val haszero,
          gather record.1 (mask_to_list sym_set) = Ok (val, haszero) /\
          (cfg_zerofilter && haszero = false ->
           evaluate tree val = Ok expected)
    | RankRule n => expected = PInt (Z.of_nat n)
    end.

Definition rules_predict (record_list : list (inputs_t * outputs_t))
    (vts : list (list (ShapeRule Tree))) : Prop :=
  forall o_id rules rule record,
    vts !! o_id = Some rules -> rule ∈ rules -> record ∈ record_list ->
    rule_predicts rule o_id record.

(** Every rule of the list pairs [tree] with one of the enumerated symbol
    subsets of [sym_count] inputs, none of which holds an alias pair. *)
Definition rules_of_tree (db : OpDatabase) (input_len : nat) (tree : Tree)
    (sym_count : nat) (rules : list (ShapeRule Tree)) : Prop :=
  forall rule, rule ∈ rules ->
    exists sym_set,
      rule = TreeRule tree sym_set /\
      sym_set ∈ gen_sym_set (Z.shiftl 1 (Z.of_nat input_len) - 1) sym_count /\
      check_duplicate_sym db sym_set = false.

(** The shapes a rule list of one output can have: empty, the rank
    fallback alone, or rules that all stem from one tree of the
    enumeration. *)
Definition rule_list_shape (db : OpDatabase) (input_len : nat)
    (trees : list (nat * Z * nat)) (rules : list (ShapeRule Tree)) : Prop :=
  rules = [] \/
  rules = [RankRule input_len] \/
  exists depth ArgSet i,
    (depth, ArgSet, i) ∈ trees /\
    rules_of_tree db input_len (getTree depth ArgSet i) (popcount ArgSet) rules.

End Solve.

End SymblIntSolve.

(* ===================================================================== *)
(** * Constraint-rule synthesiser ([strict_input_solve.py]) *)
(* ===================================================================== *)

Module StrictInputSolve.

Import ApiParsing Utils Tree.

(** The relation of a rule: ["=="], [">"] or [">="]. *)
Inductive Sign : Type := SEq | SGt | SGe.

#[global] Instance Sign_eq_dec : EqDecision Sign.
Proof. solve_decision. Defined.

(** An entry [(e, rule, sign)] of [RuleDatabase.ruleset]: the expression of
    the rule string over the symbols [s0, s1, ...] and its relation; the z3
    formula [e] is determined by the two. *)
Record Rule : Type := mkRule {
  rule_expr : ArithExpTree;
  rule_sign : Sign
}.

#[global] Instance Rule_eq_dec : EqDecision Rule.
Proof. solve_decision. Defined.

(** The z3 formulas built by [RuleDatabase.Add]. *)
Inductive formula : Type :=
  | FTrue
  | FAtom (r : Rule)
  | FAnd (a b : formula).

(** [expr = True; for rule in ruleset: expr = z3.And(expr, rule)]. *)
Definition conj (rs : list Rule) : formula :=
  fold_left (fun expr r => FAnd expr (FAtom r)) rs FTrue.

Definition sign_holds (s : Sign) (v : Z) : Prop :=
  match s with
  | SEq => v = 0
  | SGt => 0 < v
  | SGe => 0 <= v
  end%Z.

Definition rule_holds (r : Rule) (env : nat -> Z) : Prop :=
  sign_holds (rule_sign r) (zeval (rule_expr r) env).

(** Truth of a formula under an integer assignment of the symbols. *)
Fixpoint holds (f : formula) (env : nat -> Z) : Prop :=
  match f with
  | FTrue => True
  | FAtom r => rule_holds r env
  | FAnd a b => holds a env /\ holds b env
  end.

(** [ruleset.remove(del_item)]: the first equal entry is removed. *)
Fixpoint list_remove (x : Rule) (l : list Rule) : list Rule :=
  match l with
  | [] => []
  | y :: l' => if decide (y = x) then l' else y :: list_remove x l'
  end.

(** [tree.evaluate(val) sign 0] in Python. *)
Definition compare_zero (sign : Sign) (v : pyval) : result bool :=
  match sign, v with
  | SEq, PInt z => Ok (z =? 0)%Z
  | SEq, PNone => Ok false
  | SGt, PInt z => Ok (0 <? z)%Z
  | SGe, PInt z => Ok (0 <=? z)%Z
  | _, PNone => Raise TypeError
  end.

(** [val = [inputs[argNum] for argNum in sym_list]]. *)
Fixpoint select (inputs : inputs_t) (sym_list : list nat)
  : result (list pyval) :=
  match sym_list with
  | [] => Ok []
  | argNum :: rest =>
      v ← index inputs argNum;
      val ← select inputs rest;
      Ok (v :: val)
  end.

Definition eval_record (tree : ArithExpTree) (sign : Sign)
    (sym_list : list nat) (inputs : inputs_t) : result bool :=
  val ← select inputs sym_list;
  v ← evaluate tree val;
  compare_zero sign v.

(** First loop of [inspect_all_records]: every valid record satisfies the
    relation. *)
Fixpoint all_hold (valid_list : list inputs_t) (sym_list : list nat)
    (tree : ArithExpTree) (sign : Sign) : result bool :=
  match valid_list with
  | [] => Ok true
  | inputs :: rest =>
      res ← eval_record tree sign sym_list inputs;
      if res : bool then all_hold rest sym_list tree sign else Ok false
  end.

(** Second loop: some invalid record violates the relation. *)
Fixpoint some_fails (invalid_list : list inputs_t) (sym_list : list nat)
    (tree : ArithExpTree) (sign : Sign) : result bool :=
  match invalid_list with
  | [] => Ok false
  | inputs :: rest =>
      res ← eval_record tree sign sym_list inputs;
      if res : bool then some_fails rest sym_list tree sign else Ok true
  end.

Definition inspect_all_records (valid_list invalid_list : list inputs_t)
    (sym_list : list nat) (tree : ArithExpTree) (sign : Sign) : result bool :=
  ok ← all_hold valid_list sym_list tree sign;
  if negb ok then Ok false
  else match sign with
       | SEq => Ok true
       | _ => some_fails invalid_list sym_list tree sign
       end.

Definition gen_sym_set (mask : Z) (count : nat) : list Z :=
  dfs count (popcount mask) [].

(** The test of the constant-constraint loop: [inputs[i] != val] on every
    valid record. *)
Fixpoint const_valid (valid_list : list inputs_t) (i : nat) (val : pyval)
  : result bool :=
  match valid_list with
  | [] => Ok true
  | inputs :: rest =>
      v ← index inputs i;
      if decide (v = val) then const_valid rest i val else Ok false
  end.

(** [eval(f"s{i}-{val}")] over z3 integers: subtracting [None] from a z3
    term raises. *)
Definition const_rule (i : nat) (val : pyval) : result ArithExpTree :=
  match val with
  | PInt v => Ok (Node OpSub (Arg i) (Lit v))
  | PNone => Raise Z3Exception
  end.

Record SolveResult : Type := mkSolveResult {
  rules : list Rule;
  tree_tried : nat
}.

Section Solve.

(** [equivalent] of [autoinf.inference.utils], the solver's verdict on two
    formulas. *)
Variable equivalent : formula -> formula -> bool.

(** The tree database. *)
Variable genTreeList : nat -> nat -> list (nat * Z * nat).
Variable getTree : nat -> Z -> nat -> ArithExpTree.

(** [time.time() - start_time > timeout], as a function of the number of
    trees tried so far. *)
Variable timed_out : nat -> bool.

(** The [for i in range(len(ruleset) - 1, 0, -1)] loop: the entry to
    delete, if one is found. *)
Fixpoint find_del (rs : list Rule) (expr : formula) (idxs : list nat)
  : option Rule :=
  match idxs with
  | [] => None
  | i :: rest =>
      if equivalent expr (conj (delete i rs)) then rs !! i
      else find_del rs expr rest
  end.

(** [range(len(ruleset) - 1, 0, -1)]. *)
Definition prune_range (rs : list Rule) : list nat :=
  reverse (seq 1 (length rs - 1)).

(** The [while prunable] loop; every round but the last removes an entry,
    so [length rs] rounds are enough. *)
Fixpoint prune (fuel : nat) (rs : list Rule) : list Rule :=
  match fuel with
  | 0 => rs
  | S fuel' =>
      match find_del rs (conj rs) (prune_range rs) with
      | Some del_item => prune fuel' (list_remove del_item rs)
      | None => rs
      end
  end.

(** [RuleDatabase.Add(rule, sign)]; [rule] is the outcome of [eval(rule)]. *)
Definition Add (ruleset : list Rule) (rule : result ArithExpTree)
    (sign : Sign) : result (list Rule) :=
  if 50 <? length ruleset then Ok ruleset
  else
    e ← rule;
    let ruleset := ruleset ++ [mkRule e sign] in
    Ok (prune (length ruleset) ruleset).

Definition const_loop (valid_list : list inputs_t) (r0 : inputs_t)
    (input_len : nat) (rs : list Rule) : result (list Rule) :=
  forM (range 0 input_len) (fun i rs =>
    val ← index r0 i;
    valid ← const_valid valid_list i val;
    if valid : bool then Add rs (const_rule i val) SEq else Ok rs) rs.

Definition sign_list (depth : nat) : list Sign :=
  if depth <=? 1 then [SEq; SGt; SGe] else [SEq].

Definition try_sign (valid_list invalid_list : list inputs_t)
    (tree : ArithExpTree) (sym_list : list nat) (sign : Sign)
    (rs : list Rule) : result (list Rule) :=
  ok ← inspect_all_records valid_list invalid_list sym_list tree sign;
  if ok : bool then Add rs (Ok (remap tree sym_list)) sign else Ok rs.

(** [tree.op not in ["+", "-", None]]. *)
Definition op_skipped (tree : ArithExpTree) : bool :=
  match tree_op tree with
  | Some OpMul => true
  | _ => false
  end.

Fixpoint tree_loop (valid_list invalid_list : list inputs_t)
    (input_len : nat) (trees : list (nat * Z * nat)) (tried : nat)
    (rs : list Rule) : result SolveResult :=
  match trees with
  | [] => Ok (mkSolveResult rs tried)
  | (depth, ArgSet, i) :: rest =>
      let tried := S tried in
      if timed_out tried then Ok (mkSolveResult rs tried)
      else
        let tree := getTree depth ArgSet i in
        if op_skipped tree
        then tree_loop valid_list invalid_list input_len rest tried rs
        else
          rs ← forM (gen_sym_set (Z.shiftl 1 (Z.of_nat input_len) - 1)
                       (popcount ArgSet))
                 (fun sym_set rs =>
                    forM (sign_list depth)
                      (try_sign valid_list invalid_list tree
                         (mask_to_list sym_set)) rs) rs;
          if 50 <=? length rs then Ok (mkSolveResult rs tried)
          else tree_loop valid_list invalid_list input_len rest tried rs
  end.

(** [solve_inst(filename, info)] up to the pickling of the result. *)
Definition solve_inst (info_success : list (inputs_t * outputs_t))
    (info_fail : list inputs_t) : result SolveResult :=
  let valid_list := map fst info_success in
  let invalid_list := info_fail in
  r0 ← index valid_list 0;
  let input_len := length r0 in
  rs ← const_loop valid_list r0 input_len [];
  tree_loop valid_list invalid_list input_len
    (genTreeList Configs.TreeMaxHeight (min input_len Configs.TreeArgCount))
    0 rs.

End Solve.

(** ** Properties *)

(** [e(inputs) rel 0] for a rule of the result, read on the whole input
    tuple of a record. *)
Definition holds_on (r : Rule) (inputs : inputs_t) : result bool :=
  v ← evaluate (rule_expr r) inputs;
  compare_zero (rule_sign r) v.

(** A rule holds on every success record and, when strict, is violated by
    some failing record. *)
Definition rule_good (valid_list invalid_list : list inputs_t) (r : Rule)
  : Prop :=
  (forall inputs, inputs ∈ valid_list -> holds_on r inputs = Ok true) /\
  (rule_sign r <> SEq ->
   exists inputs, inputs ∈ invalid_list /\ holds_on r inputs = Ok false).

#[global] Instance formula_eq_dec : EqDecision formula.
Proof. solve_decision. Defined.

(** A solver that only recognises identical formulas. *)
Definition syntactic (f g : formula) : bool := bool_decide (f = g).

(** The verdict [true] is only given on formulas with the same models. *)
Definition sound (equivalent : formula -> formula -> bool) : Prop :=
  forall f g, equivalent f g = true -> forall env, holds f env <-> holds g env.

(** Every integer assignment that satisfies all the rules of [rs]
    satisfies [r]. *)
Definition implied (rs : list Rule) (r : Rule) : Prop :=
  forall env, holds (conj rs) env -> rule_holds r env.

(** Where a rule of the result comes from: the constant test on position
    [i] of the first record, or a tree of the enumeration whose root is not
    a multiplication, renamed to one of the enumerated symbol subsets, with
    a relation allowed at the tree's depth. *)
Definition rule_origin (getTree : nat -> Z -> nat -> ArithExpTree)
    (r0 : inputs_t) (trees : list (nat * Z * nat)) (r : Rule) : Prop :=
  (exists i v, r0 !! i = Some (PInt v) /\
               r = mkRule (Node OpSub (Arg i) (Lit v)) SEq) \/
  (exists depth ArgSet i sym_set,
     (depth, ArgSet, i) ∈ trees /\
     op_skipped (getTree depth ArgSet i) = false /\
     sym_set ∈ gen_sym_set (Z.shiftl 1 (Z.of_nat (length r0)) - 1)
                 (popcount ArgSet) /\
     rule_sign r ∈ sign_list depth /\
     rule_expr r = remap (getTree depth ArgSet i) (mask_to_list sym_set)).

End StrictInputSolve.

(* ===================================================================== *)
(** * Dialect-rule matcher ([nnsmith_rules.py]) *)
(* ===================================================================== *)

Module NnsmithRules.

Import ApiParsing.

(** A tensor whose shape has been made concrete: the result of
    [abs_to_concrete], and the [AbsTensor(shape, dtype)] handed to a rule
    class. *)
Record CTensor : Type := mkCTensor {
  cshape : list pyval;
  cdtype : string
}.

#[global] Instance CTensor_eq_dec : EqDecision CTensor.
Proof. solve_decision. Defined.

(** [list_to_dict(target, name)]. *)
Definition list_to_dict (target : list pyval) (name : string)
  : gmap string pyval :=
  list_to_map (imap (fun i v => (sym name i, v)) target).

(** [abs_to_concrete]: every shape symbol is looked up with [dict.get]. *)
Definition abs_to_concrete (abs_input_tensors : list Instrument.AbsTensor)
    (concrete_values : gmap string pyval) : list CTensor :=
  map (fun tensor =>
         mkCTensor (map (dict_get concrete_values) (Instrument.shape tensor))
           (Instrument.dtype tensor))
      abs_input_tensors.

(** [all(map(lambda x: x >= 0, inputs))]: [all] stops at the first false
    element. *)
Fixpoint all_nonneg (inputs : inputs_t) : result bool :=
  match inputs with
  | [] => Ok true
  | x :: rest =>
      b ← ge_zero x;
      if b : bool then all_nonneg rest else Ok false
  end.

(** The filter building [fail] from [_fail]. *)
Fixpoint filter_fail (_fail : list inputs_t) : result (list inputs_t) :=
  match _fail with
  | [] => Ok []
  | inputs :: rest =>
      b ← all_nonneg inputs;
      fl ← filter_fail rest;
      Ok (if b : bool then inputs :: fl else fl)
  end.

(** The exceptions of the [except] clauses. *)
Definition caught (e : exn) : bool :=
  match e with
  | IndexError | ConstraintError | InternalError => true
  | _ => false
  end.

Section Match.

(** The predicates returned by [requires] and the solver's verdict
    [equivalent(predicate, b)] on them ([autoinf.inference.utils]). *)
Variable predicate : Type.
Variable equivalent : predicate -> bool -> bool.

(** The validity oracle of [autoinf.inference.invocations]. *)
Variable input_validity_test :
  Instrument.OpInstance -> gmap string pyval -> inputs_t * option outputs_t.

(** An entry of the registry [ATTR_FREE_RULES] ([dynofuzz.autoinf]), seen
    through the interface the matcher uses; [is_BcastBinaryOp] is the test
    [op_type == BcastBinaryOp], and the two checked functions are those of
    the instance [op_type()] ([op_type(diagonal=1)] for [Triu], [Tril]). *)
Record OpType : Type := mkOpType {
  n_input : nat;
  n_output : nat;
  is_BcastBinaryOp : bool;
  checked_type_transfer : list CTensor -> result (list CTensor);
  checked_requires : list CTensor -> result (list predicate)
}.

(** The body of the loop over the success records: [valid] after the
    record. *)
Definition success_record_ok (inst : Instrument.OpInstance) (op : OpType)
    (n_out : nat) (record : inputs_t * outputs_t) : result bool :=
  let input_dict := list_to_dict record.1 "s" in
  let output_dict := list_to_dict record.2 "o" in
  let concrete_input_tensors :=
    abs_to_concrete (Instrument.input_tensors inst) input_dict in
  valid ←
    match checked_type_transfer op concrete_input_tensors with
    | Raise e => if caught e then Ok false else Raise e
    | Ok concrete_output_tensors =>
        let std_output_tensors :=
          abs_to_concrete (Instrument.output_tensors inst) output_dict in
        forM (range 0 n_out) (fun i valid =>
          c ← index concrete_output_tensors i;
          s ← index std_output_tensors i;
          Ok (if decide (cshape c = cshape s) then valid else false)) true
    end;
  if negb valid then Ok false
  else
    match checked_requires op concrete_input_tensors with
    | Raise e => if caught e then Ok false else Raise e
    | Ok predicates =>
        Ok (forallb (fun p => equivalent p true) predicates)
    end.

Fixpoint success_loop (inst : Instrument.OpInstance) (op : OpType)
    (n_out : nat) (success : list (inputs_t * outputs_t)) : result bool :=
  match success with
  | [] => Ok true
  | record :: rest =>
      valid ← success_record_ok inst op n_out record;
      if valid : bool then success_loop inst op n_out rest else Ok false
  end.

(** [no_one] for one record: no [1] among its first [shape_len] inputs. *)
Fixpoint no_one (inputs : inputs_t) (idxs : list nat) : result bool :=
  match idxs with
  | [] => Ok true
  | i :: rest =>
      v ← index inputs i;
      if decide (v = PInt 1) then Ok false else no_one inputs rest
  end.

Fixpoint find_no_one (success : list (inputs_t * outputs_t))
    (shape_len : nat) : result (option (gmap string pyval)) :=
  match success with
  | [] => Ok None
  | (_inputs, _) :: rest =>
      b ← no_one _inputs (range 0 shape_len);
      if b : bool then Ok (Some (list_to_dict _inputs "s"))
      else find_no_one rest shape_len
  end.

(** The shape-1 probes: [valid] becomes false at the first probe the
    oracle rejects. *)
Fixpoint bcast_probe (inst : Instrument.OpInstance)
    (input_dict : gmap string pyval) (symbs : list string) (valid : bool)
  : result bool :=
  match symbs with
  | [] => Ok valid
  | symb :: rest =>
      origin_val ← getitem input_dict symb;
      let probe := <[symb := PInt 1]> input_dict in
      match (input_validity_test inst probe).2 with
      | None => Ok false
      | Some _ => bcast_probe inst (<[symb := origin_val]> probe) rest valid
      end
  end.

Definition bcast_check (inst : Instrument.OpInstance)
    (success : list (inputs_t * outputs_t)) (valid : bool) : result bool :=
  input_dict ← find_no_one success (length (Instrument.I inst));
  match input_dict with
  | None => Ok valid
  | Some d => bcast_probe inst d (Instrument.I inst) valid
  end.

(** [counterexample] for one failing record. *)
Definition fail_record_rejected (inst : Instrument.OpInstance) (op : OpType)
    (inputs : inputs_t) : result bool :=
  let input_dict := list_to_dict inputs "s" in
  let concrete_input_tensors :=
    abs_to_concrete (Instrument.input_tensors inst) input_dict in
  match checked_requires op concrete_input_tensors with
  | Raise e => if caught e then Ok true else Raise e
  | Ok predicates => Ok (existsb (fun p => equivalent p false) predicates)
  end.

Fixpoint fail_loop (inst : Instrument.OpInstance) (op : OpType)
    (fail : list inputs_t) : result bool :=
  match fail with
  | [] => Ok true
  | inputs :: rest =>
      counterexample ← fail_record_rejected inst op inputs;
      if counterexample : bool then fail_loop inst op rest else Ok false
  end.

(** The value of [valid] for one rule class whose arities agree. *)
Definition class_valid (inst : Instrument.OpInstance) (op : OpType)
    (success : list (inputs_t * outputs_t)) (fail : list inputs_t)
  : result bool :=
  valid ← success_loop inst op (length (Instrument.output_tensors inst)) success;
  valid ← (if is_BcastBinaryOp op then bcast_check inst success valid
           else Ok valid);
  if valid : bool then fail_loop inst op fail else Ok false.

(** The loop over [enumerate(ATTR_FREE_RULES)] from index [ind] on: it
    leaves at the first class found valid. *)
Fixpoint registry_loop (inst : Instrument.OpInstance)
    (success : list (inputs_t * outputs_t)) (fail : list inputs_t)
    (ind : nat) (registry : list OpType) : result (list nat) :=
  match registry with
  | [] => Ok []
  | op_type :: rest =>
      if (n_input op_type =? length (Instrument.input_tensors inst))
         && (n_output op_type =? length (Instrument.output_tensors inst))
      then
        valid ← class_valid inst op_type success fail;
        if valid : bool then Ok [ind]
        else registry_loop inst success fail (S ind) rest
      else registry_loop inst success fail (S ind) rest
  end.

(** [solve_inst(opid, inst, records)] up to the pickling of [res];
    [success] and [_fail] are the two sets [inst_invocations] reads from
    the invocation database. *)
Definition solve_inst (ATTR_FREE_RULES : list OpType)
    (inst : Instrument.OpInstance) (success : list (inputs_t * outputs_t))
    (_fail : list inputs_t) : result (list nat) :=
  fail ← filter_fail _fail;
  registry_loop inst success fail 0 ATTR_FREE_RULES.

(** ** Properties *)

(** The rule class reproduces a success record: [type_transfer] returns
    the recorded output shapes and every [requires] predicate is reported
    equivalent to [True]. *)
Definition accepts (inst : Instrument.OpInstance) (op : OpType)
    (record : inputs_t * outputs_t) : Prop :=
  let cin := abs_to_concrete (Instrument.input_tensors inst)
               (list_to_dict record.1 "s") in
  let std := abs_to_concrete (Instrument.output_tensors inst)
               (list_to_dict record.2 "o") in
  exists outs preds,
    checked_type_transfer op cin = Ok outs /\
    (forall i, i < length (Instrument.output_tensors inst) ->
       exists c s, outs !! i = Some c /\ std !! i = Some s /\
                   cshape c = cshape s) /\
    checked_requires op cin = Ok preds /\
    (forall p, p ∈ preds -> equivalent p true = true).

(** The rule class rejects a failing record: [requires] raises one of the
    caught errors or some predicate is reported equivalent to [False]. *)
Definition rejects (inst : Instrument.OpInstance) (op : OpType)
    (inputs : inputs_t) : Prop :=
  let cin := abs_to_concrete (Instrument.input_tensors inst)
               (list_to_dict inputs "s") in
  (exists e, checked_requires op cin = Raise e /\ caught e = true) \/
  (exists preds, checked_requires op cin = Ok preds /\
     exists p, p ∈ preds /\ equivalent p false = true).

(** A class the loop examines and finds valid. *)
Definition matches (inst : Instrument.OpInstance)
    (success : list (inputs_t * outputs_t)) (fail : list inputs_t)
    (op : OpType) : Prop :=
  n_input op = length (Instrument.input_tensors inst) /\
  n_output op = length (Instrument.output_tensors inst) /\
  class_valid inst op success fail = Ok true.

End Match.

End NnsmithRules.

(* ===================================================================== *)
(** * Graph generator ([dynofuzz/graph_gen.py]) *)
(* ===================================================================== *)

Module GraphGen.

Definition DType : Type := string.

(** [dynofuzz.abstract.tensor.AbsTensor] for the generators that keep the
    graph concrete ([ConcolicGen] and its record-assisted subclasses): a
    shape of integer dimensions and an element type. *)
Record AbsTensor : Type := mkAbsTensor {
  shape : list Z;
  dtype : DType
}.

#[global] Instance AbsTensor_eq_dec : EqDecision AbsTensor.
Proof. solve_decision. Defined.

(** Modelled from the spec: [AbsTensor.nelement] is not under src/; it is
    the product of the shape. *)
Definition nelement (t : AbsTensor) : Z := foldr Z.mul 1%Z (shape t).

Definition ndims (t : AbsTensor) : nat := length (shape t).

(** The operator of an instruction: a placeholder (possibly promoted to an
    input or a constant) or a compute operator, with the output types bound
    by [bind_output_like] (for a placeholder, its [ttype]). *)
Inductive OpKind : Type :=
  | KPlaceholder
  | KInput
  | KConst
  | KCompute (name : string).

Record AbsOp : Type := mkAbsOp {
  kind : OpKind;
  out_types : list AbsTensor
}.

Definition Placeholder (ttype : AbsTensor) : AbsOp := mkAbsOp KPlaceholder [ttype].

Definition isinstance_Placeholder (op : AbsOp) : bool :=
  match kind op with
  | KCompute _ => false
  | _ => true
  end.

Definition to_input (op : AbsOp) : AbsOp := mkAbsOp KInput (out_types op).
Definition to_const (op : AbsOp) : AbsOp := mkAbsOp KConst (out_types op).

(** A variable name, as [InstIR.var_inst_idx] decodes it: the identifier of
    the defining instruction and the index of the return value. *)
Definition var : Type := (nat * nat)%type.

Record InstIR : Type := mkInstIR {
  identifier : nat;
  iexpr_op : AbsOp;
  iexpr_args : list var
}.

(** Modelled from the spec: [GraphIR] of [dynofuzz.gir] is not under src/.
    It is the list of instructions in insertion order, each with an
    operator and a tuple of input variables, and it maps every variable to
    its abstract tensor. *)
Record GraphIR : Type := mkGraphIR {
  insts : list InstIR;
  n_fresh : nat
}.

Definition retval (inst : InstIR) : var := (identifier inst, 0).

Definition retvals (inst : InstIR) : list var :=
  map (fun k => (identifier inst, k))
      (range 0 (length (out_types (iexpr_op inst)))).

Definition add_inst (ir : GraphIR) (op : AbsOp) (args : list var)
  : GraphIR * InstIR :=
  let inst := mkInstIR (n_fresh ir) op args in
  (mkGraphIR (insts ir ++ [inst]) (S (n_fresh ir)), inst).

Definition n_inst (ir : GraphIR) : nat := length (insts ir).

(** The instructions that are not placeholders. *)
Definition n_compute_inst (ir : GraphIR) : nat :=
  length (filter (fun inst => isinstance_Placeholder (iexpr_op inst) = false)
            (insts ir)).

(** [ir.vars], in instruction order. *)
Definition vars (ir : GraphIR) : list (var * AbsTensor) :=
  flat_map (fun inst =>
              imap (fun k t => ((identifier inst, k), t))
                   (out_types (iexpr_op inst)))
           (insts ir).

Definition replace_alluse (ir : GraphIR) (old new : var) : GraphIR :=
  mkGraphIR
    (map (fun inst =>
            mkInstIR (identifier inst) (iexpr_op inst)
              (map (fun a => if decide (a = old) then new else a)
                   (iexpr_args inst)))
         (insts ir))
    (n_fresh ir).

Definition is_used (ir : GraphIR) (id : nat) : bool :=
  existsb (fun inst => existsb (fun a : var => a.1 =? id) (iexpr_args inst))
          (insts ir).

Definition remove_unused (ir : GraphIR) (id : nat) : GraphIR :=
  if is_used ir id then ir
  else mkGraphIR (filter (fun inst => identifier inst ≠ id) (insts ir))
         (n_fresh ir).

(** The random module: a stream of draws and the number consumed. *)
Record Rng : Type := mkRng {
  draw : nat -> nat;
  pos : nat
}.

Definition next (r : Rng) : Rng := mkRng (draw r) (S (pos r)).

(** [random.choice(l)]; an empty [l] raises [IndexError]. *)
Definition random_choice {A} (l : list A) (r : Rng) : result (A * Rng) :=
  x ← index l (draw r (pos r) mod length l);
  Ok (x, next r).

(** [random.randint(l, r)]; an empty range raises [ValueError]. *)
Definition randint (lo hi : Z) (r : Rng) : result (Z * Rng) :=
  if (hi <? lo)%Z then Raise ValueError
  else Ok ((lo + Z.of_nat (draw r (pos r)) mod (hi - lo + 1))%Z, next r).

(** A record of an operator instance: [(itensors, otensors, attrs)]. *)
Definition OpRecord : Type :=
  (list AbsTensor * list AbsTensor * gmap string pyval)%type.

(** The record finder ([dynofuzz.autoinf.OpRecordFinder]): two tables from
    tensor types to operator instances, and per operator instance its
    records. Operator instances are told apart by their [name_index]. *)
Record OpRecordFinder : Type := mkOpRecordFinder {
  producer : list (AbsTensor * list string);
  consumer : list (AbsTensor * list string);
  op2record : list (string * list OpRecord)
}.

(** The generator state. *)
Record Gen : Type := mkGen {
  ir : GraphIR;
  placeholders : list var;
  max_elem_per_tensor : Z;
  concr_ph_dim_rng : Z * Z;
  symbolic_impossible : nat
}.

Definition set_ir (g : Gen) (ir' : GraphIR) (phs : list var) : Gen :=
  mkGen ir' phs (max_elem_per_tensor g) (concr_ph_dim_rng g)
    (symbolic_impossible g).

Definition set_impossible (g : Gen) (n : nat) : Gen :=
  mkGen (ir g) (placeholders g) (max_elem_per_tensor g) (concr_ph_dim_rng g) n.

(** [BaseGen.__init__] with the default [concr_ph_dim_rng]. *)
Definition BaseGen_init (max_elem : Z) : Gen :=
  mkGen (mkGraphIR [] 0) [] max_elem (1, 64)%Z 0.

(** [tensor_type_constraints] on a concrete tensor. *)
Definition tensor_type_constraints (g : Gen) (atensor : AbsTensor)
  : list bool :=
  [(nelement atensor <=? max_elem_per_tensor g)%Z].

(** The shape checker of [ConcolicGen]:
    [all(self.tensor_type_constraints(ten))] for every tensor. *)
Definition shape_checker (g : Gen) (tensors : list AbsTensor) : bool :=
  forallb (fun ten => forallb id (tensor_type_constraints g ten)) tensors.

Definition forward_insert_node (g : Gen) (node : AbsOp) (input_vars : list var)
  : Gen * InstIR :=
  let '(ir', new_inst) := add_inst (ir g) node input_vars in
  (set_ir g ir'
     (if isinstance_Placeholder node
      then placeholders g ++ [retval new_inst]
      else placeholders g),
   new_inst).

(** [placeholders.remove(ph)]. *)
Fixpoint remove_var (x : var) (l : list var) : list var :=
  match l with
  | [] => []
  | y :: l' => if decide (y = x) then l' else y :: remove_var x l'
  end.

Definition backward_insert_node (g : Gen) (node : AbsOp)
    (input_vars ph_to_replace : list var) : Gen * InstIR :=
  let '(g, new_inst) := forward_insert_node g node input_vars in
  (fold_left
     (fun g '(ph, rv) =>
        let ir1 := replace_alluse (ir g) ph rv in
        let ir2 := remove_unused ir1 ph.1 in
        set_ir g ir2 (remove_var ph (placeholders g)))
     (zip ph_to_replace (retvals new_inst)) g,
   new_inst).

(** The loop of [BaseGen.make_random_concrete_placeholder] that draws the
    dimensions. *)
Fixpoint draw_shape (g : Gen) (n : nat) (dims : list Z) (product : Z)
    (r : Rng) : result (list Z * Rng) :=
  match n with
  | 0 => Ok (dims, r)
  | S n' =>
      '(v, r) ← randint (concr_ph_dim_rng g).1 (concr_ph_dim_rng g).2 r;
      let v := if (max_elem_per_tensor g <? product * v)%Z then 1%Z else v in
      draw_shape g n' (dims ++ [v]) (product * v)%Z r
  end.

Section Generators.

(** [random.shuffle] on a list of dimensions or candidates. *)
Variable shuffle : list Z -> Rng -> list Z * Rng.

Definition make_random_concrete_placeholder (g : Gen) (rank : nat)
    (dt : DType) (r : Rng) : result (AbsOp * Rng) :=
  '(dims, r) ← draw_shape g rank [] 1%Z r;
  let '(dims, r) := shuffle dims r in
  Ok (Placeholder (mkAbsTensor dims dt), r).

(** [DynoFuzzR.make_random_concrete_placeholder]; [dtype] is [None] or the
    requested element type. *)
Definition DynoFuzzR_make_random_concrete_placeholder (g : Gen)
    (record_finder : OpRecordFinder) (rank : nat) (want : option DType)
    (fallback_dtype : DType) (r : Rng) : result (AbsOp * Rng) :=
  let fits (tensor : AbsTensor) : bool :=
    (ndims tensor =? rank)
    && match want with
       | None => true
       | Some dt => bool_decide (dtype tensor = dt)
       end in
  let cand := filter (fun t => fits t = true) (map fst (producer record_finder))
              ++ filter (fun t => fits t = true)
                   (map fst (consumer record_finder)) in
  if length cand =? 0
  then make_random_concrete_placeholder g rank (default fallback_dtype want) r
  else
    '(selected, r) ← random_choice cand r;
    Ok (Placeholder (mkAbsTensor (shape selected) (dtype selected)), r).

(** [DynoFuzzR.__init__]: the first node is inserted as it is drawn. *)
Definition DynoFuzzR_init (max_elem : Z) (record_finder : OpRecordFinder)
    (rank : nat) (want : option DType) (fallback_dtype : DType) (r : Rng)
  : result (Gen * Rng) :=
  let g := BaseGen_init max_elem in
  '(ph, r) ← DynoFuzzR_make_random_concrete_placeholder g record_finder rank
               want fallback_dtype r;
  Ok ((forward_insert_node g ph []).1, r).

(** [ConcolicGen.__init__]. *)
Definition ConcolicGen_init (max_elem : Z) (rank : nat) (dt : DType)
    (r : Rng) : result (Gen * Rng) :=
  let g := BaseGen_init max_elem in
  '(ph, r) ← make_random_concrete_placeholder g rank dt r;
  Ok ((forward_insert_node g ph []).1, r).

End Generators.

(** [type2vars]: the variables of the graph grouped by their type. *)
Definition type2vars_of (vs : list (var * AbsTensor))
  : list (AbsTensor * list var) :=
  fold_left
    (fun acc '(k, v) =>
       if existsb (fun e => bool_decide (e.1 = v)) acc
       then map (fun e => if decide (e.1 = v) then (e.1, e.2 ++ [k]) else e) acc
       else acc ++ [(v, [k])])
    vs [].

Definition lookup_type (type2vars : list (AbsTensor * list var))
    (t : AbsTensor) : option (list var) :=
  snd <$> find (fun e => bool_decide (e.1 = t)) type2vars.

(** The loop collecting [ivars]: it leaves at the first input type absent
    from the graph. *)
Fixpoint pick_ivars (type2vars : list (AbsTensor * list var))
    (itensors : list AbsTensor) (ivars : list var) (r : Rng)
  : result (list var * Rng) :=
  match itensors with
  | [] => Ok (ivars, r)
  | it :: rest =>
      match lookup_type type2vars it with
      | None => Ok (ivars, r)
      | Some vs =>
          '(v, r) ← random_choice vs r;
          pick_ivars type2vars rest (ivars ++ [v]) r
      end
  end.

(** [DynoFuzzR.try_concrete_forward_insert_op]: the record's operator is
    inserted on variables whose types are exactly the record's inputs. *)
Definition try_concrete_forward_insert_op (g : Gen)
    (type2vars : list (AbsTensor * list var)) (op_name : string)
    (itensors otensors : list AbsTensor) (r : Rng)
  : result (Gen * bool * Rng) :=
  '(ivars, r) ← pick_ivars type2vars itensors [] r;
  if length ivars =? length itensors then
    let op := mkAbsOp (KCompute op_name) otensors in
    Ok ((forward_insert_node g op ivars).1, true, r)
  else Ok (g, false, r).

(** The tail of [ConcolicGen.try_forward_insert_at] once the solver's model
    has made the outputs concrete: the shape checker, then the insertion. *)
Definition concolic_forward_commit (g : Gen) (op_name : string)
    (input_vars : list var) (otensors : list AbsTensor) : Gen * bool :=
  if shape_checker g otensors
  then ((forward_insert_node g (mkAbsOp (KCompute op_name) otensors)
           input_vars).1, true)
  else (g, false).

(** ** The generation loop *)

(** What one call of [try_insert] does to the graph. Which operator is
    picked, on which variables, and whether the solver accepts it depend on
    the random module and on z3; the loop only sees the effect. *)
Inductive Insertion : Type :=
  | Forward (op_name : string) (otensors : list AbsTensor)
      (input_vars : list var)
  | Backward (op_name : string) (otensors : list AbsTensor)
      (new_placeholders : list AbsTensor) (ph_to_replace : list var).

Inductive Attempt : Type :=
  | NoInsert
  | Impossible
  | Inserted (record_matched : bool) (ins : Insertion).

Definition apply_insertion (g : Gen) (ins : Insertion) : Gen :=
  match ins with
  | Forward op_name otensors input_vars =>
      (forward_insert_node g (mkAbsOp (KCompute op_name) otensors)
         input_vars).1
  | Backward op_name otensors new_placeholders ph_to_replace =>
      let '(g, input_vars) :=
        fold_left
          (fun '(g, input_vars) ttype =>
             let '(g, inst) := forward_insert_node g (Placeholder ttype) [] in
             (g, input_vars ++ [retval inst]))
          new_placeholders (g, []) in
      (backward_insert_node g (mkAbsOp (KCompute op_name) otensors)
         input_vars ph_to_replace).1
  end.

Definition try_insert (g : Gen) (a : Attempt) : Gen :=
  match a with
  | NoInsert => g
  | Impossible => set_impossible g (S (symbolic_impossible g))
  | Inserted record_matched ins =>
      let g := apply_insertion g ins in
      if record_matched then set_impossible g 0 else g
  end.

Definition num_op (g : Gen) : nat := n_compute_inst (ir g).

(** [extra_exit_check]: [False] in [BaseGen], the counter test in
    [DynoFuzzR]. *)
Definition extra_exit_check (record_assisted : bool) (g : Gen)
    (max_node_size : nat) : bool :=
  record_assisted && (max_node_size <=? symbolic_impossible g).

(** The [while] loop of [abstract_gen]. [schedule] lists the outcomes of
    the calls of [try_insert] the time budget allows; the loop also leaves
    when [num_op] reaches [max_node_size] or the extra check fires. *)
Fixpoint gen_loop (record_assisted : bool) (max_node_size : nat)
    (schedule : list Attempt) (g : Gen) : Gen :=
  match schedule with
  | [] => g
  | a :: rest =>
      if num_op g <? max_node_size then
        if extra_exit_check record_assisted g max_node_size then g
        else gen_loop record_assisted max_node_size rest (try_insert g a)
      else g
  end.

(** [determine_ph_type(ph, to_input)]. *)
Definition determine_ph_type (g : Gen) (ph : var) (to_inp : bool) : Gen :=
  set_ir g
    (mkGraphIR
       (map (fun inst =>
               if identifier inst =? ph.1
               then mkInstIR (identifier inst)
                      ((if to_inp then to_input else to_const) (iexpr_op inst))
                      (iexpr_args inst)
               else inst)
            (insts (ir g)))
       (n_fresh (ir g)))
    (placeholders g).

(** [abstract_gen]; [coins] are the draws [random.randint(0, 1)] deciding
    the remaining placeholders. *)
Definition abstract_gen (record_assisted : bool) (max_node_size : nat)
    (schedule : list Attempt) (coins : nat -> bool) (g : Gen) : result Gen :=
  if max_node_size =? 0 then Raise AssertionError
  else
    let g := if record_assisted then set_impossible g 0 else g in
    let g := gen_loop record_assisted max_node_size schedule g in
    match placeholders g with
    | [] => Raise InternalError
    | ph0 :: phs =>
        let g := determine_ph_type g ph0 true in
        Ok (fold_left (fun g '(k, ph) => determine_ph_type g ph (coins k))
              (imap (fun k ph => (k, ph)) phs) g)
    end.

(** ** Picking variables *)

(** The result of a function that may raise [RequiredDimNotFound], which
    the insertion loop catches, or another exception. *)
Inductive outcome (A : Type) : Type :=
  | Done (a : A)
  | RequiredDimNotFound
  | Error (e : exn).

Arguments Done {A} a.
Arguments RequiredDimNotFound {A}.
Arguments Error {A} e.

#[global] Instance outcome_ret : MRet outcome := fun A a => Done a.

#[global] Instance outcome_bind : MBind outcome := fun A B f m =>
  match m with
  | Done a => f a
  | RequiredDimNotFound => RequiredDimNotFound
  | Error e => Error e
  end.

Definition lift {A} (m : result A) : outcome A :=
  match m with
  | Ok a => Done a
  | Raise e => Error e
  end.

(** [self.ir.vars[vname]]. *)
Definition var_type (g : Gen) (vname : var) : result AbsTensor :=
  match find (fun e : var * AbsTensor => bool_decide (e.1 = vname))
          (vars (ir g)) with
  | Some e => Ok e.2
  | None => Raise KeyError
  end.

(** [filter(lambda vname: keep(self.ir.vars[vname]), cans)]. *)
Fixpoint filter_vars (g : Gen) (keep : AbsTensor -> bool) (cans : list var)
  : result (list var) :=
  match cans with
  | [] => Ok []
  | vname :: rest =>
      t ← var_type g vname;
      rest' ← filter_vars g keep rest;
      Ok (if keep t then vname :: rest' else rest')
  end.

Definition filter_rank_dtype (g : Gen) (ndims_ok : list nat)
    (want : option DType) (candidates : list var) : outcome (list var) :=
  cans ← lift (filter_vars g (fun t => bool_decide (ndims t ∈ ndims_ok))
                 candidates);
  if length cans =? 0 then RequiredDimNotFound
  else
    match want with
    | None => Done cans
    | Some dt =>
        cans ← lift (filter_vars g (fun t => bool_decide (dtype t = dt)) cans);
        if length cans =? 0 then RequiredDimNotFound else Done cans
    end.

(** [[self.ir.vars[vname].dtype for vname in names]]. *)
Fixpoint dtypes_of (g : Gen) (names : list var) : result (list DType) :=
  match names with
  | [] => Ok []
  | vname :: rest =>
      t ← var_type g vname;
      ds ← dtypes_of g rest;
      Ok (dtype t :: ds)
  end.

(** The loop collecting [viable_dtypes]. *)
Fixpoint viable_loop (g : Gen) (ndim_list : list (list nat))
    (var_candidates : list var) (viable_dtypes : list DType)
  : outcome (list DType) :=
  match ndim_list with
  | [] => Done viable_dtypes
  | ndims_ok :: rest =>
      cans ← filter_rank_dtype g ndims_ok None var_candidates;
      ds ← lift (dtypes_of g cans);
      viable_loop g rest var_candidates (viable_dtypes ++ ds)
  end.

(** The loop picking one variable per slot, from slot [i] on. *)
Fixpoint pick_loop (g : Gen) (ndim_list : list (list nat)) (i : nat)
    (dtype_comb : list DType) (var_candidates : list var)
    (picked : list var) (r : Rng) : outcome (list var * Rng) :=
  match ndim_list with
  | [] => Done (picked, r)
  | ndims_ok :: rest =>
      dt ← lift (index dtype_comb i);
      candidates ← filter_rank_dtype g ndims_ok (Some dt) var_candidates;
      '(vname, r) ← lift (random_choice candidates r);
      pick_loop g rest (S i) dtype_comb var_candidates (picked ++ [vname]) r
  end.

Section Pick.

(** [DTYPE_GEN_ALL] of [dynofuzz.abstract.dtype]. *)
Variable DTYPE_GEN_ALL : list DType.

Definition pick_var_group (g : Gen) (ndim_list : list (list nat))
    (dtype_combs_spec : list (list DType))
    (var_candidates : option (list var)) (r : Rng)
  : outcome (list var * Rng) :=
  let var_candidates :=
    match var_candidates with
    | None => map fst (vars (ir g))
    | Some c => c
    end in
  dtypes_in_ir ← lift (dtypes_of g var_candidates);
  if forallb (fun dt => negb (bool_decide (dt ∈ DTYPE_GEN_ALL))) dtypes_in_ir
  then RequiredDimNotFound
  else
    viable_dtypes ← viable_loop g ndim_list var_candidates [];
    let dtype_combs :=
      filter (fun comb : list DType =>
                forallb (fun dt => bool_decide (dt ∈ viable_dtypes)) comb
                = true)
             dtype_combs_spec in
    if length dtype_combs =? 0 then RequiredDimNotFound
    else
      '(dtype_comb, r) ← lift (random_choice dtype_combs r);
      pick_loop g ndim_list 0 dtype_comb var_candidates [] r.

End Pick.

(** ** Record-matched backward insertion *)

(** [type2phvars]: the placeholders among the variables of each type,
    without the types that have none. *)
Definition type2phvars_of (g : Gen) (type2vars : list (AbsTensor * list var))
  : list (AbsTensor * list var) :=
  filter (fun e : AbsTensor * list var => 0 < length e.2)
    (map (fun e : AbsTensor * list var =>
            (e.1, filter (fun v => v ∈ placeholders g) e.2))
         type2vars).

(** The loop collecting [ovars]: a placeholder is never taken twice, and
    the loop leaves at the first output type without a free placeholder. *)
Fixpoint pick_ovars (type2phvars : list (AbsTensor * list var))
    (otensors : list AbsTensor) (ovars : list var) (r : Rng)
  : result (list var * Rng) :=
  match otensors with
  | [] => Ok (ovars, r)
  | ot :: rest =>
      match lookup_type type2phvars ot with
      | None => Ok (ovars, r)
      | Some vs =>
          let cands := filter (fun v => v ∉ ovars) vs in
          if length cands =? 0 then Ok (ovars, r)
          else
            '(v, r) ← random_choice cands r;
            pick_ovars type2phvars rest (ovars ++ [v]) r
      end
  end.

(** [DynoFuzzR.try_concrete_backward_insert_op]. *)
Definition try_concrete_backward_insert_op (g : Gen)
    (type2vars : list (AbsTensor * list var)) (op_name : string)
    (itensors otensors : list AbsTensor) (r : Rng)
  : result (Gen * bool * Rng) :=
  '(ovars, r) ← pick_ovars (type2phvars_of g type2vars) otensors [] r;
  if length ovars =? length otensors then
    Ok (apply_insertion g (Backward op_name otensors itensors ovars), true, r)
  else Ok (g, false, r).

(** ** The record finder *)

(** Modelled from [autoinf/eval/count_collection.py], which holds a copy of
    [make_record_finder] ([dynofuzz.autoinf] itself is not under src/):
    the three tables it fills are the [producer], [consumer] and
    [op2record] the generator reads. *)

Definition blacklist : list string :=
  [ "torch.gather"; "torch.nanquantile"; "torch.Tensor.resize_as_";
    "torch.Tensor.rename"; "torch.Tensor.rename_"; "torch.Tensor.uniform_";
    "torch.Tensor.normal_"; "torch.Tensor.exponential_";
    "torch.Tensor.poisson_"; "torch.Tensor.geometric_";
    "torch.Tensor.log_normal_"; "torch.Tensor.cauchy_";
    "torch.Tensor.logistic_"; "torch.Tensor.random_";
    "torch.Tensor.requires_grad_"; "torch.nn.functional.dropout";
    "torch.nn.functional.dropout2d"; "torch.nn.functional.dropout3d" ].

(** [any([x.nelement() > max_elem_per_tensor for x in tensors])]. *)
Definition over_cap (max_elem : Z) (tensors : list AbsTensor) : bool :=
  existsb (fun x => (max_elem <? nelement x)%Z) tensors.

(** [table.setdefault(t, [])] followed by the guarded [append(inst)]. *)
Definition table_register (inst : string)
    (table : list (AbsTensor * list string)) (t : AbsTensor)
  : list (AbsTensor * list string) :=
  if existsb (fun e => bool_decide (e.1 = t)) table
  then map (fun e => if decide (e.1 = t) then (e.1, set_add inst e.2) else e)
         table
  else table ++ [(t, [inst])].

(** [inst2record.setdefault(inst, []).append(record)]. *)
Definition record_register (inst : string) (record : OpRecord)
    (table : list (string * list OpRecord)) : list (string * list OpRecord) :=
  if existsb (fun e => bool_decide (e.1 = inst)) table
  then map (fun e => if decide (e.1 = inst) then (e.1, e.2 ++ [record]) else e)
         table
  else table ++ [(inst, [record])].

Section RecordFinder.

(** [DType.from_str] of [dynofuzz.abstract.dtype]. *)
Variable from_str : string -> result DType.

(** The abstract tensors of a record: the shapes read from the record's
    assignment, the element types from the instance. A dimension that is
    no integer makes [nelement] raise; like every exception of this step
    it makes the caller skip the record. *)
Definition record_tensors (tensors : list Instrument.AbsTensor)
    (symb_2_value : gmap string pyval) : result (list AbsTensor) :=
  shapes ← mapM (Instrument.concrete_shape symb_2_value) tensors;
  mapM (fun '(inften, shape) =>
          dt ← from_str (Instrument.dtype inften);
          dims ← mapM as_int shape;
          Ok (mkAbsTensor dims dt))
       (zip tensors shapes).

(** The body of the loop over the records of one instance. *)
Definition add_record (max_elem_per_tensor : Z) (inst : Instrument.OpInstance)
    (record : gmap string pyval * gmap string pyval) (f : OpRecordFinder)
  : result OpRecordFinder :=
  match record_tensors (Instrument.input_tensors inst) record.1 with
  | Raise _ => Ok f
  | Ok input_abs_tensor =>
      if over_cap max_elem_per_tensor input_abs_tensor then Ok f
      else
        match record_tensors (Instrument.output_tensors inst) record.2 with
        | Raise _ => Ok f
        | Ok output_abs_tensor =>
            if over_cap max_elem_per_tensor output_abs_tensor then Ok f
            else
              attrs ← mapM (fun k => v ← getitem record.1 k; Ok (k, v))
                        (Instrument.A inst);
              let inst_id := Instrument.name_index inst in
              Ok (mkOpRecordFinder
                    (fold_left (table_register inst_id) input_abs_tensor
                       (producer f))
                    (fold_left (table_register inst_id) output_abs_tensor
                       (consumer f))
                    (record_register inst_id
                       (input_abs_tensor, output_abs_tensor, list_to_map attrs)
                       (op2record f)))
        end
  end.

Definition make_record_finder
    (gen_inst_records :
       list (Instrument.OpInstance
             * list (gmap string pyval * gmap string pyval)))
    (max_elem_per_tensor : Z) : result OpRecordFinder :=
  forM gen_inst_records
    (fun '(inst, records) f =>
       if decide (Instrument.name inst ∈ blacklist) then Ok f
       else forM records (add_record max_elem_per_tensor inst) f)
    (mkOpRecordFinder [] [] []).

End RecordFinder.

(** ** Record-matched insertion *)

(** [table.get(v, [])]. *)
Definition table_get (table : list (AbsTensor * list string)) (v : AbsTensor)
  : list string :=
  match find (fun e => bool_decide (e.1 = v)) table with
  | Some e => e.2
  | None => []
  end.

(** The loop collecting [op_types] over the types of [type2vars]. *)
Definition collect_op_types (table : list (AbsTensor * list string))
    (type2vars : list (AbsTensor * list var)) : list string :=
  fold_left
    (fun op_types e =>
       fold_left (fun op_types ot => set_add ot op_types)
         (table_get table e.1) op_types)
    type2vars [].

(** [record_finder.op2record[op_type]]. *)
Definition records_of (record_finder : OpRecordFinder) (op_type : string)
  : result (list OpRecord) :=
  match find (fun e => bool_decide (e.1 = op_type)) (op2record record_finder) with
  | Some e => Ok e.2
  | None => Raise KeyError
  end.

Section RecordLoops.

(** [try_concrete_forward_insert_op] or [try_concrete_backward_insert_op]. *)
Variable insert_op :
  Gen -> list (AbsTensor * list var) -> string -> list AbsTensor ->
  list AbsTensor -> Rng -> result (Gen * bool * Rng).

(** The loop over the records of one operator; a [ConstraintError] of the
    insertion is passed over. *)
Fixpoint try_records (g : Gen) (type2vars : list (AbsTensor * list var))
    (op_type : string) (records : list OpRecord) (r : Rng)
  : result (Gen * bool * Rng) :=
  match records with
  | [] => Ok (g, false, r)
  | (itensors, otensors, _) :: rest =>
      match insert_op g type2vars op_type itensors otensors r with
      | Ok (g', true, r') => Ok (g', true, r')
      | Ok (g', false, r') => try_records g' type2vars op_type rest r'
      | Raise ConstraintError => try_records g type2vars op_type rest r
      | Raise e => Raise e
      end
  end.

Fixpoint try_op_types (record_finder : OpRecordFinder) (g : Gen)
    (type2vars : list (AbsTensor * list var)) (op_types : list string)
    (r : Rng) : result (Gen * bool * Rng) :=
  match op_types with
  | [] => Ok (g, false, r)
  | op_type :: rest =>
      records ← records_of record_finder op_type;
      '(g', ok, r) ← try_records g type2vars op_type records r;
      if ok : bool then Ok (g', true, r)
      else try_op_types record_finder g' type2vars rest r
  end.

End RecordLoops.

Section Drivers.

(** [random.shuffle] on dimensions and on operator lists. *)
Variable shuffle : list Z -> Rng -> list Z * Rng.
Variable shuffle_ops : list string -> Rng -> list string * Rng.

(** [DTYPE_GEN_ALL] of [dynofuzz.abstract.dtype]. *)
Variable DTYPE_GEN_ALL : list DType.

Definition try_concrete_insert_forward (record_finder : OpRecordFinder)
    (g : Gen) (r : Rng) : result (Gen * bool * Rng) :=
  let type2vars := type2vars_of (vars (ir g)) in
  let op_types := collect_op_types (consumer record_finder) type2vars in
  let '(op_types, r) := shuffle_ops op_types r in
  try_op_types try_concrete_forward_insert_op record_finder g type2vars
    op_types r.

Definition try_concrete_insert_backward (record_finder : OpRecordFinder)
    (g : Gen) (r : Rng) : result (Gen * bool * Rng) :=
  phs ← mapM (fun k => v ← var_type g k; Ok (k, v)) (placeholders g);
  let type2vars := type2vars_of phs in
  let op_types := collect_op_types (producer record_finder) type2vars in
  let '(op_types, r) := shuffle_ops op_types r in
  try_op_types try_concrete_backward_insert_op record_finder g type2vars
    op_types r.

(** ** Solver-driven insertion on a concrete graph *)

(** What a call of [ConcolicGen.try_forward_insert_at] or
    [ConcolicGen.try_occupy_placeholder] gets from the operator's rules and
    from z3, neither of which is under src/: no model (the call returns
    [False]), a [ConstraintError], or a model, given by the tensors it
    makes concrete (the outputs of a forward insertion, the new input
    placeholders of a backward one). *)
Inductive Solved : Type :=
  | NotSat
  | ConstraintFails
  | Model (op_name : string) (tensors : list AbsTensor).

(** The tail of [ConcolicGen.try_occupy_placeholder] once the model has
    made the new placeholders concrete: the input shape checker, then the
    insertion; the outputs are bound to [otensors], the types of the
    occupied placeholders. *)
Definition concolic_backward_commit (g : Gen) (op_name : string)
    (phvars : list var) (otensors itensors : list AbsTensor) : Gen * bool :=
  if shape_checker g itensors
  then (apply_insertion g (Backward op_name otensors itensors phvars), true)
  else (g, false).

Definition ConcolicGen_try_forward_insert_at (g : Gen) (input_vars : list var)
    (s : Solved) : result (Gen * bool) :=
  _ ← mapM (var_type g) input_vars;
  match s with
  | NotSat => Ok (g, false)
  | ConstraintFails => Raise ConstraintError
  | Model op_name otensors =>
      Ok (concolic_forward_commit g op_name input_vars otensors)
  end.

Definition ConcolicGen_try_occupy_placeholder (g : Gen) (phvars : list var)
    (s : Solved) : result (Gen * bool) :=
  otensors ← mapM (var_type g) phvars;
  match s with
  | NotSat => Ok (g, false)
  | ConstraintFails => Raise ConstraintError
  | Model op_name itensors =>
      Ok (concolic_backward_commit g op_name phvars otensors itensors)
  end.

(** One round of the loop of [try_insert_node_type]: the direction drawn,
    the variables picked by [pick_var_group] (or its
    [RequiredDimNotFound]) and the solver's answer. *)
Inductive Pick : Type :=
  | PickNotFound
  | PickForward (input_vars : list var) (s : Solved)
  | PickBackward (phvars : list var) (s : Solved).

Definition try_pick (g : Gen) (p : Pick) : outcome (Gen * bool) :=
  match p with
  | PickNotFound => RequiredDimNotFound
  | PickForward input_vars s =>
      lift (ConcolicGen_try_forward_insert_at g input_vars s)
  | PickBackward phvars s =>
      lift (ConcolicGen_try_occupy_placeholder g phvars s)
  end.

Fixpoint try_picks (g : Gen) (picks : list Pick) : result (Gen * bool) :=
  match picks with
  | [] => Ok (g, false)
  | p :: rest =>
      match try_pick g p with
      | Done (g', true) => Ok (g', true)
      | Done (g', false) => try_picks g' rest
      | RequiredDimNotFound | Error ConstraintError => Ok (g, false)
      | Error e => Raise e
      end
  end.

(** [try_insert_node_type] with [max_tensor_pick_time = 3]. *)
Definition try_insert_node_type (g : Gen) (picks : list Pick)
  : result (Gen * bool) :=
  try_picks g (take 3 picks).

(** The candidate loops of [try_autoinf_insert_forward] and
    [try_autoinf_insert_backward]: a [ConstraintError] is passed over. *)
Fixpoint try_candidates (try_at : Gen -> list var -> Solved -> result (Gen * bool))
    (g : Gen) (cands : list (list var * Solved)) : result (Gen * bool) :=
  match cands with
  | [] => Ok (g, false)
  | (vs, s) :: rest =>
      match try_at g vs s with
      | Ok (g', true) => Ok (g', true)
      | Ok (g', false) => try_candidates try_at g' rest
      | Raise ConstraintError => try_candidates try_at g rest
      | Raise e => Raise e
      end
  end.

(** ** One call of [try_insert] *)

Inductive Method : Type :=
  | Concolic
  | RecordAssisted   (* DynoFuzzR *)
  | Hybrid           (* DynoFuzz *)
  | RuleAssisted.    (* DynoFuzzI *)

(** The branch the draws of [random.random()] select before the fallback
    to [BaseGen.try_insert], with the candidates of a rule-driven one. *)
Inductive Branch : Type :=
  | NoBranch
  | RecordForward
  | RecordBackward
  | AutoInfForward (cands : list (list var * Solved))
  | AutoInfBackward (cands : list (list var * Solved)).

Record Move : Type := mkMove {
  branch : Branch;
  picks : list Pick
}.

Definition has_records (m : Method) : bool :=
  match m with
  | RecordAssisted | Hybrid => true
  | _ => false
  end.

Definition has_autoinf (m : Method) : bool :=
  match m with
  | Hybrid | RuleAssisted => true
  | _ => false
  end.

Definition first_branch (m : Method) (record_finder : OpRecordFinder)
    (g : Gen) (b : Branch) (r : Rng) : result (Gen * bool * Rng) :=
  match b with
  | RecordForward =>
      if has_records m then try_concrete_insert_forward record_finder g r
      else Ok (g, false, r)
  | RecordBackward =>
      if has_records m then try_concrete_insert_backward record_finder g r
      else Ok (g, false, r)
  | AutoInfForward cands =>
      if has_autoinf m then
        '(g, ok) ← try_candidates ConcolicGen_try_forward_insert_at g cands;
        Ok (g, ok, r)
      else Ok (g, false, r)
  | AutoInfBackward cands =>
      if has_autoinf m then
        '(g, ok) ← try_candidates ConcolicGen_try_occupy_placeholder g cands;
        Ok (g, ok, r)
      else Ok (g, false, r)
  | NoBranch => Ok (g, false, r)
  end.

(** [dtypes_in_ir.isdisjoint(set(DTYPE_GEN_ALL))]. *)
Definition dtype_mismatch (g : Gen) : bool :=
  forallb (fun vt : var * AbsTensor =>
             negb (bool_decide (dtype vt.2 ∈ DTYPE_GEN_ALL)))
    (vars (ir g)).

(** [try_insert] of [ConcolicGen] (that of [BaseGen]) and of [DynoFuzzR],
    [DynoFuzz] and [DynoFuzzI]. *)
Definition try_insert_of (m : Method) (record_finder : OpRecordFinder)
    (g : Gen) (mv : Move) (r : Rng) : result (Gen * Rng) :=
  match m with
  | Concolic =>
      '(g, _) ← try_insert_node_type g (picks mv);
      Ok (g, r)
  | _ =>
      '(g, ok, r) ← first_branch m record_finder g (branch mv) r;
      if ok : bool then Ok (set_impossible g 0, r)
      else if dtype_mismatch g
      then Ok (set_impossible g (S (symbolic_impossible g)), r)
      else
        '(g, _) ← try_insert_node_type g (picks mv);
        Ok (g, r)
  end.

Definition record_assisted (m : Method) : bool :=
  match m with
  | Concolic => false
  | _ => true
  end.

(** The [while] loop of [abstract_gen] over the calls of [try_insert] the
    time budget allows. *)
Fixpoint gen_loop_of (m : Method) (record_finder : OpRecordFinder)
    (max_node_size : nat) (schedule : list Move) (g : Gen) (r : Rng)
  : result (Gen * Rng) :=
  match schedule with
  | [] => Ok (g, r)
  | mv :: rest =>
      if num_op g <? max_node_size then
        if extra_exit_check (record_assisted m) g max_node_size then Ok (g, r)
        else
          '(g, r) ← try_insert_of m record_finder g mv r;
          gen_loop_of m record_finder max_node_size rest g r
      else Ok (g, r)
  end.

(** The end of [abstract_gen]: the placeholders become inputs or
    constants. *)
Definition determine_ph_types (coins : nat -> bool) (g : Gen) : result Gen :=
  match placeholders g with
  | [] => Raise InternalError
  | ph0 :: phs =>
      let g := determine_ph_type g ph0 true in
      Ok (fold_left (fun g '(k, ph) => determine_ph_type g ph (coins k))
            (imap (fun k ph => (k, ph)) phs) g)
  end.

Definition abstract_gen_of (m : Method) (record_finder : OpRecordFinder)
    (max_node_size : nat) (schedule : list Move) (coins : nat -> bool)
    (g : Gen) (r : Rng) : result Gen :=
  if max_node_size =? 0 then Raise AssertionError
  else
    let g := if record_assisted m then set_impossible g 0 else g in
    '(g, _) ← gen_loop_of m record_finder max_node_size schedule g r;
    determine_ph_types coins g.

(** ** The symbolic generator *)

(** A z3 model gives every integer symbol a value. A dimension is a Python
    integer or a z3 expression, and a constraint a z3 formula; both are
    given by their value in a model. *)
Definition Z3Model : Type := string -> Z.

Inductive SymDim : Type :=
  | DInt (z : Z)
  | DExpr (e : Z3Model -> Z).

Definition Constraint : Type := Z3Model -> bool.

Record SymTensor : Type := mkSymTensor {
  sym_shape : list SymDim;
  sym_dtype : DType
}.

Definition dim_value (model : Z3Model) (d : SymDim) : Z :=
  match d with
  | DInt z => z
  | DExpr e => e model
  end.

(** The tensor after [concretize(model)]. *)
Definition concretize_tensor (model : Z3Model) (t : SymTensor) : AbsTensor :=
  mkAbsTensor (map (dim_value model) (sym_shape t)) (sym_dtype t).

(** A concrete tensor as a tensor of the symbolic graph. *)
Definition of_concrete (t : AbsTensor) : SymTensor :=
  mkSymTensor (map DInt (shape t)) (dtype t).

(** Modelled from the spec: [gt_zero], [sym_gt_conc_ge_zero] and [eq] of
    [dynofuzz.abstract.tensor] are not under src/. A z3 dimension yields a
    constraint, a Python integer is checked at once. *)
Fixpoint gt_zero (shape : list SymDim) : result (list Constraint) :=
  match shape with
  | [] => Ok []
  | DInt z :: rest =>
      if (0 <? z)%Z then gt_zero rest else Raise ConstraintError
  | DExpr e :: rest =>
      cs ← gt_zero rest;
      Ok ((fun model => (0 <? e model)%Z) :: cs)
  end.

Fixpoint sym_gt_conc_ge_zero (shape : list SymDim) : result (list Constraint) :=
  match shape with
  | [] => Ok []
  | DInt z :: rest =>
      if (0 <=? z)%Z then sym_gt_conc_ge_zero rest else Raise ConstraintError
  | DExpr e :: rest =>
      cs ← sym_gt_conc_ge_zero rest;
      Ok ((fun model => (0 <? e model)%Z) :: cs)
  end.

Fixpoint shape_eq (a b : list SymDim) : result (list Constraint) :=
  match a, b with
  | [], [] => Ok []
  | x :: a', y :: b' =>
      cs ← shape_eq a' b';
      match x, y with
      | DInt p, DInt q => if (p =? q)%Z then Ok cs else Raise ConstraintError
      | _, _ =>
          Ok ((fun model => (dim_value model x =? dim_value model y)%Z) :: cs)
      end
  | _, _ => Raise InternalError
  end.

(** [tensor_type_constraints] on a tensor of the symbolic graph. *)
Definition sym_tensor_type_constraints (max_elem_per_tensor : Z)
    (atensor : SymTensor) : list Constraint :=
  [fun model =>
     (nelement (concretize_tensor model atensor) <=? max_elem_per_tensor)%Z].

(** The operator classes ([AbsOpBase]) are not under src/; the generator
    uses these three methods ([deduct_inp_ranks_and_dtype] with the rank
    [-1] and the element type [None] already replaced by the draws of
    [random_rank] and [random_dtype]). *)
Record SymOp : Type := mkSymOp {
  sym_op_name : string;
  deduct_inp_ranks_and_dtype : list SymTensor -> list (nat * DType);
  checked_requires : list SymTensor -> result (list Constraint);
  checked_type_transfer : list SymTensor -> result (list SymTensor)
}.

Record SymInst : Type := mkSymInst {
  sym_identifier : nat;
  sym_kind : OpKind;
  sym_out_types : list SymTensor;
  sym_args : list var
}.

(** The graph while its shapes are symbolic; the operations are those of
    [GraphIR]. *)
Record SymIR : Type := mkSymIR {
  sym_insts : list SymInst;
  sym_n_fresh : nat
}.

Definition sym_vars (ir : SymIR) : list (var * SymTensor) :=
  flat_map (fun inst =>
              imap (fun k t => ((sym_identifier inst, k), t))
                   (sym_out_types inst))
           (sym_insts ir).

Definition sym_replace_alluse (ir : SymIR) (old new : var) : SymIR :=
  mkSymIR
    (map (fun inst =>
            mkSymInst (sym_identifier inst) (sym_kind inst)
              (sym_out_types inst)
              (map (fun a => if decide (a = old) then new else a)
                   (sym_args inst)))
         (sym_insts ir))
    (sym_n_fresh ir).

Definition sym_is_used (ir : SymIR) (id : nat) : bool :=
  existsb (fun inst => existsb (fun a : var => a.1 =? id) (sym_args inst))
          (sym_insts ir).

Definition sym_remove_unused (ir : SymIR) (id : nat) : SymIR :=
  if sym_is_used ir id then ir
  else mkSymIR (filter (fun inst => sym_identifier inst ≠ id) (sym_insts ir))
         (sym_n_fresh ir).

Definition is_compute (kind : OpKind) : bool :=
  match kind with
  | KCompute _ => true
  | _ => false
  end.

Definition sym_n_compute_inst (ir : SymIR) : nat :=
  length (filter (fun inst => is_compute (sym_kind inst) = true) (sym_insts ir)).

(** [ir.concretize(model)]. *)
Definition concretize_ir (model : Z3Model) (ir : SymIR) : GraphIR :=
  mkGraphIR
    (map (fun inst =>
            mkInstIR (sym_identifier inst)
              (mkAbsOp (sym_kind inst)
                 (map (concretize_tensor model) (sym_out_types inst)))
              (sym_args inst))
         (sym_insts ir))
    (sym_n_fresh ir).

(** The state of [SymbolicGen]: the solver is the list of its assertions. *)
Record SymGen : Type := mkSymGen {
  sym_ir : SymIR;
  sym_placeholders : list var;
  sym_max_elem_per_tensor : Z;
  monotonic_placeholder_id : nat;
  assertions : list Constraint;
  last_solution : option Z3Model
}.

(** [base_check_sat(solver, *assumptions)] followed by [solver.model()]:
    z3's answer on the assertions and the assumptions, [None] unless it is
    [sat]. *)
Variable check_sat : list Constraint -> list Constraint -> option Z3Model.

Definition sym_forward_insert_node (g : SymGen) (kind : OpKind)
    (out_types : list SymTensor) (input_vars : list var) : SymGen * SymInst :=
  let new_inst := mkSymInst (sym_n_fresh (sym_ir g)) kind out_types input_vars in
  (mkSymGen
     (mkSymIR (sym_insts (sym_ir g) ++ [new_inst]) (S (sym_n_fresh (sym_ir g))))
     (match kind with
      | KCompute _ => sym_placeholders g
      | _ => sym_placeholders g ++ [(sym_identifier new_inst, 0)]
      end)
     (sym_max_elem_per_tensor g) (monotonic_placeholder_id g)
     (assertions g) (last_solution g),
   new_inst).

Definition sym_backward_insert_node (g : SymGen) (kind : OpKind)
    (out_types : list SymTensor) (input_vars ph_to_replace : list var)
  : SymGen * SymInst :=
  let '(g, new_inst) := sym_forward_insert_node g kind out_types input_vars in
  (fold_left
     (fun g '(ph, rv) =>
        let ir1 := sym_replace_alluse (sym_ir g) ph rv in
        let ir2 := sym_remove_unused ir1 ph.1 in
        mkSymGen ir2 (remove_var ph (sym_placeholders g))
          (sym_max_elem_per_tensor g) (monotonic_placeholder_id g)
          (assertions g) (last_solution g))
     (zip ph_to_replace
        (map (fun k => (sym_identifier new_inst, k))
           (range 0 (length out_types))))
     g,
   new_inst).

(** [self.assume(c)] for every [c] of [constraints]. *)
Definition assume_all (g : SymGen) (constraints : list Constraint) : SymGen :=
  mkSymGen (sym_ir g) (sym_placeholders g) (sym_max_elem_per_tensor g)
    (monotonic_placeholder_id g) (assertions g ++ constraints)
    (last_solution g).

(** [SymbolicGen.check_sat]: a model is kept as [last_solution]. *)
Definition SymbolicGen_check_sat (g : SymGen) (constraints : list Constraint)
  : SymGen * bool :=
  match check_sat (assertions g) constraints with
  | Some model =>
      (mkSymGen (sym_ir g) (sym_placeholders g) (sym_max_elem_per_tensor g)
         (monotonic_placeholder_id g) (assertions g) (Some model), true)
  | None => (g, false)
  end.

(** [make_symbolic_placeholder]: the shape is made of the fresh symbols
    [ph<id>_<k>]. *)
Definition make_symbolic_placeholder (g : SymGen) (rank : nat) (dt : DType)
  : SymGen * SymTensor :=
  let id := monotonic_placeholder_id g in
  (mkSymGen (sym_ir g) (sym_placeholders g) (sym_max_elem_per_tensor g)
     (S id) (assertions g) (last_solution g),
   mkSymTensor
     (map (fun k =>
             DExpr (fun model =>
                      model ("ph" +:+ pretty id +:+ "_" +:+ pretty k)))
        (range 0 rank))
     dt).

Definition sym_var_type (g : SymGen) (vname : var) : result SymTensor :=
  match find (fun e : var * SymTensor => bool_decide (e.1 = vname))
          (sym_vars (sym_ir g)) with
  | Some e => Ok e.2
  | None => Raise KeyError
  end.

(** [SymbolicGen.try_forward_insert_at]. *)
Definition SymbolicGen_try_forward_insert_at (g : SymGen) (node : SymOp)
    (input_vars : list var) : result (SymGen * bool) :=
  itensors ← mapM (sym_var_type g) input_vars;
  constraints ← checked_requires node itensors;
  otensors ← checked_type_transfer node itensors;
  positive ← mapM (fun aten => gt_zero (sym_shape aten)) otensors;
  let constraints :=
    constraints ++ concat positive
    ++ flat_map (sym_tensor_type_constraints (sym_max_elem_per_tensor g))
         otensors in
  let '(g, sat) := SymbolicGen_check_sat g constraints in
  if sat : bool then
    let g := assume_all g constraints in
    Ok ((sym_forward_insert_node g (KCompute (sym_op_name node)) otensors
           input_vars).1, true)
  else Ok (g, false).

(** The constraints of [SymbolicGen.try_occupy_placeholder] on the new
    placeholders [itensors] and the outputs the operator infers from
    them. *)
Definition occupy_constraints (g : SymGen) (node : SymOp)
    (otensors itensors : list SymTensor)
  : result (list Constraint * list SymTensor) :=
  on_inputs ←
    mapM (fun t =>
            positive ← gt_zero (sym_shape t);
            Ok (positive
                ++ sym_tensor_type_constraints (sym_max_elem_per_tensor g) t))
         itensors;
  required ← checked_requires node itensors;
  inferred_otensors ← checked_type_transfer node itensors;
  on_outputs ←
    mapM (fun '(i, shape) =>
            o ← index otensors i;
            same ← shape_eq (sym_shape shape) (sym_shape o);
            positive ← gt_zero (sym_shape shape);
            Ok (same ++ positive))
         (imap (fun i shape => (i, shape)) inferred_otensors);
  Ok (concat on_inputs ++ required ++ concat on_outputs, inferred_otensors).

(** [SymbolicGen.try_occupy_placeholder]; the placeholder counter keeps
    its increments when the call raises afterwards. *)
Definition SymbolicGen_try_occupy_placeholder (g : SymGen) (node : SymOp)
    (phvars : list var) : SymGen * result bool :=
  match mapM (sym_var_type g) phvars with
  | Raise e => (g, Raise e)
  | Ok otensors =>
      let '(g, itensors) :=
        fold_left
          (fun '(g, itensors) '(rank, dt) =>
             let '(g, ph) := make_symbolic_placeholder g rank dt in
             (g, itensors ++ [ph]))
          (deduct_inp_ranks_and_dtype node otensors) (g, []) in
      match occupy_constraints g node otensors itensors with
      | Raise e => (g, Raise e)
      | Ok (constraints, inferred_otensors) =>
          let '(g, sat) := SymbolicGen_check_sat g constraints in
          if sat : bool then
            let g := assume_all g constraints in
            let '(g, input_vars) :=
              fold_left
                (fun '(g, input_vars) ph =>
                   let '(g, inst) :=
                     sym_forward_insert_node g KPlaceholder [ph] [] in
                   (g, input_vars ++ [(sym_identifier inst, 0)]))
                itensors (g, []) in
            ((sym_backward_insert_node g (KCompute (sym_op_name node))
                inferred_otensors input_vars phvars).1, Ok true)
          else (g, Ok false)
      end
  end.

(** One round of [try_insert_node_type] on the symbolic graph. *)
Inductive SymPick : Type :=
  | SymNotFound
  | SymForward (node : SymOp) (input_vars : list var)
  | SymBackward (node : SymOp) (phvars : list var).

Definition sym_try_pick (g : SymGen) (p : SymPick) : SymGen * outcome bool :=
  match p with
  | SymNotFound => (g, RequiredDimNotFound)
  | SymForward node input_vars =>
      match SymbolicGen_try_forward_insert_at g node input_vars with
      | Ok (g', b) => (g', Done b)
      | Raise e => (g, Error e)
      end
  | SymBackward node phvars =>
      let '(g', b) := SymbolicGen_try_occupy_placeholder g node phvars in
      (g', lift b)
  end.

Fixpoint sym_try_picks (g : SymGen) (picks : list SymPick)
  : result (SymGen * bool) :=
  match picks with
  | [] => Ok (g, false)
  | p :: rest =>
      match sym_try_pick g p with
      | (g', Done true) => Ok (g', true)
      | (g', Done false) => sym_try_picks g' rest
      | (g', RequiredDimNotFound) | (g', Error ConstraintError) => Ok (g', false)
      | (_, Error e) => Raise e
      end
  end.

(** [BaseGen.try_insert] of [SymbolicGen]. *)
Definition sym_try_insert (g : SymGen) (picks : list SymPick) : result SymGen :=
  '(g, _) ← sym_try_picks g (take 3 picks);
  Ok g.

Fixpoint sym_gen_loop (max_node_size : nat) (schedule : list (list SymPick))
    (g : SymGen) : result SymGen :=
  match schedule with
  | [] => Ok g
  | picks :: rest =>
      if sym_n_compute_inst (sym_ir g) <? max_node_size then
        g ← sym_try_insert g picks;
        sym_gen_loop max_node_size rest g
      else Ok g
  end.

Definition sym_determine_ph_type (g : SymGen) (ph : var) (to_inp : bool)
  : SymGen :=
  mkSymGen
    (mkSymIR
       (map (fun inst =>
               if sym_identifier inst =? ph.1
               then mkSymInst (sym_identifier inst)
                      (if to_inp then KInput else KConst)
                      (sym_out_types inst) (sym_args inst)
               else inst)
          (sym_insts (sym_ir g)))
       (sym_n_fresh (sym_ir g)))
    (sym_placeholders g) (sym_max_elem_per_tensor g)
    (monotonic_placeholder_id g) (assertions g) (last_solution g).

Definition sym_abstract_gen (max_node_size : nat)
    (schedule : list (list SymPick)) (coins : nat -> bool) (g : SymGen)
  : result SymGen :=
  if max_node_size =? 0 then Raise AssertionError
  else
    g ← sym_gen_loop max_node_size schedule g;
    match sym_placeholders g with
    | [] => Raise InternalError
    | ph0 :: phs =>
        let g := sym_determine_ph_type g ph0 true in
        Ok (fold_left (fun g '(k, ph) => sym_determine_ph_type g ph (coins k))
              (imap (fun k ph => (k, ph)) phs) g)
    end.

(** [SymbolicGen.__init__]. *)
Definition SymbolicGen_init (max_elem : Z) (symbolic_init : bool) (rank : nat)
    (dt : DType) (r : Rng) : result SymGen :=
  let g := mkSymGen (mkSymIR [] 0) [] max_elem 0 [] None in
  '(g, ttype) ←
    (if symbolic_init then Ok (make_symbolic_placeholder g rank dt)
     else
       '(ph, _) ← make_random_concrete_placeholder shuffle
                    (BaseGen_init max_elem) rank dt r;
       match out_types ph with
       | [t] => Ok (g, of_concrete t)
       | _ => Raise InternalError
       end);
  (* insert_init_ph_node *)
  let g := (sym_forward_insert_node g KPlaceholder [ttype] []).1 in
  positive ← sym_gt_conc_ge_zero (sym_shape ttype);
  let g := assume_all g positive in
  Ok (assume_all g (sym_tensor_type_constraints max_elem ttype)).

(** ** [model_gen] and the command line *)

Inductive Generator : Type :=
  | ConcreteGen (g : Gen)
  | SymbolicGen (g : SymGen).

(** [gen.make_concrete()]. *)
Definition make_concrete (gen : Generator) : result GraphIR :=
  match gen with
  | ConcreteGen g => Ok (ir g)
  | SymbolicGen g =>
      match last_solution g with
      | None => Raise InternalError
      | Some model => Ok (concretize_ir model (sym_ir g))
      end
  end.

(** What the random module and the time budget decide in a run: the rank
    and the element type of the first placeholder ([want] is
    [DType.float32 if init_fp else None], [random_dtype] the draw taken
    when it is [None]), the calls of [try_insert], and the draws that turn
    the remaining placeholders into inputs or constants. *)
Record Run : Type := mkRun {
  random_rank : nat;
  want : option DType;
  random_dtype : DType;
  schedule : list Move;
  sym_schedule : list (list SymPick);
  coins : nat -> bool
}.

Definition concrete_gen (m : Method) (record_finder : option OpRecordFinder)
    (max_elem : Z) (max_nodes : nat) (run : Run) (r : Rng) : result Generator :=
  match m, record_finder with
  | Concolic, _ =>
      '(g, r) ← ConcolicGen_init shuffle max_elem (random_rank run)
                  (default (random_dtype run) (want run)) r;
      g ← abstract_gen_of m (mkOpRecordFinder [] [] []) max_nodes
            (schedule run) (coins run) g r;
      Ok (ConcreteGen g)
  | _, None => Raise AssertionError
  | _, Some f =>
      '(g, r) ← DynoFuzzR_init shuffle max_elem f (random_rank run) (want run)
                  (random_dtype run) r;
      g ← abstract_gen_of m f max_nodes (schedule run) (coins run) g r;
      Ok (ConcreteGen g)
  end.

Definition symbolic_gen (symbolic_init : bool) (max_elem : Z) (max_nodes : nat)
    (run : Run) (r : Rng) : result Generator :=
  g ← SymbolicGen_init max_elem symbolic_init (random_rank run)
        (default (random_dtype run) (want run)) r;
  g ← sym_abstract_gen max_nodes (sym_schedule run) (coins run) g;
  Ok (SymbolicGen g).

Definition model_gen (method : string) (record_finder : option OpRecordFinder)
    (max_elem_per_tensor : Z) (max_nodes : nat) (run : Run) (r : Rng)
  : result Generator :=
  if max_nodes =? 0 then Raise AssertionError
  else if bool_decide (method = "symbolic" \/ method = "symbolic-sinit")
  then symbolic_gen true max_elem_per_tensor max_nodes run r
  else if bool_decide (method = "symbolic-cinit")
  then symbolic_gen false max_elem_per_tensor max_nodes run r
  else if bool_decide (method = "concolic")
  then concrete_gen Concolic record_finder max_elem_per_tensor max_nodes run r
  else if bool_decide (method = "dynofuzz-r")
  then concrete_gen RecordAssisted record_finder max_elem_per_tensor max_nodes
         run r
  else if bool_decide (method = "dynofuzz")
  then concrete_gen Hybrid record_finder max_elem_per_tensor max_nodes run r
  else if bool_decide (method = "dynofuzz-i")
  then concrete_gen RuleAssisted record_finder max_elem_per_tensor max_nodes
         run r
  else Raise ValueError.

Variable from_str : string -> result DType.

(** ["dynofuzz" in method]. *)
Definition uses_records (method : string) : bool :=
  match String.index 0 "dynofuzz" method with
  | Some _ => true
  | None => false
  end.

(** The generation and materialisation steps of [main] in
    [dynofuzz/cli/model_gen.py]: the record finder and the generator get
    the same [max_elem_per_tensor] of the configuration. *)
Definition main (gen_inst_records :
                   list (Instrument.OpInstance
                         * list (gmap string pyval * gmap string pyval)))
    (method : string) (max_elem_per_tensor : Z) (max_nodes : nat) (run : Run)
    (r : Rng) : result GraphIR :=
  record_finder ←
    (if uses_records method then
       f ← make_record_finder from_str gen_inst_records max_elem_per_tensor;
       Ok (Some f)
     else Ok None);
  gen ← model_gen method record_finder max_elem_per_tensor max_nodes run r;
  make_concrete gen.

End Drivers.

(** ** Properties *)

(** No attempt of the schedule inserts a node. *)
Definition no_insertion (schedule : list Attempt) : Prop :=
  Forall (fun a => match a with Inserted _ _ => False | _ => True end) schedule.

(** The generator after [__init__]: the graph holds the first placeholder,
    of type [t]. *)
Definition initial (max_elem : Z) (t : AbsTensor) : Gen :=
  (forward_insert_node (BaseGen_init max_elem) (Placeholder t) []).1.

(** A tensor within the cap; a graph whose instructions only have such
    output types; a generator on such a graph, with this cap. *)
Definition within_cap (max_elem : Z) (t : AbsTensor) : Prop :=
  (nelement t <= max_elem)%Z.

Definition ir_within_cap (max_elem : Z) (ir : GraphIR) : Prop :=
  Forall (fun inst => Forall (within_cap max_elem) (out_types (iexpr_op inst)))
    (insts ir).

Definition gen_within_cap (max_elem : Z) (g : Gen) : Prop :=
  max_elem_per_tensor g = max_elem /\ ir_within_cap max_elem (ir g).

(** A record finder all of whose tensors are within the cap. *)
Definition finder_within_cap (max_elem : Z) (f : OpRecordFinder) : Prop :=
  Forall (fun e => within_cap max_elem e.1) (producer f) /\
  Forall (fun e => within_cap max_elem e.1) (consumer f) /\
  Forall (fun e => Forall (fun rec : OpRecord =>
                             Forall (within_cap max_elem) rec.1.1 /\
                             Forall (within_cap max_elem) rec.1.2) e.2)
    (op2record f).

(** A model that makes every constraint of a list true. *)
Definition satisfied (model : Z3Model) (cs : list Constraint) : Prop :=
  Forall (fun c => c model = true) cs.

(** The symbolic generator: every model of the solver's assertions puts
    every tensor of the graph within the cap, and the last solution is such
    a model. *)
Definition sym_gen_within_cap (max_elem : Z) (g : SymGen) : Prop :=
  sym_max_elem_per_tensor g = max_elem /\
  (forall model, satisfied model (assertions g) ->
     Forall (fun inst =>
               Forall (fun t => within_cap max_elem (concretize_tensor model t))
                 (sym_out_types inst))
       (sym_insts (sym_ir g))) /\
  (forall model, last_solution g = Some model ->
     satisfied model (assertions g)).

Definition generator_within_cap (max_elem : Z) (gen : Generator) : Prop :=
  match gen with
  | ConcreteGen g => gen_within_cap max_elem g
  | SymbolicGen g => sym_gen_within_cap max_elem g
  end.

(** What z3 guarantees: a model it returns satisfies the assertions and
    the assumptions of the query. *)
Definition sound_solver
    (check_sat : list Constraint -> list Constraint -> option Z3Model) : Prop :=
  forall assertions assumptions model,
    check_sat assertions assumptions = Some model ->
    satisfied model (assertions ++ assumptions).

End GraphGen.

(* ===================================================================== *)
(** * Concrete databases, tree lists and graphs *)
(* ===================================================================== *)

Module Scenarios.

Import Tree.

(** ** Shape rules *)

(** The first trees of the enumeration: the literals and the slot [s0]. *)
Definition height0_trees : list (nat * Z * nat) :=
  [(0, 0%Z, 0); (0, 0%Z, 1); (0, 1%Z, 0)].

Definition height0_tree (depth : nat) (ArgSet : Z) (i : nat) : ArithExpTree :=
  if (ArgSet =? 0)%Z then Lit (Z.of_nat (S i)) else Arg 0.

(** The database of the given success set once analysed. *)
Definition analyzed (succ : list (list pyval * list pyval))
  : ApiParsing.OpDatabase :=
  match ApiParsing.analyze_symbol (ApiParsing.OpDatabase_init succ []) with
  | Ok db => db
  | Raise _ => ApiParsing.OpDatabase_init succ []
  end.

(** A unary operator that passes its shape through. *)
Definition relu_success : list (list pyval * list pyval) :=
  [([PInt 2; PInt 3], [PInt 2; PInt 3]); ([PInt 4; PInt 1], [PInt 4; PInt 1])].

Definition relu_db : ApiParsing.OpDatabase := analyzed relu_success.

(** An operator observed once with [s0 = 0] and once with [s0 = 3]. *)
Definition zero_db : ApiParsing.OpDatabase :=
  analyzed [([PInt 0], [PInt 5]); ([PInt 3], [PInt 3])].

(** C1 as stated: every admitted tree rule evaluates to the recorded
    output on every success record. *)
Definition every_record_predicted : Prop :=
  forall (cfg_zerofilter : bool) (timed_out : nat -> bool)
         (genTreeList : nat -> nat -> list (nat * Z * nat))
         (getTree : nat -> Z -> nat -> ArithExpTree)
         (db : ApiParsing.OpDatabase)
         (info : SymblIntSolve.RuleInfo ArithExpTree),
    SymblIntSolve.solve_inst ArithExpTree evaluate genTreeList getTree
      cfg_zerofilter timed_out db = Ok info ->
    forall o_id rules tree sym_set record expected val haszero,
      SymblIntSolve.output_rules info !! o_id = Some rules ->
      SymblIntSolve.TreeRule tree sym_set ∈ rules ->
      record ∈ ApiParsing.DB_success db ->
      record.2 !! o_id = Some expected ->
      SymblIntSolve.gather record.1 (Utils.mask_to_list sym_set)
        = Ok (val, haszero) ->
      evaluate tree val = Ok expected.

(** ** Input constraints *)

Import StrictInputSolve.

Definition s0_pos : Rule := mkRule (Arg 0) SGt.
Definition s0_gt1 : Rule := mkRule (Node OpSub (Arg 0) (Lit 1)) SGt.
Definition s0_ge1 : Rule := mkRule (Node OpSub (Arg 0) (Lit 1)) SGe.

(** The trees of height 0 and the difference [s0 - 1]. *)
Definition trees : list (nat * Z * nat) :=
  [(0, 0%Z, 0); (0, 0%Z, 1); (0, 1%Z, 0); (1, 1%Z, 0)].

Definition tree_of (depth : nat) (ArgSet : Z) (i : nat) : ArithExpTree :=
  if (ArgSet =? 0)%Z then Lit (Z.of_nat (S i))
  else if depth =? 0 then Arg 0 else Node OpSub (Arg 0) (Lit 1).

(** An operator valid at [s0 = 2] and [s0 = 3] and failing at [s0 = 0]. *)
Definition first_rule_db_success : list (list pyval * list pyval) :=
  [([PInt 2], [PInt 2]); ([PInt 3], [PInt 3])].

Definition first_rule_db_fail : list (list pyval) := [[PInt 0]].

(** The MatMul records of the specification, with the trees of height 0
    and the difference [s0 - s1]. *)
Definition matmul_trees : list (nat * Z * nat) :=
  [(0, 0%Z, 0); (0, 0%Z, 1); (0, 1%Z, 0); (1, 3%Z, 0)].

Definition matmul_tree (depth : nat) (ArgSet : Z) (i : nat) : ArithExpTree :=
  if (ArgSet =? 0)%Z then Lit (Z.of_nat (S i))
  else if (ArgSet =? 1)%Z then Arg 0 else Node OpSub (Arg 0) (Arg 1).

Definition matmul_success : list (list pyval * list pyval) :=
  [([PInt 3; PInt 4; PInt 4; PInt 5], [PInt 3; PInt 5]);
   ([PInt 2; PInt 7; PInt 7; PInt 1], [PInt 2; PInt 1])].

Definition matmul_fail : list (list pyval) :=
  [[PInt 3; PInt 4; PInt 5; PInt 5]].

(** An attribute observed valid at [0] and [3]; the mutator's probe [-2]
    failed. *)
Definition attr_success : list (list pyval * list pyval) :=
  [([PInt 0], [PInt 1]); ([PInt 3], [PInt 3])].

Definition attr_fail : list (list pyval) := [[PInt (-2)]].

(** C4 as stated: the synthesiser's result is that of the fail inputs whose
    values are all non-negative. *)
Definition only_nonneg_fail_used : Prop :=
  forall (equivalent : formula -> formula -> bool)
         (genTreeList : nat -> nat -> list (nat * Z * nat))
         (getTree : nat -> Z -> nat -> ArithExpTree)
         (timed_out : nat -> bool)
         (info_success : list (list pyval * list pyval))
         (info_fail fail : list (list pyval)),
    NnsmithRules.filter_fail info_fail = Ok fail ->
    solve_inst equivalent genTreeList getTree timed_out info_success info_fail
    = solve_inst equivalent genTreeList getTree timed_out info_success fail.

(** ** Dialect rules *)

(** An element-wise unary operator: one input, one output of the same
    shape, no requirement. *)
Definition unary : NnsmithRules.OpType bool :=
  NnsmithRules.mkOpType bool 1 1 false (fun ts => Ok ts) (fun _ => Ok []).

Definition relu_inst : Instrument.OpInstance :=
  Instrument.mkOpInstance "relu" "relu-0"
    [Instrument.mkAbsTensor 2 ["s0"; "s1"] "float32"]
    [Instrument.mkAbsTensor 2 ["o0"; "o1"] "float32"]
    (NnsmithRules.list_to_dict [PInt 2; PInt 3] "s")
    (NnsmithRules.list_to_dict [PInt 2; PInt 3] "o").

(** An oracle that rejects every assignment. *)
Definition no_oracle (inst : Instrument.OpInstance)
    (d : gmap string pyval) : list pyval * option (list pyval) := ([], None).

(** An oracle that accepts every assignment. *)
Definition yes_oracle (inst : Instrument.OpInstance)
    (d : gmap string pyval) : list pyval * option (list pyval) :=
  ([], Some []).

(** The broadcasting class seen on one input: it passes the shape through
    and requires nothing. *)
Definition bcast : NnsmithRules.OpType bool :=
  NnsmithRules.mkOpType bool 1 1 true (fun ts => Ok ts) (fun _ => Ok []).

(** C5 as stated: every matching class of the registry is in the output. *)
Definition every_match_reported : Prop :=
  forall (ATTR_FREE_RULES : list (NnsmithRules.OpType bool))
         (inst : Instrument.OpInstance)
         (success : list (list pyval * list pyval))
         (_fail fail : list (list pyval)) (res : list nat),
    NnsmithRules.filter_fail _fail = Ok fail ->
    NnsmithRules.solve_inst bool Bool.eqb no_oracle ATTR_FREE_RULES inst
      success _fail = Ok res ->
    forall ind op, ATTR_FREE_RULES !! ind = Some op ->
      NnsmithRules.matches bool Bool.eqb no_oracle inst success fail op ->
      ind ∈ res.

(** ** Graphs *)

Import GraphGen.

Definition small : AbsTensor := mkAbsTensor [2; 2]%Z "float32".
Definition big : AbsTensor := mkAbsTensor [1024; 1024]%Z "float32".

(** A graph with the default cap [2^16] holding one placeholder of type
    [small]. *)
Definition start : Gen := initial (2 ^ 16) small.

(** C9 as stated: with [max_nodes = 1] the graph is the single input
    placeholder. *)
Definition single_placeholder_returned : Prop :=
  forall (record_assisted : bool) (max_elem : Z) (t : AbsTensor)
         (schedule : list Attempt) (coins : nat -> bool) (g' : Gen),
    abstract_gen record_assisted 1 schedule coins (initial max_elem t)
      = Ok g' ->
    insts (ir g') = [mkInstIR 0 (mkAbsOp KInput [t]) []].

(** ** Generation runs *)

(** A unary operator with one record of shape [2, 3] and one of shape
    [1024, 1024]. *)
Definition abs_inst : Instrument.OpInstance :=
  Instrument.mkOpInstance "torch.abs" "torch.abs-0"
    [Instrument.mkAbsTensor 2 ["s0"; "s1"] "float32"]
    [Instrument.mkAbsTensor 2 ["o0"; "o1"] "float32"]
    (<["s0" := PInt 2]> (<["s1" := PInt 3]> ∅))
    (<["o0" := PInt 2]> (<["o1" := PInt 3]> ∅)).

Definition abs_records
  : list (Instrument.OpInstance
          * list (gmap string pyval * gmap string pyval)) :=
  [(abs_inst,
    [ (<["s0" := PInt 2]> (<["s1" := PInt 3]> ∅),
       <["o0" := PInt 2]> (<["o1" := PInt 3]> ∅));
      (<["s0" := PInt 1024]> (<["s1" := PInt 1024]> ∅),
       <["o0" := PInt 1024]> (<["o1" := PInt 1024]> ∅)) ])].

(** A shuffle that leaves the list as it is. *)
Definition keep_order {A} (l : list A) (r : Rng) : list A * Rng := (l, r).

(** A solver that only tries the model giving [v] to every symbol. *)
Definition constant_solver (v : Z) (assertions assumptions : list Constraint)
  : option Z3Model :=
  let model : Z3Model := fun _ => v in
  if forallb (fun c => c model) (assertions ++ assumptions) then Some model
  else None.

(** A run that asks for a record-matched forward and then backward
    insertion. *)
Definition abs_run : Run :=
  mkRun 2 None "float32" [mkMove RecordForward []; mkMove RecordBackward []]
    [] (fun _ => true).

Definition abs_graph : GraphIR :=
  mkGraphIR
    [ mkInstIR 1 (mkAbsOp (KCompute "torch.abs-0")
                    [mkAbsTensor [2; 3]%Z "float32"]) [(3, 0)];
      mkInstIR 2 (mkAbsOp KInput [mkAbsTensor [2; 3]%Z "float32"]) [];
      mkInstIR 3 (mkAbsOp (KCompute "torch.abs-0")
                    [mkAbsTensor [2; 3]%Z "float32"]) [(2, 0)] ]
    4.

(** An element-wise operator of the symbolic generator, and a run that
    inserts it forward and then backward. *)
Definition sym_relu : SymOp :=
  mkSymOp "relu"
    (fun ts => map (fun t => (length (sym_shape t), sym_dtype t)) ts)
    (fun _ => Ok []) (fun ts => Ok ts).

Definition sym_run : Run :=
  mkRun 2 None "float32" []
    [[SymForward sym_relu [(0, 0)]]; [SymBackward sym_relu [(0, 0)]]]
    (fun _ => true).

(** A run of the concolic generator whose first model has an output of
    shape [1024, 1024]. *)
Definition concolic_run : Run :=
  mkRun 2 None "float32"
    [mkMove NoBranch
       [ PickForward [(0, 0)] (Model "relu" [big]);
         PickForward [(0, 0)] (Model "relu" [mkAbsTensor [4; 4]%Z "float32"]) ]]
    [] (fun _ => true).

End Scenarios.

(* ===================================================================== *)
(** * Theorems *)
(* ===================================================================== *)

Module PyFacts.

Lemma bind_Ok {A B} (m : result A) (f : A -> result B) (b : B) :
  m ≫= f = Ok b -> exists a, m = Ok a /\ f a = Ok b.
Proof. destruct m as [a|e]; simpl; [eauto | discriminate]. Qed.

Lemma index_Ok {A} (l : list A) (i : nat) (x : A) :
  index l i = Ok x <-> l !! i = Some x.
Proof. unfold index. destruct (l !! i); split; congruence. Qed.

Lemma index_lt {A} (l : list A) (i : nat) :
  i < length l -> exists x, index l i = Ok x /\ l !! i = Some x.
Proof.
  intros Hi. destruct (lookup_lt_is_Some_2 l i Hi) as [x Hx].
  exists x. split; [by apply index_Ok | done].
Qed.

Lemma elem_of_range (a b i : nat) : i ∈ range a b <-> a <= i < b.
Proof. unfold range. rewrite elem_of_seq. lia. Qed.

(** A loop whose body never raises and establishes [R] step by step. *)
Lemma forM_acc {A S} (R : list A -> S -> Prop) (xs : list A)
    (body : A -> S -> result S) (s : S) :
  R [] s ->
  (forall pre x s, R pre s -> x ∈ xs ->
     exists s', body x s = Ok s' /\ R (pre ++ [x]) s') ->
  exists s', forM xs body s = Ok s' /\ R xs s'.
Proof.
  intros H0 Hstep.
  cut (forall pre s, R pre s ->
         (forall x, x ∈ xs -> True) ->
         exists s', forM xs body s = Ok s' /\ R (pre ++ xs) s').
  { intros Hc. apply (Hc [] s H0). done. }
  clear H0 s. revert Hstep.
  induction xs as [|x xs IH]; intros Hstep pre s HR _.
  - exists s. rewrite app_nil_r. done.
  - destruct (Hstep pre x s HR) as (s1 & Hb & HR1); [left|].
    simpl. rewrite Hb. simpl.
    destruct (IH) with (pre := pre ++ [x]) (s := s1) as (s' & Hf & HR'); auto.
    { intros pre' y s2 HR2 Hy. apply Hstep; [done | by right]. }
    exists s'. split; [done|]. by rewrite <- app_assoc in HR'.
Qed.

(** The same with a state invariant. *)
Lemma forM_total {A S} (P : S -> Prop) (xs : list A)
    (body : A -> S -> result S) (s : S) :
  P s ->
  (forall x s, P s -> x ∈ xs -> exists s', body x s = Ok s' /\ P s') ->
  exists s', forM xs body s = Ok s' /\ P s'.
Proof.
  intros H0 Hstep.
  apply (forM_acc (fun _ s => P s)); [done|].
  intros _ x s1 HP Hx. by apply Hstep.
Qed.

(** An invariant of a loop that may raise. *)
Lemma forM_inv {A S} (P : S -> Prop) (xs : list A)
    (body : A -> S -> result S) (s s' : S) :
  forM xs body s = Ok s' ->
  P s ->
  (forall x s s', x ∈ xs -> P s -> body x s = Ok s' -> P s') ->
  P s'.
Proof.
  revert s. induction xs as [|x xs IH]; intros s Hf HP Hstep; simpl in Hf.
  - by inversion Hf; subst.
  - apply bind_Ok in Hf as (s1 & Hb & Hf).
    apply (IH s1 Hf).
    + eapply Hstep; [left | done | done].
    + intros y s2 s3 Hy. apply Hstep. by right.
Qed.

Lemma mapM_Ok {A B} (f : A -> result B) (l : list A) (l' : list B) :
  mapM f l = Ok l' -> Forall2 (fun x y => f x = Ok y) l l'.
Proof.
  revert l'. induction l as [|x l IH]; intros l' H; simpl in H.
  - injection H as <-. constructor.
  - apply bind_Ok in H as (y & Hy & H). apply bind_Ok in H as (ys & Hys & H).
    injection H as <-. constructor; [done | by apply IH].
Qed.

Lemma mapM_Forall {A B} (P : B -> Prop) (f : A -> result B) (l : list A)
    (l' : list B) :
  mapM f l = Ok l' -> (forall x y, x ∈ l -> f x = Ok y -> P y) -> Forall P l'.
Proof.
  intros H Hf. apply mapM_Ok in H.
  induction H as [|x y l l' Hxy _ IH]; constructor.
  - apply (Hf x y); [left | done].
  - apply IH. intros x' y' Hx'. apply Hf. by right.
Qed.

End PyFacts.

Module ApiParsingFacts.

Import PyFacts ApiParsing.

Lemma alias_valid_spec (record_list : list (inputs_t * outputs_t)) (i j : nat) :
  (forall r, r ∈ record_list -> i < length r.1 /\ j < length r.1) ->
  exists b, alias_valid record_list i j = Ok b /\
    (b = true <-> forall r, r ∈ record_list -> r.1 !! i = r.1 !! j).
Proof.
  induction record_list as [|[inputs outputs] rest IH]; intros Hlen.
  - exists true. split; [done|]. split; [|done]. intros _ r Hr. by apply elem_of_nil in Hr.
  - destruct (Hlen (inputs, outputs)) as [Hi Hj]; [left|]. simpl in Hi, Hj.
    destruct (index_lt inputs i Hi) as (a & Ha & Ha').
    destruct (index_lt inputs j Hj) as (b & Hb & Hb').
    simpl. rewrite Ha. simpl. rewrite Hb. simpl.
    destruct (decide (a = b)) as [->|Hne].
    + destruct IH as (v & Hv & Hiff). { intros r Hr. apply Hlen. by right. }
      exists v. split; [done|]. rewrite Hiff. split.
      * intros H r Hr. apply elem_of_cons in Hr as [->|Hr]; [simpl; by rewrite Ha', Hb' | by apply H].
      * intros H r Hr. apply H. by right.
    + exists false. split; [done|]. split; [discriminate|].
      intros H. specialize (H (inputs, outputs)). simpl in H.
      exfalso. apply Hne. assert (Some a = Some b) by (rewrite <- Ha', <- Hb'; apply H; left).
      congruence.
Qed.

Lemma alias_loop_spec (record_list : list (inputs_t * outputs_t))
    (input_len : nat) (al0 : list (nat * nat)) :
  (forall r, r ∈ record_list -> length r.1 = input_len) ->
  exists al, alias_loop record_list input_len al0 = Ok al /\
    forall p, p ∈ al <->
      p ∈ al0 \/ (p.1 < p.2 /\ p.2 < input_len /\ alias_pair record_list p).
Proof.
  intros Hlen. unfold alias_loop.
  edestruct (forM_acc
    (fun pre (al : list (nat * nat)) => forall p, p ∈ al <->
       p ∈ al0 \/ (p.1 ∈ pre /\ p.1 < p.2 /\ p.2 < input_len /\
                   alias_pair record_list p))) as (al & Hal & Hspec);
    [| | exists al; split; [exact Hal|]].
  - intros p. split; [by left|]. intros [H|[H _]]; [done|]. by apply elem_of_nil in H.
  - intros pre i al Hpre Hi. apply elem_of_range in Hi.
    edestruct (forM_acc
      (fun prej (al' : list (nat * nat)) => forall p, p ∈ al' <->
         p ∈ al \/ (p.1 = i /\ p.2 ∈ prej /\ alias_pair record_list p)))
      as (al' & Hal' & Hspec'); [| | exists al'; split; [exact Hal'|]].
    + intros p. split; [by left|]. intros [H|(_ & H & _)]; [done|]. by apply elem_of_nil in H.
    + intros prej j al1 Hprej Hj. apply elem_of_range in Hj.
      destruct (alias_valid_spec record_list i j) as (b & Hb & Hiff).
      { intros r Hr. rewrite (Hlen r Hr). lia. }
      rewrite Hb. simpl. eexists. split; [reflexivity|].
      intros p. destruct b.
      * rewrite elem_of_app, Hprej, list_elem_of_singleton.
        assert (Hall : alias_pair record_list (i, j)) by (unfold alias_pair; simpl; by apply Hiff).
        split.
        -- intros [[H|(H1 & H2 & H3)]| ->].
           ++ by left.
           ++ right. rewrite elem_of_app. tauto.
           ++ right. simpl. rewrite elem_of_app, list_elem_of_singleton. tauto.
        -- intros [H|(H1 & H2 & H3)]; [tauto|].
           apply elem_of_app in H2 as [H2|H2]; [tauto|].
           apply list_elem_of_singleton in H2. right.
           destruct p as [p1 p2]. simpl in *. congruence.
      * rewrite Hprej. split.
        -- intros [H|(H1 & H2 & H3)]; [by left|]. right. rewrite elem_of_app. tauto.
        -- intros [H|(H1 & H2 & H3)]; [tauto|].
           apply elem_of_app in H2 as [H2|H2]; [tauto|].
           apply list_elem_of_singleton in H2.
           assert (false = true); [|discriminate]. apply Hiff.
           destruct p as [p1 p2]. unfold alias_pair in H3. simpl in *. by subst.
    + intros p. rewrite Hspec', Hpre. split.
      * intros [[H|H]|(H1 & H2 & H3)]; [by left| |].
        -- right. rewrite elem_of_app. tauto.
        -- right. apply elem_of_range in H2.
           rewrite elem_of_app, list_elem_of_singleton. repeat split; try tauto; lia.
      * intros [H|(H1 & H2 & H3 & H4)]; [tauto|].
        apply elem_of_app in H1 as [H1|H1]; [tauto|].
        apply list_elem_of_singleton in H1. right.
        rewrite elem_of_range. repeat split; try tauto; lia.
  - intros p. rewrite Hspec. split.
    + intros [H|(H1 & H2 & H3 & H4)]; [by left|]. tauto.
    + intros [H|(H1 & H2 & H3)]; [by left|]. right.
      rewrite elem_of_range. repeat split; try tauto; lia.
Qed.


Lemma set_add_at_ok (sets : list (gset nat)) (k x : nat) :
  k < length sets ->
  exists sets', set_add_at sets k x = Ok sets' /\ length sets' = length sets.
Proof.
  intros Hk. unfold set_add_at.
  destruct (lookup_lt_is_Some_2 sets k Hk) as [s ->].
  eexists. split; [reflexivity|]. by rewrite length_insert.
Qed.

Lemma add_loop_ok (sets : list (gset nat)) (ks : list nat)
    (f : nat -> nat) (n : nat) :
  length sets = n -> (forall k, k ∈ ks -> k < n) ->
  exists sets', forM ks (fun k s => set_add_at s k (f k)) sets = Ok sets' /\
    length sets' = n.
Proof.
  intros Hn Hks. apply (forM_total (fun s => length s = n)); [done|].
  intros k s Hs Hk. destruct (set_add_at_ok s k (f k)) as (s' & -> & Hl).
  { rewrite Hs. by apply Hks. }
  exists s'. split; [done | congruence].
Qed.

Lemma nonint_loop_ok (record_list : list (inputs_t * outputs_t))
    (unrel : list (gset nat)) :
  (forall r, r ∈ record_list -> length r.2 <= length unrel) ->
  exists unrel', nonint_loop record_list unrel = Ok unrel' /\
    length unrel' = length unrel.
Proof.
  intros Hlen. unfold nonint_loop.
  apply (forM_total (fun u => length u = length unrel)); [done|].
  intros [inputs outputs] u Hu Hr. specialize (Hlen _ Hr). simpl in Hlen.
  apply (forM_total (fun u => length u = length unrel)); [done|].
  intros j u1 Hu1 Hj. apply elem_of_range in Hj.
  destruct (index_lt inputs j) as (v & -> & _); [lia|]. simpl.
  destruct (isinstance_int v); [by exists u1|].
  apply (add_loop_ok u1 _ (fun _ => j)); [done|].
  intros k Hk. apply elem_of_range in Hk. lia.
Qed.

Lemma pair_body_ok (ri rj : inputs_t * outputs_t)
    (ru : list (gset nat) * list (gset nat)) (n : nat) :
  length ri.2 <= n -> length ru.1 = n -> length ru.2 = n ->
  exists ru', pair_body ri rj ru = Ok ru' /\
    length ru'.1 = n /\ length ru'.2 = n.
Proof.
  intros Hri H1 H2. unfold pair_body.
  set (diff := compare_array_diff ri.1 rj.1).
  set (cmp_len := length ri.2 `min` length rj.2).
  assert (Hrel : exists rel,
    (if (0 <? length diff) && (length diff <=? 3) then
       forM (range 0 cmp_len) (fun k rel =>
         a ← index ri.2 k;
         b ← index rj.2 k;
         if decide (a = b) then Ok rel
         else forM diff (fun argnum rel => set_add_at rel k argnum) rel) ru.1
     else Ok ru.1) = Ok rel /\ length rel = n).
  { destruct ((0 <? length diff) && (length diff <=? 3)); [|by exists ru.1].
    apply (forM_total (fun u => length u = n)); [done|].
    intros k u Hu Hk. apply elem_of_range in Hk. unfold cmp_len in Hk.
    destruct (index_lt ri.2 k) as (a & -> & _); [lia|].
    destruct (index_lt rj.2 k) as (b & -> & _); [lia|]. simpl.
    destruct (decide (a = b)); [by exists u|].
    apply (forM_total (fun u => length u = n)); [done|].
    intros x u1 Hu1 _. destruct (set_add_at_ok u1 k x) as (u2 & -> & Hl); [lia|].
    exists u2. split; [done | congruence]. }
  destruct Hrel as (rel & -> & Hrel). simpl.
  assert (Hun : exists unrel,
    (if length diff =? 1 then
       forM (range 0 cmp_len) (fun k unrel =>
         a ← index ri.2 k;
         b ← index rj.2 k;
         if decide (a = b) then
           d0 ← index diff 0;
           set_add_at unrel k d0
         else Ok unrel) ru.2
     else Ok ru.2) = Ok unrel /\ length unrel = n).
  { destruct (length diff =? 1) eqn:Hd; [|by exists ru.2].
    apply Nat.eqb_eq in Hd.
    apply (forM_total (fun u => length u = n)); [done|].
    intros k u Hu Hk. apply elem_of_range in Hk. unfold cmp_len in Hk.
    destruct (index_lt ri.2 k) as (a & -> & _); [lia|].
    destruct (index_lt rj.2 k) as (b & -> & _); [lia|]. simpl.
    destruct (decide (a = b)); [|by exists u].
    destruct (index_lt diff 0) as (d0 & -> & _); [lia|]. simpl.
    destruct (set_add_at_ok u k d0) as (u2 & -> & Hl); [lia|].
    exists u2. split; [done | congruence]. }
  destruct Hun as (unrel & -> & Hun). simpl.
  by exists (rel, unrel).
Qed.

Lemma pair_loop_ok (record_list : list (inputs_t * outputs_t))
    (ru : list (gset nat) * list (gset nat)) (n : nat) :
  (forall r, r ∈ record_list -> length r.2 <= n) ->
  length ru.1 = n -> length ru.2 = n ->
  exists ru', pair_loop record_list ru = Ok ru'.
Proof.
  intros Hlen H1 H2. unfold pair_loop.
  destruct (forM_total (fun ru => length ru.1 = n /\ length ru.2 = n)
              (range 0 (length record_list))
              (fun i ru =>
                 forM (range (i + 1) (length record_list)) (fun j ru =>
                   ri ← index record_list i;
                   rj ← index record_list j;
                   pair_body ri rj ru) ru) ru) as (ru' & Hru' & _);
    [done| |by exists ru'].
  intros i ru1 Hru1 Hi. apply elem_of_range in Hi.
  apply (forM_total (fun ru => length ru.1 = n /\ length ru.2 = n)); [done|].
  intros j ru2 [Ha Hb] Hj. apply elem_of_range in Hj.
  destruct (index_lt record_list i) as (ri & -> & Hri); [lia|].
  destruct (index_lt record_list j) as (rj & -> & Hrj); [lia|]. simpl.
  apply pair_body_ok; [|done|done].
  apply Hlen. by eapply list_elem_of_lookup_2.
Qed.

Lemma output_len_ge (record_list : list (inputs_t * outputs_t)) :
  forall r, r ∈ record_list ->
    length r.2 <= foldr max 0 (map (fun item => length item.2) record_list).
Proof.
  induction record_list as [|r0 rest IH]; intros r Hr.
  - by apply elem_of_nil in Hr.
  - simpl. apply elem_of_cons in Hr as [->|Hr]; [lia|].
    specialize (IH r Hr). lia.
Qed.

(** C6. After [analyze_symbol] on a freshly loaded database whose success
    set is not empty and whose records have one input arity, a pair
    [(i, j)] of input-symbol indices with [i < j] is in [aliases] if and
    only if positions [i] and [j] hold equal values in every success
    record. *)
Theorem analyze_symbol_aliases (succ : list (inputs_t * outputs_t))
    (fl : list inputs_t) (input_len : nat) :
  succ <> [] ->
  (forall r, r ∈ succ -> length r.1 = input_len) ->
  exists db', analyze_symbol (OpDatabase_init succ fl) = Ok db' /\
    forall i j, i < j -> j < input_len ->
      ((i, j) ∈ aliases db' <-> forall r, r ∈ succ -> r.1 !! i = r.1 !! j).
Proof.
  intros Hne Hlen. unfold analyze_symbol. simpl.
  destruct succ as [|r0 rest] eqn:Hs; [done|]. rewrite <- Hs in *.
  assert (Hr0 : index succ 0 = Ok r0) by (by rewrite Hs).
  rewrite Hr0. simpl.
  assert (H0 : length r0.1 = input_len) by (apply Hlen; rewrite Hs; left).
  rewrite H0.
  destruct (alias_loop_spec succ input_len [] Hlen) as (al & -> & Hal). simpl.
  set (n := foldr max 0 (map (fun item => length item.2) succ)).
  destruct (nonint_loop_ok succ (replicate n ∅)) as (u & -> & Hu).
  { intros r Hr. rewrite length_replicate. by apply output_len_ge. }
  simpl. rewrite length_replicate in Hu.
  destruct (pair_loop_ok succ (replicate n ∅, u) n) as (ru & ->).
  { intros r Hr. by apply output_len_ge. }
  { simpl. by rewrite length_replicate. }
  { done. }
  simpl. eexists. split; [reflexivity|]. simpl.
  intros i j Hij Hj. rewrite Hal. unfold alias_pair. simpl. split.
  - intros [H|(_ & _ & H)]; [by apply elem_of_nil in H | done].
  - intros H. right. done.
Qed.

(** A database of two records over three input symbols. *)
Lemma analyze_symbol_aliases_witness :
  exists db',
    analyze_symbol
      (OpDatabase_init
         [([PInt 3; PInt 4; PInt 4], [PInt 3]);
          ([PInt 2; PInt 7; PInt 7], [PInt 2])] []) = Ok db' /\
    forall i j, i < j -> j < 3 ->
      ((i, j) ∈ aliases db' <->
       forall r, r ∈ [([PInt 3; PInt 4; PInt 4], [PInt 3]);
                      ([PInt 2; PInt 7; PInt 7], [PInt 2])] ->
         r.1 !! i = r.1 !! j).
Proof.
  apply (analyze_symbol_aliases _ [] 3); [done|].
  intros r Hr. repeat (apply elem_of_cons in Hr as [->|Hr]; [reflexivity|]).
  by apply elem_of_nil in Hr.
Defined.

End ApiParsingFacts.

Module MutateFacts.

Import PyFacts ApiParsing Instrument.

Lemma sym_inj (name : string) (i j : nat) : sym name i = sym name j -> i = j.
Proof.
  unfold sym. intros H. apply (inj (String.app name)) in H.
  by apply (inj pretty) in H.
Qed.

Section Probes.

Variable input_validity_test :
  OpInstance -> gmap string pyval -> inputs_t * option outputs_t.

Lemma add_new_input_calls (inst : OpInstance) (d : gmap string pyval)
    (output_len : nat) (st : MState) :
  st_calls (add_new_input input_validity_test inst d output_len st)
  = st_calls st ++ [d].
Proof.
  unfold add_new_input, record_probe.
  by destruct (input_validity_test inst d).
Qed.

(** A loop whose body appends the calls [f x] appends them for every
    element, in order. *)
Lemma forM_calls {A} (f : A -> list (gmap string pyval)) (xs : list A)
    (body : A -> MState -> result MState) (st : MState) :
  (forall x s1, x ∈ xs ->
     exists s2, body x s1 = Ok s2 /\ st_calls s2 = st_calls s1 ++ f x) ->
  exists st', forM xs body st = Ok st' /\
    st_calls st' = st_calls st ++ flat_map f xs.
Proof.
  intros Hbody.
  apply (forM_acc (fun pre s => st_calls s = st_calls st ++ flat_map f pre)).
  - by rewrite app_nil_r.
  - intros pre x s1 Hs Hx. destruct (Hbody x s1 Hx) as (s2 & Hb & Hc).
    exists s2. split; [done|].
    rewrite Hc, Hs, flat_map_app. simpl.
    by rewrite app_nil_r, <- app_assoc.
Qed.

(** A loop whose body only appends calls only appends calls. *)
Lemma forM_extends {A} (xs : list A) (body : A -> MState -> result MState)
    (st : MState) :
  (forall x s1, x ∈ xs ->
     exists s2 new, body x s1 = Ok s2 /\ st_calls s2 = st_calls s1 ++ new) ->
  exists st' new, forM xs body st = Ok st' /\
    st_calls st' = st_calls st ++ new.
Proof.
  intros Hbody.
  destruct (forM_total (fun s => exists new, st_calls s = st_calls st ++ new)
              xs body st) as (st' & Hf & new & Hn).
  - exists []. by rewrite app_nil_r.
  - intros x s1 [new Hn] Hx. destruct (Hbody x s1 Hx) as (s2 & new2 & Hb & Hc).
    exists s2. split; [done|]. exists (new ++ new2).
    by rewrite Hc, Hn, <- app_assoc.
  - by exists st', new.
Qed.

Lemma mutateTarget_dict_total (d : gmap string pyval) (mutateMask delta : Z) :
  (forall k, k < size d -> exists v, d !! sym "s" k = Some (PInt v)) ->
  exists d', mutateTarget_dict d mutateMask delta = Ok d'.
Proof.
  intros Hint. unfold mutateTarget_dict.
  destruct (forM_total
    (fun d1 : gmap string pyval =>
       forall k, k < size d -> exists v, d1 !! sym "s" k = Some (PInt v))
    (range 0 (size d))
    (fun argNum d1 =>
       if bit_set mutateMask argNum then
         v ← getitem d1 (sym "s" argNum);
         v' ← add_int v delta;
         Ok (<[sym "s" argNum := v']> d1)
       else Ok d1) d) as (d' & Hf & _); [done| |by exists d'].
  intros x d1 Hd1 Hx. apply elem_of_range in Hx.
  destruct (bit_set mutateMask x); [|by exists d1].
  destruct (Hd1 x ltac:(lia)) as [v Hv]. unfold getitem. rewrite Hv. simpl.
  eexists. split; [done|]. intros k Hk.
  destruct (decide (k = x)) as [->|Hne].
  - rewrite lookup_insert_eq. by eexists.
  - rewrite lookup_insert_ne; [by apply Hd1|].
    intros Heq. by apply sym_inj in Heq.
Qed.

Lemma mutateTarget_add_extends (inst : OpInstance) (d : gmap string pyval)
    (mask delta : Z) (output_len : nat) (st : MState) :
  (forall k, k < size d -> exists v, d !! sym "s" k = Some (PInt v)) ->
  exists st' new,
    mutateTarget_add input_validity_test inst d mask delta output_len st
      = Ok st' /\
    st_calls st' = st_calls st ++ new.
Proof.
  intros Hint. unfold mutateTarget_add.
  destruct (mutateTarget_dict_total d mask delta Hint) as [d' ->]. simpl.
  eexists. exists [d']. split; [done|].
  unfold record_probe. by destruct (input_validity_test inst d').
Qed.

Lemma mutate_single_calls (inst : OpInstance) (d : gmap string pyval)
    (output_len i : nat) (st : MState) :
  exists st',
    mutate_single input_validity_test inst d output_len i st = Ok st' /\
    st_calls st' = st_calls st ++ single_probes inst d i.
Proof.
  unfold mutate_single, single_probes.
  destruct (decide (sym "s" i ∈ I inst)).
  - exists st. by rewrite app_nil_r.
  - eexists. split; [done|].
    rewrite !add_new_input_calls, insert_insert_eq.
    by rewrite <- app_assoc.
Qed.

(** The pairwise step on [s_i] and [s_j], both holding integers. *)
Lemma mutate_pair_calls (inst : OpInstance) (d : gmap string pyval)
    (output_len i j : nat) (st : MState) (a b : Z) :
  i <> j ->
  d !! sym "s" i = Some (PInt a) ->
  d !! sym "s" j = Some (PInt b) ->
  exists st',
    mutate_pair input_validity_test inst d output_len i j st = Ok st' /\
    st_calls st' = st_calls st ++ pair_probes d i j.
Proof.
  intros Hij Hi Hj.
  assert (Hne : sym "s" i <> sym "s" j) by (intros H; by apply sym_inj in H).
  unfold mutate_pair, pair_probes, getitem. rewrite Hi, Hj. simpl.
  destruct (decide (PInt a = PInt b)) as [Heq|Hneq].
  - inversion Heq; subst b. simpl.
    rewrite lookup_insert_eq. rewrite lookup_insert_ne by done. rewrite Hi. simpl.
    eexists. split; [reflexivity|].
    rewrite decide_True by done.
    rewrite !add_new_input_calls, <- app_assoc. simpl. do 3 f_equal.
    apply map_eq. intros k.
    destruct (decide (k = sym "s" j)) as [->|Hj'].
    { rewrite lookup_insert_eq, lookup_insert_ne by done.
      by rewrite lookup_insert_eq. }
    rewrite (lookup_insert_ne _ (sym "s" j)) by done.
    destruct (decide (k = sym "s" i)) as [->|Hi'].
    { by rewrite !lookup_insert_eq. }
    by rewrite !lookup_insert_ne by done.
  - simpl. rewrite Hi, Hj. simpl.
    eexists. split; [reflexivity|].
    rewrite decide_False by congruence.
    rewrite add_new_input_calls. do 2 f_equal.
    apply map_eq. intros k.
    destruct (decide (k = sym "s" j)) as [->|Hj'].
    { rewrite lookup_insert_eq, lookup_insert_ne by done.
      by rewrite lookup_insert_eq. }
    rewrite (lookup_insert_ne _ (sym "s" j)) by done.
    destruct (decide (k = sym "s" i)) as [->|Hi'].
    { by rewrite !lookup_insert_eq. }
    by rewrite !lookup_insert_ne by done.
Qed.


End Probes.


(** The fifth and sixth calls of [mutate] on the record [s0 = 4, s1 = 4],
    after the four one-symbol probes: the swap probe carries [s0 = 5] and
    [s1 = 4]. *)
Example swap_probe_on_equal_values :
  match mutate (fun _ _ => ([], None)) (mkOpInstance "add" "add-0" [] [] ∅ ∅)
          (<[sym "s" 1 := PInt 4]> (<[sym "s" 0 := PInt 4]> ∅), ∅)
          (mkMState (OpDatabase_init [] []) []) with
  | Ok st' => map (fun d : gmap string pyval => (d !! "s0", d !! "s1"))
                (take 2 (drop 4 (st_calls st')))
  | Raise _ => []
  end = [ (Some (PInt 4), Some (PInt 5)); (Some (PInt 5), Some (PInt 4)) ].
Proof. vm_compute. reflexivity. Qed.

Example swap_probe_on_different_values :
  match mutate (fun _ _ => ([], None)) (mkOpInstance "add" "add-0" [] [] ∅ ∅)
          (<[sym "s" 1 := PInt 7]> (<[sym "s" 0 := PInt 4]> ∅), ∅)
          (mkMState (OpDatabase_init [] []) []) with
  | Ok st' => map (fun d : gmap string pyval => (d !! "s0", d !! "s1"))
                (take 1 (drop 4 (st_calls st')))
  | Raise _ => []
  end = [ (Some (PInt 7), Some (PInt 4)) ].
Proof. vm_compute. reflexivity. Qed.

End MutateFacts.

Module SymblIntSolveFacts.

Import PyFacts ApiParsing Utils SymblIntSolve.

Section Predict.

Variable Tree : Type.
Variable evaluate : Tree -> list pyval -> result pyval.
Variable genTreeList : nat -> nat -> list (nat * Z * nat).
Variable getTree : nat -> Z -> nat -> Tree.
Variable cfg_zerofilter : bool.
Variable timed_out : nat -> bool.

#[local] Abbreviation rule_predicts :=
  (SymblIntSolve.rule_predicts Tree evaluate cfg_zerofilter).
#[local] Abbreviation rules_predict :=
  (SymblIntSolve.rules_predict Tree evaluate cfg_zerofilter).

Lemma check_records_valid (tree : Tree) (sym_set : Z) (o_id : nat)
    (record_list : list (inputs_t * outputs_t)) (alo b : bool) :
  check_records Tree evaluate cfg_zerofilter tree (mask_to_list sym_set) o_id
    record_list alo = Ok (true, b) ->
  forall record, record ∈ record_list ->
    rule_predicts (TreeRule tree sym_set) o_id record.
Proof.
  revert alo. induction record_list as [|[inputs outputs] rest IH];
    intros alo Hc record Hr.
  - by apply elem_of_nil in Hr.
  - simpl in Hc. destruct (outputs !! o_id) as [expectedVal|] eqn:Ho.
    + apply bind_Ok in Hc as ([val haszero] & Hg & Hc).
      destruct (negb cfg_zerofilter || negb haszero) eqn:Hz.
      * apply bind_Ok in Hc as (v & Hv & Hc).
        destruct (decide (v = expectedVal)) as [->|Hne]; [|by inversion Hc].
        apply elem_of_cons in Hr as [->|Hr]; [|by eapply IH].
        intros expected He. simpl in He. rewrite Ho in He. inversion He; subst.
        exists val, haszero. by split.
      * apply elem_of_cons in Hr as [->|Hr]; [|by eapply IH].
        intros expected He. exists val, haszero. split; [done|].
        intros Hf. destruct cfg_zerofilter, haszero; discriminate.
    + apply elem_of_cons in Hr as [->|Hr]; [|by eapply IH].
      intros expected He. simpl in He. congruence.
Qed.

Lemma rules_predict_insert (record_list : list (inputs_t * outputs_t))
    (vts : list (list (ShapeRule Tree))) (o_id : nat)
    (rules : list (ShapeRule Tree)) (rule : ShapeRule Tree) :
  rules_predict record_list vts ->
  vts !! o_id = Some rules ->
  (forall record, record ∈ record_list -> rule_predicts rule o_id record) ->
  rules_predict record_list (<[o_id := rules ++ [rule]]> vts).
Proof.
  intros Hinv Hl Hnew o rs r record Hlook Hin Hrec.
  apply list_lookup_insert_Some in Hlook as [(-> & <- & _)|[Hne Hlook]].
  - apply elem_of_app in Hin as [Hin|Hin].
    + by eapply Hinv.
    + apply list_elem_of_singleton in Hin as ->. by apply Hnew.
  - by eapply Hinv.
Qed.

Lemma try_sym_set_predict (db : OpDatabase) (tree : Tree) (o_id : nat)
    (sym_set : Z) (vts vts' : list (list (ShapeRule Tree))) :
  try_sym_set Tree evaluate cfg_zerofilter db tree o_id sym_set vts = Ok vts' ->
  rules_predict (DB_success db) vts ->
  rules_predict (DB_success db) vts'.
Proof.
  unfold try_sym_set. intros H Hinv.
  destruct (check_duplicate_sym db sym_set); [by inversion H; subst|].
  apply bind_Ok in H as ([valid alo] & Hc & H).
  destruct valid; simpl in H; [|by inversion H; subst].
  destruct alo; simpl in H; [|by inversion H; subst].
  apply bind_Ok in H as (rules & Hi & H). inversion H; subst.
  apply index_Ok in Hi.
  apply rules_predict_insert; [done | done |].
  by eapply check_records_valid.
Qed.

Lemma try_output_predict (db : OpDatabase) (input_len : nat) (tree : Tree)
    (sym_count o_id : nat) (st st' : list (list (ShapeRule Tree)) * bool) :
  try_output Tree evaluate cfg_zerofilter db input_len tree sym_count o_id st
    = Ok st' ->
  rules_predict (DB_success db) st.1 ->
  rules_predict (DB_success db) st'.1.
Proof.
  unfold try_output. intros H Hinv.
  apply bind_Ok in H as (rules & _ & H).
  destruct (1 <=? length rules); [by inversion H; subst|].
  apply bind_Ok in H as (vts & Hf & H). inversion H; subst. simpl.
  eapply (forM_inv (rules_predict (DB_success db))); [exact Hf | done |].
  intros sym_set s s' _ Hs Hb. by eapply try_sym_set_predict.
Qed.

Lemma tree_loop_predict (db : OpDatabase) (input_len output_len : nat)
    (trees : list (nat * Z * nat)) (tried tried' : nat)
    (vts vts' : list (list (ShapeRule Tree))) :
  tree_loop Tree evaluate getTree cfg_zerofilter timed_out db input_len
    output_len trees tried vts = Ok (vts', tried') ->
  rules_predict (DB_success db) vts ->
  rules_predict (DB_success db) vts'.
Proof.
  revert tried vts. induction trees as [|[[depth ArgSet] i] rest IH];
    intros tried vts H Hinv; simpl in H.
  - by inversion H; subst.
  - apply bind_Ok in H as ([vts1 happen] & Hf & H).
    assert (H1 : rules_predict (DB_success db) (vts1, happen).1).
    { eapply (forM_inv (fun st => rules_predict (DB_success db) st.1));
        [exact Hf | done |].
      intros o s s' _ Hs Hb. by eapply try_output_predict. }
    simpl in H1.
    destruct happen; simpl in H; [|by inversion H; subst].
    destruct (timed_out (S tried)); [by inversion H; subst|].
    by eapply IH.
Qed.

Lemma rank_valid_spec (record_list : list (inputs_t * outputs_t))
    (o_id input_len : nat) :
  rank_valid record_list o_id input_len = true ->
  forall record expected, record ∈ record_list ->
    record.2 !! o_id = Some expected -> expected = PInt (Z.of_nat input_len).
Proof.
  induction record_list as [|[inputs outputs] rest IH]; intros H record e Hr He.
  - by apply elem_of_nil in Hr.
  - simpl in H. destruct (outputs !! o_id) as [v|] eqn:Ho.
    + destruct (decide (v = PInt (Z.of_nat input_len))) as [->|]; [|done].
      apply elem_of_cons in Hr as [->|Hr]; [|by eapply IH].
      simpl in He. congruence.
    + apply elem_of_cons in Hr as [->|Hr]; [|by eapply IH].
      simpl in He. congruence.
Qed.

Lemma rank_fallback_predict (record_list : list (inputs_t * outputs_t))
    (input_len o_id : nat) (vts vts' : list (list (ShapeRule Tree))) :
  rank_fallback Tree record_list input_len o_id vts = Ok vts' ->
  rules_predict record_list vts ->
  rules_predict record_list vts'.
Proof.
  unfold rank_fallback. intros H Hinv.
  apply bind_Ok in H as (rules & Hi & H). apply index_Ok in Hi.
  destruct (1 <=? length rules); [by inversion H; subst|].
  destruct (rank_valid record_list o_id input_len) eqn:Hv;
    inversion H; subst; [|done].
  apply rules_predict_insert; [done | done |].
  intros record Hr expected He. by eapply rank_valid_spec.
Qed.

(** C1, as the synthesiser admits rules. Every rule in the list of output
    [o_k] predicts the observed [o_k] on every success record that has an
    [o_k] and that the zero filter does not skip: the tree evaluated on the
    record's values at the rule's symbol subset equals the record's [o_k];
    with the zero filter disabled this is every such record. *)
Theorem solve_inst_rules_predict (db : OpDatabase) (info : RuleInfo Tree) :
  solve_inst Tree evaluate genTreeList getTree cfg_zerofilter timed_out db
    = Ok info ->
  forall o_id rules rule record,
    output_rules info !! o_id = Some rules -> rule ∈ rules ->
    record ∈ DB_success db ->
    rule_predicts rule o_id record.
Proof.
  unfold solve_inst. intros H.
  apply bind_Ok in H as (r0 & _ & H).
  apply bind_Ok in H as ([vts tried] & Ht & H).
  apply bind_Ok in H as (vts' & Hf & H). inversion H; subst. simpl.
  assert (H0 : rules_predict (DB_success db)
                 (replicate (length (unrelated db)) [])).
  { intros o rs r record Hl Hin _. apply lookup_replicate in Hl as [-> _].
    by apply elem_of_nil in Hin. }
  assert (H1 : rules_predict (DB_success db) vts)
    by (by eapply tree_loop_predict).
  assert (H2 : rules_predict (DB_success db) vts').
  { eapply (forM_inv (rules_predict (DB_success db))); [exact Hf | done |].
    intros o s s' _ Hs Hb. by eapply rank_fallback_predict. }
  exact H2.
Qed.

End Predict.


(** ** Concrete runs over the trees of height 0 *)

Import Tree Scenarios.

Example relu_rules :
  output_rules <$>
    match solve_inst ArithExpTree evaluate (fun _ _ => height0_trees)
            height0_tree false (fun _ => false) relu_db with
    | Ok info => Some info
    | Raise _ => None
    end
  = Some [[TreeRule (Arg 0) 1]; [TreeRule (Arg 0) 2]].
Proof. vm_compute. reflexivity. Qed.

Lemma solve_inst_rules_predict_witness :
  rule_predicts ArithExpTree evaluate false (TreeRule (Arg 0) 2) 1
    ([PInt 4; PInt 1], [PInt 4; PInt 1]).
Proof.
  apply (solve_inst_rules_predict ArithExpTree evaluate
            (fun _ _ => height0_trees) height0_tree false (fun _ => false)
            relu_db
            (mkRuleInfo 2 2 [[TreeRule (Arg 0) 1]; [TreeRule (Arg 0) 2]] 3)
            ltac:(vm_compute; reflexivity) 1 [TreeRule (Arg 0) 2]).
  - reflexivity.
  - left.
  - right. left.
Defined.

(** With the zero filter enabled the rule [o0 = s0] is admitted on
    [zero_db], whose first record has [s0 = 0] and [o0 = 5]. *)
Lemma every_record_predicted_fails : ~ every_record_predicted.
Proof.
  intros H.
  specialize (H true (fun _ => false) (fun _ _ => height0_trees) height0_tree
                zero_db
                (mkRuleInfo 1 2 [[TreeRule (Arg 0) 1]] 3)).
  specialize (H ltac:(vm_compute; reflexivity)
                0 [TreeRule (Arg 0) 1] (Arg 0) 1%Z
                ([PInt 0], [PInt 5]) (PInt 5) [PInt 0] true).
  specialize (H eq_refl ltac:(left) ltac:(left) eq_refl eq_refl).
  discriminate H.
Qed.

End SymblIntSolveFacts.

Module StrictInputSolveFacts.

Import PyFacts ApiParsing Utils Tree StrictInputSolve.

Lemma select_lookup (inputs : inputs_t) (sym_list : list nat)
    (val : list pyval) (i : nat) (v : pyval) :
  select inputs sym_list = Ok val -> val !! i = Some v ->
  exists a, sym_list !! i = Some a /\ inputs !! a = Some v.
Proof.
  revert val i. induction sym_list as [|a rest IH]; intros val i Hs Hv;
    simpl in Hs.
  - inversion Hs; subst. done.
  - apply bind_Ok in Hs as (x & Hx & Hs).
    apply bind_Ok in Hs as (val' & Hval' & Hs). inversion Hs; subst.
    apply index_Ok in Hx. destruct i as [|i]; simpl in *.
    + inversion Hv; subst. by exists a.
    + by eapply IH.
Qed.

Lemma evaluate_remap (tree : ArithExpTree) (inputs : inputs_t)
    (sym_list : list nat) (val : list pyval) (v : pyval) :
  select inputs sym_list = Ok val ->
  evaluate tree val = Ok v ->
  evaluate (remap tree sym_list) inputs = Ok v.
Proof.
  intros Hs. revert v. induction tree as [c|i|op l IHl r IHr]; intros v He;
    simpl in *.
  - done.
  - apply index_Ok in He.
    destruct (select_lookup _ _ _ _ _ Hs He) as (a & -> & Ha). simpl.
    by apply index_Ok.
  - apply bind_Ok in He as (a & Ha & He).
    apply bind_Ok in He as (b & Hb & He).
    rewrite (IHl _ Ha). simpl. rewrite (IHr _ Hb). simpl. done.
Qed.

Lemma eval_record_remap (tree : ArithExpTree) (sign : Sign)
    (sym_list : list nat) (inputs : inputs_t) (b : bool) :
  eval_record tree sign sym_list inputs = Ok b ->
  holds_on (mkRule (remap tree sym_list) sign) inputs = Ok b.
Proof.
  unfold eval_record, holds_on. intros H.
  apply bind_Ok in H as (val & Hs & H).
  apply bind_Ok in H as (v & Hv & H). simpl.
  by rewrite (evaluate_remap _ _ _ _ _ Hs Hv).
Qed.

Lemma all_hold_spec (valid_list : list inputs_t) (sym_list : list nat)
    (tree : ArithExpTree) (sign : Sign) :
  all_hold valid_list sym_list tree sign = Ok true ->
  forall inputs, inputs ∈ valid_list ->
    eval_record tree sign sym_list inputs = Ok true.
Proof.
  induction valid_list as [|x rest IH]; intros H inputs Hin.
  - by apply elem_of_nil in Hin.
  - simpl in H. apply bind_Ok in H as (res & Hres & H).
    destruct res; [|discriminate].
    apply elem_of_cons in Hin as [->|Hin]; [done | by apply IH].
Qed.

Lemma some_fails_spec (invalid_list : list inputs_t) (sym_list : list nat)
    (tree : ArithExpTree) (sign : Sign) :
  some_fails invalid_list sym_list tree sign = Ok true ->
  exists inputs, inputs ∈ invalid_list /\
    eval_record tree sign sym_list inputs = Ok false.
Proof.
  induction invalid_list as [|x rest IH]; intros H; simpl in H; [discriminate|].
  apply bind_Ok in H as (res & Hres & H). destruct res.
  - destruct (IH H) as (inputs & Hin & He). exists inputs. split; [by right|done].
  - exists x. split; [left | done].
Qed.

Lemma inspect_all_records_good (valid_list invalid_list : list inputs_t)
    (sym_list : list nat) (tree : ArithExpTree) (sign : Sign) :
  inspect_all_records valid_list invalid_list sym_list tree sign = Ok true ->
  rule_good valid_list invalid_list (mkRule (remap tree sym_list) sign).
Proof.
  unfold inspect_all_records. intros H.
  apply bind_Ok in H as (ok & Hok & H). destruct ok; [|discriminate].
  simpl in H. split.
  - intros inputs Hin. apply eval_record_remap. by eapply all_hold_spec.
  - simpl. intros Hs. destruct sign; [done| |];
      destruct (some_fails_spec _ _ _ _ H) as (inputs & Hin & He);
      exists inputs; (split; [done | by apply eval_record_remap]).
Qed.

Lemma const_valid_spec (valid_list : list inputs_t) (i : nat) (val : pyval) :
  const_valid valid_list i val = Ok true ->
  forall inputs, inputs ∈ valid_list -> inputs !! i = Some val.
Proof.
  induction valid_list as [|x rest IH]; intros H inputs Hin.
  - by apply elem_of_nil in Hin.
  - simpl in H. apply bind_Ok in H as (v & Hv & H). apply index_Ok in Hv.
    destruct (decide (v = val)) as [->|]; [|discriminate].
    apply elem_of_cons in Hin as [->|Hin]; [done | by apply IH].
Qed.

Lemma const_rule_good (valid_list invalid_list : list inputs_t) (i : nat)
    (val : pyval) (e : ArithExpTree) :
  const_valid valid_list i val = Ok true ->
  const_rule i val = Ok e ->
  rule_good valid_list invalid_list (mkRule e SEq).
Proof.
  intros Hc He. destruct val as [v|]; [|discriminate]. inversion He; subst.
  split; [|done]. intros inputs Hin.
  unfold holds_on. simpl. unfold index.
  rewrite (const_valid_spec _ _ _ Hc inputs Hin). simpl.
  by rewrite Z.sub_diag.
Qed.

Lemma list_remove_subseteq (x r : Rule) (l : list Rule) :
  r ∈ list_remove x l -> r ∈ l.
Proof.
  induction l as [|y l IH]; simpl; [done|].
  destruct (decide (y = x)); [by right|].
  intros H. apply elem_of_cons in H as [->|H]; [left | right; by apply IH].
Qed.

Section WithOracle.

Variable equivalent : formula -> formula -> bool.
Variable genTreeList : nat -> nat -> list (nat * Z * nat).
Variable getTree : nat -> Z -> nat -> ArithExpTree.
Variable timed_out : nat -> bool.

Lemma prune_subseteq (fuel : nat) (rs : list Rule) (r : Rule) :
  r ∈ prune equivalent fuel rs -> r ∈ rs.
Proof.
  revert rs. induction fuel as [|fuel IH]; intros rs; simpl; [done|].
  destruct (find_del equivalent rs (conj rs) (prune_range rs)); [|done].
  intros H. apply IH in H. by eapply list_remove_subseteq.
Qed.

Lemma Add_good (P : Rule -> Prop) (rs rs' : list Rule)
    (rule : result ArithExpTree) (sign : Sign) :
  Add equivalent rs rule sign = Ok rs' ->
  Forall P rs ->
  (forall e, rule = Ok e -> P (mkRule e sign)) ->
  Forall P rs'.
Proof.
  unfold Add. intros H Hrs Hnew.
  destruct (50 <? length rs); [by inversion H; subst|].
  apply bind_Ok in H as (e & He & H). inversion H; subst.
  apply Forall_forall. intros r Hr. apply prune_subseteq in Hr.
  apply elem_of_app in Hr as [Hr|Hr].
  - by eapply Forall_forall in Hrs.
  - apply list_elem_of_singleton in Hr as ->. by apply Hnew.
Qed.

Lemma const_loop_good (valid_list invalid_list : list inputs_t)
    (r0 : inputs_t) (input_len : nat) (rs rs' : list Rule) :
  const_loop equivalent valid_list r0 input_len rs = Ok rs' ->
  Forall (rule_good valid_list invalid_list) rs ->
  Forall (rule_good valid_list invalid_list) rs'.
Proof.
  unfold const_loop. intros H Hrs.
  eapply (forM_inv (Forall (rule_good valid_list invalid_list)));
    [exact H | done |].
  intros i s s' _ Hs Hb.
  apply bind_Ok in Hb as (val & _ & Hb).
  apply bind_Ok in Hb as (valid & Hv & Hb).
  destruct valid; [|by inversion Hb; subst].
  eapply Add_good; [exact Hb | done |].
  intros e He. by eapply const_rule_good.
Qed.

Lemma try_sign_good (valid_list invalid_list : list inputs_t)
    (tree : ArithExpTree) (sym_list : list nat) (sign : Sign)
    (rs rs' : list Rule) :
  try_sign equivalent valid_list invalid_list tree sym_list sign rs = Ok rs' ->
  Forall (rule_good valid_list invalid_list) rs ->
  Forall (rule_good valid_list invalid_list) rs'.
Proof.
  unfold try_sign. intros H Hrs.
  apply bind_Ok in H as (ok & Hok & H).
  destruct ok; [|by inversion H; subst].
  eapply Add_good; [exact H | done |].
  intros e He. inversion He; subst. by apply inspect_all_records_good.
Qed.

Lemma tree_loop_good (valid_list invalid_list : list inputs_t)
    (input_len : nat) (trees : list (nat * Z * nat)) (tried : nat)
    (rs : list Rule) (res : SolveResult) :
  tree_loop equivalent getTree timed_out valid_list invalid_list input_len
    trees tried rs = Ok res ->
  Forall (rule_good valid_list invalid_list) rs ->
  Forall (rule_good valid_list invalid_list) (rules res).
Proof.
  revert tried rs. induction trees as [|[[depth ArgSet] i] rest IH];
    intros tried rs H Hrs; cbn [tree_loop] in H.
  - by inversion H; subst.
  - destruct (timed_out (S tried)); [by inversion H; subst|].
    destruct (op_skipped (getTree depth ArgSet i)); [by eapply IH|].
    apply bind_Ok in H as (rs1 & Hf & H).
    assert (H1 : Forall (rule_good valid_list invalid_list) rs1).
    { eapply (forM_inv (Forall (rule_good valid_list invalid_list)));
        [exact Hf | done |].
      intros sym_set s s' _ Hs Hb.
      eapply (forM_inv (Forall (rule_good valid_list invalid_list)));
        [exact Hb | done |].
      intros sign s1 s1' _ Hs1 Hb1. by eapply try_sign_good. }
    destruct (50 <=? length rs1); [inversion H; subst; exact H1|].
    by eapply IH.
Qed.

(** C2. Every rule [(e, rel)] in the result of the constraint-rule
    synthesiser satisfies [e(inputs) rel 0] on every success record, and if
    [rel] is [>] or [>=] some failing record makes [e(inputs) rel 0]
    false. *)
Theorem solve_inst_rules_sound (info_success : list (inputs_t * outputs_t))
    (info_fail : list inputs_t) (res : SolveResult) :
  solve_inst equivalent genTreeList getTree timed_out info_success info_fail
    = Ok res ->
  forall r, r ∈ rules res ->
    (forall record, record ∈ info_success ->
       holds_on r record.1 = Ok true) /\
    (rule_sign r = SGt \/ rule_sign r = SGe ->
     exists inputs, inputs ∈ info_fail /\ holds_on r inputs = Ok false).
Proof.
  unfold solve_inst. intros H r Hr.
  apply bind_Ok in H as (r0 & _ & H).
  apply bind_Ok in H as (rs & Hc & H).
  assert (Hall : Forall (rule_good (map fst info_success) info_fail)
                   (rules res)).
  { eapply tree_loop_good; [exact H|].
    eapply const_loop_good; [exact Hc | constructor]. }
  eapply Forall_forall in Hall as [Hv Hf]; [|exact Hr]. split.
  - intros record Hrec. apply Hv. apply list_elem_of_fmap. by exists record.
  - intros Hs. apply Hf. by destruct Hs as [-> | ->].
Qed.

End WithOracle.

End StrictInputSolveFacts.

Module RuleDatabaseFacts.

Import PyFacts ApiParsing Utils Tree StrictInputSolve StrictInputSolveFacts.
Import Scenarios.

Lemma syntactic_sound : sound syntactic.
Proof.
  intros f g H env. apply bool_decide_eq_true in H. by subst.
Qed.

Ltac unfold_holds :=
  cbv [conj s0_pos s0_gt1 s0_ge1 fold_left delete list_delete holds
       rule_holds rule_sign rule_expr zeval arith sign_holds rules].

Section WithOracle.

Variable equivalent : formula -> formula -> bool.

Lemma find_del_None (rs : list Rule) (expr : formula) (idxs : list nat) :
  find_del equivalent rs expr idxs = None ->
  (forall i, i ∈ idxs -> i < length rs) ->
  forall i, i ∈ idxs -> equivalent expr (conj (delete i rs)) = false.
Proof.
  induction idxs as [|k idxs IH]; intros H Hlen i Hi.
  - by apply elem_of_nil in Hi.
  - simpl in H. destruct (equivalent expr (conj (delete k rs))) eqn:He.
    + destruct (lookup_lt_is_Some_2 rs k) as [x Hx]; [apply Hlen; left|].
      congruence.
    + apply elem_of_cons in Hi as [->|Hi]; [done|].
      apply IH; [done | | done]. intros j Hj. apply Hlen. by right.
Qed.

Lemma find_del_Some (rs : list Rule) (expr : formula) (idxs : list nat)
    (x : Rule) :
  find_del equivalent rs expr idxs = Some x -> x ∈ rs.
Proof.
  induction idxs as [|k idxs IH]; simpl; [done|].
  destruct (equivalent expr (conj (delete k rs))); [|done].
  intros H. by eapply list_elem_of_lookup_2.
Qed.

Lemma list_remove_length (x : Rule) (l : list Rule) :
  x ∈ l -> S (length (list_remove x l)) = length l.
Proof.
  induction l as [|y l IH]; intros Hin; [by apply elem_of_nil in Hin|].
  simpl. destruct (decide (y = x)) as [->|Hne]; [done|].
  apply elem_of_cons in Hin as [->|Hin]; [done|]. simpl. by rewrite IH.
Qed.

Lemma elem_of_prune_range (rs : list Rule) (i : nat) :
  i ∈ prune_range rs <-> 1 <= i < length rs.
Proof. unfold prune_range. rewrite elem_of_reverse, elem_of_seq. lia. Qed.

(** The pruning loop ends because no entry beyond the first can be
    deleted, not because its rounds are used up. *)
Lemma prune_fixpoint (fuel : nat) (rs : list Rule) :
  length rs <= fuel ->
  let rs' := prune equivalent fuel rs in
  find_del equivalent rs' (conj rs') (prune_range rs') = None.
Proof.
  revert rs. induction fuel as [|fuel IH]; intros rs Hlen; simpl.
  - destruct rs; [done | simpl in Hlen; lia].
  - destruct (find_del equivalent rs (conj rs) (prune_range rs)) as [x|] eqn:Hf;
      [|done].
    apply IH. apply find_del_Some in Hf. apply list_remove_length in Hf. lia.
Qed.

(** What the pruning of [RuleDatabase.Add] does establish: after an
    admission, deleting any entry other than the first gives a conjunction
    the solver does not report equivalent to the whole. *)
Lemma Add_minimal_beyond_first (rs rs' : list Rule)
    (rule : ArithExpTree) (sign : Sign) (i : nat) :
  length rs <= 50 ->
  Add equivalent rs (Ok rule) sign = Ok rs' ->
  1 <= i < length rs' ->
  equivalent (conj rs') (conj (delete i rs')) = false.
Proof.
  unfold Add. intros Hlen H Hi.
  destruct (50 <? length rs) eqn:H50; [apply Nat.ltb_lt in H50; lia|].
  simpl in H. inversion H as [Hrs']. rewrite Hrs'.
  pose proof (prune_fixpoint (length (rs ++ [mkRule rule sign]))
                (rs ++ [mkRule rule sign]) (le_n _)) as Hfix.
  simpl in Hfix. rewrite Hrs' in Hfix.
  eapply find_del_None; [exact Hfix | |].
  - intros j Hj. apply elem_of_prune_range in Hj. lia.
  - by apply elem_of_prune_range.
Qed.

Hypothesis equivalent_sound : sound equivalent.

Lemma not_equivalent (f g : formula) (env : nat -> Z) :
  holds g env -> ~ holds f env -> equivalent f g = false.
Proof.
  intros Hg Hf. destruct (equivalent f g) eqn:He; [|done].
  exfalso. apply Hf. by apply (equivalent_sound f g He env).
Qed.

(** Settles the first solver query of the goal: the two formulas differ
    under the assignment of [z] to every symbol. *)
Ltac refute_with z :=
  match goal with
  | |- context [equivalent ?f ?g] =>
      rewrite (not_equivalent f g (fun _ : nat => z));
      [| unfold_holds; lia | unfold_holds; lia]
  end.

(** Directly on the rule database: admitting [s0 - 1 > 0] after
    [s0 > 0] keeps both. *)
Lemma Add_keeps_first_rule :
  Add equivalent [s0_pos] (Ok (Node OpSub (Arg 0) (Lit 1))) SGt
  = Ok [s0_pos; s0_gt1].
Proof.
  unfold Add. cbn.
  by refute_with 1%Z.
Qed.

(** C3 at a failing input. On the database with successes [s0 = 2],
    [s0 = 3] and failure [s0 = 0], whatever a sound solver answers, the
    result keeps [s0 > 0] as its first rule next to [s0 - 1 > 0]: deleting
    the first rule leaves a conjunction with the same models, so the
    admitted set is not minimal. *)
Theorem first_rule_never_pruned :
  exists res rest,
    solve_inst equivalent (fun _ _ => trees) tree_of (fun _ => false)
      first_rule_db_success first_rule_db_fail = Ok res /\
    rules res = s0_pos :: s0_gt1 :: rest /\
    forall env,
      holds (conj (delete 0 (rules res))) env <-> holds (conj (rules res)) env.
Proof.
  destruct (equivalent (conj [s0_pos; s0_gt1; s0_ge1])
              (conj [s0_pos; s0_gt1])) eqn:He; vm_compute in He.
  - exists (mkSolveResult [s0_pos; s0_gt1] 4), []. split; [|split; [done|]].
    + repeat (vm_compute; first [rewrite He | refute_with 1%Z]).
      vm_compute. reflexivity.
    + intros env. unfold_holds. lia.
  - exists (mkSolveResult [s0_pos; s0_gt1; s0_ge1] 4), [s0_ge1].
    split; [|split; [done|]].
    + repeat (vm_compute; first [rewrite He | refute_with 1%Z]).
      vm_compute. reflexivity.
    + intros env. unfold_holds. lia.
Qed.

End WithOracle.

Lemma first_rule_never_pruned_witness :
  exists res rest,
    solve_inst syntactic (fun _ _ => trees) tree_of (fun _ => false)
      first_rule_db_success first_rule_db_fail = Ok res /\
    rules res = s0_pos :: s0_gt1 :: rest /\
    forall env,
      holds (conj (delete 0 (rules res))) env <-> holds (conj (rules res)) env.
Proof. exact (first_rule_never_pruned syntactic syntactic_sound). Defined.

End RuleDatabaseFacts.

Module FailSamplesFacts.

Import PyFacts ApiParsing Utils Tree StrictInputSolve StrictInputSolveFacts.
Import RuleDatabaseFacts Scenarios.

Example matmul_rules :
  solve_inst syntactic (fun _ _ => matmul_trees) matmul_tree (fun _ => false)
    matmul_success matmul_fail
  = Ok (mkSolveResult
          [mkRule (Node OpSub (Arg 1) (Arg 2)) SEq;
           mkRule (Node OpSub (Arg 1) (Arg 2)) SGe] 4).
Proof. vm_compute. reflexivity. Qed.

Lemma solve_inst_rules_sound_witness :
  (forall record, record ∈ matmul_success ->
     holds_on (mkRule (Node OpSub (Arg 1) (Arg 2)) SGe) record.1 = Ok true) /\
  (SGe = SGt \/ SGe = SGe ->
   exists inputs, inputs ∈ matmul_fail /\
     holds_on (mkRule (Node OpSub (Arg 1) (Arg 2)) SGe) inputs = Ok false).
Proof.
  apply (solve_inst_rules_sound syntactic (fun _ _ => matmul_trees) matmul_tree
           (fun _ => false) matmul_success matmul_fail
           (mkSolveResult
              [mkRule (Node OpSub (Arg 1) (Arg 2)) SEq;
               mkRule (Node OpSub (Arg 1) (Arg 2)) SGe] 4)).
  - vm_compute. reflexivity.
  - right. left.
Defined.

Example attr_rules :
  solve_inst syntactic (fun _ _ => matmul_trees) matmul_tree (fun _ => false)
    attr_success attr_fail
  = Ok (mkSolveResult [mkRule (Arg 0) SGe] 4).
Proof. vm_compute. reflexivity. Qed.

Example attr_rules_without_negative_fail :
  solve_inst syntactic (fun _ _ => matmul_trees) matmul_tree (fun _ => false)
    attr_success []
  = Ok (mkSolveResult [] 4).
Proof. vm_compute. reflexivity. Qed.

(** The failing record [s0 = -2] is what admits the rule [s0 >= 0]. *)
Lemma only_nonneg_fail_used_fails : ~ only_nonneg_fail_used.
Proof.
  intros H.
  specialize (H syntactic (fun _ _ => matmul_trees) matmul_tree
                (fun _ => false) attr_success attr_fail [] eq_refl).
  rewrite attr_rules, attr_rules_without_negative_fail in H.
  discriminate H.
Qed.

Lemma holds_fold (rs : list Rule) (acc : formula) (env : nat -> Z) :
  holds (fold_left (fun expr r => FAnd expr (FAtom r)) rs acc) env <->
  holds acc env /\ Forall (fun r => rule_holds r env) rs.
Proof.
  revert acc. induction rs as [|r rs IH]; intros acc; simpl.
  - split; [intros H; split; [done | constructor] | by intros [H _]].
  - rewrite IH. simpl. rewrite Forall_cons. tauto.
Qed.

Lemma holds_conj (rs : list Rule) (env : nat -> Z) :
  holds (conj rs) env <-> Forall (fun r => rule_holds r env) rs.
Proof. unfold conj. rewrite holds_fold. simpl. tauto. Qed.

Lemma list_remove_delete (rs : list Rule) (i : nat) (x : Rule) :
  rs !! i = Some x -> list_remove x rs ≡ₚ delete i rs.
Proof.
  revert i. induction rs as [|y l IH]; intros i Hi; [done|].
  simpl. destruct (decide (y = x)) as [->|Hne].
  - destruct i as [|i]; [done|]. simpl in Hi. simpl.
    by apply delete_Permutation.
  - destruct i as [|i]; simpl in Hi; [congruence|].
    simpl. by rewrite (IH i Hi).
Qed.

Lemma some_fails_decides (invalid_list : list inputs_t) (sym_list : list nat)
    (tree : ArithExpTree) (sign : Sign) (inputs : inputs_t) (b : bool) :
  some_fails invalid_list sym_list tree sign = Ok b ->
  inputs ∈ invalid_list ->
  eval_record tree sign sym_list inputs = Ok false ->
  b = true.
Proof.
  induction invalid_list as [|x rest IH]; intros H Hin He.
  - by apply elem_of_nil in Hin.
  - simpl in H. apply bind_Ok in H as (res & Hres & H).
    destruct res; [|congruence].
    apply elem_of_cons in Hin as [->|Hin]; [congruence | by apply IH].
Qed.

Lemma all_hold_all (valid_list : list inputs_t) (sym_list : list nat)
    (tree : ArithExpTree) (sign : Sign) :
  (forall inputs, inputs ∈ valid_list ->
     eval_record tree sign sym_list inputs = Ok true) ->
  all_hold valid_list sym_list tree sign = Ok true.
Proof.
  induction valid_list as [|x rest IH]; intros H; [done|].
  simpl. rewrite (H x) by left. simpl. apply IH. intros y Hy. apply H. by right.
Qed.

Lemma forM_app {A S} (xs ys : list A) (body : A -> S -> result S) (s : S) :
  forM (xs ++ ys) body s = (s1 ← forM xs body s; forM ys body s1).
Proof.
  revert s. induction xs as [|x xs IH]; intros s; simpl; [done|].
  destruct (body x s) as [s1|e]; simpl; [apply IH | done].
Qed.

Section WithOracle.

Variable equivalent : formula -> formula -> bool.
Variable genTreeList : nat -> nat -> list (nat * Z * nat).
Variable getTree : nat -> Z -> nat -> ArithExpTree.
Variable timed_out : nat -> bool.

Hypothesis equivalent_sound : sound equivalent.

Lemma find_del_equivalent (rs : list Rule) (expr : formula) (idxs : list nat)
    (x : Rule) :
  find_del equivalent rs expr idxs = Some x ->
  exists i, rs !! i = Some x /\ equivalent expr (conj (delete i rs)) = true.
Proof.
  induction idxs as [|k idxs IH]; simpl; [done|].
  destruct (equivalent expr (conj (delete k rs))) eqn:He; [|done].
  intros H. by exists k.
Qed.

Lemma prune_holds (fuel : nat) (rs : list Rule) (env : nat -> Z) :
  holds (conj (prune equivalent fuel rs)) env <-> holds (conj rs) env.
Proof.
  revert rs. induction fuel as [|fuel IH]; intros rs; simpl; [done|].
  destruct (find_del equivalent rs (conj rs) (prune_range rs)) as [x|] eqn:Hf;
    [|done].
  apply find_del_equivalent in Hf as (i & Hi & He).
  rewrite IH, (equivalent_sound _ _ He env), !holds_conj.
  by rewrite (list_remove_delete rs i x Hi).
Qed.

(** A step on the rule set that keeps what the set implies and does nothing
    once the set holds more than 50 rules. *)
#[local] Abbreviation steady :=
  (fun (A : Type) (body : A -> list Rule -> result (list Rule)) =>
     forall x s s', body x s = Ok s' ->
       (forall env, holds (conj s') env -> holds (conj s) env) /\
       (50 < length s -> s' = s)).

Lemma Add_steady (rule : result ArithExpTree) (sign : Sign)
    (rs rs' : list Rule) :
  Add equivalent rs rule sign = Ok rs' ->
  (forall env, holds (conj rs') env -> holds (conj rs) env) /\
  (50 < length rs -> rs' = rs).
Proof.
  unfold Add. intros H. destruct (50 <? length rs) eqn:H50.
  - injection H as <-. done.
  - apply Nat.ltb_ge in H50. split; [|lia].
    apply bind_Ok in H as (e & _ & H). injection H as <-.
    intros env. rewrite prune_holds, !holds_conj, Forall_app. tauto.
Qed.

Lemma Add_implied (e : ArithExpTree) (sign : Sign) (rs rs' : list Rule) :
  Add equivalent rs (Ok e) sign = Ok rs' ->
  length rs' <= 50 ->
  implied rs' (mkRule e sign).
Proof.
  unfold Add. intros H Hlen. destruct (50 <? length rs) eqn:H50.
  - injection H as <-. apply Nat.ltb_lt in H50. lia.
  - apply bind_Ok in H as (e' & He' & H).
    injection He' as <-. injection H as <-.
    intros env. rewrite prune_holds, holds_conj, Forall_app, Forall_singleton.
    tauto.
Qed.

Lemma forM_steady {A} (body : A -> list Rule -> result (list Rule))
    (xs : list A) (s s' : list Rule) :
  steady A body ->
  forM xs body s = Ok s' ->
  (forall env, holds (conj s') env -> holds (conj s) env) /\
  (50 < length s -> s' = s).
Proof.
  intros Hb. revert s. induction xs as [|x xs IH]; intros s H; simpl in H.
  - by injection H as <-.
  - apply bind_Ok in H as (s1 & H1 & H).
    destruct (Hb x s s1 H1) as [Hm1 Hf1].
    destruct (IH s1 H) as [Hm Hf]. split.
    + intros env He. by apply Hm1, Hm.
    + intros Hlen. rewrite (Hf1 Hlen) in *. by apply Hf.
Qed.

(** In a loop of steady steps that ends with at most 50 rules, what the
    step of an element [x] makes the rule set imply is implied at the
    end. *)
Lemma forM_entails {A} (xs : list A)
    (body : A -> list Rule -> result (list Rule)) (x : A) (r : Rule)
    (s s' : list Rule) :
  steady A body ->
  x ∈ xs ->
  (forall s1 s2, body x s1 = Ok s2 -> length s2 <= 50 -> implied s2 r) ->
  forM xs body s = Ok s' ->
  length s' <= 50 ->
  implied s' r.
Proof.
  intros Hb Hx Hstep H Hlen.
  apply list_elem_of_split in Hx as (pre & suf & ->).
  rewrite forM_app in H. apply bind_Ok in H as (s1 & _ & H).
  simpl in H. apply bind_Ok in H as (s2 & H2 & H).
  destruct (forM_steady body suf s2 s' Hb H) as [Hm Hf].
  assert (Hlen2 : length s2 <= 50).
  { destruct (decide (50 < length s2)) as [Hgt|]; [|lia].
    rewrite (Hf Hgt) in Hlen. lia. }
  intros env He. by apply (Hstep s1 s2 H2 Hlen2), Hm.
Qed.

Lemma try_sign_steady (valid_list invalid_list : list inputs_t)
    (tree : ArithExpTree) (sym_list : list nat) :
  steady Sign (try_sign equivalent valid_list invalid_list tree sym_list).
Proof.
  intros sign s s' H. unfold try_sign in H.
  apply bind_Ok in H as (ok & _ & H).
  destruct ok; [by eapply Add_steady | by injection H as <-].
Qed.

Lemma tree_body_steady (valid_list invalid_list : list inputs_t)
    (tree : ArithExpTree) (depth : nat) :
  steady Z (fun sym_set rs =>
    forM (sign_list depth)
      (try_sign equivalent valid_list invalid_list tree
         (mask_to_list sym_set)) rs).
Proof.
  intros sym_set s s' H.
  eapply forM_steady; [|exact H].
  apply try_sign_steady.
Qed.

Lemma tree_loop_steady (valid_list invalid_list : list inputs_t)
    (input_len : nat) (trees : list (nat * Z * nat)) (tried : nat)
    (rs : list Rule) (res : SolveResult) :
  tree_loop equivalent getTree timed_out valid_list invalid_list input_len
    trees tried rs = Ok res ->
  forall env, holds (conj (rules res)) env -> holds (conj rs) env.
Proof.
  revert tried rs. induction trees as [|[[depth ArgSet] i] rest IH];
    intros tried rs H; cbn [tree_loop] in H.
  - by injection H as <-.
  - destruct (timed_out (S tried)); [by injection H as <-|].
    destruct (op_skipped (getTree depth ArgSet i)); [by eapply IH|].
    apply bind_Ok in H as (rs1 & Hf & H).
    assert (H1 : forall env, holds (conj rs1) env -> holds (conj rs) env).
    { eapply forM_steady; [|exact Hf]. apply tree_body_steady. }
    destruct (50 <=? length rs1); [by injection H as <-|].
    intros env He. apply H1. by eapply IH.
Qed.

Section Candidate.

Variable valid_list : list inputs_t.
Variable invalid_list : list inputs_t.
Variable input_len : nat.
Variable depth : nat.
Variable ArgSet : Z.
Variable i : nat.
Variable sym_set : Z.
Variable sign : Sign.
Variable inputs : inputs_t.

#[local] Abbreviation tree := (getTree depth ArgSet i).
#[local] Abbreviation sym_list := (mask_to_list sym_set).

Hypothesis no_timeout : forall n, timed_out n = false.
Hypothesis not_skipped : op_skipped tree = false.
Hypothesis enumerated :
  sym_set ∈ gen_sym_set (Z.shiftl 1 (Z.of_nat input_len) - 1) (popcount ArgSet).
Hypothesis allowed : sign ∈ sign_list depth.
Hypothesis strict : sign <> SEq.
Hypothesis on_success :
  forall record, record ∈ valid_list ->
    eval_record tree sign sym_list record = Ok true.
Hypothesis is_fail : inputs ∈ invalid_list.
Hypothesis violated : eval_record tree sign sym_list inputs = Ok false.

Lemma try_sign_entails (s1 s2 : list Rule) :
  try_sign equivalent valid_list invalid_list tree sym_list sign s1 = Ok s2 ->
  length s2 <= 50 ->
  implied s2 (mkRule (remap tree sym_list) sign).
Proof.
  unfold try_sign, inspect_all_records. intros H Hlen.
  rewrite (all_hold_all _ _ _ _ on_success) in H. simpl in H.
  apply bind_Ok in H as (ok & Hok & H).
  assert (ok = true) as ->.
  { destruct sign; [done| |]; by eapply some_fails_decides. }
  by apply (Add_implied _ _ s1 s2).
Qed.

Lemma tree_loop_entails (trees : list (nat * Z * nat)) (tried : nat)
    (rs : list Rule) (res : SolveResult) :
  tree_loop equivalent getTree timed_out valid_list invalid_list input_len
    trees tried rs = Ok res ->
  length (rules res) < 50 ->
  (depth, ArgSet, i) ∈ trees ->
  implied (rules res) (mkRule (remap tree sym_list) sign).
Proof.
  revert tried rs. induction trees as [|[[depth' ArgSet'] i'] rest IH];
    intros tried rs H Hlen Hin; [by apply elem_of_nil in Hin|].
  cbn [tree_loop] in H. rewrite no_timeout in H.
  apply elem_of_cons in Hin as [Heq|Hin].
  - injection Heq as <- <- <-. rewrite not_skipped in H.
    apply bind_Ok in H as (rs1 & Hf & H).
    destruct (50 <=? length rs1) eqn:H50.
    { injection H as <-. apply Nat.leb_le in H50. simpl in Hlen. lia. }
    apply Nat.leb_gt in H50.
    assert (H1 : implied rs1 (mkRule (remap tree sym_list) sign)).
    { eapply (forM_entails _ _ sym_set);
        [apply tree_body_steady | exact enumerated | | exact Hf | lia].
      intros s1 s2 Hb Hl2.
      eapply (forM_entails _ _ sign);
        [apply try_sign_steady | exact allowed | | exact Hb | done].
      apply try_sign_entails. }
    intros env He. apply H1. by eapply tree_loop_steady.
  - destruct (op_skipped (getTree depth' ArgSet' i')); [by eapply IH|].
    apply bind_Ok in H as (rs1 & Hf & H).
    destruct (50 <=? length rs1) eqn:H50.
    { injection H as <-. apply Nat.leb_le in H50. simpl in Hlen. lia. }
    by eapply IH.
Qed.

End Candidate.

(** C4, as the synthesiser reads the database. Every fail input of the
    database is a negative sample, whatever the sign of its values. Let
    [solve_inst] run to the end (no timeout, fewer than 50 rules in the
    result) with a solver whose equivalence verdicts are sound, and take a
    relation [>] or [>=] among the candidates it enumerates that holds on
    every success record. If some record of [info_fail], negative values
    included, violates the relation, the relation is admitted: the
    returned rules imply it. *)
Theorem solve_inst_uses_every_fail
    (info_success : list (inputs_t * outputs_t)) (info_fail : list inputs_t)
    (res : SolveResult) (r0 : inputs_t * outputs_t)
    (depth : nat) (ArgSet : Z) (i : nat) (sym_set : Z) (sign : Sign)
    (inputs : inputs_t) :
  (forall n, timed_out n = false) ->
  solve_inst equivalent genTreeList getTree timed_out info_success info_fail
    = Ok res ->
  length (rules res) < 50 ->
  info_success !! 0 = Some r0 ->
  (depth, ArgSet, i) ∈
    genTreeList Configs.TreeMaxHeight (min (length r0.1) Configs.TreeArgCount) ->
  op_skipped (getTree depth ArgSet i) = false ->
  sym_set ∈ gen_sym_set (Z.shiftl 1 (Z.of_nat (length r0.1)) - 1)
              (popcount ArgSet) ->
  sign ∈ sign_list depth ->
  sign <> SEq ->
  (forall record, record ∈ info_success ->
     eval_record (getTree depth ArgSet i) sign (mask_to_list sym_set) record.1
     = Ok true) ->
  inputs ∈ info_fail ->
  eval_record (getTree depth ArgSet i) sign (mask_to_list sym_set) inputs
  = Ok false ->
  implied (rules res)
    (mkRule (remap (getTree depth ArgSet i) (mask_to_list sym_set)) sign).
Proof.
  intros Hto H Hlen H0 Htree Hskip Hsym Hsign Hstrict Hsucc Hin Hviol.
  unfold solve_inst in H. unfold index in H.
  rewrite list_lookup_fmap, H0 in H. simpl in H.
  apply bind_Ok in H as (rs & _ & H).
  eapply tree_loop_entails; try done.
  intros record Hrec. apply list_elem_of_fmap in Hrec as (rec & -> & Hrec).
  by apply Hsucc.
Qed.

End WithOracle.

(** The attribute database: the only fail record is [s0 = -2], and the
    result [s0 >= 0] implies the candidate it violates. *)
Lemma solve_inst_uses_every_fail_witness :
  implied (rules (mkSolveResult [mkRule (Arg 0) SGe] 4))
    (mkRule (remap (matmul_tree 0 1 0) (mask_to_list 1)) SGe).
Proof.
  apply (solve_inst_uses_every_fail syntactic (fun _ _ => matmul_trees)
           matmul_tree (fun _ => false) syntactic_sound attr_success attr_fail
           (mkSolveResult [mkRule (Arg 0) SGe] 4) ([PInt 0], [PInt 1])
           0 1%Z 0 1%Z SGe [PInt (-2)]).
  - done.
  - vm_compute. reflexivity.
  - simpl. lia.
  - reflexivity.
  - vm_compute. right. right. left.
  - reflexivity.
  - vm_compute. left.
  - simpl. right. right. left.
  - discriminate.
  - intros record Hrec.
    repeat (apply elem_of_cons in Hrec as [->|Hrec]; [reflexivity|]).
    by apply elem_of_nil in Hrec.
  - left.
  - reflexivity.
Defined.

End FailSamplesFacts.

Module NnsmithRulesFacts.

Import PyFacts ApiParsing NnsmithRules.

Lemma filter_fail_spec (_fail fail : list inputs_t) :
  filter_fail _fail = Ok fail ->
  forall inputs, inputs ∈ fail <->
    inputs ∈ _fail /\ all_nonneg inputs = Ok true.
Proof.
  revert fail. induction _fail as [|x rest IH]; intros fail H inputs;
    simpl in H.
  - inversion H; subst. split; [intros Hin | intros [Hin _]];
      by apply elem_of_nil in Hin.
  - apply bind_Ok in H as (b & Hb & H).
    apply bind_Ok in H as (fl & Hfl & H). inversion H; subst.
    specialize (IH fl Hfl inputs). destruct b.
    + rewrite !elem_of_cons, IH. split.
      * intros [->|[? ?]]; [by split; [left|] | by split; [right|]].
      * intros [[->|?] ?]; [by left | by right].
    + rewrite IH, elem_of_cons. split; [intros [? ?]; by split; [right|]|].
      intros [[->|?] ?]; [congruence | done].
Qed.

Section Match.

Variable predicate : Type.
Variable equivalent : predicate -> bool -> bool.
Variable input_validity_test :
  Instrument.OpInstance -> gmap string pyval -> inputs_t * option outputs_t.

#[local] Abbreviation OpType := (OpType predicate).
#[local] Abbreviation accepts := (NnsmithRules.accepts predicate equivalent).
#[local] Abbreviation rejects := (NnsmithRules.rejects predicate equivalent).
#[local] Abbreviation matches :=
  (NnsmithRules.matches predicate equivalent input_validity_test).

Lemma shapes_loop_true (outs std : list CTensor) (idxs : list nat) (v : bool) :
  forM idxs (fun i valid =>
    c ← index outs i;
    s ← index std i;
    Ok (if decide (cshape c = cshape s) then valid else false)) v = Ok true ->
  v = true /\
  forall i, i ∈ idxs ->
    exists c s, outs !! i = Some c /\ std !! i = Some s /\ cshape c = cshape s.
Proof.
  revert v. induction idxs as [|k idxs IH]; intros v H; simpl in H.
  - inversion H; subst. split; [done|]. intros i Hi. by apply elem_of_nil in Hi.
  - apply bind_Ok in H as (v1 & Hb & H).
    apply bind_Ok in Hb as (c & Hc & Hb).
    apply bind_Ok in Hb as (s & Hs & Hb). inversion Hb; subst.
    apply index_Ok in Hc. apply index_Ok in Hs.
    destruct (IH _ H) as [Hv Hall].
    destruct (decide (cshape c = cshape s)) as [Heq|]; [|done].
    split; [done|]. intros i Hi.
    apply elem_of_cons in Hi as [->|Hi]; [by exists c, s | by apply Hall].
Qed.

Lemma success_record_ok_accepts (inst : Instrument.OpInstance) (op : OpType)
    (record : inputs_t * outputs_t) :
  success_record_ok predicate equivalent inst op
    (length (Instrument.output_tensors inst)) record = Ok true ->
  accepts inst op record.
Proof.
  unfold success_record_ok, accepts. intros H.
  apply bind_Ok in H as (valid & Hv & H).
  destruct (checked_type_transfer predicate op _) as [outs|e] eqn:Ht;
    [|destruct (caught e); inversion Hv; subst; discriminate].
  destruct valid; simpl in H; [|discriminate].
  apply shapes_loop_true in Hv as [_ Hshapes].
  destruct (checked_requires predicate op _) as [preds|e] eqn:Hr;
    [|destruct (caught e); discriminate].
  injection H as Hall. exists outs, preds.
  split; [done|]. split; [|split; [done|]].
  - intros i Hi. apply Hshapes. apply elem_of_range. lia.
  - intros p Hp. rewrite forallb_forall in Hall. apply Hall.
    by apply list_elem_of_In.
Qed.

Lemma success_loop_accepts (inst : Instrument.OpInstance) (op : OpType)
    (success : list (inputs_t * outputs_t)) :
  success_loop predicate equivalent inst op
    (length (Instrument.output_tensors inst)) success = Ok true ->
  forall record, record ∈ success -> accepts inst op record.
Proof.
  induction success as [|x rest IH]; intros H record Hin.
  - by apply elem_of_nil in Hin.
  - simpl in H. apply bind_Ok in H as (valid & Hv & H).
    destruct valid; [|discriminate].
    apply elem_of_cons in Hin as [->|Hin];
      [by apply success_record_ok_accepts | by apply IH].
Qed.

Lemma fail_loop_rejects (inst : Instrument.OpInstance) (op : OpType)
    (fail : list inputs_t) :
  fail_loop predicate equivalent inst op fail = Ok true ->
  forall inputs, inputs ∈ fail -> rejects inst op inputs.
Proof.
  induction fail as [|x rest IH]; intros H inputs Hin.
  - by apply elem_of_nil in Hin.
  - simpl in H. apply bind_Ok in H as (cex & Hc & H).
    destruct cex; [|discriminate].
    apply elem_of_cons in Hin as [->|Hin]; [|by apply IH].
    unfold fail_record_rejected in Hc. unfold rejects.
    destruct (checked_requires predicate op _) as [preds|e] eqn:Hr.
    + right. exists preds. split; [done|]. injection Hc as Hex.
      apply existsb_exists in Hex as (p & Hp & Hpf).
      exists p. split; [by apply list_elem_of_In | done].
    + left. exists e. split; [done|]. by destruct (caught e).
Qed.

Lemma bcast_probe_true (inst : Instrument.OpInstance)
    (d : gmap string pyval) (symbs : list string) (valid : bool) :
  bcast_probe input_validity_test inst d symbs valid = Ok true -> valid = true.
Proof.
  revert d. induction symbs as [|symb rest IH]; intros d H; simpl in H.
  - by inversion H.
  - apply bind_Ok in H as (origin_val & _ & H).
    destruct (input_validity_test inst _).2; [by eapply IH | discriminate].
Qed.

Lemma class_valid_true (inst : Instrument.OpInstance) (op : OpType)
    (success : list (inputs_t * outputs_t)) (fail : list inputs_t) :
  class_valid predicate equivalent input_validity_test inst op success fail
    = Ok true ->
  (forall record, record ∈ success -> accepts inst op record) /\
  (forall inputs, inputs ∈ fail -> rejects inst op inputs).
Proof.
  unfold class_valid. intros H.
  apply bind_Ok in H as (v1 & Hs & H).
  apply bind_Ok in H as (v2 & Hb & H).
  destruct v2; [|discriminate].
  assert (v1 = true) as ->.
  { destruct (is_BcastBinaryOp predicate op); [|by inversion Hb].
    unfold bcast_check in Hb. apply bind_Ok in Hb as (d & _ & Hb).
    destruct d as [d|]; [by eapply bcast_probe_true | by inversion Hb]. }
  split; [by apply success_loop_accepts | by apply fail_loop_rejects].
Qed.

Lemma registry_loop_spec (inst : Instrument.OpInstance)
    (success : list (inputs_t * outputs_t)) (fail : list inputs_t)
    (ind : nat) (registry : list OpType) (res : list nat) :
  registry_loop predicate equivalent input_validity_test inst success fail
    ind registry = Ok res ->
  (res = [] /\
   forall k op, registry !! k = Some op -> ~ matches inst success fail op) \/
  (exists k op, res = [ind + k] /\ registry !! k = Some op /\
     matches inst success fail op /\
     forall k' op', k' < k -> registry !! k' = Some op' ->
       ~ matches inst success fail op').
Proof.
  revert ind. induction registry as [|op rest IH]; intros ind H;
    cbn [registry_loop] in H.
  - inversion H; subst. left. split; [done|]. intros k op Hk. done.
  - assert (Hskip : ~ matches inst success fail op ->
      registry_loop predicate equivalent input_validity_test inst success
        fail (S ind) rest = Ok res ->
      (res = [] /\
       forall k op0, (op :: rest) !! k = Some op0 ->
         ~ matches inst success fail op0) \/
      (exists k op0, res = [ind + k] /\ (op :: rest) !! k = Some op0 /\
         matches inst success fail op0 /\
         forall k' op', k' < k -> (op :: rest) !! k' = Some op' ->
           ~ matches inst success fail op')).
    { intros Hno Hrest. destruct (IH _ Hrest) as [[-> Hall]|(k & op0 & -> & Hk & Hm & Hbefore)].
      - left. split; [done|]. intros [|k] op0 Hk; simpl in Hk.
        + by inversion Hk; subst.
        + by eapply Hall.
      - right. exists (S k), op0. split; [f_equal; lia|]. split; [done|].
        split; [done|]. intros [|k'] op' Hlt Hk'; simpl in Hk'.
        + by inversion Hk'; subst.
        + eapply Hbefore; [|exact Hk']. lia. }
    destruct (n_input predicate op =? length (Instrument.input_tensors inst))
      eqn:Hi; simpl in H.
    + destruct (n_output predicate op =?
                length (Instrument.output_tensors inst)) eqn:Ho; simpl in H.
      * apply bind_Ok in H as (valid & Hv & H). destruct valid.
        -- inversion H; subst. right. exists 0, op.
           split; [f_equal; lia|]. split; [done|]. split.
           ++ apply Nat.eqb_eq in Hi, Ho. by repeat split.
           ++ intros k' op' Hlt. lia.
        -- apply Hskip; [|done]. intros (_ & _ & Hc). congruence.
      * apply Hskip; [|done]. intros (_ & Hc & _).
        apply Nat.eqb_neq in Ho. done.
    + apply Hskip; [|done]. intros (Hc & _). apply Nat.eqb_neq in Hi. done.
Qed.

(** C5, as the matcher runs. The output holds at most one index: that of
    the first class of the registry, in order, whose arities agree and
    which the loop finds valid; such a class reproduces every success
    record and rejects every failing record whose values are all
    non-negative. Classes after it are not examined, and an empty output
    means no class is found valid. *)
Theorem solve_inst_first_match (ATTR_FREE_RULES : list OpType)
    (inst : Instrument.OpInstance) (success : list (inputs_t * outputs_t))
    (_fail : list inputs_t) (res : list nat) :
  solve_inst predicate equivalent input_validity_test ATTR_FREE_RULES inst
    success _fail = Ok res ->
  exists fail,
    (forall inputs, inputs ∈ fail <->
       inputs ∈ _fail /\ all_nonneg inputs = Ok true) /\
    ((res = [] /\
      forall k op, ATTR_FREE_RULES !! k = Some op ->
        ~ matches inst success fail op) \/
     (exists ind op,
        res = [ind] /\ ATTR_FREE_RULES !! ind = Some op /\
        matches inst success fail op /\
        (forall record, record ∈ success -> accepts inst op record) /\
        (forall inputs, inputs ∈ fail -> rejects inst op inputs) /\
        forall k op', k < ind -> ATTR_FREE_RULES !! k = Some op' ->
          ~ matches inst success fail op')).
Proof.
  unfold solve_inst. intros H.
  apply bind_Ok in H as (fail & Hf & H).
  exists fail. split; [by apply filter_fail_spec|].
  destruct (registry_loop_spec _ _ _ _ _ _ H)
    as [[-> Hall]|(k & op & -> & Hk & Hm & Hbefore)].
  - by left.
  - right. exists k, op. split; [done|]. split; [done|]. split; [done|].
    destruct Hm as (Hi & Ho & Hv).
    destruct (class_valid_true _ _ _ _ Hv) as [Ha Hr].
    by repeat split.
Qed.

End Match.

(** ** A registry with two classes that both match *)

Import Scenarios.

Example two_matching_classes :
  solve_inst bool Bool.eqb no_oracle [unary; unary] relu_inst relu_success []
  = Ok [0].
Proof. vm_compute. reflexivity. Qed.

Lemma solve_inst_first_match_witness :
  exists fail,
    (forall inputs, inputs ∈ fail <->
       inputs ∈ [] /\ all_nonneg inputs = Ok true) /\
    (([0] = [] /\
      forall k op, [unary; unary] !! k = Some op ->
        ~ matches bool Bool.eqb no_oracle relu_inst relu_success fail op) \/
     (exists ind op,
        [0] = [ind] /\ [unary; unary] !! ind = Some op /\
        matches bool Bool.eqb no_oracle relu_inst relu_success fail op /\
        (forall record, record ∈ relu_success ->
           accepts bool Bool.eqb relu_inst op record) /\
        (forall inputs, inputs ∈ fail -> rejects bool Bool.eqb relu_inst op inputs) /\
        forall k op', k < ind -> [unary; unary] !! k = Some op' ->
          ~ matches bool Bool.eqb no_oracle relu_inst relu_success fail op')).
Proof.
  apply (solve_inst_first_match bool Bool.eqb no_oracle [unary; unary]
           relu_inst relu_success [] [0]).
  vm_compute. reflexivity.
Defined.

(** The second of two identical matching classes is not reported. *)
Lemma every_match_reported_fails : ~ every_match_reported.
Proof.
  intros H.
  specialize (H [unary; unary] relu_inst relu_success [] [] [0] eq_refl
                two_matching_classes 1 unary eq_refl).
  assert (Hm : matches bool Bool.eqb no_oracle relu_inst relu_success [] unary)
    by (repeat split; vm_compute; reflexivity).
  specialize (H Hm). apply list_elem_of_singleton in H. discriminate H.
Qed.

End NnsmithRulesFacts.

Module GraphGenFacts.

Import PyFacts GraphGen Scenarios.

(** ** The size cap *)

Lemma nelement_app (dims : list Z) (v : Z) :
  foldr Z.mul 1%Z (dims ++ [v]) = (foldr Z.mul 1 dims * v)%Z.
Proof. induction dims as [|d dims IH]; simpl; [lia|]. rewrite IH. lia. Qed.

Lemma nelement_Permutation (l1 l2 : list Z) :
  l1 ≡ₚ l2 -> foldr Z.mul 1%Z l1 = foldr Z.mul 1%Z l2.
Proof. induction 1; simpl; lia. Qed.

Lemma draw_shape_bound (g : Gen) (n : nat) (dims : list Z) (product : Z)
    (r : Rng) (dims' : list Z) (r' : Rng) :
  draw_shape g n dims product r = Ok (dims', r') ->
  foldr Z.mul 1%Z dims = product ->
  (product <= max_elem_per_tensor g)%Z ->
  (foldr Z.mul 1%Z dims' <= max_elem_per_tensor g)%Z.
Proof.
  revert dims product r. induction n as [|n IH]; intros dims product r H Hp Hle;
    cbn [draw_shape] in H.
  - injection H as <- _. lia.
  - apply bind_Ok in H as ([v r1] & _ & H).
    eapply IH; [exact H | |].
    + rewrite nelement_app. by rewrite Hp.
    + destruct (max_elem_per_tensor g <? product * v)%Z eqn:Hc; lia.
Qed.

(** The placeholder drawn by [BaseGen.make_random_concrete_placeholder]
    respects the cap, whatever the random module returns. *)
Lemma make_random_concrete_placeholder_bound
    (shuffle : list Z -> Rng -> list Z * Rng) (g : Gen) (rank : nat)
    (dt : DType) (r : Rng) (ph : AbsOp) (r' : Rng) :
  (forall l r, (shuffle l r).1 ≡ₚ l) ->
  (1 <= max_elem_per_tensor g)%Z ->
  make_random_concrete_placeholder shuffle g rank dt r = Ok (ph, r') ->
  forall t, t ∈ out_types ph -> (nelement t <= max_elem_per_tensor g)%Z.
Proof.
  intros Hperm Hmax H t Ht. unfold make_random_concrete_placeholder in H.
  apply bind_Ok in H as ([dims r1] & Hd & H).
  pose proof (draw_shape_bound g rank [] 1%Z r dims r1 Hd eq_refl Hmax) as Hb.
  pose proof (Hperm dims r1) as Hp.
  destruct (shuffle dims r1) as [dims2 r2]. injection H as <- _. simpl in *.
  apply list_elem_of_singleton in Ht as ->. unfold nelement. simpl.
  by rewrite (nelement_Permutation _ _ Hp).
Qed.

(** The concolic forward insertion only commits outputs under the cap. *)
Lemma concolic_forward_commit_bound (g g' : Gen) (op_name : string)
    (input_vars : list var) (otensors : list AbsTensor) :
  concolic_forward_commit g op_name input_vars otensors = (g', true) ->
  forall t, t ∈ otensors -> (nelement t <= max_elem_per_tensor g)%Z.
Proof.
  unfold concolic_forward_commit. intros H t Ht.
  destruct (shape_checker g otensors) eqn:Hc; [|by inversion H].
  unfold shape_checker in Hc. rewrite forallb_forall in Hc.
  specialize (Hc t ltac:(by apply list_elem_of_In)). simpl in Hc.
  rewrite andb_true_r in Hc. unfold id in Hc. lia.
Qed.

Lemma random_choice_elem {A} (l : list A) (r : Rng) (x : A) (r' : Rng) :
  random_choice l r = Ok (x, r') -> x ∈ l.
Proof.
  unfold random_choice. intros H. apply bind_Ok in H as (y & Hy & H).
  injection H as <- _. apply index_Ok in Hy. by eapply list_elem_of_lookup_2.
Qed.

Lemma random_choice_total {A} (l : list A) (r : Rng) :
  l <> [] -> exists x, random_choice l r = Ok (x, next r) /\ x ∈ l.
Proof.
  intros Hl. unfold random_choice.
  assert (Hlen : 0 < length l) by (destruct l; [done | simpl; lia]).
  destruct (index_lt l (draw r (pos r) mod length l)) as (x & Hx & Hlk).
  { apply Nat.mod_upper_bound. lia. }
  exists x. rewrite Hx. split; [done | by eapply list_elem_of_lookup_2].
Qed.

Lemma vars_within_cap (max_elem : Z) (ir : GraphIR) (v : var) (t : AbsTensor) :
  ir_within_cap max_elem ir -> (v, t) ∈ vars ir -> within_cap max_elem t.
Proof.
  unfold ir_within_cap, vars. intros Hir Hin.
  apply list_elem_of_In, in_flat_map in Hin as (inst & Hinst & Hin).
  apply list_elem_of_In in Hinst, Hin.
  apply elem_of_lookup_imap in Hin as (k & t' & Heq & Hk).
  injection Heq as _ <-.
  eapply Forall_forall in Hir; [|exact Hinst].
  eapply Forall_forall in Hir; [exact Hir|].
  by eapply list_elem_of_lookup_2.
Qed.

Lemma var_type_within_cap (max_elem : Z) (g : Gen) (v : var) (t : AbsTensor) :
  gen_within_cap max_elem g -> var_type g v = Ok t -> within_cap max_elem t.
Proof.
  intros [_ Hir] H. unfold var_type in H.
  destruct (find _ _) as [e|] eqn:Hf; [|discriminate]. injection H as <-.
  apply find_some in Hf as [Hin _]. apply list_elem_of_In in Hin.
  destruct e as [v' t]. by eapply vars_within_cap.
Qed.

Lemma forward_insert_node_within_cap (max_elem : Z) (g : Gen) (node : AbsOp)
    (input_vars : list var) :
  gen_within_cap max_elem g ->
  Forall (within_cap max_elem) (out_types node) ->
  gen_within_cap max_elem (forward_insert_node g node input_vars).1.
Proof.
  intros [Hm Hir] Hn. unfold forward_insert_node, add_inst. simpl.
  split; [done|]. unfold ir_within_cap. simpl.
  apply Forall_app. split; [done|]. by constructor.
Qed.

Lemma replace_alluse_within_cap (max_elem : Z) (ir : GraphIR) (old new : var) :
  ir_within_cap max_elem ir -> ir_within_cap max_elem (replace_alluse ir old new).
Proof.
  unfold ir_within_cap, replace_alluse. simpl. intros H.
  apply Forall_map. by eapply Forall_impl; [exact H|].
Qed.

Lemma remove_unused_within_cap (max_elem : Z) (ir : GraphIR) (id : nat) :
  ir_within_cap max_elem ir -> ir_within_cap max_elem (remove_unused ir id).
Proof.
  unfold ir_within_cap, remove_unused. intros H.
  destruct (is_used ir id); [done|]. simpl.
  apply Forall_forall. intros inst Hin.
  apply list_elem_of_filter in Hin as [_ Hin].
  by eapply Forall_forall in H.
Qed.

Lemma backward_insert_node_within_cap (max_elem : Z) (g : Gen) (node : AbsOp)
    (input_vars ph_to_replace : list var) :
  gen_within_cap max_elem g ->
  Forall (within_cap max_elem) (out_types node) ->
  gen_within_cap max_elem
    (backward_insert_node g node input_vars ph_to_replace).1.
Proof.
  intros Hg Hn. unfold backward_insert_node.
  pose proof (forward_insert_node_within_cap max_elem g node input_vars Hg Hn)
    as H1.
  destruct (forward_insert_node g node input_vars) as [g1 new_inst].
  simpl in *. generalize (zip ph_to_replace (retvals new_inst)).
  intros l. revert g1 H1. induction l as [|[ph rv] l IH]; intros g1 H1; [done|].
  simpl. apply IH. destruct H1 as [Hm Hir]. split; [done|]. simpl.
  by apply remove_unused_within_cap, replace_alluse_within_cap.
Qed.

Lemma apply_insertion_within_cap (max_elem : Z) (g : Gen) (ins : Insertion) :
  gen_within_cap max_elem g ->
  match ins with
  | Forward _ otensors _ => Forall (within_cap max_elem) otensors
  | Backward _ otensors new_placeholders _ =>
      Forall (within_cap max_elem) otensors /\
      Forall (within_cap max_elem) new_placeholders
  end ->
  gen_within_cap max_elem (apply_insertion g ins).
Proof.
  intros Hg Hins. destruct ins as [op ots ivs|op ots phs rep]; simpl.
  - by apply forward_insert_node_within_cap.
  - destruct Hins as [Hots Hphs].
    assert (Hfold : forall l (acc : Gen * list var),
              gen_within_cap max_elem acc.1 ->
              Forall (within_cap max_elem) l ->
              gen_within_cap max_elem
                (fold_left
                   (fun '(g, input_vars) ttype =>
                      let '(g, inst) :=
                        forward_insert_node g (Placeholder ttype) [] in
                      (g, input_vars ++ [retval inst]))
                   l acc).1).
    { induction l as [|t l IH]; intros [g0 ivs] H0 Hl; [done|].
      cbn [fold_left]. apply Forall_cons in Hl as [Ht Hl].
      pose proof (forward_insert_node_within_cap max_elem g0 (Placeholder t) []
                    H0 ltac:(by constructor)) as H1.
      destruct (forward_insert_node g0 (Placeholder t) []) as [g1 inst].
      simpl in H1. by apply (IH (g1, ivs ++ [retval inst])). }
    specialize (Hfold phs (g, []) Hg Hphs).
    destruct (fold_left _ phs (g, [])) as [g1 input_vars].
    by apply backward_insert_node_within_cap.
Qed.

Lemma set_impossible_within_cap (max_elem : Z) (g : Gen) (n : nat) :
  gen_within_cap max_elem g -> gen_within_cap max_elem (set_impossible g n).
Proof. by intros [? ?]. Qed.

Lemma determine_ph_type_within_cap (max_elem : Z) (g : Gen) (ph : var)
    (to_inp : bool) :
  gen_within_cap max_elem g ->
  gen_within_cap max_elem (determine_ph_type g ph to_inp).
Proof.
  intros [Hm Hir]. split; [done|]. unfold ir_within_cap. simpl.
  apply Forall_map. eapply Forall_impl; [exact Hir|].
  intros inst Hi. simpl. destruct (identifier inst =? ph.1); [|done].
  by destruct to_inp.
Qed.

Lemma determine_ph_types_within_cap (max_elem : Z) (coins : nat -> bool)
    (g g' : Gen) :
  determine_ph_types coins g = Ok g' ->
  gen_within_cap max_elem g -> gen_within_cap max_elem g'.
Proof.
  unfold determine_ph_types. intros H Hg.
  destruct (placeholders g) as [|ph0 phs]; [discriminate|].
  injection H as <-.
  pose proof (determine_ph_type_within_cap max_elem g ph0 true Hg) as H0.
  revert H0. generalize (determine_ph_type g ph0 true).
  generalize (imap (fun k ph => (k, ph)) phs). clear.
  intros l. induction l as [|[k ph] l IH]; intros g0 H0; [done|].
  simpl. apply IH. by apply determine_ph_type_within_cap.
Qed.

(** *** The record finder *)

Lemma over_cap_false (max_elem : Z) (tensors : list AbsTensor) :
  over_cap max_elem tensors = false -> Forall (within_cap max_elem) tensors.
Proof.
  unfold over_cap. intros H. apply Forall_forall. intros t Ht.
  unfold within_cap.
  destruct (max_elem <? nelement t)%Z eqn:Hn; [|lia].
  assert (existsb (fun x => (max_elem <? nelement x)%Z) tensors = true);
    [|congruence].
  apply existsb_exists. exists t. split; [by apply list_elem_of_In | done].
Qed.

Lemma table_register_within_cap (max_elem : Z) (inst : string)
    (table : list (AbsTensor * list string)) (t : AbsTensor) :
  Forall (fun e => within_cap max_elem e.1) table ->
  within_cap max_elem t ->
  Forall (fun e => within_cap max_elem e.1) (table_register inst table t).
Proof.
  intros Htab Ht. unfold table_register. destruct (existsb _ table).
  - apply Forall_map. eapply Forall_impl; [exact Htab|].
    intros e He. simpl. by destruct (decide (e.1 = t)).
  - apply Forall_app. split; [done|]. by constructor.
Qed.

Lemma fold_register_within_cap (max_elem : Z) (inst : string)
    (tensors : list AbsTensor) (table : list (AbsTensor * list string)) :
  Forall (fun e => within_cap max_elem e.1) table ->
  Forall (within_cap max_elem) tensors ->
  Forall (fun e => within_cap max_elem e.1)
    (fold_left (table_register inst) tensors table).
Proof.
  revert table. induction tensors as [|t l IH]; intros table Htab Hl; [done|].
  apply Forall_cons in Hl as [Ht Hl]. simpl. apply IH; [|done].
  by apply table_register_within_cap.
Qed.

Section RecordFinder.

Variable from_str : string -> result DType.

Lemma add_record_within_cap (max_elem : Z) (inst : Instrument.OpInstance)
    (record : gmap string pyval * gmap string pyval) (f f' : OpRecordFinder) :
  add_record from_str max_elem inst record f = Ok f' ->
  finder_within_cap max_elem f -> finder_within_cap max_elem f'.
Proof.
  unfold add_record. intros H Hf.
  destruct (record_tensors from_str (Instrument.input_tensors inst) record.1)
    as [ins|]; [|by injection H as <-].
  destruct (over_cap max_elem ins) eqn:Hi; [by injection H as <-|].
  destruct (record_tensors from_str (Instrument.output_tensors inst) record.2)
    as [outs|]; [|by injection H as <-].
  destruct (over_cap max_elem outs) eqn:Ho; [by injection H as <-|].
  apply bind_Ok in H as (attrs & _ & H). injection H as <-.
  apply over_cap_false in Hi, Ho. destruct Hf as (Hp & Hc & Hr).
  split; [|split]; simpl.
  - by apply fold_register_within_cap.
  - by apply fold_register_within_cap.
  - unfold record_register. destruct (existsb _ (op2record f)).
    + apply Forall_map. eapply Forall_impl; [exact Hr|].
      intros e He. simpl. destruct (decide (e.1 = _)); [|done]. simpl.
      apply Forall_app. split; [done|]. by constructor.
    + apply Forall_app. split; [done|]. constructor; [|done]. simpl.
      by constructor.
Qed.

Lemma make_record_finder_within_cap
    (gen_inst_records :
       list (Instrument.OpInstance
             * list (gmap string pyval * gmap string pyval)))
    (max_elem : Z) (f : OpRecordFinder) :
  make_record_finder from_str gen_inst_records max_elem = Ok f ->
  finder_within_cap max_elem f.
Proof.
  unfold make_record_finder. intros H.
  eapply (forM_inv (finder_within_cap max_elem)); [exact H | |].
  - by repeat split.
  - intros [inst records] s s' _ Hs Hb.
    destruct (decide (Instrument.name inst ∈ blacklist)); [by injection Hb as <-|].
    eapply (forM_inv (finder_within_cap max_elem)); [exact Hb | done |].
    intros record s1 s2 _ Hs1 Hb1. by eapply add_record_within_cap.
Qed.

End RecordFinder.

Lemma records_of_within_cap (max_elem : Z) (f : OpRecordFinder)
    (op_type : string) (records : list OpRecord) :
  finder_within_cap max_elem f ->
  records_of f op_type = Ok records ->
  Forall (fun rec : OpRecord =>
            Forall (within_cap max_elem) rec.1.1 /\
            Forall (within_cap max_elem) rec.1.2) records.
Proof.
  intros (_ & _ & Hr) H. unfold records_of in H.
  destruct (find _ _) as [e|] eqn:Hf; [|discriminate]. injection H as <-.
  apply find_some in Hf as [Hin _]. apply list_elem_of_In in Hin.
  by eapply Forall_forall in Hr.
Qed.

(** *** Record-matched insertion *)

Lemma try_concrete_forward_insert_op_within_cap (max_elem : Z) (g g' : Gen)
    (type2vars : list (AbsTensor * list var)) (op_name : string)
    (itensors otensors : list AbsTensor) (r r' : Rng) (ok : bool) :
  try_concrete_forward_insert_op g type2vars op_name itensors otensors r
    = Ok (g', ok, r') ->
  gen_within_cap max_elem g ->
  Forall (within_cap max_elem) otensors ->
  gen_within_cap max_elem g'.
Proof.
  unfold try_concrete_forward_insert_op. intros H Hg Ho.
  apply bind_Ok in H as ([ivars r1] & _ & H).
  destruct (length ivars =? length itensors); injection H as <- _ _; [|done].
  by apply forward_insert_node_within_cap.
Qed.

Lemma try_concrete_backward_insert_op_within_cap (max_elem : Z) (g g' : Gen)
    (type2vars : list (AbsTensor * list var)) (op_name : string)
    (itensors otensors : list AbsTensor) (r r' : Rng) (ok : bool) :
  try_concrete_backward_insert_op g type2vars op_name itensors otensors r
    = Ok (g', ok, r') ->
  gen_within_cap max_elem g ->
  Forall (within_cap max_elem) itensors ->
  Forall (within_cap max_elem) otensors ->
  gen_within_cap max_elem g'.
Proof.
  unfold try_concrete_backward_insert_op. intros H Hg Hi Ho.
  apply bind_Ok in H as ([ovars r1] & _ & H).
  destruct (length ovars =? length otensors); injection H as <- _ _; [|done].
  by apply (apply_insertion_within_cap max_elem g (Backward _ _ _ _)).
Qed.

Section RecordLoops.

Variable insert_op :
  Gen -> list (AbsTensor * list var) -> string -> list AbsTensor ->
  list AbsTensor -> Rng -> result (Gen * bool * Rng).
Variable max_elem : Z.

Hypothesis insert_op_within_cap :
  forall g g' type2vars op_name itensors otensors r r' ok,
    insert_op g type2vars op_name itensors otensors r = Ok (g', ok, r') ->
    gen_within_cap max_elem g ->
    Forall (within_cap max_elem) itensors ->
    Forall (within_cap max_elem) otensors ->
    gen_within_cap max_elem g'.

Lemma try_records_within_cap (g g' : Gen)
    (type2vars : list (AbsTensor * list var)) (op_type : string)
    (records : list OpRecord) (r r' : Rng) (ok : bool) :
  try_records insert_op g type2vars op_type records r = Ok (g', ok, r') ->
  gen_within_cap max_elem g ->
  Forall (fun rec : OpRecord =>
            Forall (within_cap max_elem) rec.1.1 /\
            Forall (within_cap max_elem) rec.1.2) records ->
  gen_within_cap max_elem g'.
Proof.
  revert g r. induction records as [|[[its ots] attrs] rest IH];
    intros g r H Hg Hrec; simpl in H.
  - by injection H as <- _ _.
  - apply Forall_cons in Hrec as [[Hi Ho] Hrec]. simpl in Hi, Ho.
    destruct (insert_op g type2vars op_type its ots r)
      as [[[g1 b] r1]|e] eqn:Hop.
    + pose proof (insert_op_within_cap _ _ _ _ _ _ _ _ _ Hop Hg Hi Ho) as H1.
      destruct b; [by injection H as <- _ _ | by eapply IH].
    + destruct e; try discriminate. by eapply IH.
Qed.

Lemma try_op_types_within_cap (f : OpRecordFinder) (g g' : Gen)
    (type2vars : list (AbsTensor * list var)) (op_types : list string)
    (r r' : Rng) (ok : bool) :
  finder_within_cap max_elem f ->
  try_op_types insert_op f g type2vars op_types r = Ok (g', ok, r') ->
  gen_within_cap max_elem g ->
  gen_within_cap max_elem g'.
Proof.
  intros Hf. revert g r. induction op_types as [|op rest IH];
    intros g r H Hg; simpl in H.
  - by injection H as <- _ _.
  - apply bind_Ok in H as (records & Hrec & H).
    apply bind_Ok in H as ([[g1 b] r1] & Ht & H).
    pose proof (try_records_within_cap _ _ _ _ _ _ _ _ Ht Hg
                  (records_of_within_cap _ _ _ _ Hf Hrec)) as H1.
    destruct b; [by injection H as <- _ _ | by eapply IH].
Qed.

End RecordLoops.

Section Drivers.

Variable shuffle : list Z -> Rng -> list Z * Rng.
Variable shuffle_ops : list string -> Rng -> list string * Rng.
Variable DTYPE_GEN_ALL : list DType.
Variable max_elem : Z.

Hypothesis shuffle_permutes : forall l r, (shuffle l r).1 ≡ₚ l.
Hypothesis cap_positive : (1 <= max_elem)%Z.

Lemma try_concrete_insert_forward_within_cap (f : OpRecordFinder) (g g' : Gen)
    (r r' : Rng) (ok : bool) :
  finder_within_cap max_elem f ->
  try_concrete_insert_forward shuffle_ops f g r = Ok (g', ok, r') ->
  gen_within_cap max_elem g -> gen_within_cap max_elem g'.
Proof.
  unfold try_concrete_insert_forward. intros Hf H Hg.
  destruct (shuffle_ops _ r) as [op_types r1].
  eapply (try_op_types_within_cap try_concrete_forward_insert_op max_elem);
    [|exact Hf | exact H | exact Hg].
  intros. by eapply try_concrete_forward_insert_op_within_cap.
Qed.

Lemma try_concrete_insert_backward_within_cap (f : OpRecordFinder) (g g' : Gen)
    (r r' : Rng) (ok : bool) :
  finder_within_cap max_elem f ->
  try_concrete_insert_backward shuffle_ops f g r = Ok (g', ok, r') ->
  gen_within_cap max_elem g -> gen_within_cap max_elem g'.
Proof.
  unfold try_concrete_insert_backward. intros Hf H Hg.
  apply bind_Ok in H as (phs & _ & H).
  destruct (shuffle_ops _ r) as [op_types r1].
  eapply (try_op_types_within_cap try_concrete_backward_insert_op max_elem);
    [|exact Hf | exact H | exact Hg].
  intros. by eapply try_concrete_backward_insert_op_within_cap.
Qed.

(** *** Solver-driven insertion *)

Lemma shape_checker_within_cap (g : Gen) (tensors : list AbsTensor) :
  max_elem_per_tensor g = max_elem ->
  shape_checker g tensors = true -> Forall (within_cap max_elem) tensors.
Proof.
  intros Hm Hc. unfold shape_checker in Hc. rewrite forallb_forall in Hc.
  apply Forall_forall. intros t Ht.
  specialize (Hc t ltac:(by apply list_elem_of_In)). simpl in Hc.
  rewrite andb_true_r in Hc. unfold id, within_cap in *. lia.
Qed.

Lemma concolic_forward_commit_within_cap (g g' : Gen) (op_name : string)
    (input_vars : list var) (otensors : list AbsTensor) (ok : bool) :
  concolic_forward_commit g op_name input_vars otensors = (g', ok) ->
  gen_within_cap max_elem g -> gen_within_cap max_elem g'.
Proof.
  unfold concolic_forward_commit. intros H Hg.
  destruct (shape_checker g otensors) eqn:Hc; injection H as <- _; [|done].
  apply forward_insert_node_within_cap; [done|]. simpl.
  destruct Hg as [Hm _]. by eapply shape_checker_within_cap.
Qed.

Lemma concolic_backward_commit_within_cap (g g' : Gen) (op_name : string)
    (phvars : list var) (otensors itensors : list AbsTensor) (ok : bool) :
  concolic_backward_commit g op_name phvars otensors itensors = (g', ok) ->
  gen_within_cap max_elem g ->
  Forall (within_cap max_elem) otensors ->
  gen_within_cap max_elem g'.
Proof.
  unfold concolic_backward_commit. intros H Hg Ho.
  destruct (shape_checker g itensors) eqn:Hc; injection H as <- _; [|done].
  apply (apply_insertion_within_cap max_elem g (Backward _ _ _ _)); [done|].
  split; [done|]. destruct Hg as [Hm _]. by eapply shape_checker_within_cap.
Qed.

Lemma try_forward_insert_at_within_cap (g g' : Gen) (input_vars : list var)
    (s : Solved) (ok : bool) :
  ConcolicGen_try_forward_insert_at g input_vars s = Ok (g', ok) ->
  gen_within_cap max_elem g -> gen_within_cap max_elem g'.
Proof.
  unfold ConcolicGen_try_forward_insert_at. intros H Hg.
  apply bind_Ok in H as (its & _ & H).
  destruct s as [| |op ots]; [by injection H as <- _ | discriminate |].
  injection H as H. by eapply concolic_forward_commit_within_cap.
Qed.

Lemma try_occupy_placeholder_within_cap (g g' : Gen) (phvars : list var)
    (s : Solved) (ok : bool) :
  ConcolicGen_try_occupy_placeholder g phvars s = Ok (g', ok) ->
  gen_within_cap max_elem g -> gen_within_cap max_elem g'.
Proof.
  unfold ConcolicGen_try_occupy_placeholder. intros H Hg.
  apply bind_Ok in H as (ots & Hots & H).
  destruct s as [| |op its]; [by injection H as <- _ | discriminate |].
  injection H as H. eapply concolic_backward_commit_within_cap; [exact H|done|].
  eapply mapM_Forall; [exact Hots|]. intros v t _ Hv.
  by eapply var_type_within_cap.
Qed.

Lemma try_picks_within_cap (picks : list Pick) (g g' : Gen) (ok : bool) :
  try_picks g picks = Ok (g', ok) ->
  gen_within_cap max_elem g -> gen_within_cap max_elem g'.
Proof.
  revert g. induction picks as [|p rest IH]; intros g H Hg; simpl in H.
  - by injection H as <- _.
  - destruct (try_pick g p) as [[g1 b]| |e] eqn:Hp.
    + assert (H1 : gen_within_cap max_elem g1).
      { destruct p as [|ivs s|phs s]; simpl in Hp; [discriminate| |].
        - destruct (ConcolicGen_try_forward_insert_at g ivs s)
            as [[g2 b2]|] eqn:Ht; [|discriminate].
          injection Hp as <- _. by eapply try_forward_insert_at_within_cap.
        - destruct (ConcolicGen_try_occupy_placeholder g phs s)
            as [[g2 b2]|] eqn:Ht; [|discriminate].
          injection Hp as <- _. by eapply try_occupy_placeholder_within_cap. }
      destruct b; [by injection H as <- _ | by eapply IH].
    + by injection H as <- _.
    + destruct e; try discriminate. by injection H as <- _.
Qed.

Lemma try_insert_node_type_within_cap (picks : list Pick) (g g' : Gen)
    (ok : bool) :
  try_insert_node_type g picks = Ok (g', ok) ->
  gen_within_cap max_elem g -> gen_within_cap max_elem g'.
Proof. apply try_picks_within_cap. Qed.

Lemma try_candidates_within_cap
    (try_at : Gen -> list var -> Solved -> result (Gen * bool))
    (cands : list (list var * Solved)) (g g' : Gen) (ok : bool) :
  (forall g g' vs s ok, try_at g vs s = Ok (g', ok) ->
     gen_within_cap max_elem g -> gen_within_cap max_elem g') ->
  try_candidates try_at g cands = Ok (g', ok) ->
  gen_within_cap max_elem g -> gen_within_cap max_elem g'.
Proof.
  intros Hat. revert g. induction cands as [|[vs s] rest IH];
    intros g H Hg; simpl in H.
  - by injection H as <- _.
  - destruct (try_at g vs s) as [[g1 b]|e] eqn:Ht.
    + pose proof (Hat _ _ _ _ _ Ht Hg) as H1.
      destruct b; [by injection H as <- _ | by eapply IH].
    + destruct e; try discriminate. by eapply IH.
Qed.

Lemma first_branch_within_cap (m : Method) (f : OpRecordFinder) (g g' : Gen)
    (b : Branch) (r r' : Rng) (ok : bool) :
  finder_within_cap max_elem f ->
  first_branch shuffle_ops m f g b r = Ok (g', ok, r') ->
  gen_within_cap max_elem g -> gen_within_cap max_elem g'.
Proof.
  intros Hf H Hg. unfold first_branch in H.
  destruct b as [| | |cands|cands].
  - by injection H as <- _ _.
  - destruct (has_records m); [|by injection H as <- _ _].
    by eapply try_concrete_insert_forward_within_cap.
  - destruct (has_records m); [|by injection H as <- _ _].
    by eapply try_concrete_insert_backward_within_cap.
  - destruct (has_autoinf m); [|by injection H as <- _ _].
    apply bind_Ok in H as ([g1 b1] & Hc & H). injection H as <- _ _.
    eapply try_candidates_within_cap; [|exact Hc | exact Hg].
    intros. by eapply try_forward_insert_at_within_cap.
  - destruct (has_autoinf m); [|by injection H as <- _ _].
    apply bind_Ok in H as ([g1 b1] & Hc & H). injection H as <- _ _.
    eapply try_candidates_within_cap; [|exact Hc | exact Hg].
    intros. by eapply try_occupy_placeholder_within_cap.
Qed.

Lemma try_insert_of_within_cap (m : Method) (f : OpRecordFinder) (g g' : Gen)
    (mv : Move) (r r' : Rng) :
  finder_within_cap max_elem f ->
  try_insert_of shuffle_ops DTYPE_GEN_ALL m f g mv r = Ok (g', r') ->
  gen_within_cap max_elem g -> gen_within_cap max_elem g'.
Proof.
  intros Hf H Hg. unfold try_insert_of in H.
  destruct m.
  1: { apply bind_Ok in H as ([g2 b2] & Ht & H). injection H as <- _.
       by eapply try_insert_node_type_within_cap. }
  all: apply bind_Ok in H as ([[g1 b1] r1] & Hfb & H);
    pose proof (first_branch_within_cap _ _ _ _ _ _ _ _ Hf Hfb Hg) as H1;
    (destruct b1;
       [injection H as <- _; by apply set_impossible_within_cap|]);
    (destruct (dtype_mismatch DTYPE_GEN_ALL g1);
       [injection H as <- _; by apply set_impossible_within_cap|]);
    apply bind_Ok in H as ([g2 b2] & Ht & H); injection H as <- _;
    by eapply try_insert_node_type_within_cap.
Qed.

Lemma gen_loop_of_within_cap (m : Method) (f : OpRecordFinder)
    (max_node_size : nat) (schedule : list Move) (g g' : Gen) (r r' : Rng) :
  finder_within_cap max_elem f ->
  gen_loop_of shuffle_ops DTYPE_GEN_ALL m f max_node_size schedule g r
    = Ok (g', r') ->
  gen_within_cap max_elem g -> gen_within_cap max_elem g'.
Proof.
  intros Hf. revert g r. induction schedule as [|mv rest IH];
    intros g r H Hg; simpl in H.
  - by injection H as <- _.
  - destruct (num_op g <? max_node_size); [|by injection H as <- _].
    destruct (extra_exit_check _ g max_node_size); [by injection H as <- _|].
    apply bind_Ok in H as ([g1 r1] & Ht & H).
    eapply IH; [exact H|]. by eapply try_insert_of_within_cap.
Qed.

Lemma abstract_gen_of_within_cap (m : Method) (f : OpRecordFinder)
    (max_node_size : nat) (schedule : list Move) (coins : nat -> bool)
    (g g' : Gen) (r : Rng) :
  finder_within_cap max_elem f ->
  abstract_gen_of shuffle_ops DTYPE_GEN_ALL m f max_node_size schedule coins
    g r = Ok g' ->
  gen_within_cap max_elem g -> gen_within_cap max_elem g'.
Proof.
  intros Hf H Hg. unfold abstract_gen_of in H.
  destruct (max_node_size =? 0); [discriminate|].
  apply bind_Ok in H as ([g1 r1] & Hl & H).
  eapply determine_ph_types_within_cap; [exact H|].
  eapply gen_loop_of_within_cap; [exact Hf | exact Hl |].
  destruct (record_assisted m); [by apply set_impossible_within_cap | done].
Qed.

(** *** The first placeholder *)

Lemma BaseGen_init_within_cap : gen_within_cap max_elem (BaseGen_init max_elem).
Proof. split; [done | constructor]. Qed.

Lemma ConcolicGen_init_within_cap (rank : nat) (dt : DType) (r r' : Rng)
    (g : Gen) :
  ConcolicGen_init shuffle max_elem rank dt r = Ok (g, r') ->
  gen_within_cap max_elem g.
Proof.
  unfold ConcolicGen_init. intros H.
  apply bind_Ok in H as ([ph r1] & Hph & H).
  assert (Hg : gen_within_cap max_elem
                 (forward_insert_node (BaseGen_init max_elem) ph []).1);
    [|by injection H as <- _].
  apply forward_insert_node_within_cap; [apply BaseGen_init_within_cap|].
  apply Forall_forall. intros t Ht.
  by apply (make_random_concrete_placeholder_bound shuffle
              (BaseGen_init max_elem) rank dt r ph r1 shuffle_permutes).
Qed.

Lemma DynoFuzzR_init_within_cap (f : OpRecordFinder) (rank : nat)
    (want : option DType) (fallback : DType) (r r' : Rng) (g : Gen) :
  finder_within_cap max_elem f ->
  DynoFuzzR_init shuffle max_elem f rank want fallback r = Ok (g, r') ->
  gen_within_cap max_elem g.
Proof.
  unfold DynoFuzzR_init. intros (Hp & Hc & _) H.
  apply bind_Ok in H as ([ph r1] & Hph & H).
  assert (Hg : gen_within_cap max_elem
                 (forward_insert_node (BaseGen_init max_elem) ph []).1);
    [|by injection H as <- _].
  apply forward_insert_node_within_cap; [apply BaseGen_init_within_cap|].
  unfold DynoFuzzR_make_random_concrete_placeholder in Hph.
  cbv zeta in Hph.
  match type of Hph with
  | context [length ?c =? 0] => set (cand := c) in Hph
  end.
  destruct (length cand =? 0).
  - apply Forall_forall. intros t Ht.
    by apply (make_random_concrete_placeholder_bound shuffle
                (BaseGen_init max_elem) rank (default fallback want) r ph r1
                shuffle_permutes).
  - apply bind_Ok in Hph as ([sel r2] & Hsel & Hph). injection Hph as <- _.
    apply random_choice_elem in Hsel.
    constructor; [|constructor]. unfold cand in Hsel.
    assert (Hin : sel ∈ map fst (producer f) ++ map fst (consumer f)).
    { apply elem_of_app in Hsel as [Hs|Hs];
        apply list_elem_of_filter in Hs as [_ Hs]; apply elem_of_app; auto. }
    unfold within_cap, nelement. simpl.
    apply elem_of_app in Hin as [Hin|Hin];
      apply list_elem_of_fmap in Hin as (e & -> & He).
    + by eapply Forall_forall in Hp.
    + by eapply Forall_forall in Hc.
Qed.

Lemma concrete_gen_within_cap (m : Method) (record_finder : option OpRecordFinder)
    (max_nodes : nat) (run : Run) (r : Rng) (gen : Generator) :
  (forall f, record_finder = Some f -> finder_within_cap max_elem f) ->
  concrete_gen shuffle shuffle_ops DTYPE_GEN_ALL m record_finder max_elem
    max_nodes run r = Ok gen ->
  generator_within_cap max_elem gen.
Proof.
  intros Hf H. unfold concrete_gen in H.
  assert (Hempty : finder_within_cap max_elem (mkOpRecordFinder [] [] []))
    by (by repeat split).
  destruct m.
  1: { apply bind_Ok in H as ([g0 r0] & Hi & H).
       apply bind_Ok in H as (g1 & Ha & H). injection H as <-.
       eapply abstract_gen_of_within_cap; [exact Hempty | exact Ha |].
       by eapply ConcolicGen_init_within_cap. }
  all: destruct record_finder as [f|]; [|discriminate];
    apply bind_Ok in H as ([g0 r0] & Hi & H);
    apply bind_Ok in H as (g1 & Ha & H); injection H as <-;
    (eapply abstract_gen_of_within_cap; [by apply Hf | exact Ha |]);
    (eapply DynoFuzzR_init_within_cap; [by apply Hf | exact Hi]).
Qed.

End Drivers.


Lemma shape_eq_sound (a b : list SymDim) (cs : list Constraint)
    (model : Z3Model) :
  shape_eq a b = Ok cs -> satisfied model cs ->
  map (dim_value model) a = map (dim_value model) b.
Proof.
  revert b cs. induction a as [|x a IH]; intros [|y b] cs H Hs; simpl in H;
    try discriminate; [done|].
  apply bind_Ok in H as (cs' & Hcs' & H).
  assert (Hhead : dim_value model x = dim_value model y /\ satisfied model cs').
  { destruct x as [p|e], y as [q|e'].
    - destruct (p =? q)%Z eqn:Hpq; [|discriminate]. injection H as <-.
      split; [simpl; lia | done].
    - injection H as <-. apply Forall_cons in Hs as [Hc Hs].
      apply Z.eqb_eq in Hc. by split.
    - injection H as <-. apply Forall_cons in Hs as [Hc Hs].
      apply Z.eqb_eq in Hc. by split.
    - injection H as <-. apply Forall_cons in Hs as [Hc Hs].
      apply Z.eqb_eq in Hc. by split. }
  destruct Hhead as [Hx Hs']. simpl. rewrite Hx. f_equal. by eapply IH.
Qed.

Lemma concretize_of_concrete (model : Z3Model) (t : AbsTensor) :
  concretize_tensor model (of_concrete t) = t.
Proof.
  destruct t as [sh dt]. unfold concretize_tensor, of_concrete. simpl.
  f_equal. induction sh as [|d sh IH]; simpl; [done | by rewrite IH].
Qed.

Lemma type_constraints_satisfied (max_elem : Z) (model : Z3Model)
    (t : SymTensor) :
  satisfied model (sym_tensor_type_constraints max_elem t) ->
  within_cap max_elem (concretize_tensor model t).
Proof.
  unfold sym_tensor_type_constraints, within_cap. intros H.
  apply Forall_cons in H as [H _]. lia.
Qed.

Lemma satisfied_app (model : Z3Model) (a b : list Constraint) :
  satisfied model (a ++ b) <-> satisfied model a /\ satisfied model b.
Proof. apply Forall_app. Qed.

Lemma satisfied_concat (model : Z3Model) (cs : list Constraint)
    (css : list (list Constraint)) :
  satisfied model (concat css) -> cs ∈ css -> satisfied model cs.
Proof.
  intros H Hin. apply Forall_forall. intros c Hc.
  eapply Forall_forall in H; [exact H|].
  apply list_elem_of_In, in_concat. exists cs.
  split; by apply list_elem_of_In.
Qed.

Lemma satisfied_flat_map {A} (model : Z3Model) (f : A -> list Constraint)
    (l : list A) (x : A) :
  satisfied model (flat_map f l) -> x ∈ l -> satisfied model (f x).
Proof.
  intros H Hin. apply Forall_forall. intros c Hc.
  eapply Forall_forall in H; [exact H|].
  apply list_elem_of_In, in_flat_map. exists x.
  split; by apply list_elem_of_In.
Qed.

#[local] Abbreviation capped_under :=
  (fun (max_elem : Z) (assertions : list Constraint) (t : SymTensor) =>
     forall model, satisfied model assertions ->
       within_cap max_elem (concretize_tensor model t)).

Lemma sym_var_type_within_cap (max_elem : Z) (g : SymGen) (v : var)
    (t : SymTensor) :
  sym_gen_within_cap max_elem g -> sym_var_type g v = Ok t ->
  capped_under max_elem (assertions g) t.
Proof.
  intros (_ & Hir & _) H model Hs. unfold sym_var_type in H.
  destruct (find _ _) as [e|] eqn:Hf; [|discriminate]. injection H as <-.
  apply find_some in Hf as [Hin _]. unfold sym_vars in Hin.
  apply in_flat_map in Hin as (inst & Hinst & Hin).
  apply list_elem_of_In in Hinst, Hin.
  apply elem_of_lookup_imap in Hin as (k & t' & Heq & Hk).
  destruct e as [v' t]. injection Heq as _ ->. simpl.
  specialize (Hir model Hs).
  eapply Forall_forall in Hir; [|exact Hinst].
  eapply Forall_forall in Hir; [exact Hir|].
  by eapply list_elem_of_lookup_2.
Qed.

Lemma sym_forward_insert_node_within_cap (max_elem : Z) (g : SymGen)
    (kind : OpKind) (out_types : list SymTensor) (input_vars : list var) :
  sym_gen_within_cap max_elem g ->
  Forall (capped_under max_elem (assertions g)) out_types ->
  sym_gen_within_cap max_elem
    (sym_forward_insert_node g kind out_types input_vars).1.
Proof.
  intros (Hm & Hir & Hl) Ho. unfold sym_forward_insert_node. simpl.
  split; [done|]. split; [|done]. simpl. intros model Hs.
  apply Forall_app. split; [by apply Hir|]. constructor; [|done]. simpl.
  eapply Forall_impl; [exact Ho|]. intros t Ht. by apply Ht.
Qed.

Lemma sym_forward_insert_node_assertions (g : SymGen) (kind : OpKind)
    (out_types : list SymTensor) (input_vars : list var) :
  assertions (sym_forward_insert_node g kind out_types input_vars).1
  = assertions g.
Proof. done. Qed.

Lemma sym_backward_insert_node_within_cap (max_elem : Z) (g : SymGen)
    (kind : OpKind) (out_types : list SymTensor)
    (input_vars ph_to_replace : list var) :
  sym_gen_within_cap max_elem g ->
  Forall (capped_under max_elem (assertions g)) out_types ->
  sym_gen_within_cap max_elem
    (sym_backward_insert_node g kind out_types input_vars ph_to_replace).1.
Proof.
  intros Hg Ho. unfold sym_backward_insert_node.
  pose proof (sym_forward_insert_node_within_cap max_elem g kind out_types
                input_vars Hg Ho) as H1.
  destruct (sym_forward_insert_node g kind out_types input_vars)
    as [g1 new_inst].
  simpl in *.
  generalize (zip ph_to_replace
                (map (fun k => (sym_identifier new_inst, k))
                   (range 0 (length out_types)))).
  intros l. revert g1 H1. induction l as [|[ph rv] l IH]; intros g1 H1; [done|].
  simpl. apply IH. destruct H1 as (Hm & Hir & Hl).
  split; [done|]. split; [|done]. simpl. intros model Hs.
  specialize (Hir model Hs). unfold sym_remove_unused.
  assert (Hrep : Forall
            (fun inst =>
               Forall (fun t => within_cap max_elem (concretize_tensor model t))
                 (sym_out_types inst))
            (sym_insts (sym_replace_alluse (sym_ir g1) ph rv))).
  { unfold sym_replace_alluse. simpl. apply Forall_map.
    by eapply Forall_impl; [exact Hir|]. }
  destruct (sym_is_used _ _); [done|]. simpl.
  apply Forall_forall. intros inst Hin.
  apply list_elem_of_filter in Hin as [_ Hin].
  by eapply Forall_forall in Hrep.
Qed.

Lemma assume_all_within_cap (max_elem : Z) (g : SymGen)
    (constraints : list Constraint) :
  sym_gen_within_cap max_elem g ->
  (forall model, last_solution g = Some model -> satisfied model constraints) ->
  sym_gen_within_cap max_elem (assume_all g constraints).
Proof.
  intros (Hm & Hir & Hl) Hc. split; [done|]. split; simpl.
  - intros model Hs. apply satisfied_app in Hs as [Hs _]. by apply Hir.
  - intros model Hsol. apply satisfied_app. split; [by apply Hl | by apply Hc].
Qed.

Lemma sym_determine_ph_type_within_cap (max_elem : Z) (g : SymGen) (ph : var)
    (to_inp : bool) :
  sym_gen_within_cap max_elem g ->
  sym_gen_within_cap max_elem (sym_determine_ph_type g ph to_inp).
Proof.
  intros (Hm & Hir & Hl). split; [done|]. split; [|done]. simpl.
  intros model Hs. apply Forall_map. eapply Forall_impl; [exact (Hir model Hs)|].
  intros inst Hi. simpl. by destruct (sym_identifier inst =? ph.1).
Qed.

Lemma make_symbolic_placeholder_within_cap (max_elem : Z) (g : SymGen)
    (rank : nat) (dt : DType) :
  sym_gen_within_cap max_elem g ->
  sym_gen_within_cap max_elem (make_symbolic_placeholder g rank dt).1.
Proof. by intros (Hm & Hir & Hl). Qed.

Section Symbolic.

Variable shuffle : list Z -> Rng -> list Z * Rng.
Variable check_sat : list Constraint -> list Constraint -> option Z3Model.
Variable max_elem : Z.

Hypothesis shuffle_permutes : forall l r, (shuffle l r).1 ≡ₚ l.
Hypothesis cap_positive : (1 <= max_elem)%Z.
Hypothesis check_sat_sound : sound_solver check_sat.

Lemma check_sat_assume_within_cap (g g1 : SymGen)
    (constraints : list Constraint) :
  sym_gen_within_cap max_elem g ->
  SymbolicGen_check_sat check_sat g constraints = (g1, true) ->
  sym_gen_within_cap max_elem (assume_all g1 constraints) /\
  sym_ir g1 = sym_ir g /\ assertions g1 = assertions g /\
  sym_placeholders g1 = sym_placeholders g.
Proof.
  intros (Hm & Hir & Hl) H. unfold SymbolicGen_check_sat in H.
  destruct (check_sat (assertions g) constraints) as [model|] eqn:Hc;
    [|discriminate].
  injection H as <-. split; [|done]. split; [done|]. split; simpl.
  - intros model' Hs. apply satisfied_app in Hs as [Hs _]. by apply Hir.
  - intros model' [= <-]. by apply check_sat_sound.
Qed.

Lemma check_sat_unsat (g g1 : SymGen) (constraints : list Constraint) :
  SymbolicGen_check_sat check_sat g constraints = (g1, false) -> g1 = g.
Proof.
  unfold SymbolicGen_check_sat.
  destruct (check_sat _ _); [discriminate | by intros [= <-]].
Qed.

Lemma SymbolicGen_try_forward_insert_at_within_cap (g g' : SymGen)
    (node : SymOp) (input_vars : list var) (ok : bool) :
  SymbolicGen_try_forward_insert_at check_sat g node input_vars = Ok (g', ok) ->
  sym_gen_within_cap max_elem g -> sym_gen_within_cap max_elem g'.
Proof.
  unfold SymbolicGen_try_forward_insert_at. intros H Hg.
  apply bind_Ok in H as (itensors & _ & H).
  apply bind_Ok in H as (required & _ & H).
  apply bind_Ok in H as (otensors & _ & H).
  apply bind_Ok in H as (positive & _ & H). cbv zeta in H.
  match type of H with
  | context [SymbolicGen_check_sat _ _ ?c] => set (constraints := c) in H
  end.
  destruct (SymbolicGen_check_sat check_sat g constraints) as [g1 sat] eqn:Hc.
  destruct sat.
  - assert (H2 : sym_gen_within_cap max_elem
                   (sym_forward_insert_node (assume_all g1 constraints)
                      (KCompute (sym_op_name node)) otensors input_vars).1);
      [|by injection H as <- _].
    destruct (check_sat_assume_within_cap _ _ _ Hg Hc)
      as (H1 & _ & Ha & _).
    apply sym_forward_insert_node_within_cap; [done|].
    apply Forall_forall. intros t Ht model Hs. simpl in Hs.
    apply satisfied_app in Hs as [_ Hs]. unfold constraints in Hs.
    rewrite !satisfied_app in Hs. destruct Hs as (_ & _ & Hs).
    apply type_constraints_satisfied.
    destruct Hg as [<- _]. by eapply (satisfied_flat_map _ _ otensors t).
  - injection H as <- _. by rewrite (check_sat_unsat _ _ _ Hc).
Qed.

Lemma placeholders_fold_within_cap (l : list (nat * DType)) (g : SymGen)
    (acc : list SymTensor) :
  sym_gen_within_cap max_elem g ->
  let res :=
    fold_left
      (fun '(g, itensors) '(rank, dt) =>
         let '(g, ph) := make_symbolic_placeholder g rank dt in
         (g, itensors ++ [ph]))
      l (g, acc) in
  sym_gen_within_cap max_elem res.1 /\
  sym_ir res.1 = sym_ir g /\ assertions res.1 = assertions g.
Proof.
  revert g acc. induction l as [|[rank dt] l IH]; intros g acc Hg; [done|].
  cbv zeta. cbn [fold_left].
  pose proof (make_symbolic_placeholder_within_cap max_elem g rank dt Hg) as H1.
  assert (Hsame : sym_ir (make_symbolic_placeholder g rank dt).1 = sym_ir g /\
                  assertions (make_symbolic_placeholder g rank dt).1
                  = assertions g) by done.
  destruct (make_symbolic_placeholder g rank dt) as [g1 ph]. simpl in H1, Hsame.
  destruct (IH g1 (acc ++ [ph]) H1) as (H2 & H3 & H4).
  destruct Hsame as [Hs1 Hs2]. split; [done|]. split; congruence.
Qed.

Lemma insert_placeholders_within_cap (itensors : list SymTensor) (g : SymGen)
    (acc : list var) :
  sym_gen_within_cap max_elem g ->
  Forall (capped_under max_elem (assertions g)) itensors ->
  let res :=
    fold_left
      (fun '(g, input_vars) ph =>
         let '(g, inst) := sym_forward_insert_node g KPlaceholder [ph] [] in
         (g, input_vars ++ [(sym_identifier inst, 0)]))
      itensors (g, acc) in
  sym_gen_within_cap max_elem res.1 /\ assertions res.1 = assertions g.
Proof.
  revert g acc. induction itensors as [|t l IH]; intros g acc Hg Hl; [done|].
  apply Forall_cons in Hl as [Ht Hl]. cbv zeta. cbn [fold_left].
  pose proof (sym_forward_insert_node_within_cap max_elem g KPlaceholder [t] []
                Hg ltac:(by constructor)) as H1.
  pose proof (sym_forward_insert_node_assertions g KPlaceholder [t] []) as Ha.
  destruct (sym_forward_insert_node g KPlaceholder [t] []) as [g1 inst].
  simpl in H1, Ha.
  destruct (IH g1 (acc ++ [(sym_identifier inst, 0)]) H1) as [H2 H3].
  { by rewrite Ha. }
  split; [exact H2 | by etransitivity; [exact H3 | exact Ha]].
Qed.

Lemma occupy_constraints_within_cap (g : SymGen) (node : SymOp)
    (otensors itensors inferred : list SymTensor)
    (constraints : list Constraint) :
  sym_max_elem_per_tensor g = max_elem ->
  Forall (capped_under max_elem (assertions g)) otensors ->
  occupy_constraints g node otensors itensors = Ok (constraints, inferred) ->
  Forall (capped_under max_elem (assertions g ++ constraints)) itensors /\
  Forall (capped_under max_elem (assertions g ++ constraints)) inferred.
Proof.
  intros Hm Ho H. unfold occupy_constraints in H.
  apply bind_Ok in H as (on_inputs & Hin & H).
  apply bind_Ok in H as (required & _ & H).
  apply bind_Ok in H as (inferred' & _ & H).
  apply bind_Ok in H as (on_outputs & Hout & H).
  injection H as <- <-. split.
  - apply mapM_Ok in Hin. apply Forall_forall. intros t Ht model Hs.
    apply satisfied_app in Hs as [_ Hs].
    apply satisfied_app in Hs as [Hs _].
    apply list_elem_of_lookup in Ht as [k Hk].
    destruct (Forall2_lookup_l _ _ _ _ _ Hin Hk) as (cs & Hcs & Hb).
    apply bind_Ok in Hb as (positive & _ & Hb). injection Hb as <-.
    apply list_elem_of_lookup_2 in Hcs.
    pose proof (satisfied_concat _ _ _ Hs Hcs) as Hsat.
    apply satisfied_app in Hsat as [_ Hsat].
    rewrite Hm in Hsat. by apply type_constraints_satisfied.
  - apply mapM_Ok in Hout. apply Forall_forall. intros t Ht model Hs.
    apply satisfied_app in Hs as [Hsa Hs].
    rewrite !satisfied_app in Hs. destruct Hs as (_ & _ & Hs).
    apply list_elem_of_lookup in Ht as [k Hk].
    assert (Hik : imap (fun i shape => (i, shape)) inferred' !! k
                  = Some (k, t)).
    { by rewrite list_lookup_imap, Hk. }
    destruct (Forall2_lookup_l _ _ _ _ _ Hout Hik) as (cs & Hcs & Hb).
    apply bind_Ok in Hb as (o & Ho' & Hb).
    apply bind_Ok in Hb as (same & Hsame & Hb).
    apply bind_Ok in Hb as (positive & _ & Hb). injection Hb as <-.
    apply list_elem_of_lookup_2 in Hcs.
    pose proof (satisfied_concat _ _ _ Hs Hcs) as Hsat.
    apply satisfied_app in Hsat as [Hsat _].
    pose proof (shape_eq_sound _ _ _ model Hsame Hsat) as Heq.
    apply index_Ok, list_elem_of_lookup_2 in Ho'.
    eapply Forall_forall in Ho; [|exact Ho'].
    specialize (Ho model Hsa).
    unfold within_cap, nelement, concretize_tensor in *. simpl in *.
    by rewrite Heq.
Qed.

Lemma SymbolicGen_try_occupy_placeholder_within_cap (g g' : SymGen)
    (node : SymOp) (phvars : list var) (res : result bool) :
  SymbolicGen_try_occupy_placeholder check_sat g node phvars = (g', res) ->
  sym_gen_within_cap max_elem g -> sym_gen_within_cap max_elem g'.
Proof.
  unfold SymbolicGen_try_occupy_placeholder. intros H Hg.
  destruct (mapM (sym_var_type g) phvars) as [otensors|e] eqn:Hot;
    [|by injection H as <- _].
  assert (Ho : Forall (capped_under max_elem (assertions g)) otensors).
  { eapply mapM_Forall; [exact Hot|]. intros v t _ Hv.
    by eapply sym_var_type_within_cap. }
  destruct (placeholders_fold_within_cap
              (deduct_inp_ranks_and_dtype node otensors) g [] Hg)
    as (H1 & Hir1 & Ha1).
  cbv zeta in H1, Hir1, Ha1.
  destruct (fold_left _ (deduct_inp_ranks_and_dtype node otensors) (g, []))
    as [g1 itensors].
  simpl in H1, Hir1, Ha1.
  destruct (occupy_constraints g1 node otensors itensors)
    as [[constraints inferred]|e] eqn:Hoc; [|by injection H as <- _].
  destruct (SymbolicGen_check_sat check_sat g1 constraints) as [g2 sat] eqn:Hc.
  destruct sat.
  - destruct (check_sat_assume_within_cap _ _ _ H1 Hc) as (H2 & _ & Ha2 & _).
    destruct (occupy_constraints_within_cap g1 node otensors itensors inferred
                constraints (proj1 H1) ltac:(by rewrite Ha1) Hoc)
      as [Hit Hinf].
    destruct (insert_placeholders_within_cap itensors
                (assume_all g2 constraints) [] H2) as [H3 Ha3].
    { simpl. by rewrite Ha2. }
    cbv zeta in H3, Ha3.
    destruct (fold_left _ itensors (assume_all g2 constraints, []))
      as [g3 input_vars].
    simpl in H3, Ha3.
    assert (H4 : sym_gen_within_cap max_elem
                   (sym_backward_insert_node g3 (KCompute (sym_op_name node))
                      inferred input_vars phvars).1);
      [|by injection H as <- _].
    apply sym_backward_insert_node_within_cap; [done|].
    rewrite Ha3. simpl. by rewrite Ha2.
  - injection H as <- _. by rewrite (check_sat_unsat _ _ _ Hc).
Qed.

Lemma sym_try_picks_within_cap (picks : list SymPick) (g g' : SymGen)
    (ok : bool) :
  sym_try_picks check_sat g picks = Ok (g', ok) ->
  sym_gen_within_cap max_elem g -> sym_gen_within_cap max_elem g'.
Proof.
  revert g. induction picks as [|p rest IH]; intros g H Hg; simpl in H.
  - by injection H as <- _.
  - destruct (sym_try_pick check_sat g p) as [g1 o] eqn:Hp.
    assert (H1 : sym_gen_within_cap max_elem g1).
    { destruct p as [|node ivs|node phs]; simpl in Hp.
      - by injection Hp as <- _.
      - destruct (SymbolicGen_try_forward_insert_at check_sat g node ivs)
          as [[g2 b]|e] eqn:Ht; injection Hp as <- _; [|done].
        by eapply SymbolicGen_try_forward_insert_at_within_cap.
      - destruct (SymbolicGen_try_occupy_placeholder check_sat g node phs)
          as [g2 b] eqn:Ht. injection Hp as <- _.
        by eapply SymbolicGen_try_occupy_placeholder_within_cap. }
    destruct o as [[]| |e].
    + by injection H as <- _.
    + by eapply IH.
    + by injection H as <- _.
    + destruct e; try discriminate. by injection H as <- _.
Qed.

Lemma sym_gen_loop_within_cap (max_node_size : nat)
    (schedule : list (list SymPick)) (g g' : SymGen) :
  sym_gen_loop check_sat max_node_size schedule g = Ok g' ->
  sym_gen_within_cap max_elem g -> sym_gen_within_cap max_elem g'.
Proof.
  revert g. induction schedule as [|picks rest IH]; intros g H Hg; simpl in H.
  - by injection H as <-.
  - destruct (_ <? max_node_size); [|by injection H as <-].
    apply bind_Ok in H as (g1 & Ht & H). eapply IH; [exact H|].
    unfold sym_try_insert in Ht.
    apply bind_Ok in Ht as ([g2 b] & Hp & Ht). injection Ht as <-.
    by eapply sym_try_picks_within_cap.
Qed.

Lemma sym_abstract_gen_within_cap (max_node_size : nat)
    (schedule : list (list SymPick)) (coins : nat -> bool) (g g' : SymGen) :
  sym_abstract_gen check_sat max_node_size schedule coins g = Ok g' ->
  sym_gen_within_cap max_elem g -> sym_gen_within_cap max_elem g'.
Proof.
  unfold sym_abstract_gen. intros H Hg.
  destruct (max_node_size =? 0); [discriminate|].
  apply bind_Ok in H as (g1 & Hl & H).
  pose proof (sym_gen_loop_within_cap _ _ _ _ Hl Hg) as H1.
  destruct (sym_placeholders g1) as [|ph0 phs]; [discriminate|].
  injection H as <-.
  pose proof (sym_determine_ph_type_within_cap max_elem g1 ph0 true H1) as H0.
  revert H0. generalize (sym_determine_ph_type g1 ph0 true).
  generalize (imap (fun k ph => (k, ph)) phs). clear.
  intros l. induction l as [|[k ph] l IH]; intros g0 H0; [done|].
  simpl. apply IH. by apply sym_determine_ph_type_within_cap.
Qed.

Lemma SymbolicGen_init_within_cap (symbolic_init : bool) (rank : nat)
    (dt : DType) (r : Rng) (g : SymGen) :
  SymbolicGen_init shuffle max_elem symbolic_init rank dt r = Ok g ->
  sym_gen_within_cap max_elem g.
Proof.
  unfold SymbolicGen_init. cbv zeta. intros H.
  apply bind_Ok in H as ([g0 ttype] & Hph & H).
  apply bind_Ok in H as (positive & _ & H). injection H as <-.
  assert (H0 : sym_ir g0 = mkSymIR [] 0 /\ assertions g0 = [] /\
               last_solution g0 = None /\ sym_max_elem_per_tensor g0 = max_elem /\
               (symbolic_init = false ->
                forall model, within_cap max_elem (concretize_tensor model ttype))).
  { destruct symbolic_init.
    - injection Hph as <- <-. by repeat split.
    - apply bind_Ok in Hph as ([ph r1] & Hb & Hph).
      destruct (out_types ph) as [|t [|]] eqn:Hout; try discriminate.
      injection Hph as <- <-. repeat split. intros _ model.
      rewrite concretize_of_concrete.
      apply (make_random_concrete_placeholder_bound shuffle
               (BaseGen_init max_elem) rank dt r ph r1 shuffle_permutes);
        [done | done |]. rewrite Hout. left. }
  destruct H0 as (Hir & Ha & Hl & Hm & Hconc).
  split; [done|]. split; simpl.
  - rewrite Hir. simpl. intros model Hs. constructor; [|done]. simpl.
    constructor; [|done].
    rewrite Ha in Hs. simpl in Hs.
    apply satisfied_app in Hs as [_ Hs].
    by apply type_constraints_satisfied.
  - rewrite Hl. discriminate.
Qed.

End Symbolic.

Lemma concretize_ir_within_cap (max_elem : Z) (g : SymGen) (model : Z3Model) :
  sym_gen_within_cap max_elem g -> last_solution g = Some model ->
  ir_within_cap max_elem (concretize_ir model (sym_ir g)).
Proof.
  intros (_ & Hir & Hl) Hsol. specialize (Hir model (Hl model Hsol)).
  unfold ir_within_cap, concretize_ir. simpl. apply Forall_map.
  eapply Forall_impl; [exact Hir|]. intros inst Hi. simpl.
  by apply Forall_map.
Qed.

Lemma make_concrete_within_cap (max_elem : Z) (gen : Generator) (ir : GraphIR) :
  generator_within_cap max_elem gen -> make_concrete gen = Ok ir ->
  ir_within_cap max_elem ir.
Proof.
  intros Hg H. destruct gen as [g|g]; simpl in *.
  - injection H as <-. by destruct Hg.
  - destruct (last_solution g) as [model|] eqn:Hsol; [|discriminate].
    injection H as <-. by apply concretize_ir_within_cap.
Qed.

Section Main.

Variable shuffle : list Z -> Rng -> list Z * Rng.
Variable shuffle_ops : list string -> Rng -> list string * Rng.
Variable DTYPE_GEN_ALL : list DType.
Variable check_sat : list Constraint -> list Constraint -> option Z3Model.
Variable from_str : string -> result DType.

Lemma symbolic_gen_within_cap (max_elem : Z) (symbolic_init : bool)
    (max_nodes : nat) (run : Run) (r : Rng) (gen : Generator) :
  (forall l r, (shuffle l r).1 ≡ₚ l) ->
  sound_solver check_sat ->
  (1 <= max_elem)%Z ->
  symbolic_gen shuffle check_sat symbolic_init max_elem max_nodes run r
    = Ok gen ->
  generator_within_cap max_elem gen.
Proof.
  intros Hperm Hsound Hcap H. unfold symbolic_gen in H.
  apply bind_Ok in H as (g0 & Hi & H). apply bind_Ok in H as (g1 & Ha & H).
  injection H as <-. simpl.
  assert (H0 : sym_gen_within_cap max_elem g0)
    by (eapply SymbolicGen_init_within_cap; eauto).
  eapply sym_abstract_gen_within_cap; eauto.
Qed.

Lemma model_gen_within_cap (method : string)
    (record_finder : option OpRecordFinder) (max_elem : Z) (max_nodes : nat)
    (run : Run) (r : Rng) (gen : Generator) :
  (forall l r, (shuffle l r).1 ≡ₚ l) ->
  sound_solver check_sat ->
  (1 <= max_elem)%Z ->
  (forall f, record_finder = Some f -> finder_within_cap max_elem f) ->
  model_gen shuffle shuffle_ops DTYPE_GEN_ALL check_sat method record_finder
    max_elem max_nodes run r = Ok gen ->
  generator_within_cap max_elem gen.
Proof.
  intros Hperm Hsound Hcap Hf H. unfold model_gen in H.
  destruct (max_nodes =? 0); [discriminate|].
  repeat match type of H with
         | (if ?b then _ else _) = _ =>
             destruct b;
             [first [ by eapply symbolic_gen_within_cap; eauto
                    | by eapply concrete_gen_within_cap; eauto ]|]
         end.
  discriminate.
Qed.


End Main.

Lemma constant_solver_sound (v : Z) : sound_solver (constant_solver v).
Proof.
  intros assertions assumptions model H. unfold constant_solver in H.
  destruct (forallb _ _) eqn:Hall; [|discriminate]. injection H as <-.
  apply Forall_forall. intros c Hc. rewrite forallb_forall in Hall.
  apply Hall. by apply list_elem_of_In.
Qed.


(** The finder drops the record of shape [1024, 1024]. *)
Example abs_record_finder :
  make_record_finder (fun s => Ok s) abs_records (2 ^ 16)
  = Ok (mkOpRecordFinder
          [(mkAbsTensor [2; 3]%Z "float32", ["torch.abs-0"])]
          [(mkAbsTensor [2; 3]%Z "float32", ["torch.abs-0"])]
          [("torch.abs-0",
            [([mkAbsTensor [2; 3]%Z "float32"],
              [mkAbsTensor [2; 3]%Z "float32"], ∅)])]).
Proof. vm_compute. reflexivity. Qed.

(** The symbolic generator with the model [2] for every symbol; with the
    model [300] no insertion is satisfiable under the cap. *)
Example symbolic_run :
  main keep_order keep_order ["float32"] (constant_solver 2) (fun s => Ok s)
    abs_records "symbolic" (2 ^ 16) 2 sym_run (mkRng (fun k => k) 0)
  = Ok (mkGraphIR
          [ mkInstIR 1 (mkAbsOp (KCompute "relu")
                          [mkAbsTensor [2; 2]%Z "float32"]) [(3, 0)];
            mkInstIR 2 (mkAbsOp KInput [mkAbsTensor [2; 2]%Z "float32"]) [];
            mkInstIR 3 (mkAbsOp (KCompute "relu")
                          [mkAbsTensor [2; 2]%Z "float32"]) [(2, 0)] ]
          4).
Proof. vm_compute. reflexivity. Qed.

Example symbolic_run_over_cap :
  main keep_order keep_order ["float32"] (constant_solver 300) (fun s => Ok s)
    abs_records "symbolic" (2 ^ 16) 2 sym_run (mkRng (fun k => k) 0)
  = Raise InternalError.
Proof. vm_compute. reflexivity. Qed.

(** The concolic generator passes over the model with the output of shape
    [1024, 1024] and commits the next one. *)
Example concolic_run_skips_over_cap :
  main keep_order keep_order ["float32"] (constant_solver 2) (fun s => Ok s)
    abs_records "concolic" (2 ^ 16) 2 concolic_run (mkRng (fun k => k) 0)
  = Ok (mkGraphIR
          [ mkInstIR 0 (mkAbsOp KInput [mkAbsTensor [1; 2]%Z "float32"]) [];
            mkInstIR 1 (mkAbsOp (KCompute "relu")
                          [mkAbsTensor [4; 4]%Z "float32"]) [(0, 0)] ]
          2).
Proof. vm_compute. reflexivity. Qed.

(** ** The node budget *)

#[local] Abbreviation is_compute :=
  (fun inst : InstIR => isinstance_Placeholder (iexpr_op inst) = false).

Lemma n_compute_app (l1 l2 : list InstIR) :
  length (filter is_compute (l1 ++ l2))
  = length (filter is_compute l1) + length (filter is_compute l2).
Proof. by rewrite filter_app, length_app. Qed.

Lemma n_compute_filter (P : InstIR -> Prop) `{!forall x, Decision (P x)}
    (l : list InstIR) :
  length (filter is_compute (filter P l)) <= length (filter is_compute l).
Proof.
  induction l as [|x l IH]; [done|].
  rewrite (filter_cons P). destruct (decide (P x)).
  - rewrite !(filter_cons is_compute).
    destruct (decide (is_compute x)); simpl; lia.
  - rewrite (filter_cons is_compute).
    destruct (decide (is_compute x)); simpl; lia.
Qed.

Lemma num_op_forward (g : Gen) (node : AbsOp) (input_vars : list var) :
  num_op (forward_insert_node g node input_vars).1
  = num_op g + (if isinstance_Placeholder node then 0 else 1).
Proof.
  unfold num_op, forward_insert_node, n_compute_inst. simpl.
  rewrite n_compute_app. f_equal.
  rewrite filter_cons.
  destruct (decide _) as [H|H]; simpl in H |- *;
    by destruct (isinstance_Placeholder node).
Qed.

Lemma num_op_replace_alluse (ir0 : GraphIR) (old new : var) :
  n_compute_inst (replace_alluse ir0 old new) = n_compute_inst ir0.
Proof.
  unfold n_compute_inst, replace_alluse. simpl.
  induction (insts ir0) as [|x l IH]; [done|].
  simpl. rewrite !filter_cons. simpl.
  destruct (decide (is_compute x)); simpl; by rewrite IH.
Qed.

Lemma num_op_remove_unused (ir0 : GraphIR) (id : nat) :
  n_compute_inst (remove_unused ir0 id) <= n_compute_inst ir0.
Proof.
  unfold n_compute_inst, remove_unused.
  destruct (is_used ir0 id); [done|]. simpl. apply n_compute_filter.
Qed.

Lemma num_op_backward (g : Gen) (node : AbsOp)
    (input_vars ph_to_replace : list var) :
  num_op (backward_insert_node g node input_vars ph_to_replace).1
  <= num_op g + (if isinstance_Placeholder node then 0 else 1).
Proof.
  unfold backward_insert_node.
  pose proof (num_op_forward g node input_vars) as Hf.
  destruct (forward_insert_node g node input_vars) as [g1 new_inst].
  simpl in *. rewrite <- Hf. clear Hf.
  generalize (zip ph_to_replace (retvals new_inst)). intros l.
  revert g1. induction l as [|[ph rv] l IH]; intros g1; simpl; [done|].
  etrans; [apply IH|]. unfold num_op. simpl.
  etrans; [apply num_op_remove_unused|]. by rewrite num_op_replace_alluse.
Qed.

Lemma num_op_placeholders (g : Gen) (ttypes : list AbsTensor)
    (input_vars : list var) :
  num_op (fold_left
            (fun '(g, input_vars) ttype =>
               let '(g, inst) := forward_insert_node g (Placeholder ttype) [] in
               (g, input_vars ++ [retval inst]))
            ttypes (g, input_vars)).1 = num_op g.
Proof.
  revert g input_vars. induction ttypes as [|t l IH]; intros g vs; [done|].
  cbn [fold_left]. pose proof (num_op_forward g (Placeholder t) []) as Hf.
  destruct (forward_insert_node g (Placeholder t) []) as [g1 inst].
  rewrite IH. simpl in Hf. lia.
Qed.

Lemma num_op_try_insert (g : Gen) (a : Attempt) :
  num_op (try_insert g a) <= S (num_op g).
Proof.
  destruct a as [| |record_matched ins];
    [unfold try_insert, set_impossible, num_op; simpl; lia..|].
  cbn [try_insert].
  assert (H : num_op (apply_insertion g ins) <= S (num_op g)).
  { destruct ins as [op_name otensors input_vars
                    |op_name otensors phs ph_to_replace];
      cbn [apply_insertion].
    - rewrite num_op_forward. simpl. lia.
    - pose proof (num_op_placeholders g phs []) as Hp.
      destruct (fold_left _ phs (g, [])) as [g1 vs]. simpl in Hp.
      etrans; [apply num_op_backward|]. simpl. lia. }
  by destruct record_matched.
Qed.

Lemma gen_loop_num_op (record_assisted : bool) (max_node_size : nat)
    (schedule : list Attempt) (g : Gen) :
  num_op g <= max_node_size ->
  num_op (gen_loop record_assisted max_node_size schedule g) <= max_node_size.
Proof.
  revert g. induction schedule as [|a rest IH]; intros g Hg; simpl; [done|].
  destruct (num_op g <? max_node_size) eqn:Hlt; [|done].
  destruct (extra_exit_check record_assisted g max_node_size); [done|].
  apply IH. apply Nat.ltb_lt in Hlt.
  pose proof (num_op_try_insert g a). lia.
Qed.

Lemma num_op_determine_ph_type (g : Gen) (ph : var) (to_inp : bool) :
  num_op (determine_ph_type g ph to_inp) <= num_op g.
Proof.
  unfold num_op, determine_ph_type, n_compute_inst. simpl.
  induction (insts (ir g)) as [|x l IH]; [done|].
  simpl. rewrite !filter_cons.
  destruct (identifier x =? ph.1).
  - rewrite decide_False by (by destruct to_inp).
    destruct (decide (is_compute x)); simpl; lia.
  - destruct (decide (is_compute x)); simpl; lia.
Qed.

Lemma gen_loop_no_insertion (record_assisted : bool) (max_node_size : nat)
    (schedule : list Attempt) (g : Gen) :
  no_insertion schedule ->
  ir (gen_loop record_assisted max_node_size schedule g) = ir g /\
  placeholders (gen_loop record_assisted max_node_size schedule g)
  = placeholders g.
Proof.
  revert g. induction schedule as [|a rest IH]; intros g Hs; simpl; [done|].
  apply Forall_cons in Hs as [Ha Hs].
  destruct (num_op g <? max_node_size); [|done].
  destruct (extra_exit_check record_assisted g max_node_size); [done|].
  destruct (IH (try_insert g a) Hs) as [-> ->].
  by destruct a.
Qed.

(** C9, as the loop counts nodes. With [max_nodes = 1] the returned graph
    has at most one compute instruction next to its placeholders, and it
    is the one-instruction graph of a single input placeholder when no
    insertion succeeded within the time budget. *)
Theorem abstract_gen_one_node (record_assisted : bool) (max_elem : Z)
    (t : AbsTensor) (schedule : list Attempt) (coins : nat -> bool)
    (g' : Gen) :
  abstract_gen record_assisted 1 schedule coins (initial max_elem t) = Ok g' ->
  num_op g' <= 1 /\
  (no_insertion schedule ->
   insts (ir g') = [mkInstIR 0 (mkAbsOp KInput [t]) []]).
Proof.
  unfold abstract_gen. cbn [Nat.eqb]. intros H.
  set (g0 := if record_assisted then set_impossible (initial max_elem t) 0
             else initial max_elem t) in H.
  assert (Hg0 : num_op g0 = 0 /\ ir g0 = ir (initial max_elem t) /\
                placeholders g0 = placeholders (initial max_elem t))
    by (by destruct record_assisted).
  destruct Hg0 as (Hn0 & Hir0 & Hph0).
  pose proof (gen_loop_num_op record_assisted 1 schedule g0 ltac:(lia)) as Hn.
  pose proof (gen_loop_no_insertion record_assisted 1 schedule g0) as Hno.
  destruct (placeholders (gen_loop record_assisted 1 schedule g0))
    as [|ph0 phs] eqn:Hph; [discriminate|].
  injection H as <-. split.
  - set (g1 := determine_ph_type _ ph0 true).
    assert (Hg1 : num_op g1 <= 1)
      by (etrans; [apply num_op_determine_ph_type | done]).
    generalize (imap (fun k ph => (k, ph)) phs). intros l.
    revert Hg1. generalize g1. clear.
    induction l as [|[k ph] l IH]; intros g Hg; simpl; [done|].
    apply IH. etrans; [apply num_op_determine_ph_type | done].
  - intros Hs. destruct (Hno Hs) as [Hir Hphs].
    rewrite Hph0 in Hphs. injection Hphs as -> ->.
    simpl. unfold determine_ph_type. simpl. by rewrite Hir, Hir0.
Qed.

Lemma abstract_gen_one_node_witness :
  num_op (determine_ph_type (initial (2 ^ 16) small) (0, 0) true) <= 1 /\
  (no_insertion [] ->
   insts (ir (determine_ph_type (initial (2 ^ 16) small) (0, 0) true))
   = [mkInstIR 0 (mkAbsOp KInput [small]) []]).
Proof.
  apply (abstract_gen_one_node false (2 ^ 16) small [] (fun _ => true)).
  reflexivity.
Defined.

(** The first attempt inserts an operator on the initial placeholder: the
    loop is entered because no compute instruction exists yet, and the
    result has two instructions. *)
Lemma single_placeholder_returned_fails : ~ single_placeholder_returned.
Proof.
  intros H.
  specialize (H false (2 ^ 16)%Z small
                [Inserted false (Forward "relu" [small] [(0, 0)])]
                (fun _ => true) _ eq_refl).
  discriminate H.
Qed.

Example one_node_graph :
  (fun g => (n_inst (ir g), num_op g)) <$>
    match abstract_gen false 1
            [Inserted false (Forward "relu" [small] [(0, 0)]); NoInsert]
            (fun _ => true) (initial (2 ^ 16) small) with
    | Ok g => Some g
    | Raise _ => None
    end
  = Some (2, 1).
Proof. reflexivity. Qed.

End GraphGenFacts.

(* ===================================================================== *)
(** * Further properties of the code *)
(* ===================================================================== *)

Module LoopFacts.

Import PyFacts.

(** A property every step keeps and the step at [x] establishes holds
    after the loop. *)
Lemma forM_establish {A S} (Q : S -> Prop) (xs : list A)
    (body : A -> S -> result S) (s s' : S) (x : A) :
  forM xs body s = Ok s' ->
  x ∈ xs ->
  (forall y s1 s2, body y s1 = Ok s2 -> Q s1 -> Q s2) ->
  (forall s1 s2, body x s1 = Ok s2 -> Q s2) ->
  Q s'.
Proof.
  revert s. induction xs as [|y xs IH]; intros s Hf Hx Hkeep Hest.
  - by apply elem_of_nil in Hx.
  - simpl in Hf. apply bind_Ok in Hf as (s1 & Hb & Hf).
    apply elem_of_cons in Hx as [->|Hx].
    + eapply (forM_inv Q); [exact Hf | by eapply Hest |].
      intros z s2 s3 _ HQ Hz. by eapply Hkeep.
    + by eapply IH.
Qed.

End LoopFacts.

Module AnalysisFacts.

Import PyFacts LoopFacts ApiParsing ApiParsingFacts.

Lemma validity_loop_arity (entries : list (inputs_t * outputs_t)) (n : nat) :
  validity_loop entries (Some n) = true ->
  forall r, r ∈ entries -> length r.1 = n.
Proof.
  induction entries as [|e rest IH]; intros H r Hr.
  - by apply elem_of_nil in Hr.
  - simpl in H. destruct (length e.1 =? n) eqn:He; [|done].
    apply Nat.eqb_eq in He.
    apply elem_of_cons in Hr as [->|Hr]; [done | by apply IH].
Qed.

Lemma pair_loop_len (record_list : list (inputs_t * outputs_t))
    (ru : list (gset nat) * list (gset nat)) (n : nat) :
  (forall r, r ∈ record_list -> length r.2 <= n) ->
  length ru.1 = n -> length ru.2 = n ->
  exists ru', pair_loop record_list ru = Ok ru' /\
    length ru'.1 = n /\ length ru'.2 = n.
Proof.
  intros Hlen H1 H2. unfold pair_loop.
  apply (forM_total (fun ru => length ru.1 = n /\ length ru.2 = n)); [done|].
  intros i ru1 Hru1 Hi. apply elem_of_range in Hi.
  apply (forM_total (fun ru => length ru.1 = n /\ length ru.2 = n)); [done|].
  intros j ru2 [Ha Hb] Hj. apply elem_of_range in Hj.
  destruct (index_lt record_list i) as (ri & -> & Hri); [lia|].
  destruct (index_lt record_list j) as (rj & -> & Hrj); [lia|]. simpl.
  apply pair_body_ok; [|done|done].
  apply Hlen. by eapply list_elem_of_lookup_2.
Qed.

(** X1. A database that passes [validity_check] and has a success record
    is analysed without an exception; the analysis keeps the two record
    sets and leaves one [related] and one [unrelated] set per output
    position of the longest output tuple. *)
Theorem validity_check_analyze (succ : list (inputs_t * outputs_t))
    (fl : list inputs_t) :
  succ <> [] ->
  validity_check (OpDatabase_init succ fl) = true ->
  exists db', analyze_symbol (OpDatabase_init succ fl) = Ok db' /\
    DB_success db' = succ /\ DB_fail db' = fl /\
    length (related db')
      = foldr max 0 (map (fun item => length item.2) succ) /\
    length (unrelated db')
      = foldr max 0 (map (fun item => length item.2) succ).
Proof.
  intros Hne Hv. unfold validity_check in Hv. simpl in Hv.
  destruct succ as [|r0 rest] eqn:Hs; [done|]. simpl in Hv.
  assert (Hlen : forall r, r ∈ succ -> length r.1 = length r0.1).
  { intros r Hr. rewrite Hs in Hr.
    apply elem_of_cons in Hr as [->|Hr]; [done|].
    by eapply validity_loop_arity. }
  rewrite <- Hs in *. unfold analyze_symbol. simpl.
  assert (Hr0 : index succ 0 = Ok r0) by (by rewrite Hs).
  rewrite Hr0. simpl.
  destruct (alias_loop_spec succ (length r0.1) [] Hlen) as (al & -> & _).
  simpl.
  set (n := foldr max 0 (map (fun item => length item.2) succ)).
  destruct (nonint_loop_ok succ (replicate n ∅)) as (u & -> & Hu).
  { intros r Hr. rewrite length_replicate. by apply output_len_ge. }
  simpl. rewrite length_replicate in Hu.
  destruct (pair_loop_len succ (replicate n ∅, u) n) as (ru & -> & H1 & H2).
  { intros r Hr. by apply output_len_ge. }
  { simpl. by rewrite length_replicate. }
  { done. }
  simpl. eexists. split; [reflexivity|]. by simpl.
Qed.

Lemma validity_check_analyze_witness :
  exists db',
    analyze_symbol
      (OpDatabase_init
         [([PInt 3; PInt 4], [PInt 3]); ([PInt 2; PInt 7], [PInt 2; PInt 1])]
         [[PInt 0; PInt 1]]) = Ok db' /\
    DB_success db'
      = [([PInt 3; PInt 4], [PInt 3]); ([PInt 2; PInt 7], [PInt 2; PInt 1])] /\
    DB_fail db' = [[PInt 0; PInt 1]] /\
    length (related db')
      = foldr max 0
          (map (fun item : list pyval * list pyval => length item.2)
             [([PInt 3; PInt 4], [PInt 3]); ([PInt 2; PInt 7], [PInt 2; PInt 1])]) /\
    length (unrelated db')
      = foldr max 0
          (map (fun item : list pyval * list pyval => length item.2)
             [([PInt 3; PInt 4], [PInt 3]); ([PInt 2; PInt 7], [PInt 2; PInt 1])]).
Proof.
  apply validity_check_analyze; [done | reflexivity].
Defined.

(** X2. After the analysis of a freshly loaded database whose records
    have one input arity, [check_duplicate_sym] answers [True] on a symbol
    mask exactly when the mask holds two input positions whose values are
    equal in every success record. *)
Theorem check_duplicate_sym_analyzed (succ : list (inputs_t * outputs_t))
    (fl : list inputs_t) (input_len : nat) (db' : OpDatabase) (sym_set : Z) :
  (forall r, r ∈ succ -> length r.1 = input_len) ->
  analyze_symbol (OpDatabase_init succ fl) = Ok db' ->
  (check_duplicate_sym db' sym_set = true <->
   exists i j, i < j /\ j < input_len /\
     bit_set sym_set i = true /\ bit_set sym_set j = true /\
     forall r, r ∈ succ -> r.1 !! i = r.1 !! j).
Proof.
  intros Hlen H. unfold analyze_symbol in H. simpl in H.
  apply bind_Ok in H as (r0 & Hr0 & H).
  assert (H0 : length r0.1 = input_len).
  { apply Hlen. apply index_Ok in Hr0. by eapply list_elem_of_lookup_2. }
  rewrite H0 in H.
  destruct (alias_loop_spec succ input_len [] Hlen) as (al & Hal & Hspec).
  rewrite Hal in H. simpl in H.
  apply bind_Ok in H as (u & _ & H).
  apply bind_Ok in H as (ru & _ & H). injection H as <-.
  unfold check_duplicate_sym. simpl. rewrite existsb_exists. split.
  - intros ([i j] & Hin & Hb). apply andb_true_iff in Hb as [Hbi Hbj].
    apply list_elem_of_In, Hspec in Hin as [Hin|(H1 & H2 & H3)];
      [by apply elem_of_nil in Hin|].
    exists i, j. by repeat split.
  - intros (i & j & Hij & Hj & Hbi & Hbj & Heq).
    exists (i, j). split; [|by rewrite Hbi, Hbj].
    apply list_elem_of_In, Hspec. right. by repeat split.
Qed.

Lemma check_duplicate_sym_analyzed_witness :
  check_duplicate_sym
    (Scenarios.analyzed
       [([PInt 3; PInt 4; PInt 4], [PInt 3]);
        ([PInt 2; PInt 7; PInt 7], [PInt 2])]) 6 = true <->
  exists i j, i < j /\ j < 3 /\
    bit_set 6 i = true /\ bit_set 6 j = true /\
    forall r, r ∈ [([PInt 3; PInt 4; PInt 4], [PInt 3]);
                   ([PInt 2; PInt 7; PInt 7], [PInt 2])] ->
      r.1 !! i = r.1 !! j.
Proof.
  apply (check_duplicate_sym_analyzed _ []).
  - intros r Hr. repeat (apply elem_of_cons in Hr as [->|Hr]; [reflexivity|]).
    by apply elem_of_nil in Hr.
  - vm_compute. reflexivity.
Defined.

End AnalysisFacts.

Module RelatednessFacts.

Import PyFacts LoopFacts ApiParsing.

Lemma set_add_at_keeps (sets sets' : list (gset nat)) (k' x' k x : nat) :
  set_add_at sets k' x' = Ok sets' -> has sets k x -> has sets' k x.
Proof.
  unfold set_add_at. destruct (sets !! k') as [s'|] eqn:Hk'; [|done].
  intros H (s & Hs & Hx). injection H as <-.
  destruct (decide (k' = k)) as [->|Hne].
  - exists ({[x']} ∪ s'). split.
    + apply list_lookup_insert_eq. by eapply lookup_lt_Some.
    + rewrite Hs in Hk'. injection Hk' as ->. set_solver.
  - exists s. split; [|done]. by rewrite list_lookup_insert_ne.
Qed.

Lemma set_add_at_new (sets sets' : list (gset nat)) (k x : nat) :
  set_add_at sets k x = Ok sets' -> has sets' k x.
Proof.
  unfold set_add_at. destruct (sets !! k) as [s|] eqn:Hk; [|done].
  intros H. injection H as <-. exists ({[x]} ∪ s). split.
  - apply list_lookup_insert_eq. by eapply lookup_lt_Some.
  - set_solver.
Qed.

Lemma add_diff_keeps (diff : list nat) (k' : nat)
    (sets sets' : list (gset nat)) (k x : nat) :
  forM diff (fun argnum rel => set_add_at rel k' argnum) sets = Ok sets' ->
  has sets k x -> has sets' k x.
Proof.
  intros H Hh. eapply (forM_inv (fun s => has s k x)); [exact H | done |].
  intros y s1 s2 _ Hs Hb. exact (set_add_at_keeps _ _ _ _ _ _ Hb Hs).
Qed.

Lemma add_diff_new (diff : list nat) (k : nat)
    (sets sets' : list (gset nat)) (a : nat) :
  forM diff (fun argnum rel => set_add_at rel k argnum) sets = Ok sets' ->
  a ∈ diff -> has sets' k a.
Proof.
  intros H Ha. eapply (forM_establish (fun s => has s k a)); [exact H | exact Ha | |].
  - intros y s1 s2 Hb Hs. exact (set_add_at_keeps _ _ _ _ _ _ Hb Hs).
  - intros s1 s2 Hb. exact (set_add_at_new _ _ _ _ Hb).
Qed.

(** The two halves of [pair_body]. *)
#[local] Abbreviation related_step ri rj diff :=
  (fun (k : nat) (rel : list (gset nat)) =>
     a ← index (snd ri) k;
     b ← index (snd rj) k;
     if decide (a = b) then Ok rel
     else forM diff (fun argnum rel => set_add_at rel k argnum) rel).

#[local] Abbreviation unrelated_step ri rj diff :=
  (fun (k : nat) (unrel : list (gset nat)) =>
     a ← index (snd ri) k;
     b ← index (snd rj) k;
     if decide (a = b) then
       d0 ← index diff 0;
       set_add_at unrel k d0
     else Ok unrel).

Lemma related_step_keeps (ri rj : inputs_t * outputs_t) (diff : list nat)
    (k' : nat) (rel rel' : list (gset nat)) (k x : nat) :
  related_step ri rj diff k' rel = Ok rel' -> has rel k x -> has rel' k x.
Proof.
  intros H Hh.
  apply bind_Ok in H as (a & _ & H). apply bind_Ok in H as (b & _ & H).
  destruct (decide (a = b)); [by injection H as <-|].
  by eapply add_diff_keeps.
Qed.

Lemma unrelated_step_keeps (ri rj : inputs_t * outputs_t) (diff : list nat)
    (k' : nat) (unrel unrel' : list (gset nat)) (k x : nat) :
  unrelated_step ri rj diff k' unrel = Ok unrel' ->
  has unrel k x -> has unrel' k x.
Proof.
  intros H Hh.
  apply bind_Ok in H as (a & _ & H). apply bind_Ok in H as (b & _ & H).
  destruct (decide (a = b)); [|by injection H as <-].
  apply bind_Ok in H as (d0 & _ & H). by eapply set_add_at_keeps.
Qed.

Lemma pair_body_unfold ri rj ru :
  pair_body ri rj ru =
  (let diff := compare_array_diff ri.1 rj.1 in
   let cmp_len := min (length ri.2) (length rj.2) in
   rel ← (if (0 <? length diff) && (length diff <=? 3)
          then forM (range 0 cmp_len) (related_step ri rj diff) ru.1
          else Ok ru.1);
   unrel ← (if length diff =? 1
            then forM (range 0 cmp_len) (unrelated_step ri rj diff) ru.2
            else Ok ru.2);
   Ok (rel, unrel)).
Proof. reflexivity. Qed.

Lemma pair_body_keeps ri rj ru ru' :
  pair_body ri rj ru = Ok ru' ->
  (forall k x, has ru.1 k x -> has ru'.1 k x) /\
  (forall k x, has ru.2 k x -> has ru'.2 k x).
Proof.
  rewrite pair_body_unfold. cbv zeta. intros H.
  apply bind_Ok in H as (rel & Hrel & H).
  apply bind_Ok in H as (unrel & Hun & H). injection H as <-. simpl. split.
  - intros k x Hh.
    destruct ((0 <? _) && _); [|by injection Hrel as <-].
    eapply (forM_inv (fun s => has s k x)); [exact Hrel | done |].
    intros y s1 s2 _ Hs Hb.
    exact (related_step_keeps ri rj (compare_array_diff ri.1 rj.1) _ _ _ _ _ Hb Hs).
  - intros k x Hh.
    destruct (_ =? 1); [|by injection Hun as <-].
    eapply (forM_inv (fun s => has s k x)); [exact Hun | done |].
    intros y s1 s2 _ Hs Hb.
    exact (unrelated_step_keeps ri rj (compare_array_diff ri.1 rj.1) _ _ _ _ _ Hb Hs).
Qed.

Lemma pair_body_unrelated ri rj ru ru' a k v :
  pair_body ri rj ru = Ok ru' ->
  compare_array_diff ri.1 rj.1 = [a] ->
  ri.2 !! k = Some v -> rj.2 !! k = Some v ->
  has ru'.2 k a.
Proof.
  rewrite pair_body_unfold. cbv zeta. intros H Hd Hi Hj.
  apply bind_Ok in H as (rel & _ & H).
  apply bind_Ok in H as (unrel & Hun & H). injection H as <-. simpl.
  rewrite Hd in Hun. simpl in Hun.
  eapply (forM_establish (fun s => has s k a) _ _ _ _ k); [exact Hun | | |].
  - apply elem_of_range. apply lookup_lt_Some in Hi, Hj. lia.
  - intros y s1 s2 Hb Hs.
    exact (unrelated_step_keeps ri rj [a] _ _ _ _ _ Hb Hs).
  - intros s1 s2 Hb. unfold index in Hb.
    rewrite Hi, Hj in Hb. simpl in Hb. rewrite decide_True in Hb by done.
    simpl in Hb. by eapply set_add_at_new.
Qed.

Lemma pair_body_related ri rj ru ru' a k v w :
  pair_body ri rj ru = Ok ru' ->
  a ∈ compare_array_diff ri.1 rj.1 ->
  length (compare_array_diff ri.1 rj.1) <= 3 ->
  ri.2 !! k = Some v -> rj.2 !! k = Some w -> v <> w ->
  has ru'.1 k a.
Proof.
  rewrite pair_body_unfold. cbv zeta. intros H Ha Hlen Hi Hj Hne.
  apply bind_Ok in H as (rel & Hrel & H).
  apply bind_Ok in H as (unrel & _ & H). injection H as <-. simpl.
  assert (Hpos : 0 < length (compare_array_diff ri.1 rj.1)).
  { destruct (compare_array_diff ri.1 rj.1); [by apply elem_of_nil in Ha|].
    simpl. lia. }
  apply Nat.ltb_lt in Hpos. apply Nat.leb_le in Hlen.
  rewrite Hpos, Hlen in Hrel. simpl in Hrel.
  eapply (forM_establish (fun s => has s k a) _ _ _ _ k); [exact Hrel | | |].
  - apply elem_of_range. apply lookup_lt_Some in Hi, Hj. lia.
  - intros y s1 s2 Hb Hs.
    exact (related_step_keeps ri rj (compare_array_diff ri.1 rj.1) _ _ _ _ _ Hb Hs).
  - intros s1 s2 Hb. unfold index in Hb.
    rewrite Hi, Hj in Hb. simpl in Hb. rewrite decide_False in Hb by done.
    by eapply add_diff_new.
Qed.

(** What the pair [(p, q)] of the pairwise loop establishes survives to
    the end of the loop. *)
Lemma pair_loop_establish
    (Q : list (gset nat) * list (gset nat) -> Prop)
    (record_list : list (inputs_t * outputs_t))
    (ru ru' : list (gset nat) * list (gset nat)) (p q : nat)
    (ri rj : inputs_t * outputs_t) :
  pair_loop record_list ru = Ok ru' ->
  p < q -> record_list !! p = Some ri -> record_list !! q = Some rj ->
  (forall a b s1 s2, pair_body a b s1 = Ok s2 -> Q s1 -> Q s2) ->
  (forall s1 s2, pair_body ri rj s1 = Ok s2 -> Q s2) ->
  Q ru'.
Proof.
  unfold pair_loop. intros H Hpq Hp Hq Hkeep Hest.
  assert (Hinner : forall i s1 s2,
    forM (range (i + 1) (length record_list)) (fun j ru =>
      ri ← index record_list i;
      rj ← index record_list j;
      pair_body ri rj ru) s1 = Ok s2 -> Q s1 -> Q s2).
  { intros i s1 s2 Hf HQ. eapply (forM_inv Q); [exact Hf | done |].
    intros j t1 t2 _ Ht Hb.
    apply bind_Ok in Hb as (a & _ & Hb). apply bind_Ok in Hb as (b & _ & Hb).
    by eapply Hkeep. }
  eapply (forM_establish Q _ _ _ _ p); [exact H | | |].
  - apply elem_of_range. apply lookup_lt_Some in Hq. lia.
  - intros i s1 s2 Hb. exact (Hinner i s1 s2 Hb).
  - intros s1 s2 Hb.
    eapply (forM_establish Q _ _ _ _ q); [exact Hb | | |].
    + apply elem_of_range. apply lookup_lt_Some in Hq. lia.
    + intros j t1 t2 Hj.
      apply bind_Ok in Hj as (a & _ & Hj). apply bind_Ok in Hj as (b & _ & Hj).
      by eapply Hkeep.
    + intros t1 t2 Hj. unfold index in Hj. rewrite Hp, Hq in Hj. simpl in Hj.
      by eapply Hest.
Qed.

Lemma pair_loop_keeps (record_list : list (inputs_t * outputs_t))
    (ru ru' : list (gset nat) * list (gset nat)) (k x : nat) :
  pair_loop record_list ru = Ok ru' ->
  has ru.2 k x -> has ru'.2 k x.
Proof.
  unfold pair_loop. intros H Hh.
  eapply (forM_inv (fun s => has s.2 k x)); [exact H | done |].
  intros i s1 s2 _ Hs Hb.
  eapply (forM_inv (fun s => has s.2 k x)); [exact Hb | done |].
  intros j t1 t2 _ Ht Hj.
  apply bind_Ok in Hj as (a & _ & Hj). apply bind_Ok in Hj as (b & _ & Hj).
  by apply (pair_body_keeps _ _ _ _ Hj).
Qed.

(** X3. The relatedness heuristic of the analysis. For two success records
    at positions [p < q] of the record list: if their inputs differ at
    exactly one index and they agree on output [k], that index is in
    [unrelated[k]]; if their inputs differ at one to three indices and
    they differ on output [k], every differing index is in [related[k]]. *)
Theorem analyze_symbol_relatedness (db db' : OpDatabase) (p q : nat)
    (ri rj : inputs_t * outputs_t) (k a : nat) (v w : pyval) :
  analyze_symbol db = Ok db' ->
  p < q -> DB_success db !! p = Some ri -> DB_success db !! q = Some rj ->
  ri.2 !! k = Some v -> rj.2 !! k = Some w ->
  (compare_array_diff ri.1 rj.1 = [a] -> v = w -> has (unrelated db') k a) /\
  (a ∈ compare_array_diff ri.1 rj.1 ->
   length (compare_array_diff ri.1 rj.1) <= 3 -> v <> w ->
   has (related db') k a).
Proof.
  unfold analyze_symbol. intros H Hpq Hp Hq Hi Hj.
  apply bind_Ok in H as (r0 & _ & H).
  apply bind_Ok in H as (al & _ & H).
  apply bind_Ok in H as (u & _ & H).
  apply bind_Ok in H as (ru & Hru & H). injection H as <-. simpl. split.
  - intros Hd ->.
    eapply (pair_loop_establish (fun s => has s.2 k a)); try done.
    + intros x y s1 s2 Hb. by apply (pair_body_keeps _ _ _ _ Hb).
    + intros s1 s2 Hb. by eapply pair_body_unrelated.
  - intros Ha Hlen Hne.
    eapply (pair_loop_establish (fun s => has s.1 k a)); try done.
    + intros x y s1 s2 Hb. by apply (pair_body_keeps _ _ _ _ Hb).
    + intros s1 s2 Hb. by eapply pair_body_related.
Qed.

Lemma analyze_symbol_relatedness_witness :
  (compare_array_diff [PInt 2; PInt 3] [PInt 2; PInt 5] = [1] ->
   PInt 2 = PInt 2 ->
   has (unrelated
          (Scenarios.analyzed
             [([PInt 2; PInt 3], [PInt 2]); ([PInt 2; PInt 5], [PInt 2])]))
       0 1) /\
  (1 ∈ compare_array_diff [PInt 2; PInt 3] [PInt 2; PInt 5] ->
   length (compare_array_diff [PInt 2; PInt 3] [PInt 2; PInt 5]) <= 3 ->
   PInt 2 <> PInt 2 ->
   has (related
          (Scenarios.analyzed
             [([PInt 2; PInt 3], [PInt 2]); ([PInt 2; PInt 5], [PInt 2])]))
       0 1).
Proof.
  apply (analyze_symbol_relatedness
           (OpDatabase_init
              [([PInt 2; PInt 3], [PInt 2]); ([PInt 2; PInt 5], [PInt 2])] [])
           _ 0 1 ([PInt 2; PInt 3], [PInt 2]) ([PInt 2; PInt 5], [PInt 2]));
    [vm_compute; reflexivity | lia | reflexivity..].
Defined.

Lemma nonint_loop_keeps (record_list : list (inputs_t * outputs_t))
    (unrel unrel' : list (gset nat)) (k x : nat) :
  nonint_loop record_list unrel = Ok unrel' ->
  has unrel k x -> has unrel' k x.
Proof.
  unfold nonint_loop. intros H Hh.
  eapply (forM_inv (fun s => has s k x)); [exact H | done |].
  intros [inputs outputs] s1 s2 _ Hs Hb.
  eapply (forM_inv (fun s => has s k x)); [exact Hb | done |].
  intros j t1 t2 _ Ht Hj. apply bind_Ok in Hj as (v & _ & Hj).
  destruct (isinstance_int v); [by injection Hj as <-|].
  eapply (forM_inv (fun s => has s k x)); [exact Hj | done |].
  intros k' u1 u2 _ Hu Hk'. exact (set_add_at_keeps _ _ _ _ _ _ Hk' Hu).
Qed.

(** X4. An input position that holds [None] in some success record is in
    [unrelated[k]] for every output position [k] of that record. *)
Theorem analyze_symbol_nonint_unrelated (db db' : OpDatabase)
    (record : inputs_t * outputs_t) (j k : nat) :
  analyze_symbol db = Ok db' ->
  record ∈ DB_success db ->
  record.1 !! j = Some PNone ->
  k < length record.2 ->
  has (unrelated db') k j.
Proof.
  unfold analyze_symbol. intros H Hr Hj Hk.
  apply bind_Ok in H as (r0 & _ & H).
  apply bind_Ok in H as (al & _ & H).
  apply bind_Ok in H as (u & Hu & H).
  apply bind_Ok in H as (ru & Hru & H). injection H as <-. simpl.
  eapply pair_loop_keeps; [exact Hru|]. simpl.
  unfold nonint_loop in Hu.
  eapply (forM_establish (fun s => has s k j)); [exact Hu | exact Hr | |].
  - intros [inputs outputs] s1 s2 Hb Hs.
    eapply (forM_inv (fun s => has s k j)); [exact Hb | done |].
    intros j' t1 t2 _ Ht Hj'. apply bind_Ok in Hj' as (v & _ & Hj').
    destruct (isinstance_int v); [by injection Hj' as <-|].
    eapply (forM_inv (fun s => has s k j)); [exact Hj' | done |].
    intros k' u1 u2 _ Hu1 Hk'. exact (set_add_at_keeps _ _ _ _ _ _ Hk' Hu1).
  - destruct record as [inputs outputs]. simpl in *. intros s1 s2 Hb.
    eapply (forM_establish (fun s => has s k j) _ _ _ _ j); [exact Hb | | |].
    + apply elem_of_range. apply lookup_lt_Some in Hj. lia.
    + intros j' t1 t2 Hj' Ht. apply bind_Ok in Hj' as (v & _ & Hj').
      destruct (isinstance_int v); [by injection Hj' as <-|].
      eapply (forM_inv (fun s => has s k j)); [exact Hj' | done |].
      intros k' u1 u2 _ Hu1 Hk'. exact (set_add_at_keeps _ _ _ _ _ _ Hk' Hu1).
    + intros t1 t2 Hj'. unfold index in Hj'. rewrite Hj in Hj'. simpl in Hj'.
      eapply (forM_establish (fun s => has s k j) _ _ _ _ k); [exact Hj' | | |].
      * apply elem_of_range. lia.
      * intros k' u1 u2 Hk' Hu1. exact (set_add_at_keeps _ _ _ _ _ _ Hk' Hu1).
      * intros u1 u2 Hk'. exact (set_add_at_new _ _ _ _ Hk').
Qed.

Lemma analyze_symbol_nonint_unrelated_witness :
  has (unrelated
         (Scenarios.analyzed
            [([PInt 2; PNone], [PInt 2]); ([PInt 4; PNone], [PInt 4])]))
      0 1.
Proof.
  apply (analyze_symbol_nonint_unrelated
           (OpDatabase_init
              [([PInt 2; PNone], [PInt 2]); ([PInt 4; PNone], [PInt 4])] [])
           _ ([PInt 2; PNone], [PInt 2]));
    [vm_compute; reflexivity | left | reflexivity | simpl; lia].
Defined.

End RelatednessFacts.

Module MutatorFacts.

Import PyFacts LoopFacts ApiParsing Instrument.

(** A loop over [xs] that never raises, with a relation between the
    processed prefix and the state. *)
Lemma forM_prefix {A S} (R : list A -> S -> Prop) (xs : list A)
    (body : A -> S -> result S) (s : S) :
  R [] s ->
  (forall pre x suf s1, xs = pre ++ x :: suf -> R pre s1 ->
     exists s2, body x s1 = Ok s2 /\ R (pre ++ [x]) s2) ->
  exists s', forM xs body s = Ok s' /\ R xs s'.
Proof.
  intros H0 Hstep.
  cut (forall suf pre s1, xs = pre ++ suf -> R pre s1 ->
         exists s', forM suf body s1 = Ok s' /\ R xs s').
  { intros Hc. by apply (Hc xs [] s). }
  induction suf as [|x suf IH]; intros pre s1 Hxs HR.
  - exists s1. rewrite app_nil_r in Hxs. by subst.
  - destruct (Hstep pre x suf s1 Hxs HR) as (s2 & Hb & HR2).
    simpl. rewrite Hb. simpl. apply (IH (pre ++ [x])); [|done].
    by rewrite <- app_assoc.
Qed.

Lemma range_prefix_fresh (n : nat) (pre suf : list nat) (x : nat) :
  range 0 n = pre ++ x :: suf -> x < n /\ x ∉ pre.
Proof.
  intros H. split.
  - assert (Hx : x ∈ range 0 n) by (rewrite H; set_solver).
    apply elem_of_range in Hx. lia.
  - assert (Hnd : NoDup (pre ++ x :: suf)).
    { rewrite <- H. unfold range. apply NoDup_seq. }
    apply NoDup_app in Hnd as (_ & Hnd & _). intros Hx.
    apply (Hnd x Hx). left.
Qed.

(** X5. [mutateTarget] on a dictionary whose selected symbols hold
    integers: the perturbed dictionary holds [v + delta] at every selected
    symbol [s<i>] with [i < len(dict)] and is unchanged at every other
    key. *)
Theorem mutateTarget_dict_spec (d : gmap string pyval) (mutateMask delta : Z) :
  (forall i, i < size d -> bit_set mutateMask i = true ->
     exists z, d !! sym "s" i = Some (PInt z)) ->
  exists d', mutateTarget_dict d mutateMask delta = Ok d' /\
    (forall i z, i < size d -> bit_set mutateMask i = true ->
       d !! sym "s" i = Some (PInt z) ->
       d' !! sym "s" i = Some (PInt (z + delta))) /\
    (forall key,
       (forall i, i < size d -> bit_set mutateMask i = true ->
          key <> sym "s" i) ->
       d' !! key = d !! key).
Proof.
  intros Hint. unfold mutateTarget_dict.
  destruct (forM_prefix
    (fun pre d1 =>
       (forall i z, i ∈ pre -> bit_set mutateMask i = true ->
          d !! sym "s" i = Some (PInt z) ->
          d1 !! sym "s" i = Some (PInt (z + delta))) /\
       (forall key,
          (forall i, i ∈ pre -> bit_set mutateMask i = true ->
             key <> sym "s" i) ->
          d1 !! key = d !! key))
    (range 0 (size d))
    (fun argNum d1 =>
       if bit_set mutateMask argNum then
         v ← getitem d1 (sym "s" argNum);
         v' ← add_int v delta;
         Ok (<[sym "s" argNum := v']> d1)
       else Ok d1) d) as (d' & Hf & Hsel & Hoth).
  - split; [intros i z Hi; by apply elem_of_nil in Hi | done].
  - intros pre x suf d1 Hxs [Hsel Hoth].
    apply range_prefix_fresh in Hxs as [Hx Hfresh].
    destruct (bit_set mutateMask x) eqn:Hbit.
    + destruct (Hint x Hx Hbit) as [z Hz].
      assert (Hd1 : d1 !! sym "s" x = Some (PInt z)).
      { rewrite Hoth; [done|]. intros i Hi _ Heq.
        apply MutateFacts.sym_inj in Heq. by subst. }
      unfold getitem. rewrite Hd1. simpl.
      eexists. split; [done|]. split.
      * intros i z' Hi Hb Hdi.
        apply elem_of_app in Hi as [Hi|Hi].
        -- rewrite lookup_insert_ne; [by apply Hsel|].
           intros Heq. apply MutateFacts.sym_inj in Heq. by subst.
        -- apply list_elem_of_singleton in Hi as ->.
           rewrite Hz in Hdi. injection Hdi as <-.
           by rewrite lookup_insert_eq.
      * intros key Hkey. rewrite lookup_insert_ne.
        -- apply Hoth. intros i Hi Hb. apply Hkey; [|done].
           apply elem_of_app. by left.
        -- intros Heq. symmetry in Heq. revert Heq. apply Hkey; [|done].
           apply elem_of_app. right. by apply list_elem_of_singleton.
    + exists d1. split; [done|]. split.
      * intros i z' Hi Hb Hdi.
        apply elem_of_app in Hi as [Hi|Hi]; [by apply Hsel|].
        apply list_elem_of_singleton in Hi as ->. congruence.
      * intros key Hkey. apply Hoth. intros i Hi Hb. apply Hkey; [|done].
        apply elem_of_app. by left.
  - exists d'. split; [done|]. split.
    + intros i z Hi. apply Hsel. apply elem_of_range. lia.
    + intros key Hkey. apply Hoth. intros i Hi. apply Hkey.
      apply elem_of_range in Hi. lia.
Qed.

Lemma mutateTarget_dict_spec_witness :
  exists d',
    mutateTarget_dict
      (<[sym "s" 0 := PInt 3]> (<[sym "s" 1 := PInt 4]> ∅)) 2 5 = Ok d' /\
    (forall i z, i < size (<[sym "s" 0 := PInt 3]>
                           (<[sym "s" 1 := PInt 4]> (∅ : gmap string pyval))) ->
       bit_set 2 i = true ->
       (<[sym "s" 0 := PInt 3]> (<[sym "s" 1 := PInt 4]> ∅) : gmap string pyval)
         !! sym "s" i = Some (PInt z) ->
       d' !! sym "s" i = Some (PInt (z + 5))) /\
    (forall key,
       (forall i, i < size (<[sym "s" 0 := PInt 3]>
                             (<[sym "s" 1 := PInt 4]> (∅ : gmap string pyval))) ->
          bit_set 2 i = true -> key <> sym "s" i) ->
       d' !! key =
       (<[sym "s" 0 := PInt 3]> (<[sym "s" 1 := PInt 4]> ∅) : gmap string pyval)
         !! key).
Proof.
  apply (mutateTarget_dict_spec
           (<[sym "s" 0 := PInt 3]> (<[sym "s" 1 := PInt 4]> ∅)) 2 5).
  intros i Hi Hb. change (i < 2) in Hi.
  destruct i as [|[|i]]; [discriminate Hb | by exists 4%Z | lia].
Defined.

Section Probes.

Variable input_validity_test :
  OpInstance -> gmap string pyval -> inputs_t * option outputs_t.

Local Abbreviation grown := (grown_by_probes input_validity_test).

Lemma grown_refl inst arity st : grown inst arity st st.
Proof.
  exists []. rewrite app_nil_r. repeat split; auto.
Qed.

Lemma grown_trans inst arity st1 st2 st3 :
  grown inst arity st1 st2 -> grown inst arity st2 st3 ->
  grown inst arity st1 st3.
Proof.
  intros (n1 & Hc1 & Hs1 & Hf1 & Ho1 & Hg1 & Hr1 & Hu1 & Ha1)
         (n2 & Hc2 & Hs2 & Hf2 & Ho2 & Hg2 & Hr2 & Hu2 & Ha2).
  exists (n1 ++ n2). repeat split.
  - by rewrite Hc2, Hc1, app_assoc.
  - auto.
  - auto.
  - intros r Hr. destruct (Ho2 r Hr) as [Hin|(Hlen & d & Hd & Ht)].
    + destruct (Ho1 r Hin) as [?|(Hlen & d & Hd & Ht)]; [by left|].
      right. split; [done|]. exists d. split; [|done].
      apply elem_of_app. by left.
    + right. split; [done|]. exists d. split; [|done].
      apply elem_of_app. by right.
  - intros i Hi. destruct (Hg2 i Hi) as [Hin|(d & Hd & Ht)].
    + destruct (Hg1 i Hin) as [?|(d & Hd & Ht)]; [by left|].
      right. exists d. split; [|done]. apply elem_of_app. by left.
    + right. exists d. split; [|done]. apply elem_of_app. by right.
  - congruence.
  - congruence.
  - congruence.
Qed.

Lemma grown_weaken inst (arity arity' : nat -> Prop) st st' :
  (forall n, arity n -> arity' n) ->
  grown inst arity st st' -> grown inst arity' st st'.
Proof.
  intros Hw (n & Hc & Hs & Hf & Ho & Hg & Hr & Hu & Ha).
  exists n. repeat split; auto.
  intros r Hr'. destruct (Ho r Hr') as [?|(Hlen & Hd)]; [by left|].
  right. split; auto.
Qed.

Lemma elem_of_set_add {A} `{EqDecision A} (x y : A) (l : list A) :
  y ∈ set_add x l <-> y = x \/ y ∈ l.
Proof.
  unfold set_add. destruct (decide (x ∈ l)) as [Hx|Hx].
  - split; [by right|]. by intros [->|?].
  - rewrite elem_of_app, list_elem_of_singleton. tauto.
Qed.

Lemma record_probe_grown inst d output_len st :
  grown inst (fun n => n = output_len) st
    (record_probe input_validity_test inst d output_len st).
Proof.
  unfold record_probe.
  destruct (input_validity_test inst d) as [inputs outputs] eqn:Ht.
  exists [d]. simpl. split; [done|].
  destruct outputs as [outs|]; simpl.
  - destruct (length outs =? output_len) eqn:Hlen; simpl.
    + apply Nat.eqb_eq in Hlen. repeat split; auto.
      * intros r Hr. apply elem_of_set_add. by right.
      * intros r Hr. apply elem_of_set_add in Hr as [->|Hr]; [|by left].
        right. split; [done|]. exists d. split; [|done].
        by apply list_elem_of_singleton.
    + repeat split; auto.
  - repeat split; auto.
    + intros i Hi. apply elem_of_set_add. by right.
    + intros i Hi. apply elem_of_set_add in Hi as [->|Hi]; [|by left].
      right. exists d. split; [|done]. by apply list_elem_of_singleton.
Qed.

Lemma forM_grown {A} inst arity (xs : list A)
    (body : A -> MState -> result MState) (st st' : MState) :
  (forall x s1 s2, body x s1 = Ok s2 -> grown inst arity s1 s2) ->
  forM xs body st = Ok st' -> grown inst arity st st'.
Proof.
  intros Hbody Hf.
  eapply (forM_inv (fun s => grown inst arity st s)); [exact Hf | |].
  - apply grown_refl.
  - intros x s1 s2 _ Hs Hb. eapply grown_trans; [exact Hs|]. by eapply Hbody.
Qed.

Lemma mutateTarget_add_grown inst record0 mask delta output_len st st' :
  mutateTarget_add input_validity_test inst record0 mask delta output_len st
    = Ok st' ->
  grown inst (fun n => n = output_len) st st'.
Proof.
  unfold mutateTarget_add. intros H. apply bind_Ok in H as (d & _ & H).
  injection H as <-. apply record_probe_grown.
Qed.

Lemma mutate_single_grown inst record0 output_len i st st' :
  mutate_single input_validity_test inst record0 output_len i st = Ok st' ->
  grown inst (fun n => n = output_len) st st'.
Proof.
  unfold mutate_single, add_new_input. intros H.
  destruct (decide _); injection H as <-; [apply grown_refl|].
  eapply grown_trans; apply record_probe_grown.
Qed.

Lemma mutate_pair_grown inst record0 output_len i j st st' :
  mutate_pair input_validity_test inst record0 output_len i j st = Ok st' ->
  grown inst (fun n => n = output_len) st st'.
Proof.
  unfold mutate_pair, add_new_input. intros H.
  apply bind_Ok in H as (vi & _ & H). apply bind_Ok in H as (vj & _ & H).
  apply bind_Ok in H as ([d1 st1] & H1 & H).
  apply bind_Ok in H as (a & _ & H). apply bind_Ok in H as (b & _ & H).
  injection H as <-.
  eapply grown_trans; [|apply record_probe_grown].
  destruct (decide (vi = vj)).
  - apply bind_Ok in H1 as (vj' & _ & H1). injection H1 as <- <-.
    apply record_probe_grown.
  - injection H1 as <- <-. apply grown_refl.
Qed.

(** X6. [mutate] only adds to the database: no entry is removed, the
    analysis fields are untouched, and every entry that was added is the
    oracle's answer to one of the assignments probed during this call; an
    added success has as many outputs as the record has output symbols. *)
Theorem mutate_grown (inst : OpInstance)
    (record : gmap string pyval * gmap string pyval) (st st' : MState) :
  mutate input_validity_test inst record st = Ok st' ->
  grown_by_probes input_validity_test inst
    (fun n => n = size record.2) st st'.
Proof.
  unfold mutate. intros H.
  apply bind_Ok in H as (s1 & H1 & H).
  apply bind_Ok in H as (s2 & H2 & H).
  apply bind_Ok in H as (s3 & H3 & H).
  apply bind_Ok in H as (s4 & H4 & H).
  eapply grown_trans; [|eapply grown_trans; [|eapply grown_trans;
    [|eapply grown_trans]]].
  - eapply forM_grown; [|exact H1]. intros x t1 t2.
    apply mutate_single_grown.
  - eapply forM_grown; [|exact H2]. intros i t1 t2.
    apply forM_grown. intros j u1 u2. apply mutate_pair_grown.
  - destruct (_ <=? 8); [|injection H3 as <-; apply grown_refl].
    eapply forM_grown; [|exact H3]. intros m t1 t2.
    apply mutateTarget_add_grown.
  - destruct (_ <=? 100); [|injection H4 as <-; apply grown_refl].
    eapply forM_grown; [|exact H4]. intros m t1 t2.
    apply forM_grown. intros dl u1 u2. apply mutateTarget_add_grown.
  - destruct (_ <=? 50); [|injection H as <-; apply grown_refl].
    eapply forM_grown; [|exact H]. intros m t1 t2.
    apply forM_grown. intros m2 u1 u2.
    apply forM_grown. intros dl v1 v2. apply mutateTarget_add_grown.
Qed.

Section Driver.

Variable enableMutation : bool.
Variable skipMutationAPI : list string.

(** X7. The mutation driver leaves the database and the call log as they
    are when mutation is disabled, when the operator is skip-listed, or
    when a record was already mutated and the database holds at least 100
    successes. *)
Theorem mutation_loop_idle (inst : OpInstance)
    (records : list (gmap string pyval * gmap string pyval))
    (st : MState) (mutated : bool) :
  enableMutation = false \/
  name inst ∈ skipMutationAPI \/
  (mutated = true /\ 100 <= InvocationCount_success (st_db st)) ->
  mutation_loop input_validity_test enableMutation skipMutationAPI
    inst records (st, mutated) = Ok (st, mutated).
Proof.
  intros Hidle. unfold mutation_loop.
  induction records as [|record records IH]; [done|].
  cbn [forM].
  replace (if enableMutation then _ else _) with (Ok (st, mutated) : result (MState * bool)); [exact IH|].
  destruct enableMutation; [|done].
  destruct (decide (name inst ∈ skipMutationAPI)); [done|].
  destruct Hidle as [?|[?|[-> Hc]]]; [done..|].
  apply Nat.leb_le in Hc. by rewrite Hc.
Qed.

End Driver.

End Probes.

Lemma mutate_grown_witness :
  grown_by_probes (fun _ d => ([dict_get d (sym "s" 0)], None))
    (mkOpInstance "op" "op-0" [] [] ∅ ∅) (fun n => n = size (∅ : gmap string pyval))
    (mkMState (OpDatabase_init [] []) [])
    (mkMState (mkOpDatabase [] [[PInt 0]; [PInt (-2)]; [PInt 3]; [PInt 2]; [PInt 4]] [] [] [])
       [<[sym "s" 0 := PInt 0]> (<[sym "s" 0 := PInt 1]> ∅);
        <[sym "s" 0 := PInt (-2)]> (<[sym "s" 0 := PInt 0]> (<[sym "s" 0 := PInt 1]> ∅));
        <[sym "s" 0 := PInt 3]> (<[sym "s" 0 := PInt 1]> ∅);
        <[sym "s" 0 := PInt 2]> (<[sym "s" 0 := PInt 1]> ∅);
        <[sym "s" 0 := PInt 3]> (<[sym "s" 0 := PInt 1]> ∅);
        <[sym "s" 0 := PInt 4]> (<[sym "s" 0 := PInt 1]> ∅)]).
Proof.
  apply (mutate_grown (fun _ d => ([dict_get d (sym "s" 0)], None))
           (mkOpInstance "op" "op-0" [] [] ∅ ∅)
           (<[sym "s" 0 := PInt 1]> ∅, ∅)).
  vm_compute. reflexivity.
Defined.

Lemma mutation_loop_idle_witness :
  mutation_loop (fun _ d => ([dict_get d (sym "s" 0)], None)) true ["relu"]
    (mkOpInstance "relu" "relu-0" [] [] ∅ ∅)
    [(<[sym "s" 0 := PInt 1]> ∅, ∅)]
    (mkMState (OpDatabase_init [] []) [], false)
  = Ok (mkMState (OpDatabase_init [] []) [], false).
Proof.
  apply (mutation_loop_idle (fun _ d => ([dict_get d (sym "s" 0)], None))
           true ["relu"] (mkOpInstance "relu" "relu-0" [] [] ∅ ∅)).
  right. left. simpl. left.
Defined.

End MutatorFacts.

Module UtilsFacts.

Import PyFacts Utils.

Lemma increasing_ge (st : nat) (l : list nat) (i : nat) :
  increasing st l -> i ∈ l -> st <= i.
Proof.
  revert st. induction l as [|x l IH]; intros st Hl Hi.
  - by apply elem_of_nil in Hi.
  - destruct Hl as [Hx Hl]. apply elem_of_cons in Hi as [->|Hi]; [done|].
    specialize (IH _ Hl Hi). lia.
Qed.

Lemma increasing_weaken (st st' : nat) (l : list nat) :
  st' <= st -> increasing st l -> increasing st' l.
Proof.
  destruct l as [|x l]; [done|]. intros Hle [Hx Hl]. split; [lia | done].
Qed.

(** Two increasing lists with the same elements are equal. *)
Lemma increasing_ext (a b : nat) (l1 l2 : list nat) :
  increasing a l1 -> increasing b l2 ->
  (forall i, i ∈ l1 <-> i ∈ l2) -> l1 = l2.
Proof.
  revert a b l2. induction l1 as [|x l1 IH]; intros a b l2 H1 H2 Hext.
  - destruct l2 as [|y l2]; [done|].
    exfalso. eapply elem_of_nil. apply Hext. left.
  - destruct l2 as [|y l2].
    { exfalso. eapply elem_of_nil. apply Hext. left. }
    destruct H1 as [_ H1], H2 as [_ H2].
    assert (Hxy : x = y).
    { assert (Hx : x ∈ y :: l2) by (apply Hext; left).
      assert (Hy : y ∈ x :: l1) by (apply Hext; left).
      apply elem_of_cons in Hx as [?|Hx]; [done|].
      apply elem_of_cons in Hy as [?|Hy]; [done|].
      apply (increasing_ge _ _ _ H2) in Hx.
      apply (increasing_ge _ _ _ H1) in Hy. lia. }
    subst y. f_equal. apply (IH (S x) (S x)); [done..|].
    intros i. split; intros Hi.
    + assert (Hi' : i ∈ x :: l2) by (apply Hext; by right).
      apply elem_of_cons in Hi' as [->|?]; [|done].
      apply (increasing_ge _ _ _ H1) in Hi. lia.
    + assert (Hi' : i ∈ x :: l1) by (apply Hext; by right).
      apply elem_of_cons in Hi' as [->|?]; [|done].
      apply (increasing_ge _ _ _ H2) in Hi. lia.
Qed.

Lemma last_snoc_st (symlist : list nat) (nxt : nat) :
  match last (symlist ++ [nxt]) with
  | None => 0
  | Some x => x + 1
  end = S nxt.
Proof. rewrite last_snoc. lia. Qed.

Lemma dfs_extends (remaining lim : nat) (symlist : list nat) (m : Z) :
  m ∈ dfs remaining lim symlist <->
  exists ext,
    length ext = remaining /\
    increasing (match last symlist with None => 0 | Some x => x + 1 end) ext /\
    Forall (fun i => i < lim) ext /\
    m = mask_of (symlist ++ ext).
Proof.
  revert symlist. induction remaining as [|r IH]; intros symlist.
  - simpl. rewrite list_elem_of_singleton. split.
    + intros ->. exists []. by rewrite app_nil_r.
    + intros (ext & Hlen & _ & _ & ->).
      apply length_zero_iff_nil in Hlen as ->. by rewrite app_nil_r.
  - cbn [dfs]. rewrite list_elem_of_In, in_flat_map. split.
    + intros (nxt & Hn & Hm).
      apply list_elem_of_In, elem_of_range in Hn.
      apply list_elem_of_In, IH in Hm as (ext & Hlen & Hinc & Hall & ->).
      rewrite last_snoc_st in Hinc.
      exists (nxt :: ext). repeat split.
      * simpl. lia.
      * lia.
      * done.
      * constructor; [lia | done].
      * by rewrite <- app_assoc.
    + intros (ext & Hlen & Hinc & Hall & ->).
      destruct ext as [|nxt ext]; [done|].
      destruct Hinc as [Hst Hinc]. apply Forall_cons in Hall as [Hlt Hall].
      exists nxt. split.
      * apply list_elem_of_In, elem_of_range. lia.
      * apply list_elem_of_In, IH. exists ext. repeat split.
        -- simpl in Hlen. lia.
        -- by rewrite last_snoc_st.
        -- done.
        -- by rewrite <- app_assoc.
Qed.

(** X8. The subset enumeration: [dfs(0, count, lim, [])] appends exactly
    the masks of the strictly increasing sequences of [count] indices
    below [lim]. *)
Theorem dfs_spec (count lim : nat) (m : Z) :
  m ∈ dfs count lim [] <->
  exists l, length l = count /\ increasing 0 l /\
            Forall (fun i => i < lim) l /\ m = mask_of l.
Proof. apply (dfs_extends count lim []). Qed.

Lemma mask_of_acc (l : list nat) (acc : Z) :
  fold_left (fun res s => Z.lor res (Z.shiftl 1 (Z.of_nat s))) l acc
  = Z.lor acc (mask_of l).
Proof.
  unfold mask_of. revert acc. induction l as [|x l IH]; intros acc;
    cbn [fold_left].
  - by rewrite Z.lor_0_r.
  - rewrite IH, (IH (Z.lor 0 _)), Z.lor_0_l. by rewrite Z.lor_assoc.
Qed.

Lemma mask_of_cons (x : nat) (l : list nat) :
  mask_of (x :: l) = Z.lor (Z.shiftl 1 (Z.of_nat x)) (mask_of l).
Proof.
  unfold mask_of at 1. cbn [fold_left]. by rewrite mask_of_acc, Z.lor_0_l.
Qed.

Lemma mask_of_nonneg (l : list nat) : (0 <= mask_of l)%Z.
Proof.
  induction l as [|x l IH]; [done|].
  rewrite mask_of_cons. apply Z.lor_nonneg. split; [|done].
  apply Z.shiftl_nonneg. lia.
Qed.

Lemma testbit_one_shiftl (x i : nat) :
  Z.testbit (Z.shiftl 1 (Z.of_nat x)) (Z.of_nat i) = bool_decide (i = x).
Proof.
  rewrite Z.shiftl_1_l. destruct (decide (i = x)) as [->|Hne].
  - rewrite bool_decide_eq_true_2 by done. apply Z.pow2_bits_true. lia.
  - rewrite bool_decide_eq_false_2 by done. apply Z.pow2_bits_false. lia.
Qed.

Lemma testbit_mask_of (l : list nat) (i : nat) :
  Z.testbit (mask_of l) (Z.of_nat i) = true <-> i ∈ l.
Proof.
  induction l as [|x l IH].
  - simpl. rewrite Z.bits_0. split; [done|]. intros H. by apply elem_of_nil in H.
  - rewrite mask_of_cons, Z.lor_spec, orb_true_iff, IH, testbit_one_shiftl.
    rewrite bool_decide_eq_true, elem_of_cons. tauto.
Qed.

Lemma mask_to_list_pos_increasing (p : positive) (k : nat) :
  increasing k (mask_to_list_pos p k).
Proof.
  revert k. induction p as [p IH|p IH|]; intros k; simpl.
  - split; [lia | apply IH].
  - eapply increasing_weaken; [|apply IH]. lia.
  - split; [lia | done].
Qed.

Lemma elem_of_mask_to_list_pos (p : positive) (k i : nat) :
  i ∈ mask_to_list_pos p k <->
  k <= i /\ Z.testbit (Zpos p) (Z.of_nat (i - k)) = true.
Proof.
  revert k. induction p as [p IH|p IH|]; intros k; simpl mask_to_list_pos.
  - rewrite elem_of_cons, IH.
    destruct (decide (i = k)) as [->|Hne].
    + rewrite Nat.sub_diag. simpl. split; [intros _; split; [lia | done]|].
      intros _. by left.
    + split.
      * intros [?|[Hk Hb]]; [done|]. split; [lia|].
        replace (Z.of_nat (i - k)) with (Z.succ (Z.of_nat (i - S k))) by lia.
        change (Zpos p~1) with (2 * Zpos p + 1)%Z.
        rewrite Z.testbit_odd_succ by lia. done.
      * intros [Hk Hb]. right. split; [lia|].
        replace (Z.of_nat (i - k)) with (Z.succ (Z.of_nat (i - S k))) in Hb
          by lia.
        change (Zpos p~1) with (2 * Zpos p + 1)%Z in Hb.
        rewrite Z.testbit_odd_succ in Hb by lia. done.
  - rewrite IH. destruct (decide (i = k)) as [->|Hne].
    + rewrite Nat.sub_diag. simpl. split; [lia | intros [_ ?]; done].
    + split.
      * intros [Hk Hb]. split; [lia|].
        replace (Z.of_nat (i - k)) with (Z.succ (Z.of_nat (i - S k))) by lia.
        change (Zpos p~0) with (2 * Zpos p)%Z.
        rewrite Z.testbit_even_succ by lia. done.
      * intros [Hk Hb]. split; [lia|].
        replace (Z.of_nat (i - k)) with (Z.succ (Z.of_nat (i - S k))) in Hb
          by lia.
        change (Zpos p~0) with (2 * Zpos p)%Z in Hb.
        rewrite Z.testbit_even_succ in Hb by lia. done.
  - rewrite list_elem_of_singleton. split.
    + intros ->. split; [lia|]. by rewrite Nat.sub_diag.
    + intros [Hk Hb]. destruct (decide (i = k)) as [|Hne]; [done|].
      replace (Z.of_nat (i - k)) with (Z.succ (Z.of_nat (i - S k))) in Hb
        by lia.
      change 1%Z with (2 * 0 + 1)%Z in Hb.
      rewrite Z.testbit_odd_succ in Hb by lia. by rewrite Z.bits_0 in Hb.
Qed.

Lemma elem_of_mask_to_list (m : Z) (i : nat) :
  (0 <= m)%Z ->
  i ∈ mask_to_list m <-> Z.testbit m (Z.of_nat i) = true.
Proof.
  intros Hm. destruct m as [|p|p]; [| |lia].
  - simpl. rewrite Z.bits_0. split; [|done]. intros H. by apply elem_of_nil in H.
  - unfold mask_to_list. rewrite elem_of_mask_to_list_pos, Nat.sub_0_r.
    split; [by intros [_ ?] | intros ?; split; [lia | done]].
Qed.

Lemma mask_to_list_increasing (m : Z) : increasing 0 (mask_to_list m).
Proof.
  destruct m; simpl; [done | apply mask_to_list_pos_increasing | done].
Qed.

(** Decoding a mask built from a strictly increasing sequence gives the
    sequence back. *)
Lemma mask_to_list_mask_of (st : nat) (l : list nat) :
  increasing st l -> mask_to_list (mask_of l) = l.
Proof.
  intros Hl. apply (increasing_ext 0 st).
  - apply mask_to_list_increasing.
  - done.
  - intros i. rewrite elem_of_mask_to_list by apply mask_of_nonneg.
    apply testbit_mask_of.
Qed.

Lemma popcount_ones (n : nat) :
  popcount (Z.shiftl 1 (Z.of_nat n) - 1) = n.
Proof.
  rewrite Z.shiftl_1_l. induction n as [|n IH]; [done|].
  replace (2 ^ Z.of_nat (S n) - 1)%Z with (2 * (2 ^ Z.of_nat n - 1) + 1)%Z.
  2:{ rewrite Nat2Z.inj_succ, Z.pow_succ_r by lia. lia. }
  assert (Hpos : (0 < 2 ^ Z.of_nat n)%Z) by (apply Z.pow_pos_nonneg; lia).
  remember (2 ^ Z.of_nat n - 1)%Z as m eqn:He.
  destruct m as [|p|p]; [| |lia].
  - simpl in IH. by subst n.
  - change (2 * Z.pos p + 1)%Z with (Z.pos p~1).
    simpl in *. by rewrite IH.
Qed.

(** X9. The symbol subsets tried by the synthesisers for an operator with
    [input_len] inputs: decoded by [mask_to_list], they are exactly the
    strictly increasing lists of [count] indices below [input_len]; and the
    two copies of [gen_sym_set] return the same subsets for every mask. *)
Theorem gen_sym_set_decoded (input_len count : nat) (l : list nat) :
  (l ∈ map mask_to_list
         (SymblIntSolve.gen_sym_set (Z.shiftl 1 (Z.of_nat input_len) - 1) count)
   <-> length l = count /\ increasing 0 l /\
       Forall (fun i => i < input_len) l) /\
  (forall mask,
     SymblIntSolve.gen_sym_set mask count
     = StrictInputSolve.gen_sym_set mask count).
Proof.
  assert (Heq : SymblIntSolve.gen_sym_set
                  (Z.shiftl 1 (Z.of_nat input_len) - 1) count
                = dfs count input_len []).
  { unfold SymblIntSolve.gen_sym_set. rewrite popcount_ones.
    destruct count; done. }
  split.
  - rewrite Heq, list_elem_of_fmap. split.
    + intros (m & -> & Hm).
      apply dfs_extends in Hm as (l & Hlen & Hinc & Hall & ->).
      simpl in *. by rewrite (mask_to_list_mask_of 0).
    + intros (Hlen & Hinc & Hall). exists (mask_of l). split.
      * by rewrite (mask_to_list_mask_of 0).
      * apply dfs_extends. by exists l.
  - intros mask. unfold SymblIntSolve.gen_sym_set, StrictInputSolve.gen_sym_set.
    by destruct count.
Qed.

End UtilsFacts.

Module RuleListFacts.

Import PyFacts ApiParsing Utils SymblIntSolve.

Section Shape.

Variable Tree : Type.
Variable evaluate : Tree -> list pyval -> result pyval.
Variable genTreeList : nat -> nat -> list (nat * Z * nat).
Variable getTree : nat -> Z -> nat -> Tree.
Variable cfg_zerofilter : bool.
Variable timed_out : nat -> bool.

Variable db : OpDatabase.
Variable input_len : nat.
Variable all_trees : list (nat * Z * nat).

#[local] Abbreviation shape := (rule_list_shape Tree getTree db input_len all_trees).
#[local] Abbreviation of_tree := (rules_of_tree Tree db input_len).

(** The state of the tree loop: one list per output, each empty or from
    one tree. *)
#[local] Abbreviation tree_lists :=
  (fun (n : nat) (vts : list (list (ShapeRule Tree))) =>
     length vts = n /\
     forall o rules, vts !! o = Some rules ->
       rules = [] \/
       exists depth ArgSet i,
         (depth, ArgSet, i) ∈ all_trees /\
         of_tree (getTree depth ArgSet i) (popcount ArgSet) rules).

Lemma try_output_lists (n : nat) (depth : nat) (ArgSet : Z) (i : nat)
    (o_id : nat) (st st' : list (list (ShapeRule Tree)) * bool) :
  (depth, ArgSet, i) ∈ all_trees ->
  try_output Tree evaluate cfg_zerofilter db input_len
    (getTree depth ArgSet i) (popcount ArgSet) o_id st = Ok st' ->
  tree_lists n st.1 -> tree_lists n st'.1.
Proof.
  unfold try_output. intros Hin H [Hlen Hinv].
  apply bind_Ok in H as (rules & Hr & H). apply index_Ok in Hr.
  destruct (1 <=? length rules) eqn:Hl; [by injection H as <-|].
  apply Nat.leb_gt in Hl.
  assert (rules = []) as -> by (destruct rules; [done | simpl in Hl; lia]).
  apply bind_Ok in H as (vts & Hf & H). injection H as <-. simpl.
  set (J := fun vts : list (list (ShapeRule Tree)) =>
    length vts = n /\
    (forall o rules, vts !! o = Some rules -> o <> o_id ->
       rules = [] \/
       exists depth ArgSet i,
         (depth, ArgSet, i) ∈ all_trees /\
         of_tree (getTree depth ArgSet i) (popcount ArgSet) rules) /\
    (forall rules, vts !! o_id = Some rules ->
       of_tree (getTree depth ArgSet i) (popcount ArgSet) rules)).
  assert (HJ : J vts).
  { apply (forM_inv J _ _ _ _ Hf).
    - split; [done|]. split; [intros o rs Ho _; by eapply Hinv|].
      intros rs Hrs. rewrite Hr in Hrs. injection Hrs as <-.
      intros rule Hrule. by apply elem_of_nil in Hrule.
    - intros sym_set s s' Hss (Hl1 & Hoth & Hme) Hb.
      unfold try_sym_set in Hb.
      destruct (check_duplicate_sym db sym_set) eqn:Hdup;
        [by injection Hb as <-|].
      apply bind_Ok in Hb as ([valid alo] & _ & Hb).
      destruct (valid && alo); [|by injection Hb as <-].
      apply bind_Ok in Hb as (rs & Hrs & Hb). apply index_Ok in Hrs.
      injection Hb as <-. split; [by rewrite length_insert|]. split.
      + intros o rs' Ho Hne. rewrite list_lookup_insert_ne in Ho by done.
        by eapply Hoth.
      + intros rs' Ho.
        rewrite list_lookup_insert_eq in Ho by (by eapply lookup_lt_Some).
        injection Ho as <-. intros rule Hrule.
        apply elem_of_app in Hrule as [Hrule|Hrule]; [by eapply Hme|].
        apply list_elem_of_singleton in Hrule as ->. by exists sym_set. }
  destruct HJ as (Hl1 & Hoth & Hme). split; [done|].
  intros o rs Ho. destruct (decide (o = o_id)) as [->|Hne].
  - right. exists depth, ArgSet, i. split; [done | by apply Hme].
  - by eapply Hoth.
Qed.

Lemma tree_loop_lists (n : nat) (output_len : nat)
    (trees : list (nat * Z * nat)) (tried tried' : nat)
    (vts vts' : list (list (ShapeRule Tree))) :
  (forall t, t ∈ trees -> t ∈ all_trees) ->
  tree_loop Tree evaluate getTree cfg_zerofilter timed_out db input_len
    output_len trees tried vts = Ok (vts', tried') ->
  tree_lists n vts -> tree_lists n vts'.
Proof.
  revert tried vts. induction trees as [|[[depth ArgSet] i] rest IH];
    intros tried vts Hsub H Hinv; cbn [tree_loop] in H.
  - by injection H as <- _.
  - apply bind_Ok in H as ([vts1 happen] & Hf & H).
    assert (H1 : tree_lists n (vts1, happen).1).
    { apply (forM_inv (fun st : list (list (ShapeRule Tree)) * bool =>
                         tree_lists n st.1) _ _ _ _ Hf); [done|].
      intros o s s' _ Hs Hb. eapply try_output_lists; [|exact Hb|done].
      apply Hsub. left. }
    simpl in H1.
    destruct happen; simpl in H; [|by injection H as <- _].
    destruct (timed_out (S tried)); [by injection H as <- _|].
    eapply IH; [|exact H|done]. intros t Ht. apply Hsub. by right.
Qed.

Lemma rank_fallback_shape (n : nat)
    (record_list : list (inputs_t * outputs_t)) (o_id : nat)
    (vts vts' : list (list (ShapeRule Tree))) :
  rank_fallback Tree record_list input_len o_id vts = Ok vts' ->
  (length vts = n /\ forall o rules, vts !! o = Some rules -> shape rules) ->
  (length vts' = n /\ forall o rules, vts' !! o = Some rules -> shape rules).
Proof.
  unfold rank_fallback. intros H [Hlen Hinv].
  apply bind_Ok in H as (rules & Hr & H). apply index_Ok in Hr.
  destruct (1 <=? length rules) eqn:Hl; [by injection H as <-|].
  apply Nat.leb_gt in Hl.
  assert (rules = []) as -> by (destruct rules; [done | simpl in Hl; lia]).
  destruct (rank_valid record_list o_id input_len);
    injection H as <-; [|done].
  split; [by rewrite length_insert|]. intros o rs Ho.
  apply list_lookup_insert_Some in Ho as [(-> & <- & _)|[Hne Ho]].
  - right. by left.
  - by eapply Hinv.
Qed.

End Shape.

Section Result.

Variable Tree : Type.
Variable evaluate : Tree -> list pyval -> result pyval.
Variable genTreeList : nat -> nat -> list (nat * Z * nat).
Variable getTree : nat -> Z -> nat -> Tree.
Variable cfg_zerofilter : bool.
Variable timed_out : nat -> bool.

(** X10. The result of the shape-rule synthesiser: it reports the number
    of outputs and of success records, holds one rule list per output, and
    each list is empty, or the rank fallback alone, or made of rules that
    all pair one tree of the enumeration with enumerated symbol subsets
    free of alias pairs. *)
Theorem solve_inst_rule_lists (db : OpDatabase) (info : RuleInfo Tree) :
  solve_inst Tree evaluate genTreeList getTree cfg_zerofilter timed_out db
    = Ok info ->
  exists r0, DB_success db !! 0 = Some r0 /\
    output_rank info = length (unrelated db) /\
    invocation_count info = length (DB_success db) /\
    length (output_rules info) = length (unrelated db) /\
    forall o_id rules, output_rules info !! o_id = Some rules ->
      rule_list_shape Tree getTree db (length r0.1)
        (genTreeList Configs.TreeMaxHeight
           (min (length r0.1) Configs.TreeArgCount)) rules.
Proof.
  unfold solve_inst. intros H.
  apply bind_Ok in H as (r0 & Hr0 & H). apply index_Ok in Hr0.
  apply bind_Ok in H as ([vts tried] & Ht & H).
  apply bind_Ok in H as (vts' & Hf & H). injection H as <-. simpl.
  exists r0. split; [done|]. split; [done|]. split; [done|].
  pose proof (tree_loop_lists Tree evaluate getTree cfg_zerofilter timed_out
                db (length r0.1)
                (genTreeList Configs.TreeMaxHeight
                   (min (length r0.1) Configs.TreeArgCount))
                (length (unrelated db)) _ _ _ _ _ _
                (fun t Ht => Ht) Ht) as H1.
  cbv beta in H1.
  assert (H0 : length (replicate (length (unrelated db))
                         ([] : list (ShapeRule Tree)))
               = length (unrelated db) /\
          forall o rules,
            replicate (length (unrelated db)) ([] : list (ShapeRule Tree))
              !! o = Some rules ->
            rules = [] \/
            exists depth ArgSet i,
              (depth, ArgSet, i) ∈
                genTreeList Configs.TreeMaxHeight
                  (min (length r0.1) Configs.TreeArgCount) /\
              rules_of_tree Tree db (length r0.1) (getTree depth ArgSet i)
                (popcount ArgSet) rules).
  { split; [by rewrite length_replicate|].
    intros o rs Ho. apply lookup_replicate in Ho as [-> _]. by left. }
  specialize (H1 H0). clear H0.
  apply (forM_inv (fun v : list (list (ShapeRule Tree)) =>
           length v = length (unrelated db) /\
           forall o rules, v !! o = Some rules ->
             rule_list_shape Tree getTree db (length r0.1)
               (genTreeList Configs.TreeMaxHeight
                  (min (length r0.1) Configs.TreeArgCount)) rules)
         _ _ _ _ Hf).
  - destruct H1 as [Hlen Hinv]. split; [done|]. intros o rs Ho.
    destruct (Hinv o rs Ho) as [->|Htree]; [by left | right; by right].
  - intros o s s' _ Hs Hb. by eapply rank_fallback_shape.
Qed.

End Result.

Import Tree Scenarios.

Lemma solve_inst_rule_lists_witness :
  exists r0, DB_success relu_db !! 0 = Some r0 /\
    output_rank (mkRuleInfo 2 2 [[TreeRule (Arg 0) 1]; [TreeRule (Arg 0) 2]] 3)
      = length (unrelated relu_db) /\
    invocation_count
      (mkRuleInfo 2 2 [[TreeRule (Arg 0) 1]; [TreeRule (Arg 0) 2]] 3)
      = length (DB_success relu_db) /\
    length (output_rules
      (mkRuleInfo 2 2 [[TreeRule (Arg 0) 1]; [TreeRule (Arg 0) 2]] 3))
      = length (unrelated relu_db) /\
    forall o_id rules,
      output_rules
        (mkRuleInfo 2 2 [[TreeRule (Arg 0) 1]; [TreeRule (Arg 0) 2]] 3)
        !! o_id = Some rules ->
      rule_list_shape ArithExpTree height0_tree relu_db (length r0.1)
        height0_trees rules.
Proof.
  apply (solve_inst_rule_lists ArithExpTree evaluate
           (fun _ _ => height0_trees) height0_tree false (fun _ => false)
           relu_db
           (mkRuleInfo 2 2 [[TreeRule (Arg 0) 1]; [TreeRule (Arg 0) 2]] 3)).
  vm_compute. reflexivity.
Defined.

End RuleListFacts.

Module RuleSetFacts.

Import PyFacts ApiParsing Utils Tree StrictInputSolve StrictInputSolveFacts.
Import RuleDatabaseFacts.

Section WithOracle.

Variable equivalent : formula -> formula -> bool.
Variable genTreeList : nat -> nat -> list (nat * Z * nat).
Variable getTree : nat -> Z -> nat -> ArithExpTree.
Variable timed_out : nat -> bool.

(** [Add] returns the rule set unchanged or has a rule to append. *)
Lemma Add_cases (rs rs' : list Rule) (rule : result ArithExpTree)
    (sign : Sign) :
  Add equivalent rs rule sign = Ok rs' ->
  rs' = rs \/ exists e, rule = Ok e /\ Add equivalent rs (Ok e) sign = Ok rs'.
Proof.
  unfold Add. destruct (50 <? length rs); intros H; [left; congruence|].
  destruct rule as [e|err]; [|done]. right. by exists e.
Qed.

Lemma prune_length (fuel : nat) (rs : list Rule) :
  length (prune equivalent fuel rs) <= length rs.
Proof.
  revert rs. induction fuel as [|fuel IH]; intros rs; simpl; [done|].
  destruct (find_del equivalent rs (conj rs) (prune_range rs)) as [x|] eqn:Hf;
    [|done].
  apply find_del_Some, list_remove_length in Hf.
  specialize (IH (list_remove x rs)). lia.
Qed.

Lemma tree_op_remap (t : ArithExpTree) (index : list nat) :
  tree_op (remap t index) = tree_op t.
Proof. by destruct t. Qed.

Section Fold.

Variable P : list Rule -> Prop.
Variable r0 : inputs_t.
Variable all_trees : list (nat * Z * nat).

Hypothesis P_Add : forall rs rs' e sign,
  P rs -> rule_origin getTree r0 all_trees (mkRule e sign) ->
  Add equivalent rs (Ok e) sign = Ok rs' -> P rs'.

Lemma const_loop_fold (valid_list : list inputs_t) (input_len : nat)
    (rs rs' : list Rule) :
  const_loop equivalent valid_list r0 input_len rs = Ok rs' -> P rs -> P rs'.
Proof.
  unfold const_loop. intros H Hrs.
  apply (forM_inv P _ _ _ _ H); [done|].
  intros i s s' _ Hs Hb.
  apply bind_Ok in Hb as (val & Hval & Hb). apply index_Ok in Hval.
  apply bind_Ok in Hb as (valid & _ & Hb).
  destruct valid; [|by injection Hb as <-].
  apply Add_cases in Hb as [->|(e & He & Hb)]; [done|].
  eapply P_Add; [exact Hs | | exact Hb].
  left. destruct val as [v|]; [|done]. injection He as <-. by exists i, v.
Qed.

Lemma tree_loop_fold (valid_list invalid_list : list inputs_t)
    (trees : list (nat * Z * nat)) (tried : nat) (rs : list Rule)
    (res : SolveResult) :
  (forall t, t ∈ trees -> t ∈ all_trees) ->
  tree_loop equivalent getTree timed_out valid_list invalid_list (length r0)
    trees tried rs = Ok res ->
  P rs -> P (rules res).
Proof.
  revert tried rs. induction trees as [|[[depth ArgSet] i] rest IH];
    intros tried rs Hsub H Hrs; cbn [tree_loop] in H.
  - by injection H as <-.
  - destruct (timed_out (S tried)); [by injection H as <-|].
    assert (Hrest : forall t, t ∈ rest -> t ∈ all_trees)
      by (intros t Ht; apply Hsub; by right).
    destruct (op_skipped (getTree depth ArgSet i)) eqn:Hop; [by eapply IH|].
    apply bind_Ok in H as (rs1 & Hf & H).
    assert (H1 : P rs1).
    { apply (forM_inv P _ _ _ _ Hf); [done|].
      intros sym_set s s' Hss Hs Hb.
      apply (forM_inv P _ _ _ _ Hb); [done|].
      intros sign t t' Hsign Ht Hb'. unfold try_sign in Hb'.
      apply bind_Ok in Hb' as (ok & _ & Hb').
      destruct ok; [|by injection Hb' as <-].
      eapply P_Add; [exact Ht | | exact Hb'].
      right. exists depth, ArgSet, i, sym_set. repeat split; try done.
      apply Hsub. left. }
    destruct (50 <=? length rs1); [by injection H as <-|].
    by eapply IH.
Qed.

Lemma solve_inst_fold (info_success : list (inputs_t * outputs_t))
    (info_fail : list inputs_t) (res : SolveResult) :
  map fst info_success !! 0 = Some r0 ->
  all_trees = genTreeList Configs.TreeMaxHeight
                (min (length r0) Configs.TreeArgCount) ->
  solve_inst equivalent genTreeList getTree timed_out info_success info_fail
    = Ok res ->
  P [] -> P (rules res).
Proof.
  unfold solve_inst. intros Hr0 Htrees H Hnil. unfold index in H.
  rewrite Hr0 in H. simpl in H.
  apply bind_Ok in H as (rs & Hc & H).
  eapply tree_loop_fold; [|exact H|by eapply const_loop_fold].
  intros t. by rewrite Htrees.
Qed.

End Fold.

Lemma tree_loop_tried (valid_list invalid_list : list inputs_t)
    (input_len : nat) (trees : list (nat * Z * nat)) (tried : nat)
    (rs : list Rule) (res : SolveResult) :
  tree_loop equivalent getTree timed_out valid_list invalid_list input_len
    trees tried rs = Ok res ->
  tree_tried res <= tried + length trees.
Proof.
  revert tried rs. induction trees as [|[[depth ArgSet] i] rest IH];
    intros tried rs H; cbn [tree_loop] in H.
  - injection H as <-. simpl. lia.
  - destruct (timed_out (S tried)); [injection H as <-; simpl; lia|].
    destruct (op_skipped (getTree depth ArgSet i)).
    { apply IH in H. simpl. lia. }
    apply bind_Ok in H as (rs1 & _ & H).
    destruct (50 <=? length rs1); [injection H as <-; simpl; lia|].
    apply IH in H. simpl. lia.
Qed.

(** X11. The constraint synthesiser returns at most 51 rules, and the
    number of trees it reports as tried is at most the length of the
    enumeration. *)
Theorem solve_inst_rules_bounded
    (info_success : list (inputs_t * outputs_t)) (info_fail : list inputs_t)
    (res : SolveResult) :
  solve_inst equivalent genTreeList getTree timed_out info_success info_fail
    = Ok res ->
  length (rules res) <= 51 /\
  exists r0, map fst info_success !! 0 = Some r0 /\
    tree_tried res <=
      length (genTreeList Configs.TreeMaxHeight
                (min (length r0) Configs.TreeArgCount)).
Proof.
  intros H.
  assert (Hr0 : exists r0, map fst info_success !! 0 = Some r0).
  { unfold solve_inst in H. apply bind_Ok in H as (r0 & Hr0 & _).
    apply index_Ok in Hr0. by exists r0. }
  destruct Hr0 as [r0 Hr0]. split.
  - apply (solve_inst_fold (fun rs => length rs <= 51) r0
             (genTreeList Configs.TreeMaxHeight
                (min (length r0) Configs.TreeArgCount)))
      with (info_success := info_success) (info_fail := info_fail);
      [intros rs rs' e sign Hrs _ Ha | done | done | done | simpl; lia].
    unfold Add in Ha. destruct (50 <? length rs) eqn:H50.
    + by injection Ha as <-.
    + apply Nat.ltb_ge in H50. simpl in Ha. injection Ha as <-.
      etransitivity; [apply prune_length|]. rewrite length_app. simpl. lia.
  - exists r0. split; [done|].
    unfold solve_inst, index in H. rewrite Hr0 in H. simpl in H.
    apply bind_Ok in H as (rs & _ & H). apply tree_loop_tried in H. lia.
Qed.

(** X12. In the rule set the constraint synthesiser returns, deleting any
    entry other than the first gives a conjunction the solver does not
    report equivalent to the whole. *)
Theorem solve_inst_rules_pruned
    (info_success : list (inputs_t * outputs_t)) (info_fail : list inputs_t)
    (res : SolveResult) (i : nat) :
  solve_inst equivalent genTreeList getTree timed_out info_success info_fail
    = Ok res ->
  1 <= i < length (rules res) ->
  equivalent (conj (rules res)) (conj (delete i (rules res))) = false.
Proof.
  intros H.
  assert (Hr0 : exists r0, map fst info_success !! 0 = Some r0).
  { unfold solve_inst in H. apply bind_Ok in H as (r0 & Hr0 & _).
    apply index_Ok in Hr0. by exists r0. }
  destruct Hr0 as [r0 Hr0]. revert i.
  apply (solve_inst_fold
           (fun rs => forall i, 1 <= i < length rs ->
              equivalent (conj rs) (conj (delete i rs)) = false) r0
           (genTreeList Configs.TreeMaxHeight
              (min (length r0) Configs.TreeArgCount)))
    with (info_success := info_success) (info_fail := info_fail);
    [intros rs rs' e sign Hrs _ Ha | done | done | done
    | intros i; simpl; lia].
  intros i Hi. destruct (50 <? length rs) eqn:H50.
  - unfold Add in Ha. rewrite H50 in Ha. injection Ha as <-. by apply Hrs.
  - apply Nat.ltb_ge in H50.
    by eapply (Add_minimal_beyond_first equivalent rs rs' e sign).
Qed.

(** X13. Every rule the constraint synthesiser returns is a constant rule
    [s_i - v == 0] on a position of the first success record, or a tree of
    the enumeration renamed to an enumerated symbol subset with a relation
    allowed at its depth; in particular no returned rule is a product at
    its root. *)
Theorem solve_inst_rule_origin
    (info_success : list (inputs_t * outputs_t)) (info_fail : list inputs_t)
    (res : SolveResult) :
  solve_inst equivalent genTreeList getTree timed_out info_success info_fail
    = Ok res ->
  exists r0, map fst info_success !! 0 = Some r0 /\
    forall r, r ∈ rules res ->
      rule_origin getTree r0
        (genTreeList Configs.TreeMaxHeight
           (min (length r0) Configs.TreeArgCount)) r /\
      tree_op (rule_expr r) <> Some OpMul.
Proof.
  intros H.
  assert (Hr0 : exists r0, map fst info_success !! 0 = Some r0).
  { unfold solve_inst in H. apply bind_Ok in H as (r0 & Hr0 & _).
    apply index_Ok in Hr0. by exists r0. }
  destruct Hr0 as [r0 Hr0]. exists r0. split; [done|].
  assert (Hall : Forall (rule_origin getTree r0
                  (genTreeList Configs.TreeMaxHeight
                     (min (length r0) Configs.TreeArgCount))) (rules res)).
  { apply (solve_inst_fold
             (Forall (rule_origin getTree r0
                (genTreeList Configs.TreeMaxHeight
                   (min (length r0) Configs.TreeArgCount)))) r0
             (genTreeList Configs.TreeMaxHeight
                (min (length r0) Configs.TreeArgCount)))
      with (info_success := info_success) (info_fail := info_fail);
      [intros rs rs' e sign Hrs Ho Ha | done | done | done | done].
    eapply Add_good; [exact Ha | done |]. by intros e' [= <-]. }
  intros r Hr. eapply Forall_forall in Hall; [|exact Hr]. split; [done|].
  destruct Hall as [(i & v & _ & ->)|(d & A & i & ss & _ & Hop & _ & _ & He)].
  - done.
  - rewrite He, tree_op_remap. unfold op_skipped in Hop.
    destruct (tree_op (getTree d A i)) as [[]|]; done.
Qed.

End WithOracle.

Import Scenarios.

Lemma solve_inst_rules_bounded_witness :
  length (rules (mkSolveResult
            [mkRule (Node OpSub (Arg 1) (Arg 2)) SEq;
             mkRule (Node OpSub (Arg 1) (Arg 2)) SGe] 4)) <= 51 /\
  exists r0, map fst matmul_success !! 0 = Some r0 /\
    tree_tried (mkSolveResult
            [mkRule (Node OpSub (Arg 1) (Arg 2)) SEq;
             mkRule (Node OpSub (Arg 1) (Arg 2)) SGe] 4)
    <= length matmul_trees.
Proof.
  apply (solve_inst_rules_bounded syntactic (fun _ _ => matmul_trees)
           matmul_tree (fun _ => false) matmul_success matmul_fail).
  vm_compute. reflexivity.
Defined.

Lemma solve_inst_rules_pruned_witness :
  syntactic
    (conj [mkRule (Node OpSub (Arg 1) (Arg 2)) SEq;
           mkRule (Node OpSub (Arg 1) (Arg 2)) SGe])
    (conj (delete 1 [mkRule (Node OpSub (Arg 1) (Arg 2)) SEq;
                     mkRule (Node OpSub (Arg 1) (Arg 2)) SGe]))
  = false.
Proof.
  apply (solve_inst_rules_pruned syntactic (fun _ _ => matmul_trees)
           matmul_tree (fun _ => false) matmul_success matmul_fail
           (mkSolveResult
              [mkRule (Node OpSub (Arg 1) (Arg 2)) SEq;
               mkRule (Node OpSub (Arg 1) (Arg 2)) SGe] 4) 1).
  - vm_compute. reflexivity.
  - simpl. lia.
Defined.

Lemma solve_inst_rule_origin_witness :
  exists r0, map fst matmul_success !! 0 = Some r0 /\
    forall r, r ∈ [mkRule (Node OpSub (Arg 1) (Arg 2)) SEq;
                   mkRule (Node OpSub (Arg 1) (Arg 2)) SGe] ->
      rule_origin matmul_tree r0 matmul_trees r /\
      tree_op (rule_expr r) <> Some OpMul.
Proof.
  apply (solve_inst_rule_origin syntactic (fun _ _ => matmul_trees)
           matmul_tree (fun _ => false) matmul_success matmul_fail
           (mkSolveResult
              [mkRule (Node OpSub (Arg 1) (Arg 2)) SEq;
               mkRule (Node OpSub (Arg 1) (Arg 2)) SGe] 4)).
  vm_compute. reflexivity.
Defined.

End RuleSetFacts.

Module InspectFacts.

Import PyFacts ApiParsing Utils Tree StrictInputSolve.

Lemma all_hold_false (valid_list : list inputs_t) (sym_list : list nat)
    (tree : ArithExpTree) (sign : Sign) :
  all_hold valid_list sym_list tree sign = Ok false ->
  exists inputs, inputs ∈ valid_list /\
    eval_record tree sign sym_list inputs = Ok false.
Proof.
  induction valid_list as [|x rest IH]; intros H; simpl in H; [done|].
  apply bind_Ok in H as (res & Hres & H). destruct res.
  - destruct (IH H) as (inputs & Hin & He). exists inputs.
    split; [by right | done].
  - exists x. split; [left | done].
Qed.

Lemma some_fails_false (invalid_list : list inputs_t) (sym_list : list nat)
    (tree : ArithExpTree) (sign : Sign) :
  some_fails invalid_list sym_list tree sign = Ok false ->
  forall inputs, inputs ∈ invalid_list ->
    eval_record tree sign sym_list inputs = Ok true.
Proof.
  induction invalid_list as [|x rest IH]; intros H inputs Hin.
  - by apply elem_of_nil in Hin.
  - simpl in H. apply bind_Ok in H as (res & Hres & H).
    destruct res; [|done].
    apply elem_of_cons in Hin as [->|Hin]; [done | by apply IH].
Qed.

(** X14. Why [inspect_all_records] turns a candidate down: either some
    valid record violates the relation, or the relation is an inequality
    that every invalid record satisfies as well; in particular an
    inequality is never kept when there is no invalid record. *)
Theorem inspect_all_records_rejects (valid_list invalid_list : list inputs_t)
    (sym_list : list nat) (tree : ArithExpTree) (sign : Sign) :
  inspect_all_records valid_list invalid_list sym_list tree sign = Ok false ->
  (exists inputs, inputs ∈ valid_list /\
     eval_record tree sign sym_list inputs = Ok false) \/
  (sign <> SEq /\
   forall inputs, inputs ∈ invalid_list ->
     eval_record tree sign sym_list inputs = Ok true).
Proof.
  unfold inspect_all_records. intros H.
  apply bind_Ok in H as (ok & Hok & H). destruct ok; simpl in H.
  - right. destruct sign; [done| |]; (split; [done|]);
      by apply some_fails_false.
  - left. by apply all_hold_false.
Qed.

Lemma inspect_all_records_rejects_witness :
  (exists inputs, inputs ∈ [[PInt 0]; [PInt 3]] /\
     eval_record (Arg 0) SGe [0] inputs = Ok false) \/
  (SGe <> SEq /\
   forall inputs, inputs ∈ ([] : list (list pyval)) ->
     eval_record (Arg 0) SGe [0] inputs = Ok true).
Proof.
  apply (inspect_all_records_rejects [[PInt 0]; [PInt 3]] [] [0] (Arg 0) SGe).
  reflexivity.
Defined.

End InspectFacts.

Module MatcherFacts.

Import PyFacts ApiParsing NnsmithRules NnsmithRulesFacts.

Lemma list_to_dict_from (target : list pyval) (name : string) (k : nat) :
  (forall i, (list_to_map (imap (fun i v => (sym name (k + i), v)) target)
                : gmap string pyval) !! sym name (k + i) = target !! i) /\
  (forall key, (forall i, i < length target -> key <> sym name (k + i)) ->
     (list_to_map (imap (fun i v => (sym name (k + i), v)) target)
        : gmap string pyval) !! key = None).
Proof.
  revert k. induction target as [|x target IH]; intros k.
  - split; [intros i | intros key _]; simpl; apply lookup_empty.
  - destruct (IH (S k)) as [IH1 IH2]. simpl.
    assert (Heq : imap ((fun i v => (sym name (k + i), v)) ∘ S) target
                  = imap (fun i v => (sym name (S k + i), v)) target).
    { apply imap_ext. intros i y _. simpl. f_equal. f_equal. lia. }
    rewrite Heq. split.
    + intros [|i].
      * rewrite Nat.add_0_r. apply lookup_insert_eq.
      * rewrite Nat.add_0_r, lookup_insert_ne.
        -- replace (k + S i) with (S k + i) by lia. apply IH1.
        -- intros Hs. apply MutateFacts.sym_inj in Hs. lia.
    + intros key Hkey. rewrite Nat.add_0_r, lookup_insert_ne.
      * apply IH2. intros i Hi. replace (S k + i) with (k + S i) by lia.
        apply Hkey. simpl. lia.
      * intros Hs. symmetry in Hs. revert Hs.
        replace k with (k + 0) at 1 by lia. apply Hkey. simpl. lia.
Qed.

(** X15. [list_to_dict] maps the key [name<i>] to the [i]-th value of the
    list, and holds no other key: a key that is not [name<i>] for an index
    of the list is absent. *)
Theorem list_to_dict_lookup (target : list pyval) (name : string) :
  (forall i, list_to_dict target name !! sym name i = target !! i) /\
  (forall key, (forall i, i < length target -> key <> sym name i) ->
     list_to_dict target name !! key = None).
Proof. apply (list_to_dict_from target name 0). Qed.

(** X16. The filter on the failing records: when every value is an
    integer it never raises and keeps, in order, exactly the records
    without a negative value. *)
Theorem filter_fail_ints (_fail : list inputs_t) :
  Forall (Forall (fun v => isinstance_int v = true)) _fail ->
  filter_fail _fail =
  Ok (List.filter
        (forallb (fun v => match v with
                           | PInt z => (0 <=? z)%Z
                           | PNone => false
                           end)) _fail).
Proof.
  assert (Hall : forall inputs : inputs_t,
            Forall (fun v => isinstance_int v = true) inputs ->
            all_nonneg inputs =
            Ok (forallb (fun v => match v with
                                  | PInt z => (0 <=? z)%Z
                                  | PNone => false
                                  end) inputs)).
  { induction inputs as [|[z|] rest IH]; intros Hi; [done| |].
    - apply Forall_cons in Hi as [_ Hi]. simpl.
      destruct (0 <=? z)%Z; [by apply IH | done].
    - by apply Forall_cons in Hi as [Hi _]. }
  induction _fail as [|inputs rest IH]; intros Hf; [done|].
  apply Forall_cons in Hf as [Hi Hf]. simpl.
  rewrite (Hall inputs Hi), (IH Hf). simpl.
  by destruct (forallb _ inputs).
Qed.

Lemma filter_fail_ints_witness :
  filter_fail [[PInt 3; PInt 4]; [PInt (-2); PInt 1]; [PInt 0]] =
  Ok (List.filter
        (forallb (fun v => match v with
                           | PInt z => (0 <=? z)%Z
                           | PNone => false
                           end))
        [[PInt 3; PInt 4]; [PInt (-2); PInt 1]; [PInt 0]]).
Proof.
  apply (filter_fail_ints [[PInt 3; PInt 4]; [PInt (-2); PInt 1]; [PInt 0]]).
  repeat constructor.
Defined.

Section Match.

Variable predicate : Type.
Variable equivalent : predicate -> bool -> bool.
Variable input_validity_test :
  Instrument.OpInstance -> gmap string pyval -> inputs_t * option outputs_t.

#[local] Abbreviation OpType := (OpType predicate).
#[local] Abbreviation accepts := (NnsmithRules.accepts predicate equivalent).
#[local] Abbreviation rejects := (NnsmithRules.rejects predicate equivalent).

Lemma shapes_loop_accepts (outs std : list CTensor) (n_out : nat) :
  (forall i, i < n_out ->
     exists c s, outs !! i = Some c /\ std !! i = Some s /\
                 cshape c = cshape s) ->
  forM (range 0 n_out) (fun i valid =>
    c ← index outs i;
    s ← index std i;
    Ok (if decide (cshape c = cshape s) then valid else false)) true
  = Ok true.
Proof.
  intros Hsh.
  destruct (forM_total (fun v : bool => v = true) (range 0 n_out)
    (fun i valid =>
       c ← index outs i;
       s ← index std i;
       Ok (if decide (cshape c = cshape s) then valid else false)) true)
    as (v & Hf & ->); [done | | done].
  intros i v -> Hi. apply elem_of_range in Hi.
  destruct (Hsh i) as (c & s & Hc & Hs & Heq); [lia|].
  unfold index. rewrite Hc, Hs. simpl. rewrite decide_True by done. eauto.
Qed.

Lemma success_record_ok_complete (inst : Instrument.OpInstance) (op : OpType)
    (record : inputs_t * outputs_t) :
  accepts inst op record ->
  success_record_ok predicate equivalent inst op
    (length (Instrument.output_tensors inst)) record = Ok true.
Proof.
  intros (outs & preds & Ht & Hsh & Hr & Hp). unfold success_record_ok.
  cbv zeta. rewrite Ht, (shapes_loop_accepts _ _ _ Hsh). simpl.
  rewrite Hr. f_equal. apply forallb_forall. intros p Hin.
  apply Hp. by apply list_elem_of_In.
Qed.

Lemma success_loop_complete (inst : Instrument.OpInstance) (op : OpType)
    (success : list (inputs_t * outputs_t)) :
  (forall record, record ∈ success -> accepts inst op record) ->
  success_loop predicate equivalent inst op
    (length (Instrument.output_tensors inst)) success = Ok true.
Proof.
  induction success as [|record rest IH]; intros Hacc; [done|].
  simpl. rewrite success_record_ok_complete by (apply Hacc; left).
  simpl. apply IH. intros r Hr. apply Hacc. by right.
Qed.

Lemma fail_loop_complete (inst : Instrument.OpInstance) (op : OpType)
    (fail : list inputs_t) :
  (forall inputs, inputs ∈ fail -> rejects inst op inputs) ->
  fail_loop predicate equivalent inst op fail = Ok true.
Proof.
  induction fail as [|inputs rest IH]; intros Hrej; [done|].
  simpl.
  assert (Hone : fail_record_rejected predicate equivalent inst op inputs
                 = Ok true).
  { unfold fail_record_rejected. cbv zeta.
    destruct (Hrej inputs) as [(e & -> & ->)|(preds & -> & p & Hp & He)];
      [left | done |].
    f_equal. apply existsb_exists. exists p. split; [|done].
    by apply list_elem_of_In. }
  rewrite Hone. simpl. apply IH. intros r Hr. apply Hrej. by right.
Qed.

(** X17. A rule class other than [BcastBinaryOp] is found valid exactly
    when it reproduces every success record and rejects every failing
    record it is given. *)
Theorem class_valid_iff (inst : Instrument.OpInstance) (op : OpType)
    (success : list (inputs_t * outputs_t)) (fail : list inputs_t) :
  is_BcastBinaryOp predicate op = false ->
  (class_valid predicate equivalent input_validity_test inst op success fail
     = Ok true <->
   (forall record, record ∈ success -> accepts inst op record) /\
   (forall inputs, inputs ∈ fail -> rejects inst op inputs)).
Proof.
  intros Hb. split; [apply class_valid_true|].
  intros [Hacc Hrej]. unfold class_valid.
  rewrite success_loop_complete by done. simpl. rewrite Hb. simpl.
  by apply fail_loop_complete.
Qed.

(** The probes restore the symbol they changed: every symbol is probed on
    the record's own dictionary with that symbol alone set to [1]. *)
Lemma bcast_probe_each (inst : Instrument.OpInstance)
    (input_dict : gmap string pyval) (symbs : list string) (valid : bool) :
  bcast_probe input_validity_test inst input_dict symbs valid = Ok true ->
  forall symb, symb ∈ symbs ->
    (input_validity_test inst (<[symb := PInt 1]> input_dict)).2 <> None.
Proof.
  induction symbs as [|s rest IH]; intros H symb Hin.
  - by apply elem_of_nil in Hin.
  - simpl in H. apply bind_Ok in H as (origin_val & Ho & H).
    unfold getitem in Ho.
    destruct (input_dict !! s) as [v|] eqn:Hv; [|done]. injection Ho as <-.
    destruct (input_validity_test inst (<[s := PInt 1]> input_dict)).2
      as [outs|] eqn:Hout; [|done].
    rewrite insert_insert_eq, (insert_id _ _ _ Hv) in H.
    apply elem_of_cons in Hin as [->|Hin]; [by rewrite Hout | by apply IH].
Qed.

(** X18. When the [BcastBinaryOp] class is found valid and some success
    record has no [1] among its shape inputs, the oracle accepted, for
    every shape symbol of the operator, the first such record with that
    symbol alone set to [1]. *)
Theorem class_valid_bcast_probes (inst : Instrument.OpInstance) (op : OpType)
    (success : list (inputs_t * outputs_t)) (fail : list inputs_t)
    (d : gmap string pyval) (symb : string) :
  is_BcastBinaryOp predicate op = true ->
  class_valid predicate equivalent input_validity_test inst op success fail
    = Ok true ->
  find_no_one success (length (Instrument.I inst)) = Ok (Some d) ->
  symb ∈ Instrument.I inst ->
  (input_validity_test inst (<[symb := PInt 1]> d)).2 <> None.
Proof.
  unfold class_valid. intros Hb H Hfind Hin.
  apply bind_Ok in H as (v1 & _ & H). rewrite Hb in H.
  apply bind_Ok in H as (v2 & Hc & H). destruct v2; [|done].
  unfold bcast_check in Hc. rewrite Hfind in Hc. simpl in Hc.
  by eapply bcast_probe_each.
Qed.

End Match.

Import Scenarios.

Lemma class_valid_iff_witness :
  class_valid bool Bool.eqb no_oracle relu_inst unary relu_success []
    = Ok true <->
  (forall record, record ∈ relu_success ->
     accepts bool Bool.eqb relu_inst unary record) /\
  (forall inputs, inputs ∈ ([] : list (list pyval)) ->
     rejects bool Bool.eqb relu_inst unary inputs).
Proof.
  apply (class_valid_iff bool Bool.eqb no_oracle relu_inst unary
           relu_success []).
  reflexivity.
Defined.

Lemma class_valid_bcast_probes_witness :
  (yes_oracle relu_inst
     (<["s0" := PInt 1]> (list_to_dict [PInt 2; PInt 3] "s"))).2 <> None.
Proof.
  apply (class_valid_bcast_probes bool Bool.eqb yes_oracle relu_inst bcast
           relu_success [] (list_to_dict [PInt 2; PInt 3] "s") "s0").
  - reflexivity.
  - vm_compute. reflexivity.
  - vm_compute. reflexivity.
  - simpl. left.
Defined.

End MatcherFacts.

Module PlaceholderFacts.

Import PyFacts GraphGen GraphGenFacts.

Lemma randint_range (lo hi : Z) (r : Rng) :
  (lo <= hi)%Z ->
  exists v, randint lo hi r = Ok (v, next r) /\ (lo <= v <= hi)%Z.
Proof.
  intros H. unfold randint.
  assert (Hlt : (hi <? lo)%Z = false) by (apply Z.ltb_ge; lia).
  rewrite Hlt. eexists. split; [reflexivity|].
  pose proof (Z.mod_pos_bound (Z.of_nat (draw r (pos r))) (hi - lo + 1)
                ltac:(lia)). lia.
Qed.

(** With a non-empty dimension range the draw of the shape does not
    raise; it adds [n] dimensions, each within the range or [1]. *)
Lemma draw_shape_dims (g : Gen) (n : nat) (dims : list Z) (product : Z)
    (r : Rng) :
  ((concr_ph_dim_rng g).1 <= (concr_ph_dim_rng g).2)%Z ->
  exists dims' r',
    draw_shape g n dims product r = Ok (dims', r') /\
    length dims' = length dims + n /\
    forall P : Z -> Prop,
      P 1%Z ->
      (forall d, ((concr_ph_dim_rng g).1 <= d <= (concr_ph_dim_rng g).2)%Z ->
                 P d) ->
      Forall P dims -> Forall P dims'.
Proof.
  intros Hrng. revert dims product r.
  induction n as [|n IH]; intros dims product r; cbn [draw_shape].
  - exists dims, r. split; [done|]. split; [simpl; lia | done].
  - destruct (randint_range _ _ r Hrng) as (v & -> & Hv). simpl.
    destruct (IH (dims ++ [if (max_elem_per_tensor g <? product * v)%Z
                           then 1%Z else v])
                (product * (if (max_elem_per_tensor g <? product * v)%Z
                            then 1 else v))%Z (next r))
      as (dims' & r' & -> & Hlen & Hall).
    exists dims', r'. split; [done|].
    rewrite length_app in Hlen. simpl in Hlen. split; [lia|].
    intros P H1 Hin Hd. apply Hall; [done..|].
    apply Forall_app. split; [done|]. constructor; [|done].
    destruct (max_elem_per_tensor g <? product * v)%Z; [done | by apply Hin].
Qed.

(** X19. [BaseGen.make_random_concrete_placeholder] on a dimension range
    that starts at [1] or above does not raise; its placeholder has the
    requested rank and element type, every dimension lies between [1] and
    the upper end of the dimension range, and its number of elements is
    within [max_elem_per_tensor], whatever the random module draws. *)
Theorem make_random_concrete_placeholder_spec
    (shuffle : list Z -> Rng -> list Z * Rng) (g : Gen) (rank : nat)
    (dt : DType) (r : Rng) :
  (forall l r, (shuffle l r).1 ≡ₚ l) ->
  (1 <= max_elem_per_tensor g)%Z ->
  (1 <= (concr_ph_dim_rng g).1 <= (concr_ph_dim_rng g).2)%Z ->
  exists t r',
    make_random_concrete_placeholder shuffle g rank dt r
      = Ok (Placeholder t, r') /\
    ndims t = rank /\ dtype t = dt /\
    Forall (fun d => 1 <= d <= (concr_ph_dim_rng g).2)%Z (shape t) /\
    (nelement t <= max_elem_per_tensor g)%Z.
Proof.
  intros Hperm Hmax Hrng. unfold make_random_concrete_placeholder.
  destruct (draw_shape_dims g rank [] 1%Z r ltac:(lia))
    as (dims & r1 & Hd & Hlen & Hall).
  pose proof (draw_shape_bound g rank [] 1%Z r dims r1 Hd eq_refl Hmax) as Hb.
  rewrite Hd. simpl.
  pose proof (Hperm dims r1) as Hp.
  destruct (shuffle dims r1) as [dims2 r2]. simpl in *.
  exists (mkAbsTensor dims2 dt), r2. split; [done|].
  unfold ndims, nelement. simpl.
  split; [by rewrite Hp|]. split; [done|]. split.
  - rewrite Hp. apply Hall; [lia | intros d Hdr; lia | done].
  - by rewrite (nelement_Permutation _ _ Hp).
Qed.

Lemma make_random_concrete_placeholder_spec_witness :
  exists t r',
    make_random_concrete_placeholder (fun l r => (l, r))
      (BaseGen_init (2 ^ 16)) 3 "float32" (mkRng (fun k => 100 + k) 0)
      = Ok (Placeholder t, r') /\
    ndims t = 3 /\ dtype t = "float32" /\
    Forall (fun d => 1 <= d <= (concr_ph_dim_rng (BaseGen_init (2 ^ 16))).2)%Z
      (shape t) /\
    (nelement t <= max_elem_per_tensor (BaseGen_init (2 ^ 16)))%Z.
Proof.
  apply (make_random_concrete_placeholder_spec (fun l r => (l, r))
           (BaseGen_init (2 ^ 16)) 3 "float32" (mkRng (fun k => 100 + k) 0)).
  - done.
  - simpl. lia.
  - simpl. lia.
Defined.

(** X20. [DynoFuzzR.make_random_concrete_placeholder] does not raise,
    provided the dimension range is not empty ([l <= r]) when no tensor
    type of the records fits, so that the [random.randint] of the fallback
    has a value to return. When some tensor type of the records has the
    requested rank and element type the placeholder has one of these
    recorded types; otherwise it is the placeholder of the base generator.
    In both cases it has the requested rank and, when one is requested,
    the requested element type. *)
Theorem DynoFuzzR_make_random_concrete_placeholder_spec
    (shuffle : list Z -> Rng -> list Z * Rng) (g : Gen)
    (record_finder : OpRecordFinder) (rank : nat) (want : option DType)
    (fallback_dtype : DType) (r : Rng) :
  (forall l r, (shuffle l r).1 ≡ₚ l) ->
  ((forall t0,
      t0 ∈ map fst (producer record_finder)
           ++ map fst (consumer record_finder) ->
      ~ (ndims t0 = rank /\ forall dt, want = Some dt -> dtype t0 = dt)) ->
   ((concr_ph_dim_rng g).1 <= (concr_ph_dim_rng g).2)%Z) ->
  exists t r',
    DynoFuzzR_make_random_concrete_placeholder shuffle g record_finder rank
      want fallback_dtype r = Ok (Placeholder t, r') /\
    ndims t = rank /\
    (forall dt, want = Some dt -> dtype t = dt) /\
    let recorded :=
      map fst (producer record_finder) ++ map fst (consumer record_finder) in
    let fits (t : AbsTensor) :=
      ndims t = rank /\ forall dt, want = Some dt -> dtype t = dt in
    ((exists t0, t0 ∈ recorded /\ fits t0) -> t ∈ recorded) /\
    ((forall t0, t0 ∈ recorded -> ~ fits t0) ->
     make_random_concrete_placeholder shuffle g rank
       (default fallback_dtype want) r = Ok (Placeholder t, r')).
Proof.
  intros Hperm Hrng. unfold DynoFuzzR_make_random_concrete_placeholder.
  cbv zeta.
  assert (Hfits : forall t : AbsTensor,
            (ndims t =? rank)
            && match want with
               | None => true
               | Some dt => bool_decide (dtype t = dt)
               end = true <->
            ndims t = rank /\ forall dt, want = Some dt -> dtype t = dt).
  { intros t. rewrite andb_true_iff, Nat.eqb_eq.
    destruct want as [dt|].
    - rewrite bool_decide_eq_true. split; intros [? Hd]; split; try done.
      + by intros dt' [= <-].
      + by apply Hd.
    - split; intros [? _]; by split. }
  match goal with |- context [length ?c =? 0] => set (cand := c) end.
  assert (Hcand : forall t, t ∈ cand <->
            t ∈ map fst (producer record_finder)
                ++ map fst (consumer record_finder) /\
            (ndims t = rank /\ forall dt, want = Some dt -> dtype t = dt)).
  { intros t. unfold cand.
    rewrite !elem_of_app, !list_elem_of_filter, Hfits. tauto. }
  destruct (length cand =? 0) eqn:Hlen.
  - apply Nat.eqb_eq, length_zero_iff_nil in Hlen.
    assert (Hnone : forall t0,
              t0 ∈ map fst (producer record_finder)
                   ++ map fst (consumer record_finder) ->
              ~ (ndims t0 = rank /\
                 forall dt, want = Some dt -> dtype t0 = dt)).
    { intros t0 Ht0 Hf0.
      assert (Hin : t0 ∈ cand) by (by apply Hcand).
      rewrite Hlen in Hin. by apply elem_of_nil in Hin. }
    unfold make_random_concrete_placeholder.
    destruct (draw_shape_dims g rank [] 1%Z r (Hrng Hnone))
      as (dims & r1 & Hd & Hl & _).
    rewrite Hd. simpl.
    pose proof (Hperm dims r1) as Hp.
    destruct (shuffle dims r1) as [dims2 r2]. simpl in Hp.
    exists (mkAbsTensor dims2 (default fallback_dtype want)), r2.
    split; [done|]. unfold ndims. simpl. split; [by rewrite Hp|].
    split; [by intros dt ->|]. split; [|done].
    intros (t0 & Ht0 & Hf0). exfalso.
    assert (Hin : t0 ∈ cand) by (by apply Hcand).
    rewrite Hlen in Hin. by apply elem_of_nil in Hin.
  - apply Nat.eqb_neq in Hlen.
    destruct (random_choice_total cand r) as (sel & Hsel & Hin).
    { intros Hnil. by rewrite Hnil in Hlen. }
    rewrite Hsel. simpl. apply Hcand in Hin as [Hrec [Hrank Hdt]].
    exists (mkAbsTensor (shape sel) (dtype sel)), (next r).
    assert (Hsame : mkAbsTensor (shape sel) (dtype sel) = sel)
      by (by destruct sel).
    split; [done|]. rewrite Hsame. split; [done|]. split; [done|]. split.
    + by intros _.
    + intros Hnone. exfalso. by apply (Hnone sel Hrec).
Qed.

Lemma DynoFuzzR_make_random_concrete_placeholder_spec_witness :
  exists t r',
    DynoFuzzR_make_random_concrete_placeholder (fun l r => (l, r))
      (BaseGen_init (2 ^ 16))
      (mkOpRecordFinder [(Scenarios.small, ["relu"])] [] []) 2 None "float32"
      (mkRng (fun k => k) 0)
    = Ok (Placeholder t, r') /\
    ndims t = 2 /\
    (forall dt, None = Some dt -> dtype t = dt) /\
    let recorded :=
      map fst (producer (mkOpRecordFinder [(Scenarios.small, ["relu"])] [] []))
      ++ map fst (consumer (mkOpRecordFinder [(Scenarios.small, ["relu"])] [] []))
    in
    let fits (t : AbsTensor) :=
      ndims t = 2 /\ forall dt, None = Some dt -> dtype t = dt in
    ((exists t0, t0 ∈ recorded /\ fits t0) -> t ∈ recorded) /\
    ((forall t0, t0 ∈ recorded -> ~ fits t0) ->
     make_random_concrete_placeholder (fun l r => (l, r))
       (BaseGen_init (2 ^ 16)) 2 (default "float32" None)
       (mkRng (fun k => k) 0) = Ok (Placeholder t, r')).
Proof.
  apply (DynoFuzzR_make_random_concrete_placeholder_spec (fun l r => (l, r))
           (BaseGen_init (2 ^ 16))
           (mkOpRecordFinder [(Scenarios.small, ["relu"])] [] []) 2 None
           "float32" (mkRng (fun k => k) 0)).
  - done.
  - intros _. simpl. lia.
Defined.

(** The error path of the fallback: an empty dimension range makes the
    draw of the first dimension raise [ValueError]. *)
Example fallback_on_empty_range :
  DynoFuzzR_make_random_concrete_placeholder (fun l r => (l, r))
    (mkGen (mkGraphIR [] 0) [] (2 ^ 16) (5, 2)%Z 0)
    (mkOpRecordFinder [] [] []) 1 None "float32" (mkRng (fun k => k) 0)
  = Raise ValueError.
Proof. reflexivity. Qed.

End PlaceholderFacts.

Module GenLoopFacts.

Import PyFacts GraphGen GraphGenFacts.

(** X21. The node budget: from a graph with at most [max_node_size]
    compute instructions, [abstract_gen] returns a graph with at most
    [max_node_size] compute instructions, whatever the attempts of the
    insertion loop do. *)
Theorem abstract_gen_node_budget (record_assisted : bool)
    (max_node_size : nat) (schedule : list Attempt) (coins : nat -> bool)
    (g g' : Gen) :
  abstract_gen record_assisted max_node_size schedule coins g = Ok g' ->
  num_op g <= max_node_size ->
  0 < max_node_size /\ num_op g' <= max_node_size.
Proof.
  unfold abstract_gen. intros H Hg.
  destruct (max_node_size =? 0) eqn:Hz; [done|]. apply Nat.eqb_neq in Hz.
  split; [lia|].
  set (g0 := if record_assisted then set_impossible g 0 else g) in H.
  assert (Hn0 : num_op g0 <= max_node_size) by (by destruct record_assisted).
  pose proof (gen_loop_num_op record_assisted max_node_size schedule g0 Hn0)
    as Hn.
  destruct (placeholders (gen_loop record_assisted max_node_size schedule g0))
    as [|ph0 phs]; [done|].
  injection H as <-.
  set (g1 := determine_ph_type _ ph0 true).
  assert (Hg1 : num_op g1 <= max_node_size)
    by (etrans; [apply num_op_determine_ph_type | done]).
  generalize (imap (fun k ph => (k, ph)) phs). intros l.
  revert Hg1. generalize g1. clear.
  induction l as [|[k ph] l IH]; intros g Hg; simpl; [done|].
  apply IH. etrans; [apply num_op_determine_ph_type | done].
Qed.

Lemma abstract_gen_node_budget_witness :
  0 < 2 /\
  num_op
    (determine_ph_type
       (try_insert
          (try_insert (initial (2 ^ 16) Scenarios.small)
             (Inserted false (Forward "relu" [Scenarios.small] [(0, 0)])))
          (Inserted false (Forward "relu" [Scenarios.small] [(1, 0)])))
       (0, 0) true) <= 2.
Proof.
  apply (abstract_gen_node_budget false 2
           [Inserted false (Forward "relu" [Scenarios.small] [(0, 0)]);
            Inserted false (Forward "relu" [Scenarios.small] [(1, 0)]);
            Inserted false (Forward "relu" [Scenarios.small] [(2, 0)])]
           (fun _ => true) (initial (2 ^ 16) Scenarios.small)).
  - reflexivity.
  - vm_compute. lia.
Defined.

Lemma set_impossible_same (g : Gen) :
  set_impossible g (symbolic_impossible g) = g.
Proof. by destruct g. Qed.

Lemma gen_loop_counts (max_node_size k : nat) (rest : list Attempt)
    (g : Gen) :
  num_op g < max_node_size ->
  symbolic_impossible g + k = max_node_size ->
  gen_loop true max_node_size (replicate k Impossible ++ rest) g
  = set_impossible g max_node_size.
Proof.
  revert g. induction k as [|k IH]; intros g Hn Hk.
  - rewrite Nat.add_0_r in Hk. subst max_node_size. simpl.
    rewrite set_impossible_same. destruct rest as [|a rest]; [done|].
    simpl. apply Nat.ltb_lt in Hn. rewrite Hn.
    unfold extra_exit_check. simpl. by rewrite Nat.leb_refl.
  - cbn [replicate app gen_loop].
    pose proof Hn as Hn'. apply Nat.ltb_lt in Hn'. rewrite Hn'.
    unfold extra_exit_check. simpl.
    assert (Hlt : (max_node_size <=? symbolic_impossible g) = false)
      by (apply Nat.leb_gt; lia).
    rewrite Hlt. cbn [try_insert].
    by rewrite IH; [destruct g | | simpl; lia].
Qed.

(** X22. The exit check of the record-assisted generator: after
    [max_node_size] consecutive attempts that were found impossible the
    loop is left, and the attempts that would follow are not made. *)
Theorem gen_loop_gives_up (max_node_size : nat) (rest : list Attempt)
    (g : Gen) :
  num_op g < max_node_size ->
  symbolic_impossible g = 0 ->
  gen_loop true max_node_size (replicate max_node_size Impossible ++ rest) g
  = set_impossible g max_node_size.
Proof.
  intros Hn H0. apply gen_loop_counts; [done | lia].
Qed.

Lemma gen_loop_gives_up_witness :
  gen_loop true 2
    (replicate 2 Impossible
     ++ [Inserted false (Forward "relu" [Scenarios.small] [(0, 0)])])
    Scenarios.start
  = set_impossible Scenarios.start 2.
Proof.
  apply (gen_loop_gives_up 2
           [Inserted false (Forward "relu" [Scenarios.small] [(0, 0)])]
           Scenarios.start).
  - vm_compute. lia.
  - reflexivity.
Defined.

End GenLoopFacts.

Module PickFacts.

Import PyFacts GraphGen GraphGenFacts PlaceholderFacts.

Lemma lift_Done {A} (m : result A) (a : A) : lift m = Done a -> m = Ok a.
Proof. destruct m; simpl; congruence. Qed.

Lemma obind_Done {A B} (m : outcome A) (f : A -> outcome B) (b : B) :
  m ≫= f = Done b -> exists a, m = Done a /\ f a = Done b.
Proof. destruct m as [a| |e]; simpl; [eauto | done..]. Qed.

Lemma filter_vars_spec (g : Gen) (keep : AbsTensor -> bool)
    (cans l : list var) :
  filter_vars g keep cans = Ok l ->
  forall v, v ∈ l ->
    v ∈ cans /\ exists t, var_type g v = Ok t /\ keep t = true.
Proof.
  revert l. induction cans as [|x cans IH]; intros l H v Hv; simpl in H.
  - injection H as <-. by apply elem_of_nil in Hv.
  - apply bind_Ok in H as (t & Ht & H).
    apply bind_Ok in H as (rest & Hrest & H). injection H as <-.
    destruct (keep t) eqn:Hk.
    + apply elem_of_cons in Hv as [->|Hv].
      * split; [left | by exists t].
      * destruct (IH rest Hrest v Hv) as [Hin Ht']. split; [by right | done].
    + destruct (IH rest Hrest v Hv) as [Hin Ht']. split; [by right | done].
Qed.

Lemma filter_rank_dtype_spec (g : Gen) (ndims_ok : list nat)
    (want : option DType) (candidates cans : list var) :
  filter_rank_dtype g ndims_ok want candidates = Done cans ->
  forall v, v ∈ cans ->
    v ∈ candidates /\
    exists t, var_type g v = Ok t /\ ndims t ∈ ndims_ok /\
              forall dt, want = Some dt -> dtype t = dt.
Proof.
  unfold filter_rank_dtype. intros H v Hv.
  apply obind_Done in H as (c1 & H1 & H). apply lift_Done in H1.
  destruct (length c1 =? 0); [done|].
  destruct want as [dt|].
  - apply obind_Done in H as (c2 & H2 & H). apply lift_Done in H2.
    destruct (length c2 =? 0); [done|]. injection H as <-.
    destruct (filter_vars_spec _ _ _ _ H2 v Hv) as (Hin & t & Ht & Hd).
    destruct (filter_vars_spec _ _ _ _ H1 v Hin) as (Hin1 & t' & Ht' & Hn).
    rewrite Ht in Ht'. injection Ht' as <-.
    apply bool_decide_eq_true in Hd, Hn.
    split; [done|]. exists t. split; [done|]. split; [done|].
    by intros dt' [= <-].
  - injection H as <-.
    destruct (filter_vars_spec _ _ _ _ H1 v Hv) as (Hin1 & t & Ht & Hn).
    apply bool_decide_eq_true in Hn.
    split; [done|]. exists t. by repeat split.
Qed.

Lemma pick_loop_spec (g : Gen) (ndim_list : list (list nat)) (i : nat)
    (dtype_comb : list DType) (var_candidates picked picked' : list var)
    (r r' : Rng) :
  pick_loop g ndim_list i dtype_comb var_candidates picked r
    = Done (picked', r') ->
  exists new,
    picked' = picked ++ new /\ length new = length ndim_list /\
    forall k ndims_ok v,
      ndim_list !! k = Some ndims_ok -> new !! k = Some v ->
      v ∈ var_candidates /\
      exists t, var_type g v = Ok t /\ ndims t ∈ ndims_ok /\
                dtype_comb !! (i + k) = Some (dtype t).
Proof.
  revert i picked r. induction ndim_list as [|nd rest IH];
    intros i picked r H; cbn [pick_loop] in H.
  - injection H as <- _. exists []. rewrite app_nil_r. by repeat split.
  - apply obind_Done in H as (dt & Hdt & H). apply lift_Done, index_Ok in Hdt.
    apply obind_Done in H as (cands & Hc & H).
    apply obind_Done in H as ([vname r1] & Hch & H). apply lift_Done in Hch.
    apply random_choice_elem in Hch.
    destruct (filter_rank_dtype_spec _ _ _ _ _ Hc vname Hch)
      as (Hin & t & Ht & Hn & Hd).
    destruct (IH _ _ _ H) as (new & -> & Hlen & Hslots).
    exists (vname :: new). split; [by rewrite <- app_assoc|].
    split; [simpl; lia|].
    intros [|k] nd' v Hnd Hv; simpl in Hnd, Hv.
    + injection Hnd as <-. injection Hv as <-. split; [done|].
      exists t. split; [done|]. split; [done|].
      rewrite Nat.add_0_r, Hdt. f_equal. symmetry. by apply Hd.
    + destruct (Hslots k nd' v Hnd Hv) as (Hin' & t' & Ht' & Hn' & Hd').
      split; [done|]. exists t'. split; [done|]. split; [done|].
      by replace (i + S k) with (S i + k) by lia.
Qed.

Section Pick.

Variable DTYPE_GEN_ALL : list DType.

(** X23. [pick_var_group] returns one variable per slot of [ndim_list]:
    each is one of the candidates (every variable of the graph when none
    are given), its rank is in the slot's rank set, and the element types
    of the group are, slot by slot, those of one combination of
    [dtype_combs_spec]. *)
Theorem pick_var_group_spec (g : Gen) (ndim_list : list (list nat))
    (dtype_combs_spec : list (list DType))
    (var_candidates : option (list var)) (r r' : Rng) (picked : list var) :
  pick_var_group DTYPE_GEN_ALL g ndim_list dtype_combs_spec var_candidates r
    = Done (picked, r') ->
  length picked = length ndim_list /\
  exists dtype_comb, dtype_comb ∈ dtype_combs_spec /\
    forall k ndims_ok v,
      ndim_list !! k = Some ndims_ok -> picked !! k = Some v ->
      v ∈ default (map fst (vars (ir g))) var_candidates /\
      exists t, var_type g v = Ok t /\ ndims t ∈ ndims_ok /\
                dtype_comb !! k = Some (dtype t).
Proof.
  unfold pick_var_group. intros H.
  apply obind_Done in H as (ds & _ & H).
  destruct (forallb _ ds); [done|].
  apply obind_Done in H as (viable & _ & H).
  destruct (length _ =? 0); [done|].
  apply obind_Done in H as ([comb r1] & Hch & H).
  apply lift_Done, random_choice_elem, list_elem_of_filter in Hch as [_ Hcomb].
  apply pick_loop_spec in H as (new & -> & Hlen & Hslots).
  split; [done|]. exists comb. split; [done|].
  intros k nd v Hnd Hv. destruct (Hslots k nd v Hnd Hv) as (Hin & Ht).
  split; [by destruct var_candidates | done].
Qed.

End Pick.

Lemma pick_var_group_spec_witness :
  length [((0, 0) : var)] = length [[2]] /\
  exists dtype_comb, dtype_comb ∈ [["float32"]] /\
    forall k ndims_ok v,
      [[2]] !! k = Some ndims_ok -> [((0, 0) : var)] !! k = Some v ->
      v ∈ default (map fst (vars (ir Scenarios.start))) None /\
      exists t, var_type Scenarios.start v = Ok t /\ ndims t ∈ ndims_ok /\
                dtype_comb !! k = Some (dtype t).
Proof.
  apply (pick_var_group_spec ["float32"] Scenarios.start [[2]] [["float32"]]
           None (mkRng (fun _ => 0) 0) (mkRng (fun _ => 0) 2)).
  vm_compute. reflexivity.
Defined.

(** ** Record-matched insertion *)

Lemma find_type_Some (acc : list (AbsTensor * list var)) (t : AbsTensor)
    (l : list var) :
  lookup_type acc t = Some l -> (t, l) ∈ acc.
Proof.
  unfold lookup_type. destruct (find _ acc) as [e|] eqn:Hf; [|done].
  intros [= <-]. apply find_some in Hf as [Hin He].
  apply bool_decide_eq_true in He. subst t.
  apply list_elem_of_In in Hin. by destruct e.
Qed.

Lemma find_type_None (acc : list (AbsTensor * list var)) (t : AbsTensor) :
  lookup_type acc t = None -> forall l, (t, l) ∉ acc.
Proof.
  unfold lookup_type. destruct (find _ acc) as [e|] eqn:Hf; [done|].
  intros _ l Hin. apply list_elem_of_In in Hin.
  pose proof (find_none _ _ Hf _ Hin) as Hn. simpl in Hn.
  by apply bool_decide_eq_false in Hn.
Qed.

(** [type2vars] groups exactly the variables of the graph. *)
Lemma type2vars_of_spec (vs : list (var * AbsTensor)) :
  (forall t l v, (t, l) ∈ type2vars_of vs -> v ∈ l -> (v, t) ∈ vs) /\
  (forall v t, (v, t) ∈ vs ->
     exists l, (t, l) ∈ type2vars_of vs /\ v ∈ l).
Proof.
  unfold type2vars_of.
  assert (Hgen : forall (acc : list (AbsTensor * list var))
                        (seen : list (var * AbsTensor)),
    (forall t l v, (t, l) ∈ acc -> v ∈ l -> (v, t) ∈ seen) ->
    (forall v t, (v, t) ∈ seen -> exists l, (t, l) ∈ acc /\ v ∈ l) ->
    let acc' := fold_left
      (fun acc '(k, v) =>
         if existsb (fun e : AbsTensor * list var => bool_decide (e.1 = v)) acc
         then map (fun e : AbsTensor * list var =>
                     if decide (e.1 = v) then (e.1, e.2 ++ [k]) else e) acc
         else acc ++ [(v, [k])]) vs acc in
    (forall t l v, (t, l) ∈ acc' -> v ∈ l -> (v, t) ∈ seen ++ vs) /\
    (forall v t, (v, t) ∈ seen ++ vs -> exists l, (t, l) ∈ acc' /\ v ∈ l)).
  { induction vs as [|[k ty] vs IH]; intros acc seen Hs Hc.
    - simpl. rewrite app_nil_r. by split.
    - cbn [fold_left].
      replace (seen ++ (k, ty) :: vs) with ((seen ++ [(k, ty)]) ++ vs)
        by (by rewrite <- app_assoc).
      apply IH.
      + intros t l v Hin Hv.
        destruct (existsb _ acc) eqn:Hex.
        * apply list_elem_of_fmap in Hin as ([t0 l0] & Heq & Hin0).
          simpl in Heq. destruct (decide (t0 = ty)) as [->|Hne].
          -- injection Heq as -> ->.
             apply elem_of_app in Hv as [Hv|Hv].
             ++ apply elem_of_app. left. by eapply Hs.
             ++ apply list_elem_of_singleton in Hv as ->.
                apply elem_of_app. right. left.
          -- injection Heq as -> ->. apply elem_of_app. left. by eapply Hs.
        * apply elem_of_app in Hin as [Hin|Hin].
          -- apply elem_of_app. left. by eapply Hs.
          -- apply list_elem_of_singleton in Hin. injection Hin as -> ->.
             apply list_elem_of_singleton in Hv as ->.
             apply elem_of_app. right. left.
      + intros v t Hin.
        destruct (existsb _ acc) eqn:Hex.
        * apply elem_of_app in Hin as [Hin|Hin].
          -- destruct (Hc v t Hin) as (l & Hl & Hv).
             destruct (decide (t = ty)) as [->|Hne].
             ++ exists (l ++ [k]). split; [|apply elem_of_app; by left].
                apply list_elem_of_fmap. exists (ty, l). simpl.
                by rewrite decide_True.
             ++ exists l. split; [|done].
                apply list_elem_of_fmap. exists (t, l). simpl.
                by rewrite decide_False.
          -- apply list_elem_of_singleton in Hin. injection Hin as -> ->.
             apply existsb_exists in Hex as ([t0 l0] & Hin0 & He).
             apply bool_decide_eq_true in He. simpl in He. subst t0.
             exists (l0 ++ [k]). split;
               [|apply elem_of_app; right; by apply list_elem_of_singleton].
             apply list_elem_of_fmap. exists (ty, l0). simpl.
             rewrite decide_True by done. split; [done|].
             by apply list_elem_of_In.
        * apply elem_of_app in Hin as [Hin|Hin].
          -- destruct (Hc v t Hin) as (l & Hl & Hv). exists l.
             split; [apply elem_of_app; by left | done].
          -- apply list_elem_of_singleton in Hin. injection Hin as -> ->.
             exists [k]. split; [|by apply list_elem_of_singleton].
             apply elem_of_app. right. by apply list_elem_of_singleton. }
  apply (Hgen [] []).
  - intros t l v Hin. by apply elem_of_nil in Hin.
  - intros v t Hin. by apply elem_of_nil in Hin.
Qed.

Lemma pick_ivars_spec (type2vars : list (AbsTensor * list var))
    (itensors : list AbsTensor) (ivars ivars' : list var) (r r' : Rng) :
  pick_ivars type2vars itensors ivars r = Ok (ivars', r') ->
  exists new,
    ivars' = ivars ++ new /\ length new <= length itensors /\
    (forall k v it, new !! k = Some v -> itensors !! k = Some it ->
       exists l, (it, l) ∈ type2vars /\ v ∈ l) /\
    (length new < length itensors ->
     exists it, itensors !! length new = Some it /\
                forall l, (it, l) ∉ type2vars).
Proof.
  revert ivars r. induction itensors as [|it rest IH]; intros ivars r H;
    cbn [pick_ivars] in H.
  - injection H as <- _. exists []. rewrite app_nil_r.
    repeat split; [done | done | simpl; lia].
  - destruct (lookup_type type2vars it) as [vs|] eqn:Hl.
    + apply bind_Ok in H as ([v r1] & Hch & H). apply random_choice_elem in Hch.
      destruct (IH _ _ H) as (new & -> & Hlen & Hsl & Hstop).
      exists (v :: new). split; [by rewrite <- app_assoc|].
      split; [simpl; lia|]. split.
      * intros [|k] v' it' Hv Hit; simpl in Hv, Hit.
        -- injection Hv as <-. injection Hit as <-. exists vs.
           split; [by apply find_type_Some | done].
        -- by eapply Hsl.
      * intros Hlt. simpl in Hlt. apply Hstop. lia.
    + injection H as <- _. exists []. rewrite app_nil_r.
      split; [done|]. split; [simpl; lia|]. split; [done|].
      intros _. exists it. split; [done | by apply find_type_None].
Qed.

(** X24. The record-matched forward insertion on the graph's own
    [type2vars]: when it reports success the operator was appended as one
    instruction whose inputs are variables of the graph with exactly the
    record's input types; when it reports failure the graph is unchanged
    and some input type of the record has no variable in the graph. *)
Theorem try_concrete_forward_insert_op_spec (g g' : Gen) (op_name : string)
    (itensors otensors : list AbsTensor) (r r' : Rng) (inserted : bool) :
  try_concrete_forward_insert_op g (type2vars_of (vars (ir g))) op_name
    itensors otensors r = Ok (g', inserted, r') ->
  if inserted then
    exists ivars,
      Forall2 (fun v it => (v, it) ∈ vars (ir g)) ivars itensors /\
      insts (ir g') =
        insts (ir g)
        ++ [mkInstIR (n_fresh (ir g)) (mkAbsOp (KCompute op_name) otensors)
              ivars] /\
      placeholders g' = placeholders g
  else
    g' = g /\ exists it, it ∈ itensors /\ forall v, (v, it) ∉ vars (ir g).
Proof.
  unfold try_concrete_forward_insert_op. intros H.
  apply bind_Ok in H as ([ivars r1] & Hp & H).
  apply pick_ivars_spec in Hp as (new & Hnew & Hlen & Hsl & Hstop).
  simpl in Hnew. subst ivars.
  destruct (type2vars_of_spec (vars (ir g))) as [Hsound Hcompl].
  destruct (length new =? length itensors) eqn:Heq.
  - injection H as <- <- _. apply Nat.eqb_eq in Heq.
    exists new. split; [|done].
    apply Forall2_same_length_lookup_2; [done|].
    intros k v it Hv Hit. destruct (Hsl k v it Hv Hit) as (l & Hl & Hin).
    by eapply Hsound.
  - injection H as <- <- _. apply Nat.eqb_neq in Heq. split; [done|].
    destruct Hstop as (it & Hit & Hnone); [lia|].
    exists it. split; [by eapply list_elem_of_lookup_2|].
    intros v Hv. destruct (Hcompl v it Hv) as (l & Hl & _).
    by apply (Hnone l).
Qed.

Lemma try_concrete_forward_insert_op_spec_witness :
  exists ivars,
    Forall2 (fun v it => (v, it) ∈ vars (ir Scenarios.start)) ivars
      [Scenarios.small] /\
    insts (ir (forward_insert_node Scenarios.start
                 (mkAbsOp (KCompute "relu") [Scenarios.small]) [(0, 0)]).1) =
      insts (ir Scenarios.start)
      ++ [mkInstIR (n_fresh (ir Scenarios.start))
            (mkAbsOp (KCompute "relu") [Scenarios.small]) ivars] /\
    placeholders (forward_insert_node Scenarios.start
                    (mkAbsOp (KCompute "relu") [Scenarios.small]) [(0, 0)]).1
    = placeholders Scenarios.start.
Proof.
  apply (try_concrete_forward_insert_op_spec Scenarios.start _ "relu"
           [Scenarios.small] [Scenarios.small] (mkRng (fun _ => 0) 0)
           (mkRng (fun _ => 0) 1) true).
  vm_compute. reflexivity.
Defined.

Lemma type2phvars_of_spec (g : Gen) (type2vars : list (AbsTensor * list var))
    (t : AbsTensor) (vs : list var) (v : var) :
  (t, vs) ∈ type2phvars_of g type2vars -> v ∈ vs ->
  v ∈ placeholders g /\ exists l, (t, l) ∈ type2vars /\ v ∈ l.
Proof.
  unfold type2phvars_of. intros Hin Hv.
  apply list_elem_of_filter in Hin as [_ Hin].
  apply list_elem_of_fmap in Hin as ([t0 l0] & Heq & Hin0).
  simpl in Heq. injection Heq as -> ->.
  apply list_elem_of_filter in Hv as [Hph Hv].
  split; [done|]. by exists l0.
Qed.

Lemma pick_ovars_spec (type2phvars : list (AbsTensor * list var))
    (otensors : list AbsTensor) (ovars ovars' : list var) (r r' : Rng) :
  pick_ovars type2phvars otensors ovars r = Ok (ovars', r') ->
  NoDup ovars ->
  exists new,
    ovars' = ovars ++ new /\ NoDup ovars' /\
    forall k v ot, new !! k = Some v -> otensors !! k = Some ot ->
      exists vs, (ot, vs) ∈ type2phvars /\ v ∈ vs.
Proof.
  revert ovars r. induction otensors as [|ot rest IH]; intros ovars r H Hnd;
    cbn [pick_ovars] in H.
  - injection H as <- _. exists []. rewrite app_nil_r. by repeat split.
  - destruct (lookup_type type2phvars ot) as [vs|] eqn:Hl.
    + destruct (length _ =? 0).
      { injection H as <- _. exists []. rewrite app_nil_r. by repeat split. }
      apply bind_Ok in H as ([v r1] & Hch & H).
      apply random_choice_elem, list_elem_of_filter in Hch as [Hfresh Hv].
      destruct (IH _ _ H) as (new & -> & Hnd' & Hsl).
      { apply NoDup_app. repeat split; [done | | apply NoDup_singleton].
        intros x Hx Hx1. apply list_elem_of_singleton in Hx1 as ->. done. }
      exists (v :: new). split; [by rewrite <- app_assoc|]. split; [done|].
      intros [|k] v' ot' Hv' Hot; simpl in Hv', Hot.
      * injection Hv' as <-. injection Hot as <-. exists vs.
        split; [by apply find_type_Some | done].
      * by eapply Hsl.
    + injection H as <- _. exists []. rewrite app_nil_r. by repeat split.
Qed.

(** X25. The record-matched backward insertion on the graph's own
    [type2vars]: when it reports success the placeholders it replaces are
    pairwise distinct placeholders of the graph, one per output of the
    record and of exactly that output's type; when it reports failure the
    graph is unchanged. *)
Theorem try_concrete_backward_insert_op_spec (g g' : Gen) (op_name : string)
    (itensors otensors : list AbsTensor) (r r' : Rng) (inserted : bool) :
  try_concrete_backward_insert_op g (type2vars_of (vars (ir g))) op_name
    itensors otensors r = Ok (g', inserted, r') ->
  if inserted then
    exists ovars,
      NoDup ovars /\
      Forall2 (fun v ot => v ∈ placeholders g /\ (v, ot) ∈ vars (ir g))
        ovars otensors /\
      g' = apply_insertion g (Backward op_name otensors itensors ovars)
  else g' = g.
Proof.
  unfold try_concrete_backward_insert_op. intros H.
  apply bind_Ok in H as ([ovars r1] & Hp & H).
  apply pick_ovars_spec in Hp as (new & Hnew & Hnd & Hsl); [|apply NoDup_nil_2].
  simpl in Hnew. subst ovars.
  destruct (type2vars_of_spec (vars (ir g))) as [Hsound _].
  destruct (length new =? length otensors) eqn:Heq.
  - injection H as <- <- _. apply Nat.eqb_eq in Heq.
    exists new. split; [done|]. split; [|done].
    apply Forall2_same_length_lookup_2; [done|].
    intros k v ot Hv Hot. destruct (Hsl k v ot Hv Hot) as (vs & Hvs & Hin).
    destruct (type2phvars_of_spec _ _ _ _ _ Hvs Hin) as (Hph & l & Hl & Hvl).
    split; [done | by eapply Hsound].
  - by injection H as <- <- _.
Qed.

Lemma try_concrete_backward_insert_op_spec_witness :
  exists ovars,
    NoDup ovars /\
    Forall2 (fun v ot => v ∈ placeholders Scenarios.start /\
                         (v, ot) ∈ vars (ir Scenarios.start))
      ovars [Scenarios.small] /\
    apply_insertion Scenarios.start
      (Backward "relu" [Scenarios.small] [Scenarios.small] [(0, 0)])
    = apply_insertion Scenarios.start
        (Backward "relu" [Scenarios.small] [Scenarios.small] ovars).
Proof.
  apply (try_concrete_backward_insert_op_spec Scenarios.start _ "relu"
           [Scenarios.small] [Scenarios.small] (mkRng (fun _ => 0) 0)
           (mkRng (fun _ => 0) 1) true).
  vm_compute. reflexivity.
Defined.

End PickFacts.
